(** * Live query collection: a shallow embedding

  This development embeds the subscription driver, the result
  materializer and the ordering function of
  [packages/db/src/query/live-query-collection.ts], and the reference
  hashing of the structural hash utility, and proves the properties the
  specification states about them.

  Conventions.
  - A JavaScript generator that is consumed to the end before the next
    statement runs is a list transformer: [splitUpdates], [filterChanges]
    and [trackSentValues] are all drained by [sendChangesToInput] before
    the graph is run.
  - JavaScript numbers that hold integers are [Z].
  - A [Set] of keys is a [gset], a [WeakMap] keyed by objects is a [gmap]
    keyed by the object's identity, and the insertion-ordered [Map] of the
    materializer is an association list. *)

From Stdlib Require Import ZArith Ascii String Permutation Sorted.
From stdpp Require Import base tactics option list sorting gmap strings.
From stdpp Require Import pretty.

Local Open Scope Z_scope.

(** ** Change messages and the pipeline boundary *)

Module Changes.

(** [ChangeMessage] of [types.ts]: the [type] tag selects the fields. *)
Inductive ChangeMessage (K V : Type) : Type :=
| Insert (key : K) (value : V)
| Update (key : K) (previousValue : V) (value : V)
| Delete (key : K) (value : V).
Arguments Insert {K V} key value.
Arguments Update {K V} key previousValue value.
Arguments Delete {K V} key value.

(** One entry of a [MultiSetArray]: [[[key, value], multiplicity]]. *)
Definition Tuple (K V : Type) : Type := (K * V) * Z.

Section Boundary.
Context {K V : Type}.

Definition key (c : ChangeMessage K V) : K :=
  match c with Insert k _ | Update k _ _ | Delete k _ => k end.

Definition value (c : ChangeMessage K V) : V :=
  match c with Insert _ v | Update _ _ v | Delete _ v => v end.

(** The body of the loop of [sendChangesToInput]: the tuples pushed for
    one change.  The key is recomputed from the value with [getKey]. *)
Definition tuplesOfChange (getKey : V -> K) (c : ChangeMessage K V)
  : list (Tuple K V) :=
  let k := getKey (value c) in
  match c with
  | Insert _ v => [((k, v), 1)]
  | Update _ prev v => [((k, prev), -1); ((k, v), 1)]
  | Delete _ v => [((k, v), -1)]
  end.

(** [sendChangesToInput]: the array handed to [input.sendData]. *)
Definition sendChangesToInput (getKey : V -> K)
    (changes : list (ChangeMessage K V)) : list (Tuple K V) :=
  fold_left (fun multiSetArray c => multiSetArray ++ tuplesOfChange getKey c)
            changes [].

(** [splitUpdates]. *)
Fixpoint splitUpdates (changes : list (ChangeMessage K V))
  : list (ChangeMessage K V) :=
  match changes with
  | [] => []
  | Update k prev v :: rest => Delete k prev :: Insert k v :: splitUpdates rest
  | c :: rest => c :: splitUpdates rest
  end.

(** [filterChanges]. *)
Fixpoint filterChanges (changes : list (ChangeMessage K V))
    (f : ChangeMessage K V -> bool) : list (ChangeMessage K V) :=
  match changes with
  | [] => []
  | c :: rest => if f c then c :: filterChanges rest f else filterChanges rest f
  end.

(** [filterChangesSmallerOrEqualToMax]; [maxValue] is [undefined] ([None])
    or a row object, which is truthy. *)
Definition keepSmallerOrEqual (comparator : V -> V -> Z) (maxValue : option V)
    (c : ChangeMessage K V) : bool :=
  match maxValue with
  | None => true
  | Some m => comparator (value c) m <=? 0
  end.

Definition filterChangesSmallerOrEqualToMax
    (changes : list (ChangeMessage K V)) (comparator : V -> V -> Z)
    (maxValue : option V) : list (ChangeMessage K V) :=
  filterChanges changes (keepSmallerOrEqual comparator maxValue).

End Boundary.

(** [trackSentValues]: the tracker [{ sentKeys, biggest }] is a mutable
  object shared with the caller, so the function returns it next to the
  changes it yields. *)
Record Tracker (K V : Type) `{Countable K} : Type := mkTracker {
sentKeys : gset K;
biggest : option V;
}.
Arguments mkTracker {K V _ _} sentKeys biggest.
Arguments sentKeys {K V _ _} _.
Arguments biggest {K V _ _} _.

Section Tracking.
Context {K V : Type} `{Countable K}.

Definition trackOne (comparator : V -> V -> Z) (tracker : Tracker K V)
    (c : ChangeMessage K V) : Tracker K V :=
  let keys := {[ key c ]} ∪ sentKeys tracker in
  match biggest tracker with
  | None => mkTracker keys (Some (value c))
  | Some b =>
      if comparator b (value c) <? 0
      then mkTracker keys (Some (value c))
      else mkTracker keys (Some b)
  end.

Definition trackSentValues (changes : list (ChangeMessage K V))
    (comparator : V -> V -> Z) (tracker : Tracker K V)
  : list (ChangeMessage K V) * Tracker K V :=
  (changes, fold_left (trackOne comparator) changes tracker).

End Tracking.

End Changes.

(** ** The result materializer *)

Module Materializer.

(** The kind of a [write] issued to the result collection. *)
Inductive WriteType : Type := WInsert | WUpdate | WDelete.

(** What the materializer does to the result collection's sync handle. *)
Inductive SyncEvent (R : Type) : Type :=
| Begin
| Write (type : WriteType) (value : R)
| Commit.
Arguments Begin {R}.
Arguments Write {R} type value.
Arguments Commit {R}.

(** The accumulator entry built per output key by the [reduce] of [sync]. *)
Record KeyChanges (R : Type) : Type := mkChanges {
  deletes : Z;
  inserts : Z;
  value : R;
  orderByIndex : option string;
}.
Arguments mkChanges {R} deletes inserts value orderByIndex.
Arguments deletes {R} _.
Arguments inserts {R} _.
Arguments value {R} _.
Arguments orderByIndex {R} _.

(** A tuple of the terminal stream: [[[key, [value, orderByIndex]], m]]. *)
Definition OutTuple (K R : Type) : Type := (K * (R * option string)) * Z.

(** The side tables of [liveQueryCollectionOptions] and the message counter
    of [sync]. *)
Record MatState (K R : Type) `{Countable R} : Type := mkMatState {
  resultKeys : gmap R K;
  orderByIndices : gmap R string;
  messagesCount : Z;
}.
Arguments mkMatState {K R _ _} resultKeys orderByIndices messagesCount.
Arguments resultKeys {K R _ _} _.
Arguments orderByIndices {K R _ _} _.
Arguments messagesCount {K R _ _} _.

Section Fold.
Context {K R : Type} `{EqDecision K} `{Countable R}.

(** [Map.prototype.get] and [Map.prototype.set] on the accumulator: a [Map]
    iterates in insertion order and [set] on a present key keeps its place. *)
Fixpoint accGet (acc : list (K * KeyChanges R)) (k : K) : option (KeyChanges R) :=
  match acc with
  | [] => None
  | (k', c) :: rest => if decide (k' = k) then Some c else accGet rest k
  end.

Fixpoint accSet (acc : list (K * KeyChanges R)) (k : K) (c : KeyChanges R)
  : list (K * KeyChanges R) :=
  match acc with
  | [] => [(k, c)]
  | (k', c') :: rest =>
      if decide (k' = k) then (k', c) :: rest else (k', c') :: accSet rest k c
  end.

(** The reducer of [messages.reduce]. *)
Definition accumulate (acc : list (K * KeyChanges R)) (t : OutTuple K R)
  : list (K * KeyChanges R) :=
  let '((key, (value, orderByIndex)), multiplicity) := t in
  let changes :=
    match accGet acc key with
    | Some c => c
    | None => mkChanges 0 0 value orderByIndex
    end in
  let changes :=
    if multiplicity <? 0 then
      mkChanges (deletes changes + Z.abs multiplicity) (inserts changes)
                (Materializer.value changes) (Materializer.orderByIndex changes)
    else if 0 <? multiplicity then
      mkChanges (deletes changes) (inserts changes + multiplicity)
                value orderByIndex
    else changes in
  accSet acc key changes.

Definition reduceMessages (messages : list (OutTuple K R))
  : list (K * KeyChanges R) :=
  fold_left accumulate messages [].

(** The [if / else if / else] chain of the [forEach] callback.  [None] is the
    [throw new Error(`This should never happen ...`)] of the last branch;
    [has] is [theCollection.has(rawKey)]. *)
Definition classify (has : bool) (inserts deletes : Z) : option WriteType :=
  if negb (inserts =? 0) && (deletes =? 0) then Some WInsert
  else if (deletes <? inserts) || ((inserts =? deletes) && has) then Some WUpdate
  else if 0 <? deletes then Some WDelete
  else None.

(** The [forEach] over the accumulator.  A throw leaves the loop at once:
    the writes made so far were issued, the rest and the [commit] are not.
    The result is the state of the side tables, the writes in order, and
    whether the loop ran to its end. *)
Fixpoint forEachKey (has : K -> bool) (acc : list (K * KeyChanges R))
    (st : MatState K R) : MatState K R * list (SyncEvent R) * bool :=
  match acc with
  | [] => (st, [], true)
  | (rawKey, changes) :: rest =>
      let st1 :=
        mkMatState (<[value changes := rawKey]> (resultKeys st))
                   (match orderByIndex changes with
                    | Some i => <[value changes := i]> (orderByIndices st)
                    | None => orderByIndices st
                    end)
                   (messagesCount st) in
      match classify (has rawKey) (inserts changes) (deletes changes) with
      | Some ty =>
          let '(st2, evs, ok) := forEachKey has rest st1 in
          (st2, Write ty (value changes) :: evs, ok)
      | None => (st1, [], false)
      end
  end.

(** The callback given to [output]: one batch of the terminal stream. *)
Definition onOutput (has : K -> bool) (messages : list (OutTuple K R))
    (st : MatState K R) : MatState K R * list (SyncEvent R) * bool :=
  let st0 := mkMatState (resultKeys st) (orderByIndices st)
                        (messagesCount st + Z.of_nat (length messages)) in
  let '(st1, writes, ok) := forEachKey has (reduceMessages messages) st0 in
  (st1, Begin :: writes ++ (if ok then [Commit] else []), ok).

End Fold.

End Materializer.

(** ** The ordering function of the result collection *)

Module Ordering.

(** JavaScript truthiness of a [string | undefined]. *)
Definition truthy (index : option string) : bool :=
  match index with
  | Some s => negb (String.eqb s EmptyString)
  | None => false
  end.

Section Compare.
Context {R : Type} `{Countable R}.

(** The arrow function bound to [compare] when the query has an [orderBy];
    [orderByIndices] is the weak map it closes over. *)
Definition compareByIndex (orderByIndices : gmap R string) (val1 val2 : R) : Z :=
  let index1 := orderByIndices !! val1 in
  let index2 := orderByIndices !! val2 in
  if truthy index1 && truthy index2 then
    match index1, index2 with
    | Some i1, Some i2 =>
        if String.ltb i1 i2 then -1
        else if String.ltb i2 i1 then 1
        else 0
    | _, _ => 0
    end
  else 0.

(** [compare]: defined only when [query.orderBy] is a non-empty array.
    [orderByLength] is [None] when the clause is absent. *)
Definition compare (orderByLength : option nat)
  : option (gmap R string -> R -> R -> Z) :=
  match orderByLength with
  | Some n => if (0 <? n)%nat then Some compareByIndex else None
  | None => None
  end.

End Compare.

End Ordering.

(** ** Reference hashing in the structural hash utility *)

Module Hash.

(** The classes [hashObject] tests with [instanceof]. *)
Inductive ObjectClass : Type :=
| CDate | CArray | CMap | CSet | CBuffer | CUint8Array | CFile | CPlain.

(** A JavaScript value as the hash function sees it.  An object carries its
    identity [oid] (two objects are the same object exactly when their
    identities agree), its class, the result of [getTime] if it is a date,
    its bytes if it is a binary payload, and its own enumerable properties
    in the order [keySort] puts their keys; for a [Map] or a [Set] the
    properties are those of the array [[...input.entries()]].  A function
    is an object of which only the identity matters. *)
#[warnings="-register-all"]
Inductive Value : Type :=
| VNull
| VUndefined
| VBoolean (b : bool)
| VNumber (n : Z)
| VNaN
| VBigInt (n : Z)
| VString (s : string)
| VSymbol (s : string)
| VFunction (oid : positive)
| VObject (oid : positive) (class : ObjectClass) (time : Z) (bytes : list Z)
          (props : list (string * Value)).

(** What a [MurmurHashStream] is fed. *)
Inductive HashInput : Type :=
| INumber (n : Z)
| INaN
| IBigInt (n : Z)
| IString (s : string)
| ISymbol (s : string).

(** [Buffer] is a subclass of [Uint8Array]. *)
Definition instanceofDate (c : ObjectClass) : bool :=
  match c with CDate => true | _ => false end.
Definition instanceofArray (c : ObjectClass) : bool :=
  match c with CArray => true | _ => false end.
Definition instanceofMap (c : ObjectClass) : bool :=
  match c with CMap => true | _ => false end.
Definition instanceofSet (c : ObjectClass) : bool :=
  match c with CSet => true | _ => false end.
Definition instanceofBuffer (c : ObjectClass) : bool :=
  match c with CBuffer => true | _ => false end.
Definition instanceofUint8Array (c : ObjectClass) : bool :=
  match c with CBuffer | CUint8Array => true | _ => false end.
Definition instanceofFile (c : ObjectClass) : bool :=
  match c with CFile => true | _ => false end.

(** [ToInt32] of ECMAScript on an integral number, and the [^] operator,
    which applies it to both operands. *)
Definition toInt32 (x : Z) : Z := (x + 2 ^ 31) mod 2 ^ 32 - 2 ^ 31.
Definition jsXor (a b : Z) : Z := Z.lxor (toInt32 a) (toInt32 b).

(** The module state: [hashCache] and [nextRefId]. *)
Record HashState : Type := mkHashState {
  hashCache : gmap positive Z;
  nextRefId : Z;
}.

(** [new WeakMap()] and [let nextRefId = 1]. *)
Definition initialState : HashState := mkHashState ∅ 1.

Section HashObject.
(** The constants drawn with [randomHash()] when the module is loaded, and
    the [MurmurHashStream] of [murmur.js]: a fresh stream, [update] and
    [digest]. *)
Variables TRUE FALSE NULL UNDEFINED KEY FUNCTIONS DATE_MARKER : Z.
Variables OBJECT_MARKER ARRAY_MARKER MAP_MARKER SET_MARKER : Z.
Variable Hasher : Type.
Variable newHasher : Hasher.
Variable update : Hasher -> HashInput -> Hasher.
Variable digest : Hasher -> Z.

(** [cachedReferenceHash], on the identity of the function or object. *)
Definition cachedReferenceHash (fn : positive) (st : HashState) : Z * HashState :=
  match hashCache st !! fn with
  | Some valueHash => (valueHash, st)
  | None =>
      let valueHash := jsXor (nextRefId st) FUNCTIONS in
      (valueHash,
       mkHashState (<[fn := valueHash]> (hashCache st)) (nextRefId st + 1))
  end.

(** [hashDate]. *)
Definition hashDate (time : Z) : Z :=
  digest (update (update newHasher (INumber DATE_MARKER)) (INumber time)).

(** [hashPlainObject], given [updateHasher] for the property values. *)
Definition hashPlainObject
    (updateHasher : Value -> Hasher -> HashState -> Hasher * HashState)
    (props : list (string * Value)) (marker : Z) (st : HashState)
  : Z * HashState :=
  let '(hasher, st') :=
    fold_left (fun '(hasher, st) '(key, v) =>
                 updateHasher v (update (update hasher (INumber KEY))
                                        (IString key)) st)
              props (update newHasher (INumber marker), st) in
  (digest hasher, st').

(** [hashObject], given [updateHasher] for the property values. *)
Definition hashObjectWith
    (updateHasher : Value -> Hasher -> HashState -> Hasher * HashState)
    (oid : positive) (class : ObjectClass) (time : Z)
    (props : list (string * Value)) (st : HashState) : Z * HashState :=
  match hashCache st !! oid with
  | Some cachedHash => (cachedHash, st)
  | None =>
      if instanceofDate class then
        let valueHash := hashDate time in
        (valueHash,
         mkHashState (<[oid := valueHash]> (hashCache st)) (nextRefId st))
      else
        let marker := OBJECT_MARKER in
        let marker := if instanceofArray class then ARRAY_MARKER else marker in
        let marker := if instanceofMap class then MAP_MARKER else marker in
        let marker := if instanceofSet class then SET_MARKER else marker in
        if instanceofBuffer class || instanceofUint8Array class
           || instanceofFile class
        then cachedReferenceHash oid st
        else
          let '(valueHash, st') := hashPlainObject updateHasher props marker st in
          (valueHash,
           mkHashState (<[oid := valueHash]> (hashCache st'))
                       (nextRefId st'))
  end.

(** [getCachedHash], given [updateHasher] for the property values. *)
Definition getCachedHashWith
    (updateHasher : Value -> Hasher -> HashState -> Hasher * HashState)
    (oid : positive) (class : ObjectClass) (time : Z)
    (props : list (string * Value)) (st : HashState) : Z * HashState :=
  match hashCache st !! oid with
  | Some valueHash => (valueHash, st)
  | None => hashObjectWith updateHasher oid class time props st
  end.

(** [updateHasher]. *)
Fixpoint updateHasher (input : Value) (hasher : Hasher) (st : HashState)
  : Hasher * HashState :=
  match input with
  | VNull => (update hasher (INumber NULL), st)
  | VUndefined => (update hasher (INumber UNDEFINED), st)
  | VBoolean b => (update hasher (INumber (if b then TRUE else FALSE)), st)
  | VNumber n => (update hasher (INumber n), st)
  | VNaN => (update hasher INaN, st)
  | VBigInt n => (update hasher (IBigInt n), st)
  | VString s => (update hasher (IString s), st)
  | VSymbol s => (update hasher (ISymbol s), st)
  | VObject oid class time _ props =>
      let '(valueHash, st') :=
        getCachedHashWith updateHasher oid class time props st in
      (update hasher (INumber valueHash), st')
  | VFunction oid =>
      let '(valueHash, st') := cachedReferenceHash oid st in
      (update hasher (INumber valueHash), st')
  end.

(** [hashObject]. *)
Definition hashObject (oid : positive) (class : ObjectClass) (time : Z)
    (bytes : list Z) (props : list (string * Value)) (st : HashState)
  : Z * HashState :=
  hashObjectWith updateHasher oid class time props st.

(** [hash]. *)
Definition hash (input : Value) (st : HashState) : Z * HashState :=
  let '(hasher, st') := updateHasher input newHasher st in
  (digest hasher, st').

(** A program that calls [hash] on one value after the other. *)
Fixpoint hashAll (inputs : list Value) (st : HashState) : list Z * HashState :=
  match inputs with
  | [] => ([], st)
  | v :: rest =>
      let '(h, st1) := hash v st in
      let '(hs, st2) := hashAll rest st1 in
      (h :: hs, st2)
  end.

(** A program that allocates [n] byte arrays of the same content, with
    identities [first], [first + 1], ..., and hashes each of them. *)
Definition hashFresh (content : list Z) (n : N) (first : positive)
    (st : HashState) : positive * HashState :=
  N.iter n (fun '(id, s) =>
              (Pos.succ id, (hashObject id CUint8Array 0 content [] s).2))
         (first, st).

End HashObject.

(** The objects hashed by reference: binary payloads and functions. *)
Definition hashedByReference (c : ObjectClass) : bool :=
  instanceofBuffer c || instanceofUint8Array c || instanceofFile c.

(** A value agrees with the heap typing [isRef] when its functions and
    binary payloads, and only they, carry identities [isRef] holds of:
    an identity belongs to one object. *)
Fixpoint consistent (isRef : positive -> bool) (v : Value) : bool :=
  match v with
  | VFunction oid => isRef oid
  | VObject oid class _ _ props =>
      bool_decide (isRef oid = hashedByReference class)
      && forallb (fun '(_, v) => consistent isRef v) props
  | _ => true
  end.

End Hash.

(** ** The subscription driver *)

Module Driver.
Import Changes Materializer.

(** [collection.status]. *)
Inductive Status : Type :=
| StIdle | StLoading | StInitialCommit | StReady | StError | StCleanedUp.

(** A source collection as the driver sees it: its status, its rows and
    [config.getKey]. *)
Record Collection (K V : Type) : Type := mkCollection {
  status : Status;
  rows : list V;
  getKey : V -> K;
}.
Arguments mkCollection {K V} status rows getKey.
Arguments status {K V} _.
Arguments rows {K V} _.
Arguments getKey {K V} _.

(** The record the compiler leaves in [optimizableOrderByCollections];
    [index] is the [take] method of the sorted index, reading the rows the
    collection holds when it is called, and [dataNeeded] reads the top-K
    operator inside the graph [G]. *)
Record OrderByOptimizationInfo (K V OV G : Type) : Type := mkOrderByInfo {
  offset : Z;
  limit : Z;
  comparator : V -> V -> Z;
  index : list V -> Z -> option OV -> list K;
  dataNeeded : option (G -> Z);
  valueExtractorForRawRow : V -> OV;
}.
Arguments mkOrderByInfo {K V OV G} _ _ _ _ _ _.
Arguments offset {K V OV G} _.
Arguments limit {K V OV G} _.
Arguments comparator {K V OV G} _.
Arguments index {K V OV G} _.
Arguments dataNeeded {K V OV G} _.
Arguments valueExtractorForRawRow {K V OV G} _.

(** What [sync] holds per source collection: the collection, the converted
    where clause, whether the compiler put the collection in
    [lazyCollections] or in [optimizableOrderByCollections], and the
    variables the subscription closures capture. *)
Record Subscription (K V OV G : Type) `{Countable K} : Type := mkSubscription {
  collection : Collection K V;
  whereExpression : option (V -> bool);
  isLazy : bool;
  orderByInfo : option (OrderByOptimizationInfo K V OV G);
  loadedInitialState : bool;
  lazySentKeys : gset K;
  sentValuesInfo : Tracker K V;
}.
Arguments mkSubscription {K V OV G _ _} _ _ _ _ _ _ _.
Arguments collection {K V OV G _ _} _.
Arguments whereExpression {K V OV G _ _} _.
Arguments isLazy {K V OV G _ _} _.
Arguments orderByInfo {K V OV G _ _} _.
Arguments loadedInitialState {K V OV G _ _} _.
Arguments lazySentKeys {K V OV G _ _} _.
Arguments sentValuesInfo {K V OV G _ _} _.

(** The calls the driver makes on its collaborators, in order. *)
Inductive Event (K V R OV : Type) : Type :=
| EvSubscribe (collectionId : nat) (includeInitialState : bool)
| EvSendData (collectionId : nat) (data : list (Tuple K V))
| EvGraphRun
| EvDataNeeded (collectionId : nat) (n : Z)
| EvIndexTake (collectionId : nat) (n : Z) (from : option OV)
| EvCurrentStateAsChanges (collectionId : nat)
| EvSync (e : SyncEvent R)
| EvMarkReady.
Arguments EvSubscribe {K V R OV} _ _.
Arguments EvSendData {K V R OV} _ _.
Arguments EvGraphRun {K V R OV}.
Arguments EvDataNeeded {K V R OV} _ _.
Arguments EvIndexTake {K V R OV} _ _ _.
Arguments EvCurrentStateAsChanges {K V R OV} _.
Arguments EvSync {K V R OV} _.
Arguments EvMarkReady {K V R OV}.

(** The errors [sync] can raise. *)
Inductive Error : Type :=
| ShouldNeverHappen
| OperatorInvariantViolation
| MissingDataNeeded (collectionId : nat)
| UndefinedRow (collectionId : nat)
| UnknownCollection (collectionId : nat).

(** The dataflow graph: [input.sendData] on the input of a collection, and
    [graph.run], which hands the batches of the terminal stream to the
    [output] callback, or fails when an operator raises.  A run is taken
    to call nothing else of [sync]: the closures [loadKeys] and
    [loadInitialState], which the join operator of a lazy collection calls
    while the graph runs, are modelled as calls of their own and not as
    part of [run]. *)
Record GraphOps (K V R G : Type) : Type := mkGraphOps {
  sendData : nat -> list (Tuple K V) -> G -> G;
  run : G -> option (G * list (list (OutTuple K R)));
}.
Arguments mkGraphOps {K V R G} _ _.
Arguments sendData {K V R G} _ _ _ _.
Arguments run {K V R G} _ _.

(** Everything [sync] and its closures read and write. *)
Record World (K V R OV G : Type) `{Countable K} `{Countable R} : Type := mkWorld {
  graph : G;
  subscriptions : list (Subscription K V OV G);
  subscribedToAllCollections : bool;
  mat : MatState K R;
  synced : gmap K R;
  ready : bool;
  trace : list (Event K V R OV);
}.
Arguments mkWorld {K V R OV G _ _ _ _} _ _ _ _ _ _ _.
Arguments graph {K V R OV G _ _ _ _} _.
Arguments subscriptions {K V R OV G _ _ _ _} _.
Arguments subscribedToAllCollections {K V R OV G _ _ _ _} _.
Arguments mat {K V R OV G _ _ _ _} _.
Arguments synced {K V R OV G _ _ _ _} _.
Arguments ready {K V R OV G _ _ _ _} _.
Arguments trace {K V R OV G _ _ _ _} _.

(** The outcome of running a piece of the driver: it returns, it throws, or
    the model ran out of recursion depth. *)
Inductive Outcome (W A : Type) : Type :=
| Done (a : A) (w : W)
| Thrown (e : Error) (w : W)
| OutOfFuel.
Arguments Done {W A} a w.
Arguments Thrown {W A} e w.
Arguments OutOfFuel {W A}.

Section Operations.
Context {K V R OV G : Type} `{Countable K} `{Countable R}.
Variable ops : GraphOps K V R G.

Abbreviation WorldT := (World K V R OV G).
Abbreviation SubscriptionT := (Subscription K V OV G).

(** The driver is written in a state-and-exception monad over the world. *)
Definition M (A : Type) : Type := WorldT -> Outcome WorldT A.

#[local] Instance M_ret : MRet M := fun A a w => Done a w.
#[local] Instance M_bind : MBind M := fun A B f m w =>
  match m w with
  | Done a w' => f a w'
  | Thrown e w' => Thrown e w'
  | OutOfFuel => OutOfFuel
  end.

Definition getWorld : M WorldT := fun w => Done w w.
Definition throw {A : Type} (e : Error) : M A := fun w => Thrown e w.
Definition outOfFuel {A : Type} : M A := fun _ => OutOfFuel.

Definition emit (ev : Event K V R OV) : M unit := fun w =>
  Done tt (mkWorld (graph w) (subscriptions w) (subscribedToAllCollections w)
                   (mat w) (synced w) (ready w) (trace w ++ [ev])).

Definition setGraph (g : G) : M unit := fun w =>
  Done tt (mkWorld g (subscriptions w) (subscribedToAllCollections w)
                   (mat w) (synced w) (ready w) (trace w)).

Definition setSubscribedToAllCollections (b : bool) : M unit := fun w =>
  Done tt (mkWorld (graph w) (subscriptions w) b
                   (mat w) (synced w) (ready w) (trace w)).

Definition getSubscription (collectionId : nat) : M SubscriptionT := fun w =>
  match subscriptions w !! collectionId with
  | Some s => Done s w
  | None => Thrown (UnknownCollection collectionId) w
  end.

Definition setSubscription (collectionId : nat) (s : SubscriptionT) : M unit :=
  fun w =>
  Done tt (mkWorld (graph w) (<[collectionId := s]> (subscriptions w))
                   (subscribedToAllCollections w)
                   (mat w) (synced w) (ready w) (trace w)).

(** [collection.isReady()] and the two [every] tests of
    [liveQueryCollectionOptions]. *)
Definition isReady (c : Collection K V) : bool :=
  match status c with StReady => true | _ => false end.

Definition allCollectionsReady (w : WorldT) : bool :=
  forallb (fun s => isReady (collection s)) (subscriptions w).

Definition allCollectionsReadyOrInitialCommit (w : WorldT) : bool :=
  forallb (fun s => match status (collection s) with
                    | StReady | StInitialCommit => true
                    | _ => false
                    end) (subscriptions w).

(** [collection.get(key)] and [collection.currentStateAsChanges]. *)
Definition get (c : Collection K V) (key : K) : option V :=
  List.find (fun v => bool_decide (getKey c v = key)) (rows c).

Definition passes (whereExpression : option (V -> bool)) (v : V) : bool :=
  match whereExpression with Some f => f v | None => true end.

Definition currentStateAsChanges (c : Collection K V)
    (whereExpression : option (V -> bool)) : list (ChangeMessage K V) :=
  map (fun v => Insert (getKey c v) v)
      (List.filter (passes whereExpression) (rows c)).

(** The result collection applies the writes of a transaction when it is
    committed.  The key of a row is [resultKeys.get(item)], the default
    [getKey] of the options returned by [liveQueryCollectionOptions]. *)
Definition applyWrite (keys : gmap R K) (data : gmap K R) (e : SyncEvent R)
  : gmap K R :=
  match e with
  | Write WInsert v | Write WUpdate v =>
      match keys !! v with Some k => <[k := v]> data | None => data end
  | Write WDelete v =>
      match keys !! v with Some k => delete k data | None => data end
  | _ => data
  end.

(** [markReady()]. *)
Definition markReady : M unit := fun w =>
  Done tt (mkWorld (graph w) (subscriptions w) (subscribedToAllCollections w)
                   (mat w) (synced w) true (trace w ++ [EvMarkReady])).

(** The [output] callback of [sync] on one batch. *)
Definition outputCallback (messages : list (OutTuple K R)) : M unit := fun w =>
  let has := fun k => bool_decide (is_Some (synced w !! k)) in
  let '(mat', events, ok) := onOutput has messages (mat w) in
  let trace' := trace w ++ map EvSync events in
  if ok then
    Done tt (mkWorld (graph w) (subscriptions w) (subscribedToAllCollections w)
                     mat' (fold_left (applyWrite (resultKeys mat')) events (synced w))
                     (ready w) trace')
  else
    Thrown ShouldNeverHappen
           (mkWorld (graph w) (subscriptions w) (subscribedToAllCollections w)
                    mat' (synced w) (ready w) trace').

Fixpoint forEachBatch (batches : list (list (OutTuple K R))) : M unit :=
  match batches with
  | [] => mret tt
  | b :: rest => outputCallback b ;; forEachBatch rest
  end.

(** [graph.run()]. *)
Definition graphRun : M unit :=
  w ← getWorld;
  emit EvGraphRun ;;
  match run ops (graph w) with
  | Some (g, batches) => setGraph g ;; forEachBatch batches
  | None => throw OperatorInvariantViolation
  end.

(** [sendChangesToPipeline], with [maybeRunGraph] passed in: the functions
    below call each other through it.  The only callback [sync] ever hands
    to [maybeRunGraph] is the [loadMoreIfNeeded] of an ordered collection,
    so a callback is the identifier of that collection. *)
Definition sendChangesToPipeline (maybeRunGraph : option nat -> M unit)
    (collectionId : nat) (changes : list (ChangeMessage K V))
    (callback : option nat) : M unit :=
  s ← getSubscription collectionId;
  w ← getWorld;
  let data := sendChangesToInput (getKey (collection s)) changes in
  setGraph (sendData ops collectionId data (graph w)) ;;
  emit (EvSendData collectionId data) ;;
  maybeRunGraph callback.

(** The loop of [sendVisibleChangesToPipeline]. *)
Fixpoint visibleChanges (sentKeys : gset K) (changes : list (ChangeMessage K V))
  : list (ChangeMessage K V) :=
  match changes with
  | [] => []
  | change :: rest =>
      if bool_decide (key change ∈ sentKeys) then
        change :: visibleChanges sentKeys rest
      else
        match change with
        | Update k _ v => Insert k v :: visibleChanges sentKeys rest
        | Delete _ _ => visibleChanges sentKeys rest
        | Insert _ _ => change :: visibleChanges sentKeys rest
        end
  end.

(** [sendVisibleChangesToPipeline]. *)
Definition sendVisibleChangesToPipeline (maybeRunGraph : option nat -> M unit)
    (collectionId : nat) (changes : list (ChangeMessage K V))
    (loadedInitialState : bool) (sentKeys : gset K) : M unit :=
  if loadedInitialState then
    sendChangesToPipeline maybeRunGraph collectionId changes None
  else
    sendChangesToPipeline maybeRunGraph collectionId
                          (visibleChanges sentKeys changes) None.

(** [sendVisibleChanges] of [subscribeToMatchingChanges]: the listener given
    to [subscribeChanges]; it reads the captured variables when called. *)
Definition sendVisibleChanges (maybeRunGraph : option nat -> M unit)
    (collectionId : nat) (changes : list (ChangeMessage K V)) : M unit :=
  s ← getSubscription collectionId;
  sendVisibleChangesToPipeline maybeRunGraph collectionId changes
                               (loadedInitialState s) (lazySentKeys s).

(** [loadKeys], through [loadKs] of [subscribeToMatchingChanges]. *)
Fixpoint loadKeys (maybeRunGraph : option nat -> M unit) (collectionId : nat)
    (keys : list K) : M unit :=
  match keys with
  | [] => mret tt
  | key :: rest =>
      s ← getSubscription collectionId;
      (if bool_decide (key ∈ lazySentKeys s) then mret tt
       else
         match get (collection s) key with
         | Some value =>
             if passes (whereExpression s) value then
               setSubscription collectionId
                 (mkSubscription (collection s) (whereExpression s) (isLazy s)
                    (orderByInfo s) (loadedInitialState s)
                    ({[ key ]} ∪ lazySentKeys s) (sentValuesInfo s)) ;;
               sendChangesToPipeline maybeRunGraph collectionId
                                     [Insert key value] None
             else mret tt
         | None => mret tt
         end) ;;
      loadKeys maybeRunGraph collectionId rest
  end.

(** [loadInitialState] of [subscribeToMatchingChanges]. *)
Definition loadInitialState (maybeRunGraph : option nat -> M unit)
    (collectionId : nat) : M unit :=
  s ← getSubscription collectionId;
  if loadedInitialState s then mret tt
  else
    setSubscription collectionId
      (mkSubscription (collection s) (whereExpression s) (isLazy s)
         (orderByInfo s) true (lazySentKeys s) (sentValuesInfo s)) ;;
    emit (EvCurrentStateAsChanges collectionId) ;;
    sendChangesToPipeline maybeRunGraph collectionId
      (currentStateAsChanges (collection s) (whereExpression s)) None.

(** The closures of [subscribeToOrderedChanges].  They read the record of
    [optimizableOrderByCollections] that the subscription was made with. *)
Definition getOrderByInfo (collectionId : nat)
  : M (SubscriptionT * OrderByOptimizationInfo K V OV G * (G -> Z)) :=
  s ← getSubscription collectionId;
  match orderByInfo s with
  | Some info =>
      match dataNeeded info with
      | Some dn => mret (s, info, dn)
      | None => throw (MissingDataNeeded collectionId)
      end
  | None => throw (MissingDataNeeded collectionId)
  end.

(** [sendChangesToPipelineWithTracking]. *)
Definition sendChangesToPipelineWithTracking
    (maybeRunGraph : option nat -> M unit) (collectionId : nat)
    (changes : list (ChangeMessage K V)) : M unit :=
  '(s, info, _) ← getOrderByInfo collectionId;
  let '(trackedChanges, tracker) :=
    trackSentValues changes (comparator info) (sentValuesInfo s) in
  setSubscription collectionId
    (mkSubscription (collection s) (whereExpression s) (isLazy s)
       (orderByInfo s) (loadedInitialState s) (lazySentKeys s) tracker) ;;
  sendChangesToPipeline maybeRunGraph collectionId trackedChanges
                        (Some collectionId).

(** The [map] of [loadNextItems]: [collection.get(key)] is a row for every
    key the index returns; were it [undefined], [getKey] would be applied
    to [undefined] in [sendChangesToInput]. *)
Fixpoint insertsOfKeys (c : Collection K V) (keys : list K)
  : option (list (ChangeMessage K V)) :=
  match keys with
  | [] => Some []
  | key :: rest =>
      match get c key, insertsOfKeys c rest with
      | Some value, Some inserts => Some (Insert key value :: inserts)
      | _, _ => None
      end
  end.

(** [loadNextItems]. *)
Definition loadNextItems (maybeRunGraph : option nat -> M unit)
    (collectionId : nat) (n : Z) : M unit :=
  '(s, info, _) ← getOrderByInfo collectionId;
  let biggestSentRow := biggest (sentValuesInfo s) in
  let biggestSentValue :=
    match biggestSentRow with
    | Some row => Some (valueExtractorForRawRow info row)
    | None => None
    end in
  let nextOrderedKeys := index info (rows (collection s)) n biggestSentValue in
  emit (EvIndexTake collectionId n biggestSentValue) ;;
  match insertsOfKeys (collection s) nextOrderedKeys with
  | Some nextInserts =>
      sendChangesToPipelineWithTracking maybeRunGraph collectionId nextInserts
  | None => throw (UndefinedRow collectionId)
  end.

(** [loadMoreIfNeeded]. *)
Definition loadMoreIfNeeded (maybeRunGraph : option nat -> M unit)
    (collectionId : nat) : M bool :=
  '(_, _, dataNeeded) ← getOrderByInfo collectionId;
  w ← getWorld;
  let n := dataNeeded (graph w) in
  emit (EvDataNeeded collectionId n) ;;
  (if 0 <? n then loadNextItems maybeRunGraph collectionId n else mret tt) ;;
  mret (n =? 0).

(** [sendChangesInRange]: the listener of an ordered collection. *)
Definition sendChangesInRange (maybeRunGraph : option nat -> M unit)
    (collectionId : nat) (changes : list (ChangeMessage K V)) : M unit :=
  '(s, info, _) ← getOrderByInfo collectionId;
  let splittedChanges := splitUpdates changes in
  let filteredChanges :=
    filterChangesSmallerOrEqualToMax splittedChanges (comparator info)
                                     (biggest (sentValuesInfo s)) in
  sendChangesToPipeline maybeRunGraph collectionId filteredChanges
                        (Some collectionId).

(** [maybeRunGraph].  Its callback calls it again through
    [sendChangesToPipeline]; [fuel] bounds the depth of that recursion. *)
Fixpoint maybeRunGraph (fuel : nat) (callback : option nat) : M unit :=
  match fuel with
  | O => outOfFuel
  | S fuel =>
      w ← getWorld;
      if allCollectionsReadyOrInitialCommit w && subscribedToAllCollections w
      then
        graphRun ;;
        ready ← match callback with
                | Some collectionId =>
                    loadMoreIfNeeded (maybeRunGraph fuel) collectionId
                | None => mret true
                end;
        w1 ← getWorld;
        (if messagesCount (mat w1) =? 0
         then emit (EvSync Begin) ;; emit (EvSync Commit)
         else mret tt) ;;
        w2 ← getWorld;
        if ready && allCollectionsReady w2 then markReady else mret tt
      else mret tt
  end.

(** [subscribeToAllChanges]: with [includeInitialState: true] the source
    collection calls the listener at once with its current state. *)
Definition subscribeToAllChanges (fuel : nat) (collectionId : nat) : M unit :=
  s ← getSubscription collectionId;
  emit (EvSubscribe collectionId true) ;;
  sendChangesToPipeline (maybeRunGraph fuel) collectionId
    (currentStateAsChanges (collection s) (whereExpression s)) None.

(** [subscribeToMatchingChanges]: the closure variables start as
    [loadedInitialState = false] and an empty [sentKeys]. *)
Definition subscribeToMatchingChanges (collectionId : nat) : M unit :=
  s ← getSubscription collectionId;
  setSubscription collectionId
    (mkSubscription (collection s) (whereExpression s) (isLazy s)
       (orderByInfo s) false ∅ (sentValuesInfo s)) ;;
  emit (EvSubscribe collectionId false).

(** [subscribeToOrderedChanges]. *)
Definition subscribeToOrderedChanges (fuel : nat) (collectionId : nat) : M unit :=
  '(s, info, _) ← getOrderByInfo collectionId;
  setSubscription collectionId
    (mkSubscription (collection s) (whereExpression s) (isLazy s)
       (orderByInfo s) (loadedInitialState s) (lazySentKeys s)
       (mkTracker ∅ None)) ;;
  loadNextItems (maybeRunGraph fuel) collectionId (offset info + limit info) ;;
  emit (EvSubscribe collectionId false).

(** [subscribeToChanges]. *)
Definition subscribeToChanges (fuel : nat) (collectionId : nat) : M unit :=
  s ← getSubscription collectionId;
  if isLazy s then subscribeToMatchingChanges collectionId
  else if bool_decide (is_Some (orderByInfo s))
       then subscribeToOrderedChanges fuel collectionId
       else subscribeToAllChanges fuel collectionId.

Fixpoint subscribeAll (fuel : nat) (collectionIds : list nat) : M unit :=
  match collectionIds with
  | [] => mret tt
  | collectionId :: rest =>
      subscribeToChanges fuel collectionId ;; subscribeAll fuel rest
  end.

(** The [sync] function of the sync configuration, after the pipeline has
    been compiled and the output callback attached. *)
Definition sync (fuel : nat) : M unit :=
  w ← getWorld;
  subscribeAll fuel (seq 0 (length (subscriptions w))) ;;
  setSubscribedToAllCollections true ;;
  maybeRunGraph fuel None.

(** A source collection commits [changes]: its rows become [rows'] and it
    calls the listener [sync] subscribed. *)
Definition deliver (fuel : nat) (collectionId : nat) (rows' : list V)
    (changes : list (ChangeMessage K V)) : M unit :=
  s ← getSubscription collectionId;
  let c := collection s in
  setSubscription collectionId
    (mkSubscription (mkCollection (status c) rows' (getKey c))
       (whereExpression s) (isLazy s) (orderByInfo s)
       (loadedInitialState s) (lazySentKeys s) (sentValuesInfo s)) ;;
  if isLazy s then sendVisibleChanges (maybeRunGraph fuel) collectionId changes
  else if bool_decide (is_Some (orderByInfo s))
       then sendChangesInRange (maybeRunGraph fuel) collectionId changes
       else sendChangesToPipeline (maybeRunGraph fuel) collectionId changes None.

(** Worlds named in the statements below: the world after [data] was sent
    to the input of a collection, after an event was recorded, and after a
    subscription's captured variables changed. *)
Definition sent (collectionId : nat) (data : list (Tuple K V)) (w : WorldT)
  : WorldT :=
  mkWorld (sendData ops collectionId data (graph w)) (subscriptions w)
          (subscribedToAllCollections w) (mat w) (synced w) (ready w)
          (trace w ++ [EvSendData collectionId data]).

Definition withEvent (ev : Event K V R OV) (w : WorldT) : WorldT :=
  mkWorld (graph w) (subscriptions w) (subscribedToAllCollections w)
          (mat w) (synced w) (ready w) (trace w ++ [ev]).

Definition withSubscription (collectionId : nat) (s : SubscriptionT)
    (w : WorldT) : WorldT :=
  mkWorld (graph w) (<[collectionId := s]> (subscriptions w))
          (subscribedToAllCollections w) (mat w) (synced w) (ready w)
          (trace w).

(** Properties of the subscriptions alone, and the one that says the
    subscription of [collectionId] has [loadedInitialState] set. *)
Definition onSubscriptions (I : list SubscriptionT -> Prop) : WorldT -> Prop :=
  fun w => I (subscriptions w).

Definition flagSet (collectionId : nat) (l : list SubscriptionT) : Prop :=
  exists s, l !! collectionId = Some s /\ loadedInitialState s = true.

(** The world in which [loadInitialState] has set its flag and asked the
    collection for its current state. *)
Definition afterFlag (collectionId : nat) (s : SubscriptionT) (w : WorldT)
  : WorldT :=
  withEvent (EvCurrentStateAsChanges collectionId)
    (withSubscription collectionId
       (mkSubscription (collection s) (whereExpression s) (isLazy s)
          (orderByInfo s) true (lazySentKeys s) (sentValuesInfo s)) w).

(** Calling a closure [n] times in a row. *)
Fixpoint times (n : nat) (m : M unit) : M unit :=
  match n with
  | O => mret tt
  | S n => m ;; times n m
  end.

(** The calls recorded by a run that returned or threw. *)
Definition traceOf {A : Type} (o : Outcome WorldT A)
  : option (list (Event K V R OV)) :=
  match o with
  | Done _ w | Thrown _ w => Some (trace w)
  | OutOfFuel => None
  end.

(** A partial-correctness triple for the driver monad: from a world that
    satisfies [P], if [m] returns [a] in world [w'] then [Q a w']. *)
Definition hoare {A : Type} (P : WorldT -> Prop) (m : M A)
    (Q : A -> WorldT -> Prop) : Prop :=
  forall w, P w ->
    match m w with
    | Done a w' => Q a w'
    | Thrown _ _ | OutOfFuel => True
    end.

End Operations.

#[export] Existing Instance M_ret.
#[export] Existing Instance M_bind.

End Driver.

(** ** The materializer's decision, key by key

    What one batch means for one output key, computed from the batch
    alone: the counts, the latest payload, the keys in the order the batch
    first names them, and the write the [if / else if / else] chain of the
    materializer selects for each combination of counts. *)

Module MaterializerSpec.
Import Materializer.

Section PerKey.
Context {K R : Type} `{EqDecision K}.

Definition keyOf (t : OutTuple K R) : K := t.1.1.
Definition payloadOfTuple (t : OutTuple K R) : R * option string := t.1.2.
Definition multiplicityOf (t : OutTuple K R) : Z := t.2.

(** The sum of the positive multiplicities of [k] in the batch. *)
Fixpoint insertsOf (k : K) (messages : list (OutTuple K R)) : Z :=
  match messages with
  | [] => 0
  | t :: rest =>
      (if decide (keyOf t = k) then Z.max 0 (multiplicityOf t) else 0)
      + insertsOf k rest
  end.

(** The sum of the absolute values of the negative multiplicities of [k]. *)
Fixpoint deletesOf (k : K) (messages : list (OutTuple K R)) : Z :=
  match messages with
  | [] => 0
  | t :: rest =>
      (if decide (keyOf t = k) then Z.max 0 (- multiplicityOf t) else 0)
      + deletesOf k rest
  end.

(** The payload kept for [k]: that of its last tuple of positive
    multiplicity, and failing that the payload of its first tuple. *)
Definition payloadOf (k : K) (messages : list (OutTuple K R))
  : option (R * option string) :=
  match last (filter (fun t => keyOf t = k ∧ 0 < multiplicityOf t) messages) with
  | Some t => Some (payloadOfTuple t)
  | None => payloadOfTuple <$> head (filter (fun t => keyOf t = k) messages)
  end.

(** The keys of the batch, each once, in the order of first appearance. *)
Definition keysInOrder (messages : list (OutTuple K R)) : list K :=
  fold_left (fun keys t => if decide (keyOf t ∈ keys) then keys
                           else keys ++ [keyOf t])
            messages [].

(** The entry the reducer holds for a key, from the batch alone. *)
Definition summary (k : K) (messages : list (OutTuple K R))
  : option (KeyChanges R) :=
  '(v, i) ← payloadOf k messages;
  Some (mkChanges (deletesOf k messages) (insertsOf k messages) v i).

(** The write chosen for a key from its counts and its presence in the
    result collection; [None] stands for the fatal error. *)
Definition decision (present : bool) (inserts deletes : Z) : option WriteType :=
  if decide (0 < inserts ∧ deletes = 0) then Some WInsert
  else if decide (0 < deletes ∧ (deletes < inserts ∨ (inserts = deletes ∧ present = true)))
  then Some WUpdate
  else if decide (0 < deletes) then Some WDelete
  else if decide (inserts = 0 ∧ deletes = 0 ∧ present = true) then Some WUpdate
  else None.

(** The writes of a batch: one per key, in order, up to the first key for
    which the error is raised. *)
Fixpoint writesFor (has : K -> bool) (messages : list (OutTuple K R))
    (keys : list K) : list (SyncEvent R) * bool :=
  match keys with
  | [] => ([], true)
  | k :: rest =>
      match decision (has k) (insertsOf k messages) (deletesOf k messages),
            payloadOf k messages with
      | Some ty, Some (value, _) =>
          let '(events, ok) := writesFor has messages rest in
          (Write ty value :: events, ok)
      | _, _ => ([], false)
      end
  end.

(** The decision table as the specification words it. *)
Inductive SpecEmits (present : bool) (inserts deletes : Z)
  : option WriteType -> Prop :=
| SpecInsert :
    inserts = 1 -> deletes = 0 -> present = false ->
    SpecEmits present inserts deletes (Some WInsert)
| SpecUpdateInPlace :
    inserts = deletes -> present = true ->
    SpecEmits present inserts deletes (Some WUpdate)
| SpecMoreInserts :
    deletes < inserts ->
    SpecEmits present inserts deletes
              (Some (if present then WUpdate else WInsert))
| SpecDelete :
    0 < deletes -> inserts = 0 ->
    SpecEmits present inserts deletes (Some WDelete)
| SpecViolation :
    ¬ (inserts = 1 ∧ deletes = 0 ∧ present = false) ->
    ¬ (inserts = deletes ∧ present = true) ->
    ¬ (deletes < inserts) ->
    ¬ (0 < deletes ∧ inserts = 0) ->
    SpecEmits present inserts deletes None.

End PerKey.

End MaterializerSpec.

(** ** Facts about a hash state

    [st'] extends [st] when the reference counter did not go back and the
    cached hashes of the reference-hashed identities are still there;
    [referenceHashes] says that every cached hash of such an identity is
    [n ^ FUNCTIONS] for a counter value [n] already handed out, and that,
    as long as the counter has not passed [2 ^ 32], distinct identities
    hold distinct hashes. *)

Module HashSpec.
Import Hash.

Definition extends (isRef : positive -> bool) (st st' : HashState) : Prop :=
  nextRefId st <= nextRefId st'
  /\ forall id h, isRef id = true -> hashCache st !! id = Some h ->
                  hashCache st' !! id = Some h.

Definition referenceHashes (FUNCTIONS : Z) (isRef : positive -> bool)
    (st : HashState) : Prop :=
  1 <= nextRefId st
  /\ (forall id h, isRef id = true -> hashCache st !! id = Some h ->
        exists n, 1 <= n < nextRefId st /\ h = jsXor n FUNCTIONS)
  /\ (nextRefId st <= 2 ^ 32 ->
      forall id1 id2 h1 h2, isRef id1 = true -> isRef id2 = true -> id1 <> id2 ->
        hashCache st !! id1 = Some h1 -> hashCache st !! id2 = Some h2 ->
        h1 <> h2).

End HashSpec.

(** A concrete instance of the hash module, to run it: fixed values for the
    constants drawn at load time, and a stream that records what it is fed
    and digests it to a checksum. *)

Module HashExample.
Import Hash.

Definition Hasher : Type := list HashInput.
Definition newHasher : Hasher := [].
Definition update (hasher : Hasher) (input : HashInput) : Hasher :=
  hasher ++ [input].
Definition digest (hasher : Hasher) : Z :=
  fold_left (fun acc input =>
               match input with
               | INumber n | IBigInt n => (31 * acc + n) mod 2 ^ 32
               | INaN => (31 * acc + 7) mod 2 ^ 32
               | IString s | ISymbol s =>
                   (31 * acc + Z.of_nat (String.length s)) mod 2 ^ 32
               end) hasher 0.

Definition FUNCTIONS : Z := 1540483477.

Definition hashObject :=
  Hash.hashObject 11 12 13 14 15 FUNCTIONS 16 17 18 19 20
                  Hasher newHasher update digest.

Definition hashFresh :=
  Hash.hashFresh 11 12 13 14 15 FUNCTIONS 16 17 18 19 20
                 Hasher newHasher update digest.

(** Two byte arrays with the same bytes: the first a program allocates, and
    the one it allocates after [2 ^ 32 - 1] others. *)
Definition content : list Z := [104; 105].
Definition firstId : positive := 1.
Definition lastId : positive := 4294967297.

End HashExample.

(** ** The fractional-index scheme *)

Module FractionalIndex.

(** Modelled from the spec: the operator that assigns fractional indexes is
    part of the dataflow package, which is not among the sources.  Section
    4.E asks for short strings over a fixed alphabet of at least 64
    printable characters, and for an index strictly between its two
    neighbours under lexicographic order, each of which may be absent.
    An index is held as its digits in base 64 and written with the 64
    characters from ['0'] to ['o'], whose codes are consecutive. *)
Definition base : nat := 64.

Definition digitChar (d : nat) : ascii := ascii_of_nat (48 + d).

Fixpoint encode (digits : list nat) : string :=
  match digits with
  | [] => EmptyString
  | d :: rest => String (digitChar d) (encode rest)
  end.

(** Lexicographic order on digits: a proper prefix comes first. *)
Fixpoint lexlt (a b : list nat) : bool :=
  match a, b with
  | _, [] => false
  | [], _ :: _ => true
  | x :: a', y :: b' => (x <? y)%nat || ((x =? y)%nat && lexlt a' b')
  end.

(** An index after [a], with no upper neighbour. *)
Fixpoint keyAfter (a : list nat) : list nat :=
  match a with
  | [] => [base / 2]%nat
  | d :: a' =>
      if (1 <? base - d)%nat then [(d + base) / 2]%nat
      else d :: keyAfter a'
  end.

(** An index strictly between [a] and [b]; an absent lower neighbour is the
    empty list of digits. *)
Fixpoint keyBetween (a b : list nat) : list nat :=
  match b with
  | [] => keyAfter a
  | e :: b' =>
      let d := hd 0%nat a in
      if (d =? e)%nat then d :: keyBetween (tl a) b'
      else if (1 <? e - d)%nat then [(d + e) / 2]%nat
      else match b' with
           | [] => d :: keyAfter (tl a)
           | _ :: _ => [e]
           end
  end.

Definition generateKeyBetween (lower upper : option (list nat)) : list nat :=
  match lower, upper with
  | None, None => keyAfter []
  | Some a, None => keyAfter a
  | None, Some b => keyBetween [] b
  | Some a, Some b => keyBetween a b
  end.

(** The indexes the scheme hands out: digits below the base, at least one
    of them, the last one not zero. *)
Fixpoint endsNonZero (digits : list nat) : bool :=
  match digits with
  | [] => false
  | [d] => negb (d =? 0)%nat
  | _ :: rest => endsNonZero rest
  end.

Definition wellFormed (digits : list nat) : Prop :=
  Forall (fun d => (d < base)%nat) digits /\ endsNonZero digits = true.

End FractionalIndex.

(** ** The top-K operator *)

Module TopK.
Import Changes FractionalIndex.

(** Modelled from the spec: the order-by and top-K operator of section 4.E,
    whose code is in the dataflow package.  The buffer holds every accepted
    row in the order of the order-by keys, ties broken by row key
    ([precedes]); the window is its slice from [offset], [limit] long; a row
    that stays in the window keeps its index and a row that enters it gets
    an index between those of its neighbours. *)
Section Operator.
Context {K V : Type} `{EqDecision K} `{EqDecision V}.
Variable precedes : K * V -> K * V -> bool.
Variables offset limit : nat.

Record State : Type := mkState {
  buffer : list (K * V);
  indexed : list ((K * V) * list nat);
}.

Definition empty : State := mkState [] [].

Fixpoint insertSorted (r : K * V) (rows : list (K * V)) : list (K * V) :=
  match rows with
  | [] => [r]
  | r' :: rest =>
      if precedes r r' then r :: r' :: rest else r' :: insertSorted r rest
  end.

Fixpoint removeOne (r : K * V) (rows : list (K * V)) : option (list (K * V)) :=
  match rows with
  | [] => None
  | r' :: rest =>
      if decide (r' = r) then Some rest
      else cons r' <$> removeOne r rest
  end.

Fixpoint insertCopies (n : nat) (r : K * V) (rows : list (K * V)) : list (K * V) :=
  match n with
  | O => rows
  | S n => insertCopies n r (insertSorted r rows)
  end.

Fixpoint removeCopies (n : nat) (r : K * V) (rows : list (K * V))
  : option (list (K * V)) :=
  match n with
  | O => Some rows
  | S n => removeOne r rows ≫= removeCopies n r
  end.

(** Step 1 of the incremental maintenance: the tuples of positive
    multiplicity. *)
Definition accept (rows : list (K * V)) (t : Tuple K V) : list (K * V) :=
  if 0 <? t.2 then insertCopies (Z.to_nat t.2) t.1 rows else rows.

(** Step 2: the retractions.  [None] is the invariant violation raised for a
    retraction of a tuple the operator has no record of. *)
Definition retract (rows : option (list (K * V))) (t : Tuple K V)
  : option (list (K * V)) :=
  if t.2 <? 0 then rows ≫= removeCopies (Z.to_nat (- t.2)) t.1 else rows.

Definition window (rows : list (K * V)) : list (K * V) :=
  take limit (drop offset rows).

Fixpoint lookupIndex (r : K * V) (old : list ((K * V) * list nat))
  : option (list nat) :=
  match old with
  | [] => None
  | (r', i) :: rest => if decide (r' = r) then Some i else lookupIndex r rest
  end.

(** The index of the first row of [rows] that already has one. *)
Fixpoint nextKept (old : list ((K * V) * list nat)) (rows : list (K * V))
  : option (list nat) :=
  match rows with
  | [] => None
  | r :: rest =>
      match lookupIndex r old with
      | Some i => Some i
      | None => nextKept old rest
      end
  end.

(** Step 3: the indexes of the new window, from left to right. *)
Fixpoint assign (old : list ((K * V) * list nat)) (lower : option (list nat))
    (rows : list (K * V)) : list ((K * V) * list nat) :=
  match rows with
  | [] => []
  | r :: rest =>
      let i := match lookupIndex r old with
               | Some i => i
               | None => generateKeyBetween lower (nextKept old rest)
               end in
      (r, i) :: assign old (Some i) rest
  end.

(** The retractions and insertions the operator emits for a new window. *)
Definition retractions (old new : list ((K * V) * list nat))
  : list (((K * V) * list nat) * Z) :=
  map (fun e => (e, -1))
      (List.filter (fun e => negb (bool_decide (is_Some (lookupIndex e.1 new)))) old).

Definition insertions (old new : list ((K * V) * list nat))
  : list (((K * V) * list nat) * Z) :=
  map (fun e => (e, 1))
      (List.filter (fun e => negb (bool_decide (is_Some (lookupIndex e.1 old)))) new).

(** One batch through the operator. *)
Definition processBatch (batch : list (Tuple K V)) (st : State)
  : option (State * list (((K * V) * list nat) * Z)) :=
  rows ← fold_left retract batch (Some (fold_left accept batch (buffer st)));
  let new := assign (indexed st) None (window rows) in
  Some (mkState rows new,
        retractions (indexed st) new ++ insertions (indexed st) new).

(** The indexes already handed out agree with the order of the rows, and
    are well formed. *)
Definition agrees (old : list ((K * V) * list nat)) : Prop :=
  forall r1 i1 r2 i2,
    lookupIndex r1 old = Some i1 -> lookupIndex r2 old = Some i2 ->
    precedes r1 r2 = true -> lexlt i1 i2 = true.

Definition wellFormedIn (old : list ((K * V) * list nat)) : Prop :=
  forall r i, lookupIndex r old = Some i -> wellFormed i.

(** The state the operator keeps between batches: the indexed rows are the
    window, in the order of the order-by keys, and their indexes are well
    formed and grow along it. *)
Definition ordered (st : State) : Prop :=
  fst <$> indexed st = window (buffer st)
  /\ StronglySorted (fun a b => precedes b a = false) (buffer st)
  /\ NoDup (fst <$> buffer st)
  /\ StronglySorted (fun e1 e2 => lexlt e1.2 e2.2 = true) (indexed st)
  /\ Forall (fun e => wellFormed e.2) (indexed st).

(** [dataNeeded]: how many more rows the operator would take. *)
Definition dataNeeded (st : State) : Z :=
  Z.max 0 (Z.of_nat (offset + limit) - Z.of_nat (length (buffer st))).

End Operator.

End TopK.

(** ** A compiled pipeline over one source collection *)

Module Pipeline.
Import Changes Materializer FractionalIndex.

(** Modelled from the spec: the graph the compiler builds for a query
    [FROM source WHERE p ORDER BY keys OFFSET o LIMIT l SELECT f] (sections
    4.B, 4.C and 4.E); the compiler and the dataflow package are not among
    the sources.  The input queues what is sent to it; a run passes the
    queue through the filter and the top-K operator and hands the rows that
    left and entered the window to the output, each with its result object
    and its index written as a string. *)
Section Graph.
Context {K V R : Type} `{EqDecision K} `{EqDecision V}.
Variable precedes : K * V -> K * V -> bool.
Variables offset limit : nat.
Variable whereClause : V -> bool.
Variable select : K * V -> R.

Record Graph : Type := mkGraph {
  pending : list (Tuple K V);
  topK : TopK.State (K:=K) (V:=V);
}.

Definition emptyGraph : Graph := mkGraph [] TopK.empty.

Definition sendData (collectionId : nat) (data : list (Tuple K V)) (g : Graph)
  : Graph :=
  mkGraph (pending g ++ data) (topK g).

Definition outTuple (t : ((K * V) * list nat) * Z) : OutTuple K R :=
  ((t.1.1.1, (select t.1.1, Some (encode t.1.2))), t.2).

Definition run (g : Graph) : option (Graph * list (list (OutTuple K R))) :=
  match pending g with
  | [] => Some (g, [])
  | batch =>
      '(st, out) ← TopK.processBatch precedes offset limit
                     (List.filter (fun t => whereClause t.1.2) batch) (topK g);
      Some (mkGraph [] st,
            match out with [] => [] | _ => [map outTuple out] end)
  end.

Definition dataNeeded (g : Graph) : Z :=
  TopK.dataNeeded offset limit (topK g).

Definition ops : Driver.GraphOps K V R Graph := Driver.mkGraphOps sendData run.

End Graph.

Section Materialization.
Context {K V R OV : Type} `{Countable K} `{EqDecision V} `{Countable R}.
Variable precedes : K * V -> K * V -> bool.
Variables offset limit : nat.
Variable whereClause : V -> bool.
Variable select : K * V -> R.

(** The rows of the result collection that a window stands for. *)
Definition resultRows (indexed : list ((K * V) * list nat)) : list (K * R) :=
  (fun e => (e.1.1, select e.1)) <$> indexed.

(** The result collection and the index table hold the window. *)
Definition materializes (st : TopK.State (K:=K) (V:=V)) (mat : MatState K R)
    (synced : gmap K R) : Prop :=
  synced = list_to_map (resultRows (TopK.indexed st))
  /\ forall e, e ∈ TopK.indexed st ->
       orderByIndices mat !! select e.1 = Some (encode e.2).

(** The rows that leave and enter the window between two runs, the
    messages the output receives for them, and [collection.has] on the
    result collection. *)
Definition leaving (old new : list ((K * V) * list nat))
  : list ((K * V) * list nat) :=
  List.filter (fun e => negb (bool_decide (is_Some (TopK.lookupIndex e.1 new)))) old.

Definition entering (old new : list ((K * V) * list nat))
  : list ((K * V) * list nat) :=
  List.filter (fun e => negb (bool_decide (is_Some (TopK.lookupIndex e.1 old)))) new.

Definition messages (old new : list ((K * V) * list nat)) : list (OutTuple K R) :=
  map (outTuple select) (TopK.retractions old new ++ TopK.insertions old new).

Definition has (synced : gmap K R) (k : K) : bool :=
  bool_decide (is_Some (synced !! k)).

(** A state of the pipeline between two runs of its graph in which the
    operator's state is in order, no two buffered rows share a key, and the
    result collection holds the window. *)
Definition invariant (w : Driver.World K V R OV (Graph (K:=K) (V:=V))) : Prop :=
  TopK.ordered precedes offset limit (topK (Driver.graph w))
  /\ NoDup (fst <$> TopK.buffer (topK (Driver.graph w)))
  /\ materializes (topK (Driver.graph w)) (Driver.mat w) (Driver.synced w).

End Materialization.

(** Modelled from the spec: [index.take(n, afterValue)] of section 6, on the
    rows the collection holds: up to [n] keys, in the order-by order,
    strictly after [afterValue], or from the start when there is none. *)
Section Index.
Context {K V OV : Type}.
Variable getKey : V -> K.
Variable precedes : K * V -> K * V -> bool.
Variable valueOf : V -> OV.
Variable valueBefore : OV -> OV -> bool.

Definition sortRows (rows : list V) : list (K * V) :=
  fold_left (fun sorted v => TopK.insertSorted precedes (getKey v, v) sorted)
            rows [].

Definition take (rows : list V) (n : Z) (afterValue : option OV) : list K :=
  map fst
      (firstn (Z.to_nat n)
         (List.filter (fun r => match afterValue with
                                | Some a => valueBefore a (valueOf r.2)
                                | None => true
                                end)
                      (sortRows rows))).

End Index.

(** Modelled from the spec: the result collection lists its rows with the
    [compare] function it was given (section 6). *)
Section Listing.
Context {K R : Type} `{Countable K} `{Countable R}.

Fixpoint insertBy (cmp : R -> R -> Z) (x : R) (sorted : list R) : list R :=
  match sorted with
  | [] => [x]
  | y :: rest => if cmp x y <? 0 then x :: y :: rest else y :: insertBy cmp x rest
  end.

Definition sortBy (cmp : R -> R -> Z) (rows : list R) : list R :=
  foldr (insertBy cmp) [] rows.

Definition toArray (orderByIndices : gmap R string) (synced : gmap K R) : list R :=
  sortBy (Ordering.compareByIndex orderByIndices) (map snd (map_to_list synced)).

End Listing.

End Pipeline.

(** ** The employees scenario of the order-by tests *)

Module Employees.
Import Changes Materializer Driver.

(** The schema and the data of [order-by.test.ts]. *)
Record Employee : Type := mkEmployee {
  id : Z;
  name : string;
  department_id : Z;
  salary : Z;
  hire_date : string;
}.

#[export] Instance Employee_eq_dec : EqDecision Employee.
Proof. solve_decision. Defined.

Definition employeeData : list Employee :=
  [ mkEmployee 1 "Alice" 1 50000 "2020-01-15";
    mkEmployee 2 "Bob" 2 60000 "2019-03-20";
    mkEmployee 3 "Charlie" 1 55000 "2021-06-10";
    mkEmployee 4 "Diana" 2 65000 "2018-11-05";
    mkEmployee 5 "Eve" 1 52000 "2022-02-28" ].

Definition george (salary : Z) : Employee :=
  mkEmployee 6 "George" 1 salary "2023-01-01".

(** The rows of [select]: [{ id, name, salary }]; the key of a row of the
    employees collection is its [id]. *)
Definition Result : Type := Z * string * Z.

Definition select (r : Z * Employee) : Result :=
  (r.1, name r.2, salary r.2).

(** Modelled from the spec: the comparator the compiler derives from
    [ORDER BY salary DESC] (section 4.E), with ties broken by row key, and
    what "after a value" means for the sorted index. *)
Definition comparator (a b : Employee) : Z :=
  if salary b <? salary a then -1
  else if salary a <? salary b then 1
  else 0.

Definition precedes (r1 r2 : Z * Employee) : bool :=
  (comparator r1.2 r2.2 <? 0)
  || ((comparator r1.2 r2.2 =? 0) && (r1.1 <? r2.1)).

Definition valueBefore (a x : Z) : bool := x <? a.

(** The query [ORDER BY salary DESC OFFSET offset LIMIT limit], with an
    optional [WHERE] on the department, over the employees collection. *)
Section Query.
Variables offset limit : nat.
Variable department : option Z.

Definition whereClause (e : Employee) : bool :=
  match department with
  | Some d => department_id e =? d
  | None => true
  end.

Definition Graph : Type := Pipeline.Graph (K:=Z) (V:=Employee).

Definition ops : GraphOps Z Employee Result Graph :=
  Pipeline.ops precedes offset limit whereClause select.

Definition info : OrderByOptimizationInfo Z Employee Z Graph :=
  mkOrderByInfo (Z.of_nat offset) (Z.of_nat limit) comparator
    (Pipeline.take id precedes salary valueBefore)
    (Some (Pipeline.dataNeeded offset limit))
    salary.

Definition subscription : Subscription Z Employee Z Graph :=
  mkSubscription (mkCollection StReady employeeData id)
                 (match department with
                  | Some _ => Some whereClause
                  | None => None
                  end)
                 false (Some info) false ∅ (mkTracker ∅ None).

Definition world0 : World Z Employee Result Z Graph :=
  mkWorld Pipeline.emptyGraph [subscription] false (mkMatState ∅ ∅ 0) ∅ false [].

(** The live query is started, and then, in the second run, the source
    collection commits the insert of a sixth employee. *)
Definition started (fuel : nat) : Outcome (World Z Employee Result Z Graph) unit :=
  sync ops fuel world0.

Definition afterInsert (fuel : nat) (e : Employee)
  : Outcome (World Z Employee Result Z Graph) unit :=
  (sync ops fuel ;; deliver ops fuel 0 (employeeData ++ [e]) [Insert (id e) e])
    world0.

(** The world a run ends in, and whether it returned. *)
Definition worldOf (o : Outcome (World Z Employee Result Z Graph) unit)
  : World Z Employee Result Z Graph :=
  match o with
  | Done _ w | Thrown _ w => w
  | OutOfFuel => world0
  end.

Definition returned (o : Outcome (World Z Employee Result Z Graph) unit) : bool :=
  match o with
  | Done _ _ => true
  | _ => false
  end.

End Query.

(** The employees collection as the lazy side of a join: the subscription
    [subscribeToMatchingChanges] makes, before anything was loaded. *)
Definition lazySubscription : Subscription Z Employee Z Graph :=
  mkSubscription (mkCollection StReady employeeData id) None true None
                 false ∅ (mkTracker ∅ None).

Definition lazyWorld : World Z Employee Result Z Graph :=
  mkWorld Pipeline.emptyGraph [lazySubscription] false (mkMatState ∅ ∅ 0) ∅
          false [].

(** [Array.from(collection.values())], reduced to [[id, salary]]. *)
Definition materialized {A : Type}
    (o : Outcome (World Z Employee Result Z Graph) A) : option (list (Z * Z)) :=
  match o with
  | Done _ w =>
      Some (map (fun r : Result => (r.1.1, r.2))
                (Pipeline.toArray (orderByIndices (mat w)) (synced w)))
  | _ => None
  end.

End Employees.

(** ** The side tables and the writes of a batch that raises nothing *)

Module Writes.
Import Materializer.

Section Writes.
Context {K R : Type} `{Countable K} `{Countable R}.

(** What the [forEach] of the materializer does with one entry of the
    accumulator: it stamps the index, records the key and writes. *)
Definition stamp (indices : gmap R string) (entry : K * KeyChanges R)
  : gmap R string :=
  match orderByIndex entry.2 with
  | Some i => <[value entry.2 := i]> indices
  | None => indices
  end.

Definition recordKey (keys : gmap R K) (entry : K * KeyChanges R) : gmap R K :=
  <[value entry.2 := entry.1]> keys.

(** The write of an entry; an entry that raises writes nothing, and stands
    here as the [Commit] the loop then never reaches. *)
Definition writeOf (has : K -> bool) (entry : K * KeyChanges R) : SyncEvent R :=
  match classify (has entry.1) (inserts entry.2) (deletes entry.2) with
  | Some ty => Write ty (value entry.2)
  | None => Commit
  end.

(** Distinct keys carry distinct result objects. *)
Definition distinctValues (acc : list (K * KeyChanges R)) : Prop :=
  forall e1 e2, e1 ∈ acc -> e2 ∈ acc -> value e1.2 = value e2.2 -> e1 = e2.

End Writes.

End Writes.

(** ** Construction of a live query collection *)

Module Construction.

(** The parts of the query IR that construction looks at: the number of
    ORDER BY clauses when the array is there, and the limit and the offset
    when they are defined. *)
Record QueryIR : Type := mkQueryIR {
  orderBy : option nat;
  limit : option Z;
  offset : option Z;
}.

(** [query.orderBy && query.orderBy.length > 0]. *)
Definition hasOrderBy (query : QueryIR) : bool :=
  match orderBy query with
  | Some n => (0 <? n)%nat
  | None => false
  end.

Inductive CompileError : Type :=
| LimitOffsetRequireOrderByError.

(** What construction does, in the order in which it does it: [new D2()],
    [graph.newInput()] for the collections, the call of [compileQuery], the
    creation of the [sync] configuration, whose [sync] function holds every
    subscription and every run of the graph, and [createCollection]. *)
Inductive Step : Type :=
| NewGraph
| NewInputs
| CompileQuery
| BuildSync
| CreateCollection.

(** Modelled from the spec: [compileQuery] rejects a limit or an offset
    without an order-by with a dedicated error (section 4.E, failure
    semantics, and error class 1 of section 7); the compiler is not among
    the sources. *)
Definition compileQuery (query : QueryIR) : option CompileError :=
  if hasOrderBy query then None
  else if bool_decide (is_Some (limit query) \/ is_Some (offset query))
       then Some LimitOffsetRequireOrderByError
       else None.

(** [compileBasePipeline]. *)
Definition compileBasePipeline (query : QueryIR)
  : list Step * (CompileError + unit) :=
  ([NewGraph; NewInputs; CompileQuery],
   match compileQuery query with
   | Some e => inl e
   | None => inr tt
   end).

(** The options [liveQueryCollectionOptions] returns, as far as the query
    decides them: whether [compare] is defined. *)
Record Options : Type := mkOptions {
  compareDefined : bool;
}.

(** [liveQueryCollectionOptions]: the base pipeline is compiled once, before
    the [sync] configuration is created. *)
Definition liveQueryCollectionOptions (query : QueryIR)
  : list Step * (CompileError + Options) :=
  let '(steps, compiled) := compileBasePipeline query in
  match compiled with
  | inl e => (steps, inl e)
  | inr _ => (steps ++ [BuildSync], inr (mkOptions (hasOrderBy query)))
  end.

(** [createLiveQueryCollection], through [bridgeToCreateCollection]. *)
Definition createLiveQueryCollection (query : QueryIR)
  : list Step * (CompileError + Options) :=
  let '(steps, options) := liveQueryCollectionOptions query in
  match options with
  | inl e => (steps, inl e)
  | inr options => (steps ++ [CreateCollection], inr options)
  end.

End Construction.

(** ** What a call of the driver can change *)

Module Effects.
Import Changes Materializer Driver.

Section Effects.
Context {K V R OV G : Type} `{Countable K} `{Countable R}.

Abbreviation WorldT := (World K V R OV G).

(** The test [maybeRunGraph] makes before it runs the graph. *)
Definition canRun (w : WorldT) : bool :=
  allCollectionsReadyOrInitialCommit w && subscribedToAllCollections w.

(** No collection of the query is in [lazyCollections].  The closures
    [loadKeys] and [loadInitialState] are stored in
    [lazyCollectionsCallbacks] by [subscribeToMatchingChanges] alone, which
    subscribes the lazy collections: with none, no operator of the graph
    holds a closure of [sync], and [graph.run()] calls nothing of the
    driver but the [output] callback. *)
Definition noLazyCollection (w : WorldT) : bool :=
  forallb (fun s => negb (isLazy s)) (subscriptions w).

(** The status of each source collection, in the order of the
    subscriptions. *)
Definition statuses (w : WorldT) : list Status :=
  map (fun s => status (collection s)) (subscriptions w).

(** The calls that move data towards the inputs: subscribing, reading the
    index or the current state, and [input.sendData].  The others run the
    graph, ask the operator, or write to the result collection. *)
Definition quiet (ev : Event K V R OV) : bool :=
  match ev with
  | EvSubscribe _ _ | EvSendData _ _ | EvIndexTake _ _ _
  | EvCurrentStateAsChanges _ => true
  | _ => false
  end.

(** [follows w w']: what is true of the world [w'] a call leaves, whether
    it returned or threw, when it started in [w].  The statuses of the
    sources and [subscribedToAllCollections] are as they were; the calls
    recorded are those of [w] and then more, all of them quiet when the
    graph could not run, in which case the materializer, the result
    collection and its readiness are as they were too; and the result
    collection is ready only if it was or all the sources are. *)
Definition follows (w w' : WorldT) : Prop :=
  statuses w' = statuses w
  /\ subscribedToAllCollections w' = subscribedToAllCollections w
  /\ (exists evs, trace w' = trace w ++ evs
                  /\ (canRun w = false -> forallb quiet evs = true))
  /\ (canRun w = false ->
      mat w' = mat w /\ synced w' = synced w /\ ready w' = ready w)
  /\ (ready w' = true -> ready w = true \/ allCollectionsReady w = true).

(** The world in which a piece of the driver ended, if it did. *)
Definition ended {A : Type} (o : Outcome WorldT A) (Q : WorldT -> Prop) : Prop :=
  match o with
  | Done _ w' | Thrown _ w' => Q w'
  | OutOfFuel => True
  end.

(** The arrays handed to [input.sendData], in order, with the collection
    whose input received them. *)
Definition sends (evs : list (Event K V R OV)) : list (nat * list (Tuple K V)) :=
  omap (fun ev => match ev with
                  | EvSendData collectionId data => Some (collectionId, data)
                  | _ => None
                  end) evs.

(** The same with the value returned: [Q] of a return, [E] of a throw. *)
Definition after {A : Type} (o : Outcome WorldT A) (Q : A -> WorldT -> Prop)
    (E : WorldT -> Prop) : Prop :=
  match o with
  | Done a w' => Q a w'
  | Thrown _ w' => E w'
  | OutOfFuel => True
  end.

(** The same of a call that ends within the depth given: it returns or it
    throws. *)
Definition finished {A : Type} (o : Outcome WorldT A) (Q : A -> WorldT -> Prop)
    (E : WorldT -> Prop) : Prop :=
  match o with
  | Done a w' => Q a w'
  | Thrown _ w' => E w'
  | OutOfFuel => False
  end.

(** What a run of the graph writes to the result collection. *)
Definition written (ev : Event K V R OV) : bool :=
  match ev with
  | EvSync _ | EvMarkReady => true
  | _ => false
  end.

(** The transactions of the result collection in a sequence of calls:
    [begin] opens one when none is open, [write] and [commit] need an open
    one, and [markReady] is called between transactions.  The result is
    whether a transaction is open at the end, and [None] when a call came
    out of place. *)
Fixpoint transactions (open : bool) (evs : list (Event K V R OV))
  : option bool :=
  match evs with
  | [] => Some open
  | EvSync Begin :: rest => if open then None else transactions true rest
  | EvSync (Write _ _) :: rest => if open then transactions true rest else None
  | EvSync Commit :: rest => if open then transactions false rest else None
  | EvMarkReady :: rest => if open then None else transactions false rest
  | _ :: rest => transactions open rest
  end.

(** [settles w o]: the calls made from [w] on form transactions: none is
    open when the call returns, and when it throws the last one may be. *)
Definition settles {A : Type} (w : WorldT) (o : Outcome WorldT A) : Prop :=
  match o with
  | Done _ w' =>
      exists evs, trace w' = trace w ++ evs
                  /\ transactions false evs = Some false
  | Thrown _ w' =>
      exists evs open, trace w' = trace w ++ evs
                       /\ transactions false evs = Some open
  | OutOfFuel => True
  end.

(** [effect P m]: started in a world where [P] holds, [m] ends in a world
    that follows it. *)
Definition effect {A : Type} (P : WorldT -> Prop) (m : M A) : Prop :=
  forall w, P w -> ended (m w) (follows w).

End Effects.

End Effects.

(** ** Hashing without the cache *)

Module HashStructure.
Import Hash.

(** A value is hashed by its structure when none of its parts is hashed by
    reference: no function, no binary payload. *)
Fixpoint structural (v : Value) : bool :=
  match v with
  | VFunction _ => false
  | VObject _ class _ _ props =>
      negb (hashedByReference class)
      && forallb (fun '(_, v) => structural v) props
  | _ => true
  end.

(** The value with the identities of its objects and the bytes of its
    payloads forgotten. *)
Fixpoint erase (v : Value) : Value :=
  match v with
  | VFunction _ => VFunction 1
  | VObject _ class time _ props =>
      VObject 1 class time [] (map (fun '(key, v) => (key, erase v)) props)
  | _ => v
  end.

(** The heap as long as no object is altered: [content] gives, for the
    identity of an object hashed by its structure all the way down, its
    class, its time and its properties, and nothing for the identity of
    another object or of a function.  A value agrees with it when each of
    its objects is the one the heap holds under that identity. *)
Definition Content : Type :=
  positive -> option (ObjectClass * Z * list (string * Value)).

Fixpoint agrees (content : Content) (v : Value) : Prop :=
  match v with
  | VFunction oid => content oid = None
  | VObject oid class time _ props =>
      (if structural v then content oid = Some (class, time, props)
       else content oid = None)
      /\ (fix all (l : list (string * Value)) : Prop :=
            match l with
            | [] => True
            | (_, v) :: rest => agrees content v /\ all rest
            end) props
  | _ => True
  end.

Section Structure.
Variables TRUE FALSE NULL UNDEFINED KEY FUNCTIONS DATE_MARKER : Z.
Variables OBJECT_MARKER ARRAY_MARKER MAP_MARKER SET_MARKER : Z.
Variable Hasher : Type.
Variable newHasher : Hasher.
Variable update : Hasher -> HashInput -> Hasher.
Variable digest : Hasher -> Z.

(** The marker [hashObject] chooses. *)
Definition markerOf (class : ObjectClass) : Z :=
  let marker := OBJECT_MARKER in
  let marker := if instanceofArray class then ARRAY_MARKER else marker in
  let marker := if instanceofMap class then MAP_MARKER else marker in
  let marker := if instanceofSet class then SET_MARKER else marker in
  marker.

(** [updateHasher] as it proceeds when [hashCache] holds nothing and every
    object is hashed by its structure: [getCachedHash] is then [hashDate] or
    [hashPlainObject].  Nothing is said of the values hashed by reference,
    for which it leaves the stream as it is. *)
Fixpoint feed (input : Value) (hasher : Hasher) : Hasher :=
  match input with
  | VNull => update hasher (INumber NULL)
  | VUndefined => update hasher (INumber UNDEFINED)
  | VBoolean b => update hasher (INumber (if b then TRUE else FALSE))
  | VNumber n => update hasher (INumber n)
  | VNaN => update hasher INaN
  | VBigInt n => update hasher (IBigInt n)
  | VString s => update hasher (IString s)
  | VSymbol s => update hasher (ISymbol s)
  | VObject _ class time _ props =>
      update hasher
        (INumber
           (if instanceofDate class
            then hashDate DATE_MARKER Hasher newHasher update digest time
            else digest
                   (fold_left
                      (fun hasher '(key, v) =>
                         feed v (update (update hasher (INumber KEY))
                                        (IString key)))
                      props (update newHasher (INumber (markerOf class))))))
  | VFunction _ => hasher
  end.

(** The hash [hashObject] computes for an object hashed by its structure. *)
Definition objectHash (class : ObjectClass) (time : Z)
    (props : list (string * Value)) : Z :=
  if instanceofDate class
  then hashDate DATE_MARKER Hasher newHasher update digest time
  else digest
         (fold_left
            (fun hasher '(key, v) =>
               feed v (update (update hasher (INumber KEY)) (IString key)))
            props (update newHasher (INumber (markerOf class)))).

(** The cache holds, for the objects of the heap, the hash of what they
    are. *)
Definition faithful (content : Content) (st : HashState) : Prop :=
  forall oid h class time props,
    hashCache st !! oid = Some h ->
    content oid = Some (class, time, props) ->
    h = objectHash class time props.

End Structure.

End HashStructure.

(** ** The collections of a query *)

Module QuerySources.

(** A join clause and a query of the IR, as far as
    [extractCollectionsFromQuery] and [findCollectionAlias] read them: the
    optional [from] of either, and the optional array [join] of a query. *)
Record JoinClause (S : Type) : Type := mkJoinClause {
  jfrom : option S;
}.
Arguments mkJoinClause {S} _.
Arguments jfrom {S} _.

Record QueryOf (S : Type) : Type := mkQuery {
  from : option S;
  join : option (list (JoinClause S));
}.
Arguments mkQuery {S} _ _.
Arguments from {S} _.
Arguments join {S} _.

Section Sources.
(** [C] is the type of the collection objects and [id] their [id]. *)
Variable C : Type.
Variable id : C -> string.

(** A source: [{ type: 'collectionRef', collection, alias }] or
    [{ type: 'queryRef', query, alias }]. *)
#[warnings="-register-all"]
Inductive Source : Type :=
| CollectionRef (collection : C) (alias : string)
| QueryRef (query : QueryOf Source) (alias : string).

Definition Query : Type := QueryOf Source.

(** [extractFromQuery], given [extractFromSource] for its sources;
    [collections] is the object the two helpers write to. *)
Definition extractFromQueryWith
    (extractFromSource : Source -> gmap string C -> gmap string C)
    (q : Query) (collections : gmap string C) : gmap string C :=
  let collections :=
    match from q with
    | Some source => extractFromSource source collections
    | None => collections
    end in
  match join q with
  | Some clauses =>
      fold_left (fun collections joinClause =>
                   match jfrom joinClause with
                   | Some source => extractFromSource source collections
                   | None => collections
                   end)
                clauses collections
  | None => collections
  end.

(** [extractFromSource]. *)
Fixpoint extractFromSource (source : Source) (collections : gmap string C)
  : gmap string C :=
  match source with
  | CollectionRef collection _ => <[id collection := collection]> collections
  | QueryRef query _ => extractFromQueryWith extractFromSource query collections
  end.

(** [extractFromQuery] and [extractCollectionsFromQuery]. *)
Definition extractFromQuery (q : Query) (collections : gmap string C)
  : gmap string C :=
  extractFromQueryWith extractFromSource q collections.

Definition extractCollectionsFromQuery (query : Query) : gmap string C :=
  extractFromQuery query ∅.

(** The test [findCollectionAlias] makes on a [from]. *)
Definition aliasOf (collectionId : string) (source : option Source)
  : option string :=
  match source with
  | Some (CollectionRef collection alias) =>
      if bool_decide (id collection = collectionId) then Some alias else None
  | _ => None
  end.

(** [findCollectionAlias]. *)
Definition findCollectionAlias (collectionId : string) (query : Query)
  : option string :=
  match aliasOf collectionId (from query) with
  | Some alias => Some alias
  | None =>
      match join query with
      | Some clauses =>
          (fix loop (clauses : list (JoinClause Source)) : option string :=
             match clauses with
             | [] => None
             | joinClause :: rest =>
                 match aliasOf collectionId (jfrom joinClause) with
                 | Some alias => Some alias
                 | None => loop rest
                 end
             end) clauses
      | None => None
      end
  end.

(** The sources a query names itself, in its [from] or in the [from] of one
    of its join clauses, and the collections it refers to, there or in a
    subquery. *)
Definition topSource (q : Query) (source : Source) : Prop :=
  from q = Some source
  \/ exists clauses joinClause,
       join q = Some clauses /\ joinClause ∈ clauses
       /\ jfrom joinClause = Some source.

Inductive referenced : Query -> C -> Prop :=
| referenced_here q collection alias :
    topSource q (CollectionRef collection alias) -> referenced q collection
| referenced_below q query alias collection :
    topSource q (QueryRef query alias) -> referenced query collection ->
    referenced q collection.

End Sources.

Arguments CollectionRef {C} _ _.
Arguments QueryRef {C} _ _.
Arguments extractFromQueryWith {C} _ _ _.
Arguments extractFromSource {C} _ _ _.
Arguments extractFromQuery {C} _ _ _.
Arguments extractCollectionsFromQuery {C} _ _.
Arguments aliasOf {C} _ _ _.
Arguments findCollectionAlias {C} _ _ _.
Arguments topSource {C} _ _.
Arguments referenced {C} _ _.

End QuerySources.

(** ** The identifier of a live query collection *)

Module Identifiers.

(** [++liveQueryCollectionCounter].  The counter is a JavaScript number
    that starts at [0]: up to [2 ^ 53] the increment is exact, and at
    [2 ^ 53] the sum rounds back to [2 ^ 53]. *)
Definition increment (liveQueryCollectionCounter : Z) : Z :=
  if liveQueryCollectionCounter <? 2 ^ 53
  then liveQueryCollectionCounter + 1
  else liveQueryCollectionCounter.

(** [config.id || `live-query-${++liveQueryCollectionCounter}`]: the
    identifier and the counter afterwards.  The empty string is falsy. *)
Definition chooseId (configId : option string) (liveQueryCollectionCounter : Z)
  : string * Z :=
  match configId with
  | Some id =>
      if String.eqb id "" then
        let counter := increment liveQueryCollectionCounter in
        ("live-query-" +:+ pretty counter, counter)
      else (id, liveQueryCollectionCounter)
  | None =>
      let counter := increment liveQueryCollectionCounter in
      ("live-query-" +:+ pretty counter, counter)
  end.

(** A program that creates one live query collection after the other, with
    the [id] of each configuration: the identifiers they receive. *)
Fixpoint createAll (configIds : list (option string))
    (liveQueryCollectionCounter : Z) : list string * Z :=
  match configIds with
  | [] => ([], liveQueryCollectionCounter)
  | configId :: rest =>
      let '(id, counter) := chooseId configId liveQueryCollectionCounter in
      let '(ids, counter') := createAll rest counter in
      (id :: ids, counter')
  end.

(** The configuration gives no identifier. *)
Definition anonymous (configId : option string) : bool :=
  match configId with
  | Some id => String.eqb id ""
  | None => true
  end.

End Identifiers.

(** ** The caches of the compiled pipeline *)

Module Lifecycle.

(** [graphCache], [inputsCache], [pipelineCache] and
    [collectionWhereClausesCache]; a graph is the number of the
    [new D2()] that made it, and the inputs, the pipeline and the where
    clauses carry the number of the graph they were compiled for. *)
Record Caches : Type := mkCaches {
  graphCache : option nat;
  inputsCache : option nat;
  pipelineCache : option nat;
  collectionWhereClausesCache : option nat;
}.

(** The caches, the number of graphs made so far, and the graphs on which
    [graph.finalize()] was called, in order. *)
Record State : Type := mkState {
  caches : Caches;
  graphs : nat;
  finalized : list nat;
}.

Section Lifecycle.
(** The query and [compileQuery], which returns or raises; the compiler is
    not among the sources. *)
Variables QueryIR CompileError : Type.
Variable compileQuery : QueryIR -> option CompileError.

(** [compileBasePipeline]: the graph and the inputs are assigned before
    [compileQuery] is called, the pipeline and the where clauses from what
    it returns. *)
Definition compileBasePipeline (query : QueryIR) (st : State)
  : State * option CompileError :=
  let graph := graphs st in
  match compileQuery query with
  | Some e =>
      (mkState (mkCaches (Some graph) (Some graph)
                         (pipelineCache (caches st))
                         (collectionWhereClausesCache (caches st)))
               (S graph) (finalized st),
       Some e)
  | None =>
      (mkState (mkCaches (Some graph) (Some graph) (Some graph) (Some graph))
               (S graph) (finalized st),
       None)
  end.

(** [maybeCompileBasePipeline]: the graph it returns. *)
Definition maybeCompileBasePipeline (query : QueryIR) (st : State)
  : State * (CompileError + option nat) :=
  match graphCache (caches st), inputsCache (caches st),
        pipelineCache (caches st) with
  | Some _, Some _, Some _ => (st, inr (graphCache (caches st)))
  | _, _, _ =>
      let '(st', error) := compileBasePipeline query st in
      match error with
      | Some e => (st', inl e)
      | None => (st', inr (graphCache (caches st')))
      end
  end.

(** What the head of [sync] can raise: the error of [compileQuery], or the
    refusal of [pipeline.pipe] on a graph that was finalized. *)
Inductive StartError : Type :=
| CompileFailed (e : CompileError)
| GraphAlreadyFinalized (graph : nat).

(** The head of [sync], up to [graph.finalize()]: the pipeline is taken
    from the caches, [pipeline.pipe(output(...))] attaches the output
    operator to it, and the graph is finalized.
    Modelled from the spec: the dataflow library is not among the sources;
    by section 4.B [finalize()] freezes the topology of the graph, so [pipe]
    on the pipeline of a finalized graph raises and [sync] stops there. *)
Definition start (query : QueryIR) (st : State) : State * option StartError :=
  let '(st', compiled) := maybeCompileBasePipeline query st in
  match compiled with
  | inl e => (st', Some (CompileFailed e))
  | inr (Some graph) =>
      if bool_decide (graph ∈ finalized st')
      then (st', Some (GraphAlreadyFinalized graph))
      else (mkState (caches st') (graphs st') (finalized st' ++ [graph]), None)
  | inr None => (st', None)
  end.

(** The function [sync] returns, past the unsubscriptions. *)
Definition cleanup (st : State) : State :=
  mkState (mkCaches None None None None) (graphs st) (finalized st).

(** [liveQueryCollectionOptions] declares the caches and compiles the base
    pipeline once. *)
Definition construct (query : QueryIR) : State * option CompileError :=
  compileBasePipeline query (mkState (mkCaches None None None None) 0 []).

(** The collection is started and cleaned up [n] times. *)
Fixpoint restarts (query : QueryIR) (n : nat) (st : State) : State :=
  match n with
  | O => st
  | S n => restarts query n (cleanup (start query st).1)
  end.

End Lifecycle.

End Lifecycle.

(** ** The result of a query with an ORDER BY clause *)

Module OrderedResult.
Import Materializer MaterializerSpec Driver.

(** Modelled from the spec: what the terminal stream of a query with an
    ORDER BY clause stands for.  The compiler and the operators are not
    among the sources; by sections 4.B and 4.E and invariants I2 and I3 the
    stream carries, for each key of the result, a row and its fractional
    index, a key is in the result once or not at all, and the index of a
    row that precedes another under the order-by keys is the smaller
    string.  The definitions of this section say so of the batches the
    output callback is handed; they say nothing of how a graph computes
    them. *)
Section View.
Context {K V R OV G : Type} `{Countable K} `{Countable R}.

(** [resultKeys] and [orderByIndices] are keyed by result object, and a
    result object is the row of one key. *)
Variable rowKey : R -> K.

(** The order of the order-by keys on result rows, ties broken by row
    key. *)
Variable precedes : R -> R -> bool.

(** The result: the row and the index of each key. *)
Abbreviation View := (gmap K (R * string)).

(** The multiplicity of a key in the result after a batch: what it was,
    [1] or [0], more the insertions and less the retractions. *)
Definition multiplicityAfter (cur : View) (batch : list (OutTuple K R)) (k : K)
  : Z :=
  match cur !! k with
  | Some _ => 1 + insertsOf k batch - deletesOf k batch
  | None => 0 + insertsOf k batch - deletesOf k batch
  end.

(** The row and the index of a key of the batch, after the batch. *)
Definition entryAfter (cur : View) (batch : list (OutTuple K R)) (k : K)
  : option (R * string) :=
  if multiplicityAfter cur batch k =? 1 then
    match payloadOf k batch with
    | Some (x, Some i) => Some (x, i)
    | _ => None
    end
  else None.

(** The result after a batch, and after the batches of a run. *)
Definition applyBatch (cur : View) (batch : list (OutTuple K R)) : View :=
  foldr (fun k view => match entryAfter cur batch k with
                       | Some e => <[k := e]> view
                       | None => delete k view
                       end)
        cur (keysInOrder batch).

Definition applyBatches (cur : View) (batches : list (list (OutTuple K R)))
  : View :=
  fold_left applyBatch batches cur.

(** Modelled from the spec (sections 4.B and 4.E): a tuple of the stream
    has a multiplicity other than [0], the row of its key, and an index,
    which is not the empty string. *)
Definition wellFormedTuple (t : OutTuple K R) : bool :=
  negb (multiplicityOf t =? 0)
  && bool_decide (rowKey (payloadOfTuple t).1 = keyOf t)
  && Ordering.truthy (payloadOfTuple t).2.

(** Modelled from the spec (invariant I2): a batch leaves each of its keys
    in the result once or not at all. *)
Definition wellFormed (cur : View) (batch : list (OutTuple K R)) : bool :=
  forallb wellFormedTuple batch
  && forallb (fun k => (multiplicityAfter cur batch k =? 0)
                       || (multiplicityAfter cur batch k =? 1))
             (keysInOrder batch).

Fixpoint wellFormedAll (cur : View) (batches : list (list (OutTuple K R)))
  : bool :=
  match batches with
  | [] => true
  | batch :: rest =>
      wellFormed cur batch && wellFormedAll (applyBatch cur batch) rest
  end.

(** Modelled from the spec (section 4.E): the guarantee of the order-by
    operator; of two rows of the result, the one that precedes the other
    has the smaller index. *)
Definition consistent (cur : View) : bool :=
  let entries := snd <$> map_to_list cur in
  forallb (fun e1 =>
             forallb (fun e2 => implb (precedes e1.1 e2.1) (String.ltb e1.2 e2.2))
                     entries)
          entries.

(** The result collection holds the result: its rows are those of the
    result, each under its key and with its index in [orderByIndices]. *)
Definition holds (cur : View) (w : World K V R OV G) : Prop :=
  synced w = fst <$> cur
  /\ forall k x i, cur !! k = Some (x, i) ->
       rowKey x = k
       /\ orderByIndices (mat w) !! x = Some i
       /\ Ordering.truthy (Some i) = true.

End View.
End OrderedResult.

(** ** The result of a window of the pipeline over one source *)

Module PipelineView.
Import Materializer FractionalIndex.
Section View.
Context {K V R : Type} `{Countable K}.
Variable select : K * V -> R.

(** The result a window stands for: under each key, the result object of
    the row and its index written as a string. *)
Definition view (indexed : list ((K * V) * list nat)) : gmap K (R * string) :=
  list_to_map ((fun e => (e.1.1, (select e.1, encode e.2))) <$> indexed).
End View.
End PipelineView.

(** * Properties *)

(** ** The pipeline boundary *)

Module ChangesFacts.
Import Changes.

Section Boundary.
Context {K V : Type}.
Implicit Types (changes : list (ChangeMessage K V)) (getKey : V -> K).

Lemma sendChangesToInput_from getKey changes (multiSetArray : list (Tuple K V)) :
  fold_left (fun a c => a ++ tuplesOfChange getKey c) changes multiSetArray
  = multiSetArray ++ sendChangesToInput getKey changes.
Proof.
  unfold sendChangesToInput.
  revert multiSetArray.
  induction changes as [|c rest IH]; intros acc; simpl.
  - by rewrite app_nil_r.
  - rewrite (IH (acc ++ _)), (IH (tuplesOfChange getKey c)).
    by rewrite app_assoc.
Qed.

Lemma sendChangesToInput_cons getKey c changes :
  sendChangesToInput getKey (c :: changes)
  = tuplesOfChange getKey c ++ sendChangesToInput getKey changes.
Proof.
  unfold sendChangesToInput at 1. simpl.
  apply sendChangesToInput_from.
Qed.

Lemma sendChangesToInput_app getKey changes1 changes2 :
  sendChangesToInput getKey (changes1 ++ changes2)
  = sendChangesToInput getKey changes1 ++ sendChangesToInput getKey changes2.
Proof.
  induction changes1 as [|c rest IH]; [done|].
  rewrite <- app_comm_cons, !sendChangesToInput_cons, IH.
  by rewrite app_assoc.
Qed.

(** C8. Every change message handed to [sendChangesToInput] contributes, at
    its place in the array sent to the input, exactly [((key, value), +1)]
    when it is an insert, exactly [((key, value), -1)] when it is a delete,
    and exactly the pair [((key, previousValue), -1)], [((key, value), +1)]
    when it is an update, where [key] is [getKey] of the message's value. *)
Theorem sendChangesToInput_splits_updates getKey before change after :
  sendChangesToInput getKey (before ++ change :: after)
  = sendChangesToInput getKey before
    ++ match change with
       | Insert _ value => [((getKey value, value), 1)]
       | Update _ previousValue value =>
           [((getKey value, previousValue), -1); ((getKey value, value), 1)]
       | Delete _ value => [((getKey value, value), -1)]
       end
    ++ sendChangesToInput getKey after.
Proof.
  rewrite sendChangesToInput_app, sendChangesToInput_cons.
  by destruct change.
Qed.

End Boundary.

End ChangesFacts.

(** ** The materializer *)

Module MaterializerFacts.
Import Materializer MaterializerSpec.

Section Fold.
Context {K R : Type} `{EqDecision K} `{Countable R}.
Implicit Types (messages : list (OutTuple K R)) (acc : list (K * KeyChanges R)).

Lemma accGet_None acc k : accGet acc k = None ↔ k ∉ acc.*1.
Proof.
  induction acc as [|[k' c] rest IH]; csimpl.
  - split; [intros _; apply not_elem_of_nil | done].
  - destruct (decide (k' = k)) as [Hk|Hk].
    + subst. split; [done | intros Hn; exfalso; apply Hn; left].
    + rewrite IH, not_elem_of_cons. naive_solver.
Qed.

Lemma accGet_accSet acc k c k' :
  accGet (accSet acc k c) k' = if decide (k = k') then Some c else accGet acc k'.
Proof.
  induction acc as [|[k0 c0] rest IH]; csimpl.
  - repeat case_decide; congruence.
  - destruct (decide (k0 = k)) as [->|Hne]; csimpl.
    + repeat case_decide; congruence.
    + rewrite IH. repeat case_decide; congruence.
Qed.

Lemma accSet_keys acc k c :
  (accSet acc k c).*1 = if decide (k ∈ acc.*1) then acc.*1 else acc.*1 ++ [k].
Proof.
  induction acc as [|[k0 c0] rest IH]; csimpl.
  - destruct (decide (k ∈ [])) as [Hin|Hin]; [by apply elem_of_nil in Hin | done].
  - destruct (decide (k0 = k)) as [->|Hne]; csimpl.
    + rewrite decide_True; [done | left].
    + rewrite IH. destruct (decide (k ∈ rest.*1)) as [Hin|Hin].
      * rewrite decide_True; [done | by right].
      * rewrite decide_False; [done |].
        rewrite not_elem_of_cons. naive_solver.
Qed.

Lemma insertsOf_app k messages1 messages2 :
  insertsOf k (messages1 ++ messages2)
  = insertsOf k messages1 + insertsOf k messages2.
Proof. induction messages1; simpl; lia. Qed.

Lemma deletesOf_app k messages1 messages2 :
  deletesOf k (messages1 ++ messages2)
  = deletesOf k messages1 + deletesOf k messages2.
Proof. induction messages1; simpl; lia. Qed.

Lemma insertsOf_nonneg k messages : 0 ≤ insertsOf k messages.
Proof. induction messages; simpl; [done | case_decide; lia]. Qed.

Lemma deletesOf_nonneg k messages : 0 ≤ deletesOf k messages.
Proof. induction messages; simpl; [done | case_decide; lia]. Qed.

Lemma keysInOrder_snoc messages t :
  keysInOrder (messages ++ [t])
  = if decide (keyOf t ∈ keysInOrder messages) then keysInOrder messages
    else keysInOrder messages ++ [keyOf t].
Proof. unfold keysInOrder. by rewrite fold_left_app. Qed.

Lemma reduceMessages_snoc messages t :
  reduceMessages (messages ++ [t]) = accumulate (reduceMessages messages) t.
Proof. unfold reduceMessages. by rewrite fold_left_app. Qed.

Lemma keysInOrder_NoDup messages : NoDup (keysInOrder messages).
Proof.
  induction messages as [|t rest IH] using rev_ind; [constructor|].
  rewrite keysInOrder_snoc. case_decide; [done|].
  apply NoDup_app. split_and!; [done | | apply NoDup_singleton].
  intros x Hx Hx'. apply list_elem_of_singleton in Hx'. by subst.
Qed.

Lemma keysInOrder_elem messages k :
  k ∈ keysInOrder messages ↔ k ∈ map keyOf messages.
Proof.
  induction messages as [|t rest IH] using rev_ind; [done|].
  rewrite keysInOrder_snoc, map_app, elem_of_app. simpl.
  rewrite list_elem_of_singleton, <- IH.
  case_decide; [naive_solver|].
  rewrite elem_of_app, list_elem_of_singleton. done.
Qed.

Lemma payloadOf_snoc k messages t :
  payloadOf k (messages ++ [t])
  = if decide (keyOf t = k) then
      if decide (0 < multiplicityOf t) then Some (payloadOfTuple t)
      else match payloadOf k messages with
           | Some p => Some p
           | None => Some (payloadOfTuple t)
           end
    else payloadOf k messages.
Proof.
  unfold payloadOf. rewrite !filter_app, !filter_cons, !filter_nil.
  destruct (decide (keyOf t = k)) as [Hk|Hk].
  - destruct (decide (0 < multiplicityOf t)) as [Hm|Hm].
    + rewrite decide_True by done. by rewrite last_snoc.
    + rewrite decide_False by naive_solver. rewrite app_nil_r.
      destruct (last _); [done|].
      rewrite head_snoc. by destruct (head _).
  - rewrite decide_False by naive_solver. by rewrite !app_nil_r.
Qed.

Lemma payloadOf_None k messages :
  payloadOf k messages = None ↔ k ∉ keysInOrder messages.
Proof.
  induction messages as [|t rest IH] using rev_ind.
  - split; [intros _; apply not_elem_of_nil | done].
  - rewrite payloadOf_snoc, keysInOrder_snoc.
    destruct (decide (keyOf t = k)) as [<-|Hk].
    + split.
      * repeat case_decide; try done. all: destruct (payloadOf _ _); done.
      * intros Hn. exfalso. apply Hn. case_decide; [done|].
        apply elem_of_app. right. by apply list_elem_of_singleton.
    + rewrite IH. case_decide; [done|].
      rewrite not_elem_of_app, list_elem_of_singleton. naive_solver.
Qed.

Lemma reduceMessages_summary messages :
  (reduceMessages messages).*1 = keysInOrder messages
  ∧ ∀ k, accGet (reduceMessages messages) k = summary k messages.
Proof.
  induction messages as [|t rest [IHk IHg]] using rev_ind; [done|].
  rewrite reduceMessages_snoc, keysInOrder_snoc.
  destruct t as [[key [v i]] m]. unfold accumulate.
  rewrite accSet_keys, IHk. split; [done|].
  intros k. rewrite accGet_accSet, IHg.
  unfold summary. rewrite payloadOf_snoc, insertsOf_app, deletesOf_app.
  simpl. unfold keyOf, multiplicityOf, payloadOfTuple. simpl.
  destruct (decide (key = k)) as [->|Hk].
  - destruct (payloadOf k rest) as [[v0 i0]|] eqn:Hp; simpl.
    + destruct (Z.ltb_spec m 0), (Z.ltb_spec 0 m); try lia;
        repeat case_decide; try done; try lia; simpl; f_equal; f_equal; lia.
    + apply payloadOf_None in Hp.
      assert (insertsOf k rest = 0 ∧ deletesOf k rest = 0) as [-> ->].
      { clear -Hp. rewrite keysInOrder_elem in Hp.
        induction rest as [|t rest IH]; [done|]. simpl in *.
        rewrite not_elem_of_cons in Hp. destruct Hp as [Hne Hp].
        rewrite !decide_False by done. destruct (IH Hp). lia. }
      destruct (Z.ltb_spec m 0), (Z.ltb_spec 0 m); try lia;
        repeat case_decide; try done; try lia; simpl; f_equal; f_equal; lia.
  - by rewrite !Z.add_0_r.
Qed.

Lemma classify_decision present inserts deletes :
  0 ≤ inserts → 0 ≤ deletes →
  classify present inserts deletes = decision present inserts deletes.
Proof.
  intros Hi Hd. unfold classify, decision.
  destruct (Z.eqb_spec inserts 0), (Z.eqb_spec deletes 0),
    (Z.ltb_spec deletes inserts), (Z.eqb_spec inserts deletes),
    (Z.ltb_spec 0 deletes), present; simpl;
    repeat case_decide; try done; try lia; naive_solver lia.
Qed.

Lemma accGet_elem acc k c :
  NoDup acc.*1 → (k, c) ∈ acc → accGet acc k = Some c.
Proof.
  induction acc as [|[k0 c0] rest IH]; csimpl; intros Hnd Hin.
  - by apply elem_of_nil in Hin.
  - apply NoDup_cons in Hnd as [Hk0 Hnd].
    apply elem_of_cons in Hin as [Heq|Hin].
    + inversion Heq; subst. by rewrite decide_True.
    + rewrite decide_False; [by apply IH|].
      intros ->. apply Hk0. apply list_elem_of_fmap. by exists (k, c).
Qed.

Lemma forEachKey_writesFor has messages acc (st : MatState K R) :
  (∀ k c, (k, c) ∈ acc → summary k messages = Some c) →
  ((forEachKey has acc st).1.2, (forEachKey has acc st).2)
  = writesFor has messages acc.*1.
Proof.
  revert st. induction acc as [|[k c] rest IH]; intros st Hsum; [done|].
  csimpl.
  assert (summary k messages = Some c) as Hk by (apply Hsum; left).
  unfold summary in Hk.
  destruct (payloadOf k messages) as [[v i]|]; [|done].
  simpl in Hk. injection Hk as <-. simpl.
  rewrite classify_decision
    by (apply insertsOf_nonneg || apply deletesOf_nonneg).
  destruct (decision _ _ _); [|done].
  match goal with |- context [forEachKey has rest ?s] =>
    specialize (IH s); destruct (forEachKey has rest s) as [[st' evs] ok] end.
  simpl in *. rewrite <- IH; [done|].
  intros k' c' Hin. apply Hsum. by right.
Qed.

(** C2, as amended. For every batch and every state of the materializer, the
    callback opens a transaction, then takes the output keys in the order
    the batch first names them and, with [inserts] and [deletes] the sums of
    the positive and of the negated negative multiplicities of the key's
    tuples, writes an insert when [inserts > 0] and [deletes = 0]; an update
    when [deletes > 0] and either [inserts > deletes] or [inserts = deletes]
    with the key present; a delete when [deletes > 0] otherwise; an update
    when both are [0] and the key is present; and raises the error, leaving
    the transaction uncommitted, when both are [0] and the key is absent.
    It commits exactly when no key raised. *)
Theorem onOutput_decides_per_key has messages (st : MatState K R) :
  (onOutput has messages st).1.2
  = Begin :: (writesFor has messages (keysInOrder messages)).1
      ++ (if (writesFor has messages (keysInOrder messages)).2
          then [Commit] else [])
  ∧ (onOutput has messages st).2
    = (writesFor has messages (keysInOrder messages)).2.
Proof.
  unfold onOutput.
  match goal with |- context [forEachKey has ?a ?s] =>
    pose proof (forEachKey_writesFor has messages a s) as Hw;
    destruct (forEachKey has a s) as [[st' evs] ok] end.
  destruct (reduceMessages_summary messages) as [Hkeys Hget].
  rewrite Hkeys in Hw. simpl in *.
  rewrite <- Hw; [done|].
  intros k c Hin. rewrite <- Hget. apply accGet_elem; [|done].
  rewrite Hkeys. apply keysInOrder_NoDup.
Qed.

End Fold.

(** C2, the claim as stated fails. A batch that inserts a row and then
    replaces its value names the key with two insertions and one deletion.
    The key is not in the result collection, so the stated table asks for an
    insert; the materializer writes an update. *)
Lemma onOutput_updates_absent_key :
  let messages : list (OutTuple nat nat) :=
    [((7%nat, (1%nat, None)), 1); ((7%nat, (1%nat, None)), -1);
     ((7%nat, (2%nat, None)), 1)] in
  insertsOf 7%nat messages = 2
  ∧ deletesOf 7%nat messages = 1
  ∧ (onOutput (fun _ => false) messages (mkMatState ∅ ∅ 0)).1.2
    = [Begin; Write WUpdate 2%nat; Commit]
  ∧ ¬ SpecEmits false 2 1 (Some WUpdate).
Proof.
  split_and!; [done | done | by vm_compute |].
  inversion 1; lia.
Qed.

End MaterializerFacts.

(** ** The subscription driver *)

Module DriverFacts.
Import Changes Materializer Driver.

Section Operations.
Context {K V R OV G : Type} `{Countable K} `{Countable R}.
Variable ops : GraphOps K V R G.
Abbreviation WorldT := (World K V R OV G).
Abbreviation MT := (M (K:=K) (V:=V) (R:=R) (OV:=OV) (G:=G)).
Abbreviation onSubs := (onSubscriptions (K:=K) (V:=V) (R:=R) (OV:=OV) (G:=G)).
Implicit Types (w : WorldT) (rec : option nat -> MT unit).
Implicit Types (l : list (Subscription K V OV G)) (s : Subscription K V OV G).

Lemma bind_Done {A B} (m : MT A) (f : A -> MT B) w a w' :
  m w = Done a w' -> (m ≫= f) w = f a w'.
Proof. unfold mbind, M_bind. by intros ->. Qed.

Lemma sendChangesToPipeline_sent rec collectionId changes callback w s :
  subscriptions w !! collectionId = Some s ->
  sendChangesToPipeline ops rec collectionId changes callback w
  = rec callback
      (sent ops collectionId
            (sendChangesToInput (getKey (collection s)) changes) w).
Proof.
  intros Hs. unfold sendChangesToPipeline, mbind, M_bind, getSubscription.
  rewrite Hs. done.
Qed.

(** *** The triples *)

Lemma hoare_ret {A} (P : WorldT -> Prop) (a : A) (Q : A -> WorldT -> Prop) :
  (forall w, P w -> Q a w) -> hoare P (mret a) Q.
Proof. intros HQ w HP. by apply HQ. Qed.

Lemma hoare_bind {A B} (P : WorldT -> Prop) (m : MT A) (f : A -> MT B)
    (Q' : A -> WorldT -> Prop) (Q : B -> WorldT -> Prop) :
  hoare P m Q' -> (forall a, hoare (Q' a) (f a) Q) -> hoare P (m ≫= f) Q.
Proof.
  intros Hm Hf w HP. specialize (Hm w HP).
  unfold mbind, M_bind. destruct (m w) as [a w'| |]; [|done..].
  by apply Hf.
Qed.

Lemma hoare_consequence {A} (P P' : WorldT -> Prop) (m : MT A)
    (Q Q' : A -> WorldT -> Prop) :
  hoare P' m Q' -> (forall w, P w -> P' w) -> (forall a w, Q' a w -> Q a w) ->
  hoare P m Q.
Proof.
  intros Hm HP HQ w Hw. specialize (Hm w (HP w Hw)).
  destruct (m w); [by apply HQ|done..].
Qed.

(** Steps that leave the subscriptions alone keep every property of them. *)

Section Frame.
Variable I : list (Subscription K V OV G) -> Prop.

Lemma hoare_getWorld :
  hoare (onSubs I) getWorld (fun _ => onSubs I).
Proof. by intros w HP. Qed.

Lemma hoare_emit ev : hoare (onSubs I) (emit ev) (fun _ => onSubs I).
Proof. by intros w HP. Qed.

Lemma hoare_setGraph g :
  hoare (onSubs I) (setGraph g) (fun _ => onSubs I).
Proof. by intros w HP. Qed.

Lemma hoare_markReady :
  hoare (onSubs I) markReady (fun _ => onSubs I).
Proof. by intros w HP. Qed.

Lemma hoare_outputCallback messages :
  hoare (onSubs I) (outputCallback messages) (fun _ => onSubs I).
Proof.
  intros w HP. unfold outputCallback.
  destruct (onOutput _ _ _) as [[mat' events] ok]. by destruct ok.
Qed.

Lemma hoare_forEachBatch batches :
  hoare (onSubs I) (forEachBatch batches) (fun _ => onSubs I).
Proof.
  induction batches as [|b rest IH]; simpl.
  - by apply hoare_ret.
  - eapply hoare_bind; [apply hoare_outputCallback|]. intros ?. apply IH.
Qed.

Lemma hoare_graphRun :
  hoare (onSubs I) (graphRun ops) (fun _ => onSubs I).
Proof.
  unfold graphRun. eapply hoare_bind; [apply hoare_getWorld|].
  intros w0. eapply hoare_bind; [apply hoare_emit|]. intros ?.
  destruct (run ops (graph w0)) as [[g batches]|]; [|done].
  eapply hoare_bind; [apply hoare_setGraph|].
  intros ?. apply hoare_forEachBatch.
Qed.

Lemma hoare_getSubscription collectionId :
  hoare (onSubs I) (getSubscription collectionId)
        (fun s => onSubs (fun l => I l /\ l !! collectionId = Some s)).
Proof.
  intros w HP. unfold getSubscription, onSubs.
  by destruct (subscriptions w !! collectionId) eqn:Hs.
Qed.

Lemma hoare_getOrderByInfo collectionId :
  hoare (onSubs I) (getOrderByInfo collectionId)
        (fun r => onSubs
                    (fun l => I l /\ l !! collectionId = Some r.1.1)).
Proof.
  intros w HP. unfold getOrderByInfo, mbind, M_bind, getSubscription.
  destruct (subscriptions w !! collectionId) as [s|] eqn:Hs; [|done].
  destruct (orderByInfo s) as [info|]; [|done].
  by destruct (dataNeeded info).
Qed.

Lemma hoare_setSubscription (J : list (Subscription K V OV G) -> Prop)
    collectionId s :
  (forall l, I l -> J (<[collectionId := s]> l)) ->
  hoare (onSubs I) (setSubscription collectionId s)
        (fun _ => onSubs J).
Proof. intros HJ w HP. by apply HJ. Qed.

Lemma hoare_weaken {A} (J : list (Subscription K V OV G) -> Prop) (m : MT A)
    (Q : A -> WorldT -> Prop) :
  hoare (onSubs J) m Q -> (forall l, I l -> J l) ->
  hoare (onSubs I) m Q.
Proof. intros Hm HJ w HP. apply Hm. by apply HJ. Qed.

End Frame.

(** *** [loadedInitialState] is never reset *)

Section Flag.
Variable flagId : nat.

Abbreviation flagSet := (Driver.flagSet flagId).

Lemma flagSet_insert l collectionId s s' :
  flagSet l -> l !! collectionId = Some s ->
  loadedInitialState s' = loadedInitialState s ->
  flagSet (<[collectionId := s']> l).
Proof.
  intros (s0 & Hs0 & Hflag) Hs Heq.
  destruct (decide (collectionId = flagId)) as [->|Hne].
  - exists s'. split; [|congruence].
    apply list_lookup_insert_eq. by eapply lookup_lt_Some.
  - exists s0. by rewrite list_lookup_insert_ne.
Qed.

Abbreviation keepsFlag m := (hoare (onSubs flagSet) m
                                   (fun _ => onSubs flagSet)).

Lemma keepsFlag_sendChangesToPipeline rec collectionId changes callback :
  (forall cb, keepsFlag (rec cb)) ->
  keepsFlag (sendChangesToPipeline ops rec collectionId changes callback).
Proof.
  intros Hrec. unfold sendChangesToPipeline.
  eapply hoare_bind; [apply hoare_getSubscription|]. intros s.
  eapply hoare_weaken; [|by intros l [? ?]].
  eapply hoare_bind; [apply hoare_getWorld|]. intros w0.
  eapply hoare_bind; [apply hoare_setGraph|]. intros ?.
  eapply hoare_bind; [apply hoare_emit|]. intros ?.
  apply Hrec.
Qed.

Lemma keepsFlag_sendChangesToPipelineWithTracking rec collectionId changes :
  (forall cb, keepsFlag (rec cb)) ->
  keepsFlag (sendChangesToPipelineWithTracking ops rec collectionId changes).
Proof.
  intros Hrec. unfold sendChangesToPipelineWithTracking.
  eapply hoare_bind; [apply hoare_getOrderByInfo|]. intros [[s info] dn].
  simpl.
  eapply hoare_bind.
  { apply hoare_setSubscription with (J := flagSet).
    intros l [Hl Hs]. by eapply flagSet_insert. }
  intros ?. by apply keepsFlag_sendChangesToPipeline.
Qed.

Lemma keepsFlag_loadNextItems rec collectionId n :
  (forall cb, keepsFlag (rec cb)) ->
  keepsFlag (loadNextItems ops rec collectionId n).
Proof.
  intros Hrec. unfold loadNextItems.
  eapply hoare_bind; [apply hoare_getOrderByInfo|]. intros [[s info] dn].
  simpl. eapply hoare_weaken; [|by intros l [? ?]].
  eapply hoare_bind; [apply hoare_emit|]. intros ?.
  destruct (insertsOfKeys _ _); [|done].
  by apply keepsFlag_sendChangesToPipelineWithTracking.
Qed.

Lemma keepsFlag_loadMoreIfNeeded rec collectionId :
  (forall cb, keepsFlag (rec cb)) ->
  hoare (onSubs flagSet) (loadMoreIfNeeded ops rec collectionId)
        (fun _ => onSubs flagSet).
Proof.
  intros Hrec. unfold loadMoreIfNeeded.
  eapply hoare_bind; [apply hoare_getOrderByInfo|]. intros [[s info] dn].
  simpl. eapply hoare_weaken; [|by intros l [? ?]].
  eapply hoare_bind; [apply hoare_getWorld|]. intros w0.
  eapply hoare_bind; [apply hoare_emit|]. intros ?.
  eapply hoare_bind with (Q' := fun _ => onSubs flagSet).
  { destruct (0 <? dn (graph w0)).
    - by apply keepsFlag_loadNextItems.
    - by apply hoare_ret. }
  intros ?. by apply hoare_ret.
Qed.

Lemma keepsFlag_maybeRunGraph fuel callback :
  keepsFlag (maybeRunGraph ops fuel callback).
Proof.
  revert callback. induction fuel as [|fuel IH]; intros callback; [done|].
  simpl. eapply hoare_bind; [apply hoare_getWorld|]. intros w0.
  destruct (_ && _); [|by apply hoare_ret].
  eapply hoare_bind; [apply hoare_graphRun|]. intros ?.
  eapply hoare_bind with (Q' := fun _ => onSubs flagSet).
  { destruct callback as [c|]; [|by apply hoare_ret].
    by apply keepsFlag_loadMoreIfNeeded. }
  intros ready. eapply hoare_bind; [apply hoare_getWorld|]. intros w1.
  eapply hoare_bind with (Q' := fun _ => onSubs flagSet).
  { destruct (_ =? _); [|by apply hoare_ret].
    eapply hoare_bind; [apply hoare_emit|]. intros ?. apply hoare_emit. }
  intros ?. eapply hoare_bind; [apply hoare_getWorld|]. intros w2.
  destruct (_ && _); [apply hoare_markReady|by apply hoare_ret].
Qed.

End Flag.

(** *** Lazy-matching subscriptions *)

Lemma loadInitialState_first rec collectionId w s :
  subscriptions w !! collectionId = Some s ->
  loadedInitialState s = false ->
  loadInitialState ops rec collectionId w
  = rec None
      (sent ops collectionId
         (sendChangesToInput (getKey (collection s))
            (currentStateAsChanges (collection s) (whereExpression s)))
         (afterFlag collectionId s w)).
Proof.
  intros Hs Hflag.
  assert (collectionId < length (subscriptions w))%nat as Hlt
    by by eapply lookup_lt_Some.
  unfold loadInitialState, mbind, M_bind, getSubscription at 1.
  rewrite Hs, Hflag. simpl.
  erewrite sendChangesToPipeline_sent; cycle 1.
  { simpl. by apply list_lookup_insert_eq. }
  done.
Qed.

Lemma loadInitialState_again rec collectionId w :
  onSubs (Driver.flagSet collectionId) w ->
  loadInitialState ops rec collectionId w = Done tt w.
Proof.
  intros (s & Hs & Hflag).
  unfold loadInitialState, mbind, M_bind, getSubscription.
  by rewrite Hs, Hflag.
Qed.

Lemma loadInitialState_sets_flag rec collectionId :
  (forall cb, hoare (onSubs (Driver.flagSet collectionId)) (rec cb)
                    (fun _ => onSubs (Driver.flagSet collectionId))) ->
  hoare (fun _ => True) (loadInitialState ops rec collectionId)
        (fun _ => onSubs (Driver.flagSet collectionId)).
Proof.
  intros Hrec w _.
  destruct (subscriptions w !! collectionId) as [s|] eqn:Hs.
  - destruct (loadedInitialState s) eqn:Hflag.
    + assert (onSubs (Driver.flagSet collectionId) w) as Hw by (by exists s).
      rewrite loadInitialState_again; done.
    + rewrite (loadInitialState_first _ _ _ s) by done.
      apply Hrec. eexists. split.
      * simpl. apply list_lookup_insert_eq. by eapply lookup_lt_Some.
      * done.
  - unfold loadInitialState, mbind, M_bind, getSubscription. by rewrite Hs.
Qed.

Lemma times_returned n (m : MT unit) w :
  m w = Done tt w -> times n m w = Done tt w.
Proof.
  intros Hm. induction n as [|n IH]; [done|].
  simpl. unfold mbind, M_bind. by rewrite Hm.
Qed.

(** C9. From a world in which [loadInitialState] has not been called, the
    first call fetches the collection's filtered current state once, sends
    it to the collection's input and runs the graph; a call made after it
    returned changes nothing and sends nothing; and calling it [n >= 1]
    times in a row has the effect of calling it once. *)
Theorem loadInitialState_idempotent fuel collectionId w s :
  subscriptions w !! collectionId = Some s ->
  loadedInitialState s = false ->
  let call := loadInitialState ops (maybeRunGraph ops fuel) collectionId in
  call w
  = maybeRunGraph ops fuel None
      (sent ops collectionId
         (sendChangesToInput (getKey (collection s))
            (currentStateAsChanges (collection s) (whereExpression s)))
         (afterFlag collectionId s w))
  /\ (forall w', call w = Done tt w' -> call w' = Done tt w')
  /\ (forall n, (1 <= n)%nat -> times n call w = call w).
Proof.
  intros Hs Hflag call.
  assert (forall w', call w = Done tt w' -> call w' = Done tt w') as Hagain.
  { intros w' Hw'. apply loadInitialState_again.
    pose proof (loadInitialState_sets_flag (maybeRunGraph ops fuel)
                  collectionId (keepsFlag_maybeRunGraph collectionId fuel)
                  w I) as Hpost.
    fold call in Hpost. by rewrite Hw' in Hpost. }
  split_and!; [by apply loadInitialState_first | done |].
  intros [|n] Hn; [lia|]. simpl. unfold mbind, M_bind.
  destruct (call w) as [[] w'| |] eqn:Hcall; [|done..].
  apply times_returned. by apply Hagain.
Qed.

Lemma visibleChanges_app (sentKeys : gset K) (changes1 changes2 : list (ChangeMessage K V)) :
  visibleChanges sentKeys (changes1 ++ changes2)
  = visibleChanges sentKeys changes1 ++ visibleChanges sentKeys changes2.
Proof.
  induction changes1 as [|c rest IH]; [done|]. simpl.
  case_bool_decide; [by rewrite IH|]. destruct c; by rewrite IH.
Qed.

(** C6, as amended. The listener of a lazy-matching collection sends every
    delivered batch to the collection's input and runs the graph.  While
    [loadInitialState] has not been called, an update whose key is not in
    [sentKeys] is sent as an insert of its new value and a delete whose key
    is not in [sentKeys] is dropped, and changes for keys in [sentKeys], and
    inserts, are sent as they are; once [loadInitialState] has been called
    every change is sent as it is. *)
Theorem sendVisibleChanges_masks_until_initial_load rec collectionId changes w s :
  subscriptions w !! collectionId = Some s ->
  sendVisibleChanges ops rec collectionId changes w
  = rec None
      (sent ops collectionId
         (sendChangesToInput (getKey (collection s))
            (if loadedInitialState s then changes
             else visibleChanges (lazySentKeys s) changes)) w)
  /\ forall (before : list (ChangeMessage K V)) change after,
      visibleChanges (lazySentKeys s) (before ++ change :: after)
      = visibleChanges (lazySentKeys s) before
        ++ (if bool_decide (key change ∈ lazySentKeys s) then [change]
            else match change with
                 | Update k _ v => [Insert k v]
                 | Delete _ _ => []
                 | Insert _ _ => [change]
                 end)
        ++ visibleChanges (lazySentKeys s) after.
Proof.
  intros Hs. split.
  - unfold sendVisibleChanges, mbind, M_bind, getSubscription. rewrite Hs.
    unfold sendVisibleChangesToPipeline.
    destruct (loadedInitialState s); by apply sendChangesToPipeline_sent.
  - intros before change after. rewrite visibleChanges_app. f_equal. simpl.
    case_bool_decide; [done|]. by destruct change.
Qed.

(** *** Ordered subscriptions *)

Lemma getOrderByInfo_eq collectionId w s info dn :
  subscriptions w !! collectionId = Some s ->
  orderByInfo s = Some info -> dataNeeded info = Some dn ->
  getOrderByInfo collectionId w = Done (s, info, dn) w.
Proof.
  intros Hs Hinfo Hdn. unfold getOrderByInfo, mbind, M_bind, getSubscription.
  by rewrite Hs, Hinfo, Hdn.
Qed.





Lemma maybeRunGraph_not_subscribed fuel callback w :
  subscribedToAllCollections w = false ->
  maybeRunGraph ops (S fuel) callback w = Done tt w.
Proof.
  intros Hsub. simpl. unfold mbind, M_bind, getWorld.
  by rewrite Hsub, andb_false_r.
Qed.

Lemma subscribeToOrderedChanges_initial_load fuel collectionId w s info dn inserts :
  subscriptions w !! collectionId = Some s ->
  orderByInfo s = Some info -> dataNeeded info = Some dn ->
  subscribedToAllCollections w = false ->
  insertsOfKeys (collection s)
    (index info (rows (collection s)) (offset info + limit info) None)
  = Some inserts ->
  exists w',
    subscribeToOrderedChanges ops (S fuel) collectionId w = Done tt w'
    /\ trace w'
       = trace w
         ++ [EvIndexTake collectionId (offset info + limit info) None;
             EvSendData collectionId
               (sendChangesToInput (getKey (collection s)) inserts);
             EvSubscribe collectionId false]
    /\ graph w'
       = sendData ops collectionId
           (sendChangesToInput (getKey (collection s)) inserts) (graph w).
Proof.
  intros Hs Hinfo Hdn Hsub Hins.
  assert (collectionId < length (subscriptions w))%nat as Hlt
    by by eapply lookup_lt_Some.
  unfold subscribeToOrderedChanges.
  remember (maybeRunGraph ops (S fuel)) as rec eqn:Hrec.
  erewrite bind_Done by by apply getOrderByInfo_eq.
  unfold setSubscription at 1. erewrite bind_Done by done.
  erewrite bind_Done; cycle 1.
  { unfold loadNextItems.
    erewrite bind_Done; cycle 1.
    { eapply getOrderByInfo_eq; [by apply list_lookup_insert_eq|done..]. }
    simpl. unfold emit at 1. erewrite bind_Done by done.
    rewrite Hins. unfold sendChangesToPipelineWithTracking.
    erewrite bind_Done; cycle 1.
    { eapply getOrderByInfo_eq; [by apply list_lookup_insert_eq|done..]. }
    simpl. unfold setSubscription at 1. erewrite bind_Done by done.
    erewrite sendChangesToPipeline_sent; cycle 1.
    { simpl. apply list_lookup_insert_eq. by rewrite length_insert. }
    subst rec. by apply maybeRunGraph_not_subscribed. }
  eexists. split; [done|]. simpl. split; [|done].
  by rewrite <- !app_assoc.
Qed.

End Operations.
End DriverFacts.

(** ** Reference hashing *)

Module HashFacts.
Import Hash HashSpec.

Lemma toInt32_range x : - 2 ^ 31 <= toInt32 x < 2 ^ 31.
Proof. unfold toInt32. pose proof (Z.mod_pos_bound (x + 2 ^ 31) (2 ^ 32)). lia. Qed.

Lemma toInt32_inj_small a b :
  0 <= a < 2 ^ 32 -> 0 <= b < 2 ^ 32 -> toInt32 a = toInt32 b -> a = b.
Proof.
  unfold toInt32. intros Ha Hb Heq.
  assert ((a + 2 ^ 31) mod 2 ^ 32 = (b + 2 ^ 31) mod 2 ^ 32) as Hmod by lia.
  destruct (Z_lt_ge_dec (a + 2 ^ 31) (2 ^ 32)), (Z_lt_ge_dec (b + 2 ^ 31) (2 ^ 32)).
  - rewrite !Z.mod_small in Hmod by lia. lia.
  - rewrite (Z.mod_small (a + _)) in Hmod by lia.
    replace (b + 2 ^ 31) with (b + 2 ^ 31 - 2 ^ 32 + 1 * 2 ^ 32) in Hmod by lia.
    rewrite Z.mod_add, Z.mod_small in Hmod by lia. lia.
  - rewrite (Z.mod_small (b + _)) in Hmod by lia.
    replace (a + 2 ^ 31) with (a + 2 ^ 31 - 2 ^ 32 + 1 * 2 ^ 32) in Hmod by lia.
    rewrite Z.mod_add, Z.mod_small in Hmod by lia. lia.
  - replace (a + 2 ^ 31) with (a + 2 ^ 31 - 2 ^ 32 + 1 * 2 ^ 32) in Hmod by lia.
    replace (b + 2 ^ 31) with (b + 2 ^ 31 - 2 ^ 32 + 1 * 2 ^ 32) in Hmod by lia.
    rewrite !Z.mod_add, !Z.mod_small in Hmod by lia. lia.
Qed.

Lemma toInt32_wraps a : toInt32 (a + 2 ^ 32) = toInt32 a.
Proof.
  unfold toInt32. f_equal.
  replace (a + 2 ^ 32 + 2 ^ 31) with (a + 2 ^ 31 + 1 * 2 ^ 32) by lia.
  by rewrite Z.mod_add.
Qed.

Lemma jsXor_inj_small a b c :
  0 <= a < 2 ^ 32 -> 0 <= b < 2 ^ 32 -> jsXor a c = jsXor b c -> a = b.
Proof.
  unfold jsXor. intros Ha Hb Heq. apply toInt32_inj_small; [done..|].
  apply (f_equal (fun z => Z.lxor z (toInt32 c))) in Heq.
  by rewrite !Z.lxor_assoc, !Z.lxor_nilpotent, !Z.lxor_0_r in Heq.
Qed.

Lemma jsXor_wraps a c : jsXor (a + 2 ^ 32) c = jsXor a c.
Proof. unfold jsXor. by rewrite toInt32_wraps. Qed.

(** An induction principle that reaches the property values. *)
Lemma Value_props_ind (P : Value -> Prop) :
  P VNull -> P VUndefined -> (forall b, P (VBoolean b)) ->
  (forall n, P (VNumber n)) -> P VNaN -> (forall n, P (VBigInt n)) ->
  (forall s, P (VString s)) -> (forall s, P (VSymbol s)) ->
  (forall oid, P (VFunction oid)) ->
  (forall oid class time bytes props,
     Forall (fun kv => P kv.2) props -> P (VObject oid class time bytes props)) ->
  forall v, P v.
Proof.
  intros Hnull Hundef Hbool Hnum Hnan Hbig Hstr Hsym Hfun Hobj.
  fix IH 1. intros [| |b|n| |n|s|s|oid|oid class time bytes props].
  - exact Hnull.
  - exact Hundef.
  - apply Hbool.
  - apply Hnum.
  - exact Hnan.
  - apply Hbig.
  - apply Hstr.
  - apply Hsym.
  - apply Hfun.
  - apply Hobj. induction props as [|[k v] rest IHrest].
    + constructor.
    + constructor; [apply IH | exact IHrest].
Qed.

Section HashObject.
Variables TRUE FALSE NULL UNDEFINED KEY FUNCTIONS DATE_MARKER : Z.
Variables OBJECT_MARKER ARRAY_MARKER MAP_MARKER SET_MARKER : Z.
Variable Hasher : Type.
Variable newHasher : Hasher.
Variable update : Hasher -> HashInput -> Hasher.
Variable digest : Hasher -> Z.
Variable isRef : positive -> bool.

Abbreviation updateHasher' :=
  (updateHasher TRUE FALSE NULL UNDEFINED KEY FUNCTIONS DATE_MARKER
     OBJECT_MARKER ARRAY_MARKER MAP_MARKER SET_MARKER Hasher newHasher update
     digest).
Abbreviation hashObject' :=
  (hashObject TRUE FALSE NULL UNDEFINED KEY FUNCTIONS DATE_MARKER
     OBJECT_MARKER ARRAY_MARKER MAP_MARKER SET_MARKER Hasher newHasher update
     digest).
Abbreviation hash' :=
  (hash TRUE FALSE NULL UNDEFINED KEY FUNCTIONS DATE_MARKER
     OBJECT_MARKER ARRAY_MARKER MAP_MARKER SET_MARKER Hasher newHasher update
     digest).
Abbreviation hashAll' :=
  (hashAll TRUE FALSE NULL UNDEFINED KEY FUNCTIONS DATE_MARKER
     OBJECT_MARKER ARRAY_MARKER MAP_MARKER SET_MARKER Hasher newHasher update
     digest).

Instance extends_refl : Reflexive (extends isRef).
Proof. by intros st. Qed.

Instance extends_trans : Transitive (extends isRef).
Proof.
  intros st1 st2 st3 [Hn12 Hc12] [Hn23 Hc23]. split; [lia|].
  intros id h Hid Hh. by apply Hc23, Hc12.
Qed.

Abbreviation sound st st' :=
  (extends isRef st st'
   /\ (referenceHashes FUNCTIONS isRef st -> referenceHashes FUNCTIONS isRef st')).

Lemma sound_refl st : sound st st.
Proof. done. Qed.

Lemma sound_trans st1 st2 st3 : sound st1 st2 -> sound st2 st3 -> sound st1 st3.
Proof. intros [He1 Hr1] [He2 Hr2]. split; [by etrans | auto]. Qed.

Lemma cachedReferenceHash_sound oid st :
  isRef oid = true ->
  sound st (cachedReferenceHash FUNCTIONS oid st).2
  /\ hashCache (cachedReferenceHash FUNCTIONS oid st).2 !! oid
     = Some (cachedReferenceHash FUNCTIONS oid st).1.
Proof.
  intros Hoid. unfold cachedReferenceHash.
  destruct (hashCache st !! oid) as [h|] eqn:Hc; simpl; [done|].
  split_and!.
  - split; simpl; [lia|]. intros id h Hid Hh.
    rewrite lookup_insert_ne; [done|congruence].
  - intros (Hpos & Hnum & Hdist). split_and!; simpl; [lia| |].
    + intros id h Hid. rewrite lookup_insert.
      case_decide as Heq; [intros [= <-]; exists (nextRefId st); split; [lia|done]|].
      intros Hh. destruct (Hnum id h Hid Hh) as (n & Hn & ->).
      exists n. split; [lia|done].
    + intros Hbound id1 id2 h1 h2 Hr1 Hr2 Hne.
      rewrite !lookup_insert. repeat case_decide; subst; try done.
      * intros [= <-] Hh2. destruct (Hnum id2 h2 Hr2 Hh2) as (n & Hn & ->).
        intros Heq. apply jsXor_inj_small in Heq; lia.
      * intros Hh1 [= <-]. destruct (Hnum id1 h1 Hr1 Hh1) as (n & Hn & ->).
        intros Heq. apply jsXor_inj_small in Heq; lia.
      * apply Hdist; [lia|done..].
  - by rewrite lookup_insert_eq.
Qed.

Lemma cache_other_sound oid h st :
  isRef oid = false ->
  sound st (mkHashState (<[oid := h]> (hashCache st)) (nextRefId st)).
Proof.
  intros Hoid. split.
  - split; simpl; [lia|]. intros id h' Hid Hh.
    rewrite lookup_insert_ne; [done|congruence].
  - intros (Hpos & Hnum & Hdist). split_and!; simpl; [done| |].
    + intros id h' Hid. rewrite lookup_insert_ne by congruence. by apply Hnum.
    + intros Hbound id1 id2 h1 h2 Hr1 Hr2 Hne.
      rewrite !lookup_insert_ne by congruence. by apply Hdist.
Qed.

Lemma hashPlainObject_sound props marker st :
  Forall (fun kv => forall hasher st, sound st (updateHasher' kv.2 hasher st).2)
         props ->
  sound st (hashPlainObject KEY Hasher newHasher update digest updateHasher'
                            props marker st).2.
Proof.
  unfold hashPlainObject. generalize (update newHasher (INumber marker)).
  intros hasher Hprops. revert hasher st.
  induction Hprops as [|[k v] rest Hv _ IH]; intros hasher st; simpl.
  - apply sound_refl.
  - specialize (Hv (update (update hasher (INumber KEY)) (IString k)) st).
    simpl in Hv. destruct (updateHasher' v _ st) as [hasher1 st1]. simpl in Hv.
    specialize (IH hasher1 st1). destruct (fold_left _ rest _) as [hasher2 st2].
    simpl in *. by eapply sound_trans.
Qed.

Lemma updateHasher_sound v :
  consistent isRef v = true ->
  forall hasher st, sound st (updateHasher' v hasher st).2.
Proof.
  induction v as [| |b|n| |n|s|s|oid|oid class time bytes props IH]
    using Value_props_ind; intros Hv hasher st; simpl; try apply sound_refl.
  - pose proof (cachedReferenceHash_sound oid st Hv) as [Hs _].
    by destruct (cachedReferenceHash FUNCTIONS oid st).
  - simpl in Hv. apply andb_prop in Hv as [Hoid Hprops].
    apply bool_decide_eq_true in Hoid.
    unfold getCachedHashWith, hashObjectWith.
    destruct (hashCache st !! oid) as [h|]; simpl; [apply sound_refl|].
    destruct (instanceofDate class) eqn:Hdate.
    { simpl. apply cache_other_sound. rewrite Hoid. by destruct class. }
    fold (hashedByReference class). rewrite <- Hoid.
    destruct (isRef oid) eqn:Href.
    { pose proof (cachedReferenceHash_sound oid st Href) as [Hs _].
      by destruct (cachedReferenceHash FUNCTIONS oid st). }
    match goal with |- context [hashPlainObject _ _ _ _ _ _ ?p ?m ?s] =>
      pose proof (hashPlainObject_sound p m s) as Hplain;
      destruct (hashPlainObject KEY Hasher newHasher update digest updateHasher' p m s)
        as [valueHash st'] end.
    simpl in *. eapply sound_trans; [|by apply cache_other_sound].
    apply Hplain. rewrite forallb_forall in Hprops.
    rewrite Forall_forall in IH |- *. intros [k v] Hin hasher' st0.
    apply IH; [done|]. apply (Hprops (k, v)). by apply list_elem_of_In.
Qed.

Lemma hash_sound v st :
  consistent isRef v = true -> sound st (hash' v st).2.
Proof.
  intros Hv. unfold hash.
  pose proof (updateHasher_sound v Hv newHasher st) as Hs.
  by destruct (updateHasher' v newHasher st).
Qed.

Lemma hashAll_sound vs st :
  forallb (consistent isRef) vs = true -> sound st (hashAll' vs st).2.
Proof.
  revert st. induction vs as [|v rest IH]; intros st Hvs; simpl.
  - apply sound_refl.
  - apply andb_prop in Hvs as [Hv Hrest].
    pose proof (hash_sound v st Hv) as Hs.
    destruct (hash' v st) as [h st1]. specialize (IH st1 Hrest).
    destruct (hashAll' rest st1) as [hs st2]. simpl in *.
    by eapply sound_trans.
Qed.

(** Hashing a binary payload: the hash is the cached one if there is one
    and [nextRefId ^ FUNCTIONS] otherwise, and it is cached afterwards. *)
Lemma hashObject_reference oid class time bytes props st :
  hashedByReference class = true ->
  hashObject' oid class time bytes props st = cachedReferenceHash FUNCTIONS oid st.
Proof.
  intros Hclass. unfold hashObject, hashObjectWith, cachedReferenceHash.
  destruct (hashCache st !! oid) as [h|] eqn:Hc; [done|].
  fold (hashedByReference class). rewrite Hclass.
  destruct class; try done.
  all: unfold cachedReferenceHash; by rewrite Hc.
Qed.

Abbreviation hashFresh' :=
  (hashFresh TRUE FALSE NULL UNDEFINED KEY FUNCTIONS DATE_MARKER
     OBJECT_MARKER ARRAY_MARKER MAP_MARKER SET_MARKER Hasher newHasher update
     digest).

Lemma hashFresh_succ content n first st :
  hashFresh' content (N.succ n) first st
  = (Pos.succ (hashFresh' content n first st).1,
     (hashObject' (hashFresh' content n first st).1 CUint8Array 0 content []
                  (hashFresh' content n first st).2).2).
Proof.
  unfold hashFresh. rewrite N.iter_succ.
  by destruct (N.iter n _ _).
Qed.

Lemma hashFresh_allocates content n first st :
  (forall id, Z.pos first <= Z.pos id -> hashCache st !! id = None) ->
  Z.pos (hashFresh' content n first st).1 = Z.pos first + Z.of_N n
  /\ nextRefId (hashFresh' content n first st).2 = nextRefId st + Z.of_N n
  /\ forall id, Z.pos (hashFresh' content n first st).1 <= Z.pos id ->
               hashCache (hashFresh' content n first st).2 !! id = None.
Proof.
  intros Hfresh. induction n as [|n IH] using N.peano_ind.
  - simpl. split_and!; [lia | lia | done].
  - rewrite hashFresh_succ. destruct IH as (Hid & Hnext & Hnone).
    destruct (hashFresh' content n first st) as [id st']. simpl in *.
    rewrite hashObject_reference by done.
    unfold cachedReferenceHash. rewrite Hnone by lia. simpl.
    split_and!; [lia | lia |].
    intros id' Hid'. rewrite lookup_insert_ne by lia. apply Hnone. lia.
Qed.

(** C10, as amended. For a [Buffer], a [Uint8Array] or a [File],
    [hashObject] returns a number that depends on the object's identity and
    not on its bytes.  Whatever is hashed in between, a later call with the
    same object returns the same number and leaves the state as it is; and
    in a run from the initial state, two such objects that are not the same
    object receive different numbers, whether or not their bytes are equal,
    as long as [nextRefId] has not passed [2 ^ 32]. *)
Theorem reference_hash_by_identity
    oid1 class1 time1 bytes1 props1 oid2 class2 time2 bytes2 props2 :
  hashedByReference class1 = true -> isRef oid1 = true ->
  hashedByReference class2 = true -> isRef oid2 = true ->
  (forall st between,
     forallb (consistent isRef) between = true ->
     let first := hashObject' oid1 class1 time1 bytes1 props1 st in
     let st' := (hashAll' between first.2).2 in
     hashObject' oid1 class1 time1 bytes1 props1 st' = (first.1, st'))
  /\ (forall before between,
        forallb (consistent isRef) before = true ->
        forallb (consistent isRef) between = true ->
        let st1 := (hashAll' before initialState).2 in
        let first := hashObject' oid1 class1 time1 bytes1 props1 st1 in
        let st2 := (hashAll' between first.2).2 in
        let second := hashObject' oid2 class2 time2 bytes2 props2 st2 in
        oid1 <> oid2 -> nextRefId second.2 <= 2 ^ 32 ->
        first.1 <> second.1).
Proof.
  intros Hc1 Hr1 Hc2 Hr2. split.
  - intros st between Hbetween first st'. subst first st'.
    rewrite !hashObject_reference by done.
    destruct (cachedReferenceHash_sound oid1 st Hr1) as [_ Hcached].
    destruct (hashAll_sound between (cachedReferenceHash FUNCTIONS oid1 st).2
                Hbetween) as [[_ Hkeep] _].
    unfold cachedReferenceHash at 1. by rewrite (Hkeep _ _ Hr1 Hcached).
  - intros before between Hbefore Hbetween. cbv zeta.
    rewrite !hashObject_reference by done. intros Hne Hbound.
    set (st1 := (hashAll' before initialState).2) in *.
    set (st2 := (hashAll' between (cachedReferenceHash FUNCTIONS oid1 st1).2).2) in *.
    assert (referenceHashes FUNCTIONS isRef initialState) as H0.
    { split_and!; simpl; [lia| |]; intros *; by rewrite ?lookup_empty. }
    destruct (hashAll_sound before initialState Hbefore) as [_ Hinv1].
    specialize (Hinv1 H0). fold st1 in Hinv1.
    destruct (cachedReferenceHash_sound oid1 st1 Hr1) as [[_ Hinv2] Hcached1].
    specialize (Hinv2 Hinv1).
    destruct (hashAll_sound between (cachedReferenceHash FUNCTIONS oid1 st1).2
                Hbetween) as [[_ Hkeep2] Hinv3].
    specialize (Hinv3 Hinv2). fold st2 in Hinv3, Hkeep2.
    destruct (cachedReferenceHash_sound oid2 st2 Hr2) as [[[_ Hkeep3] Hinv4] Hcached2].
    specialize (Hinv4 Hinv3). destruct Hinv4 as (_ & _ & Hdist).
    apply (Hdist Hbound oid1 oid2); [done..| |done].
    by apply Hkeep3, Hkeep2.
Qed.

End HashObject.

(** C10, the claim as stated fails. The state holds the counter as a number
    and [^] reduces it to 32 bits: a byte array allocated after [2 ^ 32]
    reference hashes were handed out receives the hash of the first one. *)
Lemma reference_hash_repeats_after_wrap :
  let first :=
    HashExample.hashObject HashExample.firstId CUint8Array 0
                           HashExample.content [] initialState in
  let st := (HashExample.hashFresh HashExample.content 4294967295 2 first.2).2 in
  let last :=
    HashExample.hashObject HashExample.lastId CUint8Array 0
                           HashExample.content [] st in
  HashExample.firstId <> HashExample.lastId
  /\ hashCache st !! HashExample.lastId = None
  /\ last.1 = first.1.
Proof.
  intros first.
  assert (first = (jsXor 1 HashExample.FUNCTIONS,
                   mkHashState (<[HashExample.firstId := jsXor 1 HashExample.FUNCTIONS]> ∅) 2))
    as Hfirst.
  { subst first. unfold HashExample.hashObject.
    rewrite hashObject_reference by done.
    unfold cachedReferenceHash, initialState. cbn [hashCache nextRefId].
    by rewrite lookup_empty. }
  assert (forall id, 2 <= Z.pos id -> hashCache first.2 !! id = None) as Hfresh.
  { intros id Hid. rewrite Hfirst. simpl.
    rewrite lookup_insert_ne by (unfold HashExample.firstId; lia).
    apply lookup_empty. }
  pose proof (hashFresh_allocates 11 12 13 14 15 HashExample.FUNCTIONS 16 17 18 19 20
                HashExample.Hasher HashExample.newHasher HashExample.update
                HashExample.digest HashExample.content 4294967295 2 first.2 Hfresh)
    as (Hid & Hnext & Hnone).
  unfold HashExample.hashFresh.
  generalize dependent
    (Hash.hashFresh 11 12 13 14 15 HashExample.FUNCTIONS 16 17 18 19 20
       HashExample.Hasher HashExample.newHasher HashExample.update
       HashExample.digest HashExample.content 4294967295 2 first.2).
  intros r Hid Hnext Hnone.
  change (Z.of_N 4294967295) with 4294967295 in Hid, Hnext.
  assert (hashCache r.2 !! HashExample.lastId = None) as Hlast.
  { apply Hnone. rewrite Hid. by vm_compute. }
  split; [discriminate|].
  split; [exact Hlast|].
  unfold HashExample.hashObject.
  rewrite hashObject_reference by done. unfold cachedReferenceHash.
  rewrite Hlast. cbn [fst snd]. rewrite Hnext, Hfirst. cbn [fst snd nextRefId].
  change (2 + 4294967295) with (1 + 2 ^ 32).
  apply jsXor_wraps.
Qed.

(** Two byte arrays with the same bytes, hashed one after the other from
    the initial state. *)
Lemma reference_hash_by_identity_witness :
  let first :=
    HashExample.hashObject 1 CUint8Array 0 HashExample.content [] initialState in
  let second :=
    HashExample.hashObject 2 CUint8Array 0 HashExample.content [] first.2 in
  hashedByReference CUint8Array = true /\ first.1 <> second.1.
Proof.
  intros first second. split; [reflexivity|].
  assert (nextRefId second.2 <= 2 ^ 32) as Hbound by (by vm_compute).
  assert (1%positive <> 2%positive) as Hne by discriminate.
  exact (proj2 (reference_hash_by_identity 11 12 13 14 15 HashExample.FUNCTIONS
                  16 17 18 19 20 HashExample.Hasher HashExample.newHasher
                  HashExample.update HashExample.digest (fun _ => true)
                  1%positive CUint8Array 0 HashExample.content []
                  2%positive CUint8Array 0 HashExample.content []
                  eq_refl eq_refl eq_refl eq_refl)
               [] [] eq_refl eq_refl Hne Hbound).
Defined.

End HashFacts.

(** ** The fractional-index scheme *)

Module FractionalIndexFacts.
Import FractionalIndex.
Local Open Scope nat_scope.

Lemma lexlt_irrefl a : lexlt a a = false.
Proof.
  induction a as [|x a IH]; [done|]. simpl.
  rewrite Nat.ltb_irrefl, Nat.eqb_refl. done.
Qed.

Lemma lexlt_trans a b c : lexlt a b = true -> lexlt b c = true -> lexlt a c = true.
Proof.
  revert b c. induction a as [|x a IH]; intros [|y b] [|z c]; simpl; try done.
  intros Hab Hbc.
  apply orb_true_iff in Hab as [Hxy|Hab], Hbc as [Hyz|Hbc].
  - apply Nat.ltb_lt in Hxy, Hyz. apply orb_true_iff. left. apply Nat.ltb_lt. lia.
  - apply andb_true_iff in Hbc as [Heq _]. apply Nat.eqb_eq in Heq. subst.
    by rewrite Hxy.
  - apply andb_true_iff in Hab as [Heq _]. apply Nat.eqb_eq in Heq. subst.
    by rewrite Hyz.
  - apply andb_true_iff in Hab as [Heq1 Hab], Hbc as [Heq2 Hbc].
    apply Nat.eqb_eq in Heq1, Heq2. subst. rewrite Nat.eqb_refl.
    rewrite (IH b c) by done. apply orb_true_r.
Qed.

Lemma digitChar_compare d e :
  d < base -> e < base ->
  Ascii.compare (digitChar d) (digitChar e) = Nat.compare d e.
Proof.
  unfold base, digitChar, Ascii.compare, ascii_of_nat. intros Hd He.
  rewrite !N_ascii_embedding by lia.
  rewrite <- Nat2N.inj_compare. destruct (Nat.compare_spec d e) as [->| |].
  - apply Nat.compare_refl.
  - apply Nat.compare_lt_iff. lia.
  - apply Nat.compare_gt_iff. lia.
Qed.

(** The string order on written indexes is the order on their digits. *)
Lemma encode_ltb a b :
  Forall (fun d => d < base) a -> Forall (fun d => d < base) b ->
  String.ltb (encode a) (encode b) = lexlt a b.
Proof.
  unfold String.ltb. intros Ha. revert b.
  induction Ha as [|x a Hx Ha IH]; intros b Hb; destruct Hb as [|y b Hy Hb];
    cbn [encode String.compare lexlt]; try done.
  rewrite digitChar_compare by done.
  specialize (IH b Hb).
  destruct (Nat.compare_spec x y) as [->| |].
  - rewrite Nat.ltb_irrefl, Nat.eqb_refl. simpl. exact IH.
  - rewrite (proj2 (Nat.ltb_lt x y)) by done. done.
  - rewrite (proj2 (Nat.ltb_ge x y)) by lia.
    rewrite (proj2 (Nat.eqb_neq x y)) by lia. done.
Qed.

Lemma wellFormed_cons d digits :
  d < base -> wellFormed digits -> wellFormed (d :: digits).
Proof.
  intros Hd [Hall Hend]. split; [by constructor|].
  destruct digits; [done|]. exact Hend.
Qed.

Lemma wellFormed_single d : d < base -> d <> 0 -> wellFormed [d].
Proof.
  intros Hd Hne. split; [constructor; [done|constructor]|]. simpl.
  by rewrite (proj2 (Nat.eqb_neq d 0)).
Qed.

Lemma wellFormed_tail d digits :
  wellFormed (d :: digits) -> digits <> [] -> wellFormed digits.
Proof.
  intros [Hall Hend] Hne. split; [by inversion Hall|].
  by destruct digits.
Qed.

Lemma half_between d e : 1 < e - d -> d < (d + e) / 2 < e.
Proof.
  intros Hde. split.
  - apply Nat.div_le_lower_bound; lia.
  - apply Nat.Div0.div_lt_upper_bound; lia.
Qed.

Lemma ltb_true x y : x < y -> (x <? y) = true.
Proof. apply Nat.ltb_lt. Qed.

Lemma keyAfter_greater a :
  Forall (fun d => d < base) a ->
  wellFormed (keyAfter a) /\ lexlt a (keyAfter a) = true.
Proof.
  induction 1 as [|d a Hd Ha [IHw IHl]]; cbn [keyAfter lexlt].
  - split; [apply wellFormed_single; unfold base; cbn; lia|done].
  - destruct (Nat.ltb_spec 1 (base - d)) as [Hlt|Hge].
    + destruct (half_between d base Hlt).
      split; [apply wellFormed_single; lia|].
      cbn [lexlt]. by rewrite ltb_true.
    + split; [by apply wellFormed_cons|].
      cbn [lexlt]. by rewrite Nat.eqb_refl, IHl, orb_true_r.
Qed.

Lemma keyBetween_between b : forall a,
  Forall (fun d => d < base) a -> wellFormed b -> lexlt a b = true ->
  wellFormed (keyBetween a b)
  /\ lexlt a (keyBetween a b) = true
  /\ lexlt (keyBetween a b) b = true.
Proof.
  induction b as [|e b IH]; intros a Ha Hb Hlt; [by destruct a|].
  assert (e < base) as He by (destruct Hb as [Hall _]; by inversion Hall).
  assert (Forall (fun d => d < base) (tl a)) as Hta
    by (destruct Ha; [constructor|done]).
  assert (hd 0 a < base) as Hd
    by (destruct Ha; cbn [hd]; [unfold base; lia|done]).
  assert (lexlt a (hd 0 a :: keyAfter (tl a)) = true) as Hafter.
  { destruct a as [|d a]; [done|]. cbn [hd tl lexlt].
    rewrite Nat.eqb_refl, (proj2 (keyAfter_greater a Hta)). apply orb_true_r. }
  cbn [keyBetween]. destruct (Nat.eqb_spec (hd 0 a) e) as [Heq|Hne].
  - assert (lexlt (tl a) b = true) as Hlt'.
    { destruct a as [|d a]; cbn [hd tl lexlt] in *.
      - subst e. destruct Hb as [_ Hend]. by destruct b.
      - subst e. by rewrite Nat.ltb_irrefl, Nat.eqb_refl in Hlt. }
    destruct (IH (tl a) Hta) as (Hw & Hl & Hr); [|done|].
    { apply (wellFormed_tail e); [done|]. by destruct (tl a), b. }
    split_and!.
    + by apply wellFormed_cons.
    + destruct a as [|d a]; [done|]. cbn [hd tl lexlt] in *.
      by rewrite Nat.eqb_refl, Hl, orb_true_r.
    + cbn [lexlt]. subst e. by rewrite Nat.eqb_refl, Hr, orb_true_r.
  - assert (hd 0 a < e) as Hde.
    { destruct a as [|d a]; cbn [hd tl lexlt] in *; [lia|].
      apply orb_true_iff in Hlt as [Hlt|Hlt]; [by apply Nat.ltb_lt|].
      apply andb_true_iff in Hlt as [Hlt _]. by apply Nat.eqb_eq in Hlt. }
    destruct (Nat.ltb_spec 1 (e - hd 0 a)) as [Hgap|Hgap].
    + destruct (half_between _ _ Hgap).
      split_and!.
      * apply wellFormed_single; lia.
      * destruct a as [|d a]; [done|]. cbn [hd tl lexlt] in *.
        by rewrite ltb_true.
      * cbn [lexlt]. by rewrite ltb_true.
    + destruct b as [|e' b].
      * split_and!.
        -- apply wellFormed_cons; [done|]. by apply keyAfter_greater.
        -- done.
        -- cbn [lexlt]. by rewrite ltb_true.
      * split_and!.
        -- apply wellFormed_single; lia.
        -- destruct a as [|d a]; [done|]. cbn [hd tl lexlt] in *.
           by rewrite ltb_true.
        -- cbn [lexlt]. by rewrite Nat.ltb_irrefl, Nat.eqb_refl.
Qed.

(** The guarantee of the scheme: the generated index is well formed and
    lies strictly between its neighbours. *)
Lemma generateKeyBetween_between lower upper :
  (forall a, lower = Some a -> wellFormed a) ->
  (forall b, upper = Some b -> wellFormed b) ->
  (forall a b, lower = Some a -> upper = Some b -> lexlt a b = true) ->
  wellFormed (generateKeyBetween lower upper)
  /\ (forall a, lower = Some a -> lexlt a (generateKeyBetween lower upper) = true)
  /\ (forall b, upper = Some b -> lexlt (generateKeyBetween lower upper) b = true).
Proof.
  intros Hlo Hup Hlt. destruct lower as [a|], upper as [b|]; simpl.
  - destruct (keyBetween_between b a) as (Hw & Hl & Hr);
      [by apply Hlo | by apply Hup | by apply Hlt |].
    split_and!; [done|by intros ? [= <-]|by intros ? [= <-]].
  - destruct (keyAfter_greater a) as [Hw Hl]; [by apply Hlo|].
    split_and!; [done|by intros ? [= <-]|done].
  - destruct (keyBetween_between b []) as (Hw & Hl & Hr);
      [constructor | by apply Hup | |].
    { destruct (Hup b eq_refl) as [_ Hend]. by destruct b. }
    split_and!; [done|done|by intros ? [= <-]].
  - destruct (keyAfter_greater []) as [Hw Hl]; [constructor|].
    split_and!; done.
Qed.

End FractionalIndexFacts.

(** ** The top-K operator *)

Module TopKFacts.
Import Changes FractionalIndex FractionalIndexFacts TopK.

Lemma StronglySorted_sublist {A} (R : relation A) (l1 l2 : list A) :
  sublist l1 l2 -> StronglySorted R l2 -> StronglySorted R l1.
Proof.
  induction 1 as [|x l1 l2 Hsub IH|x l1 l2 Hsub IH]; intros Hs.
  - constructor.
  - apply StronglySorted_inv in Hs as [Hs Hall]. constructor; [by apply IH|].
    apply Forall_forall. intros y Hy. eapply Forall_forall in Hall; [done|].
    by eapply elem_of_sublist.
  - apply StronglySorted_inv in Hs as [Hs _]. by apply IH.
Qed.

Section Operator.
Context {K V : Type} `{EqDecision K} `{EqDecision V}.
Variable precedes : K * V -> K * V -> bool.
Variables offset limit : nat.
Hypothesis precedes_irrefl : forall r, precedes r r = false.
Hypothesis precedes_trans : forall a b c,
  precedes a b = true -> precedes b c = true -> precedes a c = true.
Hypothesis precedes_weak : forall a b c,
  precedes a c = true -> precedes a b = true \/ precedes b c = true.
Hypothesis precedes_total : forall a b,
  a.1 <> b.1 -> precedes a b = true \/ precedes b a = true.

Implicit Types (r : K * V) (rows : list (K * V)).
Implicit Types (old : list ((K * V) * list nat)).

Abbreviation notAfter := (fun a b : K * V => precedes b a = false).
Abbreviation before := (fun a b : K * V => precedes a b = true).

Lemma precedes_asym a b : precedes a b = true -> precedes b a = false.
Proof.
  intros Hab. destruct (precedes b a) eqn:Hba; [|done].
  by rewrite <- (precedes_irrefl a), (precedes_trans a b a).
Qed.

Lemma notAfter_trans a b c :
  precedes b a = false -> precedes c b = false -> precedes c a = false.
Proof.
  intros Hab Hbc. destruct (precedes c a) eqn:Hca; [|done].
  destruct (precedes_weak c b a Hca); congruence.
Qed.

Lemma insertSorted_elem r r' rows :
  r' ∈ insertSorted precedes r rows <-> r' = r \/ r' ∈ rows.
Proof.
  induction rows as [|x rows IH]; simpl.
  - rewrite list_elem_of_singleton. set_solver.
  - destruct (precedes r x); set_solver.
Qed.

Lemma insertSorted_sorted r rows :
  StronglySorted notAfter rows -> StronglySorted notAfter (insertSorted precedes r rows).
Proof.
  induction 1 as [|x rows Hs IH Hall]; simpl.
  - repeat constructor.
  - destruct (precedes r x) eqn:Hrx.
    + constructor; [by constructor|]. constructor; [by apply precedes_asym|].
      eapply Forall_impl; [exact Hall|]. intros y Hy. simpl in *.
      eapply notAfter_trans; [|exact Hy]. by apply precedes_asym.
    + constructor; [done|]. apply Forall_forall. intros y Hy.
      apply insertSorted_elem in Hy as [->|Hy]; [done|].
      by eapply Forall_forall in Hall.
Qed.

Lemma insertCopies_sorted n r rows :
  StronglySorted notAfter rows ->
  StronglySorted notAfter (insertCopies precedes n r rows).
Proof.
  revert rows. induction n as [|n IH]; intros rows Hs; simpl; [done|].
  by apply IH, insertSorted_sorted.
Qed.

Lemma removeOne_sublist r rows rows' :
  removeOne r rows = Some rows' -> sublist rows' rows.
Proof.
  revert rows'. induction rows as [|x rows IH]; intros rows'; simpl; [done|].
  case_decide.
  - intros [= <-]. by apply sublist_cons.
  - destruct (removeOne r rows) as [l|]; [|done]. simpl. intros [= <-].
    by apply sublist_skip, IH.
Qed.

Lemma removeCopies_sublist n r rows rows' :
  removeCopies n r rows = Some rows' -> sublist rows' rows.
Proof.
  revert rows rows'. induction n as [|n IH]; intros rows rows'; simpl.
  - by intros [= <-].
  - destruct (removeOne r rows) as [l|] eqn:Hl; [|done]. simpl. intros Hn.
    etrans; [by eapply IH|by eapply removeOne_sublist].
Qed.

Lemma accept_sorted (batch : list (Tuple K V)) rows :
  StronglySorted notAfter rows ->
  StronglySorted notAfter (fold_left (accept precedes) batch rows).
Proof.
  revert rows. induction batch as [|t batch IH]; intros rows Hs; simpl; [done|].
  apply IH. unfold accept. destruct (0 <? t.2); [|done].
  by apply insertCopies_sorted.
Qed.

Lemma retract_sorted (batch : list (Tuple K V)) rows rows' :
  StronglySorted notAfter rows ->
  fold_left retract batch (Some rows) = Some rows' ->
  StronglySorted notAfter rows'.
Proof.
  revert rows. induction batch as [|t batch IH]; intros rows Hs; simpl.
  - by intros [= <-].
  - unfold retract at 2. destruct (t.2 <? 0); [|by apply IH]. simpl.
    destruct (removeCopies _ _ _) as [l|] eqn:Hl.
    + apply IH. eapply StronglySorted_sublist; [|done].
      by eapply removeCopies_sublist.
    + intros Hnone. exfalso. clear -Hnone.
      induction batch as [|t' batch IH]; [done|]. simpl in Hnone.
      apply IH. unfold retract in Hnone at 2. by destruct (t'.2 <? 0).
Qed.

Lemma sorted_strict rows :
  StronglySorted notAfter rows -> NoDup rows.*1 -> StronglySorted before rows.
Proof.
  induction 1 as [|x rows Hs IH Hall]; intros Hnd; [constructor|].
  rewrite fmap_cons in Hnd.
  apply NoDup_cons in Hnd as [Hx Hnd]. constructor; [by apply IH|].
  apply Forall_forall. intros y Hy.
  destruct (precedes_total x y) as [?|Hyx]; [|done|].
  { intros Heq. apply Hx. rewrite Heq. by apply list_elem_of_fmap_2. }
  eapply Forall_forall in Hall; [|done]. simpl in *. congruence.
Qed.

Lemma window_sublist rows : sublist (window offset limit rows) rows.
Proof. unfold window. etrans; [apply sublist_take|apply sublist_drop]. Qed.

Lemma same_key (l : list ((K * V) * list nat)) e1 e2 :
  NoDup l.*1.*1 -> e1 ∈ l -> e2 ∈ l -> e1.1.1 = e2.1.1 -> e1 = e2.
Proof.
  induction l as [|x l IH]; [intros _ He; by apply elem_of_nil in He|].
  rewrite !fmap_cons. intros Hnd H1 H2 Hk. apply NoDup_cons in Hnd as [Hx Hnd].
  apply elem_of_cons in H1 as [->|H1], H2 as [->|H2]; [done| | |by apply IH].
  - exfalso. apply Hx. rewrite Hk. by do 2 apply list_elem_of_fmap_2.
  - exfalso. apply Hx. rewrite <- Hk. by do 2 apply list_elem_of_fmap_2.
Qed.

(** *** Indexes of a new window *)

Lemma lookupIndex_elem r i old : lookupIndex r old = Some i -> (r, i) ∈ old.
Proof.
  induction old as [|[r' i'] old IH]; simpl; [done|].
  case_decide as Heq; [intros [= <-]; subst; left | intros Hl; right; by apply IH].
Qed.

Lemma lookupIndex_None r old : lookupIndex r old = None <-> r ∉ old.*1.
Proof.
  induction old as [|[r' i'] old IH]; csimpl.
  - split; [intros _; apply not_elem_of_nil|done].
  - case_decide as Heq.
    + subst. split; [done|]. intros Hn. exfalso. apply Hn. left.
    + rewrite IH, not_elem_of_cons. naive_solver.
Qed.

Lemma nextKept_None old rows :
  nextKept old rows = None -> forall r, r ∈ rows -> lookupIndex r old = None.
Proof.
  induction rows as [|x rows IH]; simpl; intros Hn r Hr.
  - by apply elem_of_nil in Hr.
  - destruct (lookupIndex x old) eqn:Hx; [done|].
    apply elem_of_cons in Hr as [->|Hr]; [done|by apply IH].
Qed.

Lemma nextKept_first old rows j :
  StronglySorted before rows -> agrees precedes old -> nextKept old rows = Some j ->
  (exists r, r ∈ rows /\ lookupIndex r old = Some j)
  /\ forall r i, r ∈ rows -> lookupIndex r old = Some i ->
                 i = j \/ lexlt j i = true.
Proof.
  intros Hs Hold. induction Hs as [|x rows Hs IH Hall]; simpl; [done|].
  destruct (lookupIndex x old) as [i0|] eqn:Hx.
  - intros [= <-]. split; [exists x; split; [left|done]|].
    intros r i Hr Hi. apply elem_of_cons in Hr as [->|Hr]; [left; congruence|].
    right. eapply Hold; [done..|]. by eapply Forall_forall in Hall.
  - intros Hj. destruct (IH Hj) as [(r & Hr & Hrj) Hfirst]. split.
    + exists r. split; [by right|done].
    + intros r' i Hr' Hi. apply elem_of_cons in Hr' as [->|Hr']; [congruence|].
      by eapply Hfirst.
Qed.

Lemma assign_spec old :
  agrees precedes old -> wellFormedIn old ->
  forall rows lower,
    StronglySorted before rows ->
    (forall l, lower = Some l ->
       wellFormed l
       /\ forall r i, r ∈ rows -> lookupIndex r old = Some i -> lexlt l i = true) ->
    (assign old lower rows).*1 = rows
    /\ Forall (fun e => wellFormed e.2) (assign old lower rows)
    /\ StronglySorted (fun e1 e2 => lexlt e1.2 e2.2 = true) (assign old lower rows)
    /\ (forall l, lower = Some l ->
          Forall (fun e => lexlt l e.2 = true) (assign old lower rows))
    /\ (forall e i, e ∈ assign old lower rows ->
                    lookupIndex e.1 old = Some i -> e.2 = i).
Proof.
  intros Hold Hwf rows lower Hs. revert lower.
  induction Hs as [|x rows Hs IH Hall]; intros lower Hlower; csimpl.
  { split_and!; [done|constructor|constructor| |].
    - intros. constructor.
    - intros e i He. by apply elem_of_nil in He. }
  set (i := match lookupIndex x old with
            | Some i => i
            | None => generateKeyBetween lower (nextKept old rows)
            end).
  assert (wellFormed i
          /\ (forall l, lower = Some l -> lexlt l i = true)
          /\ (forall r i', r ∈ rows -> lookupIndex r old = Some i' ->
                lexlt i i' = true)) as (Hi & Hli & Hnext).
  { subst i. destruct (lookupIndex x old) as [i0|] eqn:Hx.
    - split_and!.
      + by eapply Hwf.
      + intros l Hl. destruct (Hlower l Hl) as [_ Hlt]. eapply Hlt; [left|done].
      + intros r i' Hr Hi'. eapply Hold; [done..|].
        by eapply Forall_forall in Hall.
    - destruct (generateKeyBetween_between lower (nextKept old rows))
        as (Hw & Hl & Hr).
      + intros a Ha. by apply Hlower.
      + intros b Hb. apply nextKept_first in Hb as [(r & _ & Hrb) _]; [|done..].
        by eapply Hwf.
      + intros a b Ha Hb. apply nextKept_first in Hb as [(r & Hr & Hrb) _]; [|done..].
        destruct (Hlower a Ha) as [_ Hlt]. eapply Hlt; [by right|done].
      + split_and!; [done|done|].
        intros r i' Hr' Hi'. destruct (nextKept old rows) as [j|] eqn:Hj.
        * destruct (nextKept_first old rows j Hs Hold Hj) as [_ Hfirst].
          destruct (Hfirst r i' Hr' Hi') as [->|Hlt]; [by apply Hr|].
          eapply lexlt_trans; [by apply Hr|done].
        * by rewrite (nextKept_None old rows Hj r Hr') in Hi'. }
  destruct (IH (Some i)) as (Hfst & Hwfs & Hsorted & Hlow & Hkept).
  { intros l [= <-]. split; [done|]. intros r i' Hr Hi'. by eapply Hnext. }
  split_and!.
  - by rewrite Hfst.
  - by constructor.
  - constructor; [done|]. by apply Hlow.
  - intros l Hl. constructor; [by apply Hli|].
    eapply Forall_impl; [by apply Hlow|]. intros e He. simpl in *.
    eapply lexlt_trans; [by apply Hli|done].
  - intros e i' He Hi'. apply elem_of_cons in He as [->|He]; [|by eapply Hkept].
    simpl in *. subst i. by rewrite Hi'.
Qed.

Lemma pairs_agree (l : list ((K * V) * list nat)) :
  StronglySorted before l.*1 ->
  StronglySorted (fun e1 e2 => lexlt e1.2 e2.2 = true) l ->
  forall e1 e2, e1 ∈ l -> e2 ∈ l -> precedes e1.1 e2.1 = true ->
                lexlt e1.2 e2.2 = true.
Proof.
  induction l as [|x l IH]; csimpl; intros Hrows Hidx e1 e2 He1 He2 Hlt.
  { by apply elem_of_nil in He1. }
  apply StronglySorted_inv in Hrows as [Hrows Hx].
  apply StronglySorted_inv in Hidx as [Hidx Hxi].
  apply elem_of_cons in He1 as [->|He1], He2 as [->|He2].
  - by rewrite precedes_irrefl in Hlt.
  - by eapply Forall_forall in Hxi.
  - eapply Forall_forall in Hx; [|by apply list_elem_of_fmap_2].
    simpl in Hx. by rewrite (precedes_asym _ _ Hx) in Hlt.
  - by apply IH.
Qed.

(** The rows of the window, strictly in order. *)
Lemma ordered_window st :
  ordered precedes offset limit st -> StronglySorted before (indexed st).*1.
Proof.
  intros (Hwin & Hsorted & Hnd & _). rewrite Hwin.
  apply sorted_strict.
  - eapply StronglySorted_sublist; [apply window_sublist|done].
  - eapply sublist_NoDup; [done|]. apply fmap_sublist, window_sublist.
Qed.

Lemma ordered_keys st :
  ordered precedes offset limit st -> NoDup (indexed st).*1.*1.
Proof.
  intros (Hwin & _ & Hnd & _). rewrite Hwin.
  eapply sublist_NoDup; [done|]. apply fmap_sublist, window_sublist.
Qed.

Lemma ordered_agrees st :
  ordered precedes offset limit st ->
  agrees precedes (indexed st) /\ wellFormedIn (indexed st).
Proof.
  intros Hord. pose proof (ordered_window st Hord) as Hrows.
  destruct Hord as (Hwin & Hsorted & Hnd & Hidx & Hwf). split.
  - intros r1 i1 r2 i2 H1 H2 Hlt.
    apply lookupIndex_elem in H1, H2.
    by apply (pairs_agree (indexed st) Hrows Hidx (r1, i1) (r2, i2)).
  - intros r i Hi. apply lookupIndex_elem in Hi.
    exact (proj1 (Forall_forall _ _) Hwf (r, i) Hi).
Qed.

Lemma ordered_empty : ordered precedes offset limit empty.
Proof.
  unfold ordered, window. simpl. rewrite drop_nil, take_nil.
  split_and!; (done || constructor).
Qed.

(** One batch keeps the state in order, provided it leaves no key twice in
    the buffer. *)
Lemma processBatch_ordered batch st st' out :
  ordered precedes offset limit st ->
  processBatch precedes offset limit batch st = Some (st', out) ->
  NoDup (buffer st').*1 ->
  ordered precedes offset limit st'
  /\ indexed st' = assign (indexed st) None (window offset limit (buffer st'))
  /\ out = retractions (indexed st) (indexed st')
           ++ insertions (indexed st) (indexed st')
  /\ (forall e i, e ∈ indexed st' -> lookupIndex e.1 (indexed st) = Some i ->
                  e.2 = i).
Proof.
  intros Hord Hstep Hnd. destruct (ordered_agrees st Hord) as [Hag Hwf].
  unfold processBatch in Hstep.
  destruct (fold_left retract batch _) as [rows|] eqn:Hrows; [|done].
  simpl in Hstep. injection Hstep as <- <-. simpl in *.
  assert (StronglySorted notAfter rows) as Hsorted.
  { eapply retract_sorted; [|done]. apply accept_sorted. by destruct Hord as (_ & ? & _). }
  assert (StronglySorted before (window offset limit rows)) as Hwin.
  { apply sorted_strict.
    - eapply StronglySorted_sublist; [apply window_sublist|done].
    - eapply sublist_NoDup; [done|]. apply fmap_sublist, window_sublist. }
  destruct (assign_spec (indexed st) Hag Hwf (window offset limit rows) None Hwin)
    as (Hfst & Hwfs & Hidx & _ & Hkept); [done|].
  split_and!; done.
Qed.

(** Invariant I3 on the operator: among the rows of the window, a row comes
    first under the order-by keys exactly when its index is the smaller
    string. *)
Lemma ordered_index_order st e1 e2 :
  ordered precedes offset limit st -> e1 ∈ indexed st -> e2 ∈ indexed st ->
  precedes e1.1 e2.1 = true <-> String.ltb (encode e1.2) (encode e2.2) = true.
Proof.
  intros Hord He1 He2. pose proof (ordered_window st Hord) as Hrows.
  pose proof (ordered_keys st Hord) as Hkeys.
  destruct Hord as (Hwin & Hsorted & Hnd & Hidx & Hwf).
  assert (wellFormed e1.2) as [Hd1 _]
    by exact (proj1 (Forall_forall _ _) Hwf e1 He1).
  assert (wellFormed e2.2) as [Hd2 _]
    by exact (proj1 (Forall_forall _ _) Hwf e2 He2).
  rewrite encode_ltb by done.
  split; [apply (pairs_agree (indexed st) Hrows Hidx e1 e2 He1 He2)|].
  intros Hlt.
  destruct (decide (e1.1.1 = e2.1.1)) as [Heq|Hne].
  - rewrite (same_key (indexed st) e1 e2 Hkeys He1 He2 Heq) in Hlt.
    by rewrite lexlt_irrefl in Hlt.
  - destruct (precedes_total _ _ Hne) as [?|Hgt]; [done|].
    pose proof (pairs_agree (indexed st) Hrows Hidx e2 e1 He2 He1 Hgt) as Hlt'.
    pose proof (lexlt_trans _ _ _ Hlt Hlt') as Hcycle.
    by rewrite lexlt_irrefl in Hcycle.
Qed.

End Operator.
End TopKFacts.

(** ** The writes of one batch *)

Module WritesFacts.
Import Changes Materializer MaterializerSpec MaterializerFacts Driver Writes.

Section Writes.
Context {K R : Type} `{Countable K} `{Countable R}.
Implicit Types (acc : list (K * KeyChanges R)) (st : MatState K R).
Implicit Types (synced : gmap K R).

Lemma forEachKey_total has acc st :
  Forall (fun e => is_Some (classify (has e.1) (inserts e.2) (deletes e.2))) acc ->
  forEachKey has acc st
  = (mkMatState (fold_left recordKey acc (resultKeys st))
                (fold_left stamp acc (orderByIndices st))
                (messagesCount st),
     map (writeOf has) acc, true).
Proof.
  intros Hall. revert st. induction Hall as [|[k c] acc [ty Hty] _ IH]; intros st.
  - by destruct st.
  - simpl. simpl in Hty. rewrite Hty, IH. unfold writeOf at 2. simpl.
    by rewrite Hty.
Qed.

Lemma recordKey_lookup acc (keys : gmap R K) :
  distinctValues acc ->
  (forall e, e ∈ acc -> fold_left recordKey acc keys !! value e.2 = Some e.1)
  /\ (forall v, (forall e, e ∈ acc -> value e.2 <> v) ->
                fold_left recordKey acc keys !! v = keys !! v).
Proof.
  revert keys. induction acc as [|x acc IH]; intros keys Hd.
  { split; [intros e He; by apply elem_of_nil in He|done]. }
  assert (distinctValues acc) as Hd'.
  { intros e1 e2 H1 H2. apply Hd; by right. }
  destruct (IH (recordKey keys x) Hd') as [IHin IHout]. simpl. split.
  - intros e He. apply elem_of_cons in He as [->|He]; [|by apply IHin].
    destruct (decide (value x.2 ∈ (fun e => value e.2) <$> acc)) as [Hx|Hx].
    { apply list_elem_of_fmap in Hx as (e & Hv & He).
      assert (x = e) as -> by (apply Hd; [left|by right|done]).
      by apply IHin. }
    rewrite IHout; [apply lookup_insert_eq|].
    intros e He Hv. apply Hx. apply list_elem_of_fmap. by exists e.
  - intros v Hv. rewrite IHout by (intros e He; apply Hv; by right).
    apply lookup_insert_ne. apply Hv. left.
Qed.

Lemma stamp_lookup acc (indices : gmap R string) :
  distinctValues acc ->
  (forall e i, e ∈ acc -> orderByIndex e.2 = Some i ->
               fold_left stamp acc indices !! value e.2 = Some i)
  /\ (forall v, (forall e, e ∈ acc -> value e.2 <> v) ->
                fold_left stamp acc indices !! v = indices !! v).
Proof.
  revert indices. induction acc as [|x acc IH]; intros indices Hd.
  { split; [intros e i He; by apply elem_of_nil in He|done]. }
  assert (distinctValues acc) as Hd'.
  { intros e1 e2 H1 H2. apply Hd; by right. }
  destruct (IH (stamp indices x) Hd') as [IHin IHout]. simpl. split.
  - intros e i He Hi. apply elem_of_cons in He as [->|He]; [|by eapply IHin].
    destruct (decide (value x.2 ∈ (fun e => value e.2) <$> acc)) as [Hx|Hx].
    { apply list_elem_of_fmap in Hx as (e & Hv & He).
      assert (x = e) as -> by (apply Hd; [left|by right|done]).
      by eapply IHin. }
    rewrite IHout; [unfold stamp; rewrite Hi; apply lookup_insert_eq|].
    intros e He Hv. apply Hx. apply list_elem_of_fmap. by exists e.
  - intros v Hv. rewrite IHout by (intros e He; apply Hv; by right).
    unfold stamp. destruct (orderByIndex x.2); [|done].
    apply lookup_insert_ne. apply Hv. left.
Qed.

(** The result collection after the writes of one batch, key by key. *)
Lemma applyWrites_lookup has acc (keys : gmap R K) synced :
  NoDup acc.*1 ->
  (forall e, e ∈ acc -> keys !! value e.2 = Some e.1) ->
  Forall (fun e => is_Some (classify (has e.1) (inserts e.2) (deletes e.2))) acc ->
  (forall e, e ∈ acc ->
     fold_left (applyWrite keys) (map (writeOf has) acc) synced !! e.1
     = match classify (has e.1) (inserts e.2) (deletes e.2) with
       | Some WDelete => None
       | _ => Some (value e.2)
       end)
  /\ (forall k, k ∉ acc.*1 ->
        fold_left (applyWrite keys) (map (writeOf has) acc) synced !! k
        = synced !! k).
Proof.
  revert synced. induction acc as [|x acc IH]; intros synced Hnd Hkeys Hall.
  { split; [intros e He; by apply elem_of_nil in He|done]. }
  csimpl in Hnd. apply NoDup_cons in Hnd as [Hx Hnd].
  apply Forall_cons in Hall as [[ty Hty] Hall].
  assert (keys !! value x.2 = Some x.1) as Hkx by (apply Hkeys; left).
  destruct (IH (applyWrite keys synced (writeOf has x)) Hnd) as [IHin IHout];
    [intros e He; apply Hkeys; by right|done|].
  assert (applyWrite keys synced (writeOf has x) !! x.1
          = match ty with WDelete => None | _ => Some (value x.2) end
          /\ forall k, k <> x.1 ->
               applyWrite keys synced (writeOf has x) !! k = synced !! k)
    as [Hhere Hthere].
  { unfold writeOf. rewrite Hty. destruct ty; simpl; rewrite Hkx.
    - split; [apply lookup_insert_eq|intros; by apply lookup_insert_ne].
    - split; [apply lookup_insert_eq|intros; by apply lookup_insert_ne].
    - split; [apply lookup_delete_eq|intros; by apply lookup_delete_ne]. }
  simpl. split.
  - intros e He. apply elem_of_cons in He as [->|He]; [|by apply IHin].
    rewrite IHout by done. by rewrite Hhere, Hty.
  - intros k Hk. csimpl in Hk. apply not_elem_of_cons in Hk as [Hne Hk].
    rewrite IHout by done. by apply Hthere.
Qed.

End Writes.
End WritesFacts.

(** ** The order of the result collection *)

Module PipelineFacts.
Import Changes Materializer MaterializerSpec MaterializerFacts Driver Writes
       WritesFacts FractionalIndex FractionalIndexFacts TopK TopKFacts Pipeline.

(** *** Listing rows with a comparison function *)

Section Sorting.
Context {A : Type} `{EqDecision A}.
Variable cmp : A -> A -> Z.
Variable L : list A.
Hypothesis cmp_irrefl : forall x, x ∈ L -> (cmp x x <? 0) = false.
Hypothesis cmp_trans : forall x y z,
  x ∈ L -> y ∈ L -> z ∈ L ->
  (cmp x y <? 0) = true -> (cmp y z <? 0) = true -> (cmp x z <? 0) = true.
Hypothesis cmp_total : forall x y,
  x ∈ L -> y ∈ L -> x <> y -> (cmp x y <? 0) = true \/ (cmp y x <? 0) = true.

Abbreviation notBelow := (fun x y : A => (cmp y x <? 0) = false).

Lemma insertBy_Permutation x l : insertBy cmp x l ≡ₚ x :: l.
Proof.
  induction l as [|y l IH]; simpl; [done|].
  destruct (cmp x y <? 0); [done|]. rewrite IH. apply Permutation_swap.
Qed.

Lemma sortBy_Permutation rows : sortBy cmp rows ≡ₚ rows.
Proof.
  unfold sortBy. induction rows as [|x rows IH]; simpl; [done|].
  by rewrite insertBy_Permutation, IH.
Qed.

Lemma cmp_asym x y :
  x ∈ L -> y ∈ L -> (cmp x y <? 0) = true -> (cmp y x <? 0) = false.
Proof.
  intros Hx Hy Hxy. destruct (cmp y x <? 0) eqn:Hyx; [|done].
  by rewrite <- (cmp_irrefl x Hx), (cmp_trans x y x).
Qed.

Lemma insertBy_sorted x l :
  x ∈ L -> Forall (fun y => y ∈ L) l ->
  StronglySorted notBelow l -> StronglySorted notBelow (insertBy cmp x l).
Proof.
  intros Hx Hl Hs. induction Hs as [|y l Hs IH Hall]; simpl.
  { repeat constructor. }
  apply Forall_cons in Hl as [Hy Hl].
  destruct (cmp x y <? 0) eqn:Hxy.
  - constructor; [by constructor|]. constructor; [by apply cmp_asym|].
    apply Forall_forall. intros z Hz.
    pose proof (proj1 (Forall_forall _ _) Hall z Hz) as Hyz.
    pose proof (proj1 (Forall_forall _ _) Hl z Hz) as HzL. simpl in Hyz.
    destruct (cmp z x <? 0) eqn:Hzx; [|done].
    by rewrite (cmp_trans z x y) in Hyz.
  - constructor; [by apply IH|]. rewrite insertBy_Permutation.
    by constructor.
Qed.

Lemma sortBy_sorted rows :
  Forall (fun y => y ∈ L) rows -> StronglySorted notBelow (sortBy cmp rows).
Proof.
  unfold sortBy. induction 1 as [|x rows Hx Hrows IH]; simpl; [constructor|].
  apply insertBy_sorted; [done| |done].
  by rewrite (sortBy_Permutation rows).
Qed.

Lemma below_notBelow l :
  Forall (fun y => y ∈ L) l ->
  StronglySorted (fun x y => (cmp x y <? 0) = true) l ->
  StronglySorted notBelow l.
Proof.
  intros Hl. induction 1 as [|x l Hs IH Hall]; [constructor|].
  apply Forall_cons in Hl as [Hx Hl]. constructor; [by apply IH|].
  apply Forall_forall. intros y Hy. apply cmp_asym; [done| |].
  - exact (proj1 (Forall_forall _ _) Hl y Hy).
  - exact (proj1 (Forall_forall _ _) Hall y Hy).
Qed.

(** Sorting a rearrangement of a list that is in strict order gives back
    that list. *)
Lemma sortBy_unique rows :
  StronglySorted (fun x y => (cmp x y <? 0) = true) L ->
  rows ≡ₚ L -> sortBy cmp rows = L.
Proof.
  intros Hs Hperm.
  assert (Forall (fun y => y ∈ L) rows) as Hrows.
  { apply Forall_forall. intros y Hy. by rewrite <- Hperm. }
  apply (StronglySorted_unique_strong notBelow).
  - intros x y Hx Hy Hxy Hyx. rewrite sortBy_Permutation, Hperm in Hx.
    destruct (decide (x = y)) as [|Hne]; [done|].
    destruct (cmp_total x y Hx Hy Hne); simpl in *; congruence.
  - by apply sortBy_sorted.
  - apply below_notBelow; [|done]. by apply Forall_forall.
  - by rewrite sortBy_Permutation.
Qed.

End Sorting.

Section Diff.
Context {K V R : Type} `{Countable K} `{EqDecision V} `{Countable R}.
Variable select : K * V -> R.
Hypothesis select_key : forall r1 r2 : K * V, select r1 = select r2 -> r1.1 = r2.1.

Abbreviation Entry := ((K * V) * list nat)%type.
Implicit Types (e : Entry) (l old new : list Entry) (k : K).

Abbreviation entryKey := (fun e : Entry => e.1.1).
Abbreviation tuples m l :=
  (map (outTuple select) (map (fun e : Entry => (e, m)) l) : list (OutTuple K R)).

Lemma tuples_inserts m l k :
  NoDup (entryKey <$> l) ->
  (k ∈ entryKey <$> l -> insertsOf k (tuples m l) = Z.max 0 m)
  /\ (k ∉ entryKey <$> l -> insertsOf k (tuples m l) = 0).
Proof.
  induction l as [|e l IH]; intros Hnd.
  { split; [intros Hin; by apply elem_of_nil in Hin|done]. }
  rewrite fmap_cons in Hnd |- *. apply NoDup_cons in Hnd as [He Hnd].
  destruct (IH Hnd) as [IHin IHout]. cbn [map insertsOf].
  unfold keyOf at 1 3, multiplicityOf at 1 2. cbn [fst snd outTuple].
  split.
  - intros Hin. apply elem_of_cons in Hin as [->|Hin].
    + rewrite decide_True by done. rewrite IHout by done. lia.
    + rewrite decide_False by (intros <-; done). by rewrite IHin.
  - intros Hout. apply not_elem_of_cons in Hout as [Hne Hout].
    rewrite decide_False by done. by rewrite IHout.
Qed.

Lemma tuples_deletes m l k :
  NoDup (entryKey <$> l) ->
  (k ∈ entryKey <$> l -> deletesOf k (tuples m l) = Z.max 0 (- m))
  /\ (k ∉ entryKey <$> l -> deletesOf k (tuples m l) = 0).
Proof.
  induction l as [|e l IH]; intros Hnd.
  { split; [intros Hin; by apply elem_of_nil in Hin|done]. }
  rewrite fmap_cons in Hnd |- *. apply NoDup_cons in Hnd as [He Hnd].
  destruct (IH Hnd) as [IHin IHout]. cbn [map deletesOf].
  unfold keyOf at 1 3, multiplicityOf at 1 2. cbn [fst snd outTuple].
  split.
  - intros Hin. apply elem_of_cons in Hin as [->|Hin].
    + rewrite decide_True by done. rewrite IHout by done. lia.
    + rewrite decide_False by (intros <-; done). by rewrite IHin.
  - intros Hout. apply not_elem_of_cons in Hout as [Hne Hout].
    rewrite decide_False by done. by rewrite IHout.
Qed.

Lemma tuples_filter_none (P : OutTuple K R -> Prop) `{forall t, Decision (P t)} m l :
  (forall e, e ∈ l -> ~ P (outTuple select (e, m))) ->
  filter P (tuples m l) = [].
Proof.
  induction l as [|e l IH]; intros Hnone; csimpl; [done|].
  rewrite filter_cons, decide_False by (apply Hnone; left).
  apply IH. intros e' He'. apply Hnone. by right.
Qed.

Lemma tuples_filter_one (P : OutTuple K R -> Prop) `{forall t, Decision (P t)} m l e :
  e ∈ l -> P (outTuple select (e, m)) ->
  (forall e', e' ∈ l -> P (outTuple select (e', m)) -> e' = e) ->
  NoDup l ->
  filter P (tuples m l) = [outTuple select (e, m)].
Proof.
  induction l as [|x l IH]; intros He HP Huniq Hnd; csimpl.
  { by apply elem_of_nil in He. }
  apply NoDup_cons in Hnd as [Hx Hnd]. rewrite filter_cons.
  apply elem_of_cons in He as [->|He].
  - rewrite decide_True by done. f_equal. apply tuples_filter_none.
    intros e' He' HP'. apply Hx. rewrite <- (Huniq e'); [done|by right|done].
  - rewrite decide_False.
    + apply IH; [done..| |done]. intros e' He'. apply Huniq. by right.
    + intros HPx. apply Hx. rewrite (Huniq x); [done|left|done].
Qed.

Lemma filter_keys_NoDup (f : Entry -> bool) l :
  NoDup (entryKey <$> l) -> NoDup (entryKey <$> List.filter f l).
Proof.
  induction l as [|e l IH]; [done|]. rewrite fmap_cons. intros Hnd.
  apply NoDup_cons in Hnd as [He Hnd]. cbn [List.filter].
  destruct (f e); [|by apply IH]. rewrite fmap_cons. apply NoDup_cons.
  split; [|by apply IH]. intros Hin. apply He.
  apply list_elem_of_fmap in Hin as (e' & -> & He').
  apply list_elem_of_fmap. exists e'. split; [done|].
  apply list_elem_of_In. apply list_elem_of_In, filter_In in He'. tauto.
Qed.

Lemma keys_NoDup l : NoDup (entryKey <$> l) -> NoDup l.*1.
Proof.
  intros Hnd. apply (NoDup_fmap_1 fst). by rewrite <- list_fmap_compose.
Qed.

Lemma same_entry l e1 e2 :
  NoDup (entryKey <$> l) -> e1 ∈ l -> e2 ∈ l -> e1.1.1 = e2.1.1 -> e1 = e2.
Proof.
  induction l as [|x l IH]; [intros _ He; by apply elem_of_nil in He|].
  rewrite fmap_cons. intros Hnd H1 H2 Hk. apply NoDup_cons in Hnd as [Hx Hnd].
  apply elem_of_cons in H1 as [->|H1], H2 as [->|H2]; [done| | |by apply IH].
  - exfalso. apply Hx. apply list_elem_of_fmap. by exists e2.
  - exfalso. apply Hx. apply list_elem_of_fmap. by exists e1.
Qed.

Section Windows.
Variables old new : list Entry.
Hypothesis old_keys : NoDup (entryKey <$> old).
Hypothesis new_keys : NoDup (entryKey <$> new).
Hypothesis kept : forall e i,
  e ∈ new -> lookupIndex e.1 old = Some i -> e.2 = i.

Abbreviation leaving := (Pipeline.leaving old new).
Abbreviation entering := (Pipeline.entering old new).
Abbreviation messages := (Pipeline.messages select old new).

Lemma messages_eq : messages = tuples (-1) leaving ++ tuples 1 entering.
Proof. unfold Pipeline.messages, retractions, insertions. by rewrite map_app. Qed.

Lemma leaving_elem e : e ∈ leaving <-> e ∈ old /\ e.1 ∉ new.*1.
Proof.
  unfold Pipeline.leaving. rewrite list_elem_of_In, filter_In, <- list_elem_of_In.
  rewrite negb_true_iff, bool_decide_eq_false, <- lookupIndex_None.
  rewrite <- eq_None_not_Some. done.
Qed.

Lemma entering_elem e : e ∈ entering <-> e ∈ new /\ e.1 ∉ old.*1.
Proof.
  unfold Pipeline.entering. rewrite list_elem_of_In, filter_In, <- list_elem_of_In.
  rewrite negb_true_iff, bool_decide_eq_false, <- lookupIndex_None.
  rewrite <- eq_None_not_Some. done.
Qed.

Lemma leaving_keys : NoDup (entryKey <$> leaving).
Proof. by apply filter_keys_NoDup. Qed.

Lemma entering_keys : NoDup (entryKey <$> entering).
Proof. by apply filter_keys_NoDup. Qed.

(** A row of the new window whose row was in the old one is the old entry. *)
Lemma kept_elem e : e ∈ new -> e.1 ∈ old.*1 -> e ∈ old.
Proof.
  intros He Hin. destruct (lookupIndex e.1 old) as [i|] eqn:Hi.
  - rewrite <- (kept e i He Hi) in Hi. apply lookupIndex_elem in Hi.
    by destruct e.
  - by apply lookupIndex_None in Hi.
Qed.

Lemma stays_elem e : e ∈ old -> e.1 ∈ new.*1 -> e ∈ new.
Proof.
  intros He Hin. apply list_elem_of_fmap in Hin as (e' & Heq & He').
  assert (e' ∈ old) as He'old.
  { apply kept_elem; [done|]. rewrite <- Heq. by apply list_elem_of_fmap_2. }
  rewrite (same_entry old e e'); [done..|by rewrite Heq].
Qed.

Lemma messages_inserts k :
  (k ∈ entryKey <$> entering -> insertsOf k messages = 1)
  /\ (k ∉ entryKey <$> entering -> insertsOf k messages = 0).
Proof.
  rewrite messages_eq, insertsOf_app.
  destruct (tuples_inserts 1 entering k entering_keys) as [Hin Hout].
  destruct (decide (k ∈ entryKey <$> leaving)) as [Hl|Hl].
  - rewrite (proj1 (tuples_inserts (-1) leaving k leaving_keys) Hl).
    split; intros Hk; [by rewrite Hin|by rewrite Hout].
  - rewrite (proj2 (tuples_inserts (-1) leaving k leaving_keys) Hl).
    split; intros Hk; [by rewrite Hin|by rewrite Hout].
Qed.

Lemma messages_deletes k :
  (k ∈ entryKey <$> leaving -> deletesOf k messages = 1)
  /\ (k ∉ entryKey <$> leaving -> deletesOf k messages = 0).
Proof.
  rewrite messages_eq, deletesOf_app.
  destruct (tuples_deletes (-1) leaving k leaving_keys) as [Hin Hout].
  destruct (decide (k ∈ entryKey <$> entering)) as [Hl|Hl].
  - rewrite (proj1 (tuples_deletes 1 entering k entering_keys) Hl).
    split; intros Hk; [by rewrite Hin|by rewrite Hout].
  - rewrite (proj2 (tuples_deletes 1 entering k entering_keys) Hl).
    split; intros Hk; [by rewrite Hin|by rewrite Hout].
Qed.

Lemma messages_keys k :
  k ∈ keysInOrder messages
  <-> k ∈ entryKey <$> leaving \/ k ∈ entryKey <$> entering.
Proof.
  rewrite keysInOrder_elem, messages_eq, map_app, elem_of_app.
  assert (forall m l, map keyOf (tuples m l) = entryKey <$> l) as Hmap.
  { intros m l. induction l as [|e l IH]; [done|]. csimpl. by rewrite <- IH. }
  by rewrite !Hmap.
Qed.

Lemma messages_payload_entering e :
  e ∈ entering ->
  payloadOf (entryKey e) messages = Some (select e.1, Some (encode e.2)).
Proof.
  intros He. unfold payloadOf. rewrite messages_eq, filter_app.
  rewrite tuples_filter_none by (intros e' _ [_ Hm]; by vm_compute in Hm).
  rewrite (tuples_filter_one _ 1 entering e); [done|done|done| |].
  - intros e' He' [Hk _]. eapply same_entry; [apply entering_keys|done..].
  - eapply NoDup_fmap_1, keys_NoDup, entering_keys.
Qed.

Lemma messages_payload_leaving e :
  e ∈ leaving -> entryKey e ∉ entryKey <$> entering ->
  payloadOf (entryKey e) messages = Some (select e.1, Some (encode e.2)).
Proof.
  intros He Hout. unfold payloadOf. rewrite messages_eq, !filter_app.
  rewrite tuples_filter_none by (intros e' _ [_ Hm]; by vm_compute in Hm).
  rewrite tuples_filter_none.
  2:{ intros e' He' [Hk _]. apply Hout. apply list_elem_of_fmap. by exists e'. }
  rewrite (tuples_filter_one _ (-1) leaving e); [done|done|done| |].
  - intros e' He' Hk. eapply same_entry; [apply leaving_keys|done..].
  - eapply NoDup_fmap_1, keys_NoDup, leaving_keys.
Qed.

(** *** The materializer on the messages of a new window *)

Variable mat : MatState K R.
Variable synced : gmap K R.
Hypothesis synced_old : synced = list_to_map (resultRows select old).
Hypothesis stamped_old : forall e,
  e ∈ old -> orderByIndices mat !! select e.1 = Some (encode e.2).

Abbreviation has := (Pipeline.has synced).

Lemma resultRows_keys l : (resultRows select l).*1 = entryKey <$> l.
Proof. unfold resultRows. by rewrite <- list_fmap_compose. Qed.

Lemma resultRows_lookup l e :
  NoDup (entryKey <$> l) -> e ∈ l ->
  (list_to_map (resultRows select l) : gmap K R) !! e.1.1 = Some (select e.1).
Proof.
  intros Hnd He. apply elem_of_list_to_map_1; [by rewrite resultRows_keys|].
  apply list_elem_of_fmap. by exists e.
Qed.

Lemma resultRows_lookup_None l k :
  k ∉ entryKey <$> l ->
  (list_to_map (resultRows select l) : gmap K R) !! k = None.
Proof. intros Hk. apply not_elem_of_list_to_map_1. by rewrite resultRows_keys. Qed.

Lemma has_old k : k ∈ entryKey <$> old -> has k = true.
Proof.
  intros Hk. apply list_elem_of_fmap in Hk as (e & -> & He).
  unfold Pipeline.has. rewrite synced_old, resultRows_lookup by done.
  by apply bool_decide_eq_true.
Qed.

Lemma acc_entry k c :
  (k, c) ∈ reduceMessages messages ->
  (exists e, e ∈ entering /\ e.1.1 = k /\ value c = select e.1
             /\ orderByIndex c = Some (encode e.2)
             /\ (classify (has k) (inserts c) (deletes c) = Some WInsert
                 \/ classify (has k) (inserts c) (deletes c) = Some WUpdate))
  \/ (exists e, e ∈ leaving /\ e.1.1 = k /\ (k ∉ entryKey <$> entering)
                /\ value c = select e.1
                /\ orderByIndex c = Some (encode e.2)
                /\ classify (has k) (inserts c) (deletes c) = Some WDelete).
Proof.
  intros Hin. destruct (reduceMessages_summary messages) as [Hkeys Hget].
  assert (k ∈ keysInOrder messages) as Hk.
  { rewrite <- Hkeys. apply list_elem_of_fmap. by exists (k, c). }
  apply accGet_elem in Hin; [|rewrite Hkeys; apply keysInOrder_NoDup].
  rewrite Hget in Hin. unfold summary in Hin.
  apply messages_keys in Hk.
  destruct (decide (k ∈ entryKey <$> entering)) as [Hent|Hent].
  - left. apply list_elem_of_fmap in Hent as (e & -> & He).
    rewrite (messages_payload_entering e He) in Hin. simpl in Hin.
    injection Hin as <-. simpl.
    rewrite (proj1 (messages_inserts (entryKey e)))
      by (apply list_elem_of_fmap; by exists e).
    exists e. split_and!; try done.
    destruct (decide (entryKey e ∈ entryKey <$> leaving)) as [Hl|Hl].
    + rewrite (proj1 (messages_deletes _) Hl). right.
      rewrite has_old; [done|].
      apply list_elem_of_fmap in Hl as (e' & -> & He').
      apply leaving_elem in He' as [He' _].
      apply list_elem_of_fmap. by exists e'.
    + rewrite (proj2 (messages_deletes _) Hl). by left.
  - right. destruct Hk as [Hl|]; [|done].
    apply list_elem_of_fmap in Hl as (e & -> & He).
    rewrite (messages_payload_leaving e He Hent) in Hin. simpl in Hin.
    injection Hin as <-. simpl.
    rewrite (proj2 (messages_inserts (entryKey e)) Hent).
    rewrite (proj1 (messages_deletes (entryKey e)))
      by (apply list_elem_of_fmap; by exists e).
    exists e. split_and!; done.
Qed.

Lemma acc_keys k :
  k ∈ (reduceMessages messages).*1
  <-> k ∈ entryKey <$> leaving \/ k ∈ entryKey <$> entering.
Proof.
  destruct (reduceMessages_summary messages) as [-> _]. apply messages_keys.
Qed.

Lemma acc_distinctValues : distinctValues (reduceMessages messages).
Proof.
  intros [k1 c1] [k2 c2] H1 H2 Hv. simpl in Hv.
  assert (k1 = k2) as ->.
  { destruct (acc_entry k1 c1 H1) as [(e1 & _ & <- & Hv1 & _)|(e1 & _ & <- & _ & Hv1 & _)],
      (acc_entry k2 c2 H2) as [(e2 & _ & <- & Hv2 & _)|(e2 & _ & <- & _ & Hv2 & _)];
      apply select_key; congruence. }
  destruct (reduceMessages_summary messages) as [Hkeys _].
  pose proof (keysInOrder_NoDup messages) as Hnd. rewrite <- Hkeys in Hnd.
  apply (accGet_elem _ _ _ Hnd) in H1, H2. congruence.
Qed.

Lemma acc_classified :
  Forall (fun x : K * KeyChanges R =>
            is_Some (classify (has x.1) (inserts x.2) (deletes x.2)))
         (reduceMessages messages).
Proof.
  apply Forall_forall. intros [k c] Hin.
  simpl.
  destruct (acc_entry k c Hin) as [(? & _ & _ & _ & _ & [->| ->])|(? & _ & _ & _ & _ & _ & ->)];
    by eexists.
Qed.

(** The materializer takes the result collection and the index table from
    the old window to the new one, and raises nothing. *)
Lemma materialize_messages :
  exists mat' events,
    onOutput has messages mat = (mat', events, true)
    /\ fold_left (applyWrite (resultKeys mat')) events synced
       = list_to_map (resultRows select new)
    /\ (forall e, e ∈ new ->
          orderByIndices mat' !! select e.1 = Some (encode e.2)).
Proof.
  unfold onOutput. rewrite (forEachKey_total _ _ _ acc_classified). simpl.
  eexists _, _. split; [done|]. simpl.
  rewrite fold_left_app. simpl.
  set (acc := reduceMessages messages).
  set (keys := fold_left recordKey acc (resultKeys mat)).
  destruct (recordKey_lookup acc (resultKeys mat) acc_distinctValues) as [Hkeys _].
  fold keys in Hkeys.
  pose proof (keysInOrder_NoDup messages) as Hnd.
  rewrite <- (proj1 (reduceMessages_summary messages)) in Hnd. fold acc in Hnd.
  destruct (applyWrites_lookup has acc keys synced Hnd Hkeys acc_classified)
    as [Hin Hout].
  split.
  - apply map_eq. intros k.
    destruct (decide (k ∈ acc.*1)) as [Hk|Hk].
    + apply list_elem_of_fmap in Hk as ([k' c] & -> & Hkc). simpl.
      specialize (Hin (k', c) Hkc). simpl in Hin. rewrite Hin.
      destruct (acc_entry k' c Hkc)
        as [(e & He & <- & Hv & _ & Hty)|(e & He & <- & Hent & _ & _ & ->)].
      * apply entering_elem in He as [He _].
        rewrite resultRows_lookup, Hv by done. by destruct Hty as [-> | ->].
      * symmetry. apply resultRows_lookup_None. intros Hnew.
        apply list_elem_of_fmap in Hnew as (e' & Hk' & He').
        apply leaving_elem in He as [He Hgone].
        destruct (decide (e'.1 ∈ old.*1)) as [Hold|Hold].
        -- apply Hgone.
           rewrite (same_entry old e e');
             [by apply list_elem_of_fmap_2|done|done|by apply kept_elem|done].
        -- apply Hent. rewrite Hk'. apply list_elem_of_fmap. exists e'.
           split; [done|]. by apply entering_elem.
    + rewrite Hout by done. rewrite synced_old.
      unfold acc in Hk. rewrite acc_keys in Hk.
      destruct (decide (k ∈ entryKey <$> old)) as [Hold|Hold].
      * apply list_elem_of_fmap in Hold as (e & -> & He).
        rewrite resultRows_lookup by done.
        assert (e ∈ new) as Henew.
        { apply stays_elem; [done|]. destruct (decide (e.1 ∈ new.*1)); [done|].
          exfalso. apply Hk. left. apply list_elem_of_fmap. exists e.
          split; [done|]. by apply leaving_elem. }
        by rewrite resultRows_lookup.
      * rewrite !resultRows_lookup_None; [done| |done].
        intros Hnew. apply list_elem_of_fmap in Hnew as (e & -> & He).
        destruct (decide (e.1 ∈ old.*1)) as [Hin'|Hin'].
        -- apply Hold. apply list_elem_of_fmap. exists e. split; [done|].
           by apply kept_elem.
        -- apply Hk. right. apply list_elem_of_fmap. exists e.
           split; [done|]. by apply entering_elem.
  - intros e He.
    destruct (stamp_lookup acc (orderByIndices mat) acc_distinctValues)
      as [Hstamp Hkeep].
    destruct (decide (e.1 ∈ old.*1)) as [Hold|Hold].
    + rewrite Hkeep; [apply stamped_old; by apply kept_elem|].
      intros [k c] Hkc Hv. simpl in Hv.
      destruct (acc_entry k c Hkc)
        as [(e' & He' & <- & Hv' & _)|(e' & He' & <- & _ & Hv' & _)].
      * apply entering_elem in He' as [He' Hnot]. apply Hnot.
        rewrite (same_entry new e' e); [done..|]. apply select_key. congruence.
      * apply leaving_elem in He' as [He' Hnot]. apply Hnot.
        rewrite (same_entry old e' e);
          [by apply list_elem_of_fmap_2|done|done|by apply kept_elem|].
        apply select_key. congruence.
    + assert (e ∈ entering) as Hent by (by apply entering_elem).
      assert (e.1.1 ∈ acc.*1) as Hk.
      { unfold acc. rewrite acc_keys. right. apply list_elem_of_fmap. by exists e. }
      apply list_elem_of_fmap in Hk as ([k c] & Hkey & Hkc). simpl in Hkey.
      destruct (acc_entry k c Hkc)
        as [(e' & He' & Hk' & Hv' & Hi' & _)|(e' & _ & Hk' & Hnot & _)].
      * assert (e' = e) as ->.
        { eapply same_entry; [apply entering_keys|done..|congruence]. }
        rewrite <- Hv'. by apply (Hstamp (k, c)).
      * exfalso. apply Hnot. rewrite <- Hkey. apply list_elem_of_fmap. by exists e.
Qed.

End Windows.

(** *** A run of the graph keeps the invariant *)

Section Run.
Context {OV : Type}.
Variable precedes : K * V -> K * V -> bool.
Variables offset limit : nat.
Variable whereClause : V -> bool.
Hypothesis precedes_irrefl : forall r, precedes r r = false.
Hypothesis precedes_trans : forall a b c,
  precedes a b = true -> precedes b c = true -> precedes a c = true.
Hypothesis precedes_weak : forall a b c,
  precedes a c = true -> precedes a b = true \/ precedes b c = true.
Hypothesis precedes_total : forall a b,
  a.1 <> b.1 -> precedes a b = true \/ precedes b a = true.

Abbreviation theOps := (ops precedes offset limit whereClause select).
Abbreviation WorldT := (Driver.World K V R OV (Graph (K:=K) (V:=V))).
Abbreviation Inv := (invariant (OV:=OV) precedes offset limit select).

Lemma window_keys st :
  NoDup (fst <$> buffer st) -> ordered precedes offset limit st ->
  NoDup (entryKey <$> indexed st).
Proof.
  intros Hnd (Hwin & _).
  replace (entryKey <$> indexed st) with (fst <$> (fst <$> indexed st))
    by (by rewrite <- list_fmap_compose).
  rewrite Hwin. eapply sublist_NoDup; [done|].
  apply fmap_sublist, window_sublist.
Qed.

Lemma window_step batch st st' out (mat0 : MatState K R) (synced0 : gmap K R) :
  ordered precedes offset limit st ->
  NoDup (fst <$> buffer st) ->
  materializes select st mat0 synced0 ->
  processBatch precedes offset limit batch st = Some (st', out) ->
  NoDup (fst <$> buffer st') ->
  ordered precedes offset limit st'
  /\ exists mat' events,
       onOutput (Pipeline.has synced0) (map (outTuple select) out) mat0
       = (mat', events, true)
       /\ materializes select st' mat'
            (fold_left (applyWrite (resultKeys mat')) events synced0).
Proof.
  intros Hord Hnd [Hsync Hstamp] Hstep Hnd'.
  destruct (processBatch_ordered precedes offset limit precedes_irrefl
              precedes_trans precedes_weak precedes_total batch st st' out
              Hord Hstep Hnd')
    as (Hord' & _ & -> & Hkept).
  split; [done|].
  destruct (materialize_messages (indexed st) (indexed st')
              (window_keys st Hnd Hord) (window_keys st' Hnd' Hord') Hkept
              mat0 synced0 Hsync Hstamp)
    as (mat' & events & Hon & Hfold & Hstamp').
  by exists mat', events.
Qed.

Lemma graphRun_invariant (w0 : WorldT) w' :
  Inv w0 ->
  graphRun theOps w0 = Done tt w' ->
  NoDup (fst <$> buffer (topK (graph w'))) ->
  Inv w'.
Proof.
  intros (Hord & Hnd & Hmat) Hrun Hnd'.
  destruct w0 as [[batch st] subs all mat0 synced0 ready0 trace0].
  simpl in Hord, Hnd, Hmat.
  unfold graphRun, mbind, M_bind, getWorld, emit, setGraph in Hrun.
  cbn [graph subscriptions subscribedToAllCollections mat synced ready trace
       Driver.run theOps ops] in Hrun.
  unfold Pipeline.run in Hrun.
  cbn [pending topK] in Hrun.
  destruct batch as [|t batch].
  { injection Hrun as <-. by split_and!. }
  destruct (processBatch _ _ _ _ st) as [[st' out]|] eqn:Hstep; [|done].
  cbn [mbind option_bind graph subscriptions subscribedToAllCollections mat
       synced ready trace] in Hrun.
  destruct out as [|x out'] eqn:Hout.
  - injection Hrun as <-. simpl in Hnd'.
    destruct (window_step _ _ _ _ _ _ Hord Hnd Hmat Hstep Hnd')
      as (Hord' & mat' & events & Hon & Hmat').
    injection Hon as <- <-. by split_and!.
  - rewrite <- Hout in *. cbn [forEachBatch] in Hrun.
    unfold mbind, M_bind, outputCallback in Hrun.
    cbn [graph subscriptions subscribedToAllCollections mat synced ready trace]
      in Hrun.
    destruct (onOutput _ _ mat0) as [[mat' events] ok] eqn:Hon.
    destruct ok; [|done]. injection Hrun as <-. simpl in Hnd'.
    destruct (window_step _ _ _ _ _ _ Hord Hnd Hmat Hstep Hnd')
      as (Hord' & mat'' & events' & Hon' & Hmat').
    unfold Pipeline.has in Hon'. rewrite Hon in Hon'. injection Hon' as <- <-.
    by split_and!.
Qed.

(** *** The listing of the result collection *)

Lemma wellFormed_truthy i : wellFormed i -> Ordering.truthy (Some (encode i)) = true.
Proof. intros [_ Hend]. by destruct i. Qed.

Section Listing.
Variable st : State (K:=K) (V:=V).
Variable mat0 : MatState K R.
Hypothesis st_ordered : ordered precedes offset limit st.
Hypothesis st_stamped : forall e,
  e ∈ indexed st -> orderByIndices mat0 !! select e.1 = Some (encode e.2).

Lemma compare_indexed e1 e2 :
  e1 ∈ indexed st -> e2 ∈ indexed st ->
  (Ordering.compareByIndex (orderByIndices mat0) (select e1.1) (select e2.1) <? 0)
  = lexlt e1.2 e2.2.
Proof.
  intros He1 He2. destruct st_ordered as (_ & _ & _ & _ & Hwf).
  pose proof (proj1 (Forall_forall _ _) Hwf e1 He1) as Hw1.
  pose proof (proj1 (Forall_forall _ _) Hwf e2 He2) as Hw2.
  unfold Ordering.compareByIndex. rewrite !st_stamped by done.
  rewrite !wellFormed_truthy by done. cbn [andb].
  rewrite !encode_ltb by (apply Hw1 || apply Hw2).
  destruct (lexlt e1.2 e2.2); [done|]. by destruct (lexlt e2.2 e1.2).
Qed.

Lemma listed_elem x :
  x ∈ select <$> (indexed st).*1 <-> exists e, e ∈ indexed st /\ x = select e.1.
Proof.
  rewrite list_elem_of_fmap. split.
  - intros (r & -> & Hr). apply list_elem_of_fmap in Hr as (e & -> & He).
    by exists e.
  - intros (e & He & ->). exists e.1. split; [done|].
    by apply list_elem_of_fmap_2.
Qed.

Lemma listed_sorted l :
  Forall (fun e => e ∈ indexed st) l ->
  StronglySorted (fun e1 e2 => lexlt e1.2 e2.2 = true) l ->
  StronglySorted
    (fun x y => (Ordering.compareByIndex (orderByIndices mat0) x y <? 0) = true)
    (select <$> l.*1).
Proof.
  intros Hl. induction 1 as [|e l Hs IH Hall]; csimpl; [constructor|].
  apply Forall_cons in Hl as [He Hl]. constructor; [by apply IH|].
  apply Forall_forall. intros y Hy.
  apply list_elem_of_fmap in Hy as (r & -> & Hr).
  apply list_elem_of_fmap in Hr as (e' & -> & He').
  rewrite compare_indexed; [|done|exact (proj1 (Forall_forall _ _) Hl e' He')].
  exact (proj1 (Forall_forall _ _) Hall e' He').
Qed.

Lemma toArray_window (synced0 : gmap K R) :
  synced0 = list_to_map (resultRows select (indexed st)) ->
  toArray (orderByIndices mat0) synced0 = select <$> (indexed st).*1.
Proof.
  intros ->. unfold toArray.
  assert (StronglySorted (fun a b => precedes a b = true) (indexed st).*1)
    as Hrows by (by eapply ordered_window).
  pose proof (ordered_keys precedes offset limit st st_ordered) as Hkeys.
  destruct st_ordered as (_ & _ & _ & Hidx & _).
  apply sortBy_unique.
  - intros x Hx. apply listed_elem in Hx as (e & He & ->).
    rewrite compare_indexed by done. apply lexlt_irrefl.
  - intros x y z Hx Hy Hz.
    apply listed_elem in Hx as (e1 & He1 & ->).
    apply listed_elem in Hy as (e2 & He2 & ->).
    apply listed_elem in Hz as (e3 & He3 & ->).
    rewrite !compare_indexed by done. apply lexlt_trans.
  - intros x y Hx Hy Hne.
    apply listed_elem in Hx as (e1 & He1 & ->).
    apply listed_elem in Hy as (e2 & He2 & ->).
    rewrite !compare_indexed by done.
    destruct (precedes_total e1.1 e2.1) as [Hlt|Hlt].
    + intros Hk. apply Hne.
      by rewrite (TopKFacts.same_key (indexed st) e1 e2 Hkeys He1 He2 Hk).
    + left. exact (pairs_agree precedes precedes_irrefl precedes_trans
                     (indexed st) Hrows Hidx e1 e2 He1 He2 Hlt).
    + right. exact (pairs_agree precedes precedes_irrefl precedes_trans
                      (indexed st) Hrows Hidx e2 e1 He2 He1 Hlt).
  - apply listed_sorted; [|done]. apply Forall_forall. by intros e He.
  - rewrite <- list_fmap_compose in Hkeys.
    rewrite map_to_list_to_map by (rewrite resultRows_keys; exact Hkeys).
    unfold resultRows. rewrite <- !list_fmap_compose. done.
Qed.

End Listing.

(** For the pipeline over one source collection: between two runs, as long
    as no two rows of the buffer share a key, each row of the result
    collection stands for a row of the window and has its index stamped on
    it, and the collection lists the window. *)
Lemma window_is_listed (w : WorldT) :
  Inv w ->
  let indices := orderByIndices (mat w) in
  let rows := window offset limit (buffer (topK (graph w))) in
  (forall k1 x1 k2 x2,
     synced w !! k1 = Some x1 -> synced w !! k2 = Some x2 ->
     exists r1 r2 i1 i2,
       r1 ∈ rows /\ r2 ∈ rows /\ r1.1 = k1 /\ r2.1 = k2
       /\ select r1 = x1 /\ select r2 = x2
       /\ indices !! x1 = Some i1 /\ indices !! x2 = Some i2
       /\ (precedes r1 r2 = true <-> String.ltb i1 i2 = true))
  /\ StronglySorted (fun a b => precedes a b = true) rows
  /\ toArray indices (synced w) = select <$> rows.
Proof.
  intros (Hord & _ & Hsync & Hstamp).
  pose proof Hord as (Hwin & _). intros indices rows.
  fold rows in Hwin. rewrite <- Hwin. split_and!.
  - intros k1 x1 k2 x2 H1 H2. rewrite Hsync in H1, H2.
    apply elem_of_list_to_map_2, list_elem_of_fmap in H1 as (e1 & [= -> ->] & He1).
    apply elem_of_list_to_map_2, list_elem_of_fmap in H2 as (e2 & [= -> ->] & He2).
    exists e1.1, e2.1, (encode e1.2), (encode e2.2).
    split_and!; try done; try (by apply list_elem_of_fmap_2).
    + by apply Hstamp.
    + by apply Hstamp.
    + by apply (ordered_index_order precedes offset limit precedes_irrefl
                  precedes_trans precedes_total (topK (graph w))).
  - by eapply ordered_window.
  - by apply toArray_window.
Qed.

End Run.

End Diff.
End PipelineFacts.

(** ** The employees of the test suite *)

Module EmployeesFacts.
Import Changes Materializer Driver DriverFacts TopK Pipeline PipelineFacts
       Employees.

Lemma precedes_spec a b :
  precedes a b = true
  <-> salary b.2 < salary a.2 \/ (salary a.2 = salary b.2 /\ a.1 < b.1).
Proof.
  unfold precedes, comparator.
  destruct (Z.ltb_spec (salary b.2) (salary a.2)); simpl; [lia|].
  destruct (Z.ltb_spec (salary a.2) (salary b.2)); simpl; [lia|].
  destruct (Z.ltb_spec a.1 b.1); [lia|]. split; [done|lia].
Qed.

Lemma salary_order_irrefl r : precedes r r = false.
Proof. apply not_true_iff_false. rewrite precedes_spec. lia. Qed.

Lemma salary_order_trans a b c :
  precedes a b = true -> precedes b c = true -> precedes a c = true.
Proof. rewrite !precedes_spec. lia. Qed.

Lemma salary_order_weak a b c :
  precedes a c = true -> precedes a b = true \/ precedes b c = true.
Proof. rewrite !precedes_spec. lia. Qed.

Lemma salary_order_total a b :
  a.1 <> b.1 -> precedes a b = true \/ precedes b a = true.
Proof. rewrite !precedes_spec. lia. Qed.

Lemma select_keeps_key r1 r2 : select r1 = select r2 -> r1.1 = r2.1.
Proof. unfold select. by intros [= ? _ _]. Qed.

(** C3.  On the employees of the test suite, ORDER BY salary DESC OFFSET 1
    LIMIT 2 materializes Bob and Charlie; after the insert of George with a
    salary of 70000 it materializes Diana and Bob, with 62000 George and
    Bob, and with 43000 what it did before. *)
Theorem top_two_after_the_first n :
  materialized (started 1 2 None (1 + n)) = Some [(2, 60000); (3, 55000)]
  /\ materialized (afterInsert 1 2 None (1 + n) (george 70000))
     = Some [(4, 65000); (2, 60000)]
  /\ materialized (afterInsert 1 2 None (1 + n) (george 62000))
     = Some [(6, 62000); (2, 60000)]
  /\ materialized (afterInsert 1 2 None (1 + n) (george 43000))
     = Some [(2, 60000); (3, 55000)].
Proof. split_and!; by vm_compute. Qed.

(** C5.  With a WHERE on the department, the first run of the graph is
    followed by no call of [dataNeeded] and the result collection is marked
    ready while the operator still asks for two rows: it lists no row, and
    the department has three employees.  Without the WHERE and with a limit
    of ten, no call of [dataNeeded] is made either, and the collection is
    marked ready while the operator asks for six rows. *)
Theorem initial_run_skips_dataNeeded n :
  let o := started 1 2 (Some 1) (1 + n) in
  let o' := started 1 10 None (1 + n) in
  traceOf o
  = Some [ EvIndexTake 0 3 None;
           EvSendData 0 [ ((4, mkEmployee 4 "Diana" 2 65000 "2018-11-05"), 1);
                          ((2, mkEmployee 2 "Bob" 2 60000 "2019-03-20"), 1);
                          ((3, mkEmployee 3 "Charlie" 1 55000 "2021-06-10"), 1) ];
           EvSubscribe 0 false;
           EvGraphRun;
           EvSync Begin;
           EvSync Commit;
           EvMarkReady ]
  /\ ready (worldOf 1 2 (Some 1) o) = true
  /\ Pipeline.dataNeeded 1 2 (graph (worldOf 1 2 (Some 1) o)) = 2
  /\ materialized o = Some []
  /\ length (List.filter (whereClause (Some 1)) employeeData) = 3%nat
  /\ ready (worldOf 1 10 None o') = true
  /\ Forall (fun ev => match ev with EvDataNeeded _ _ => False | _ => True end)
            (trace (worldOf 1 10 None o'))
  /\ Pipeline.dataNeeded 1 10 (graph (worldOf 1 10 None o')) = 6.
Proof.
  intros o o'. subst o o'.
  split_and!; vm_compute; try reflexivity. repeat constructor.
Qed.

(** The employees as the lazy side of a join. *)
Lemma loadInitialState_idempotent_witness :
  let call := loadInitialState (ops 0 0 None) (maybeRunGraph (ops 0 0 None) 1) 0 in
  subscriptions lazyWorld !! 0%nat = Some lazySubscription
  /\ loadedInitialState lazySubscription = false
  /\ times 3 call lazyWorld = call lazyWorld.
Proof.
  intros call. split_and!; [reflexivity..|].
  apply (loadInitialState_idempotent (ops 0 0 None) 1 0 lazyWorld lazySubscription
           eq_refl eq_refl).
  lia.
Defined.

(** A batch delivered before anything was loaded. *)
Lemma sendVisibleChanges_masks_until_initial_load_witness :
  let rec := maybeRunGraph (ops 0 0 None) 1 in
  let alice := mkEmployee 1 "Alice" 1 50000 "2020-01-15" in
  let raise := mkEmployee 1 "Alice" 1 51000 "2020-01-15" in
  let changes := [Update 1 alice raise; Delete 6 (george 70000)] in
  subscriptions lazyWorld !! 0%nat = Some lazySubscription
  /\ sendVisibleChanges (ops 0 0 None) rec 0 changes lazyWorld
     = rec None (sent (ops 0 0 None) 0 [((1, raise), 1)] lazyWorld).
Proof.
  intros rec alice raise changes. split; [reflexivity|].
  exact (proj1 (sendVisibleChanges_masks_until_initial_load (ops 0 0 None) rec 0
                  changes lazyWorld lazySubscription eq_refl)).
Defined.

(** C6, the claim as stated fails.  [loadInitialState] is called and then
    a batch is delivered with an update and a delete of keys that are not in
    [sentKeys]: the update is sent as it is, and arrives as a retraction and
    an insertion, and the delete is sent too.  Masked, the batch would have
    been the insertion alone. *)
Lemma loaded_initial_state_stops_masking :
  let rec := maybeRunGraph (ops 0 0 None) 1 in
  let alice := mkEmployee 1 "Alice" 1 50000 "2020-01-15" in
  let raise := mkEmployee 1 "Alice" 1 51000 "2020-01-15" in
  let changes := [Update 1 alice raise; Delete 6 (george 70000)] in
  let o := (loadInitialState (ops 0 0 None) rec 0 ;;
            sendVisibleChanges (ops 0 0 None) rec 0 changes) lazyWorld in
  (lazySentKeys <$> subscriptions (worldOf 0 0 None o) !! 0%nat) = Some ∅
  /\ (loadedInitialState <$> subscriptions (worldOf 0 0 None o) !! 0%nat)
     = Some true
  /\ traceOf o
     = Some [ EvCurrentStateAsChanges 0;
              EvSendData 0 (map (fun e => ((id e, e), 1)) employeeData);
              EvSendData 0 [ ((1, alice), -1); ((1, raise), 1);
                             ((6, george 70000), -1) ] ]
  /\ sendChangesToInput id (visibleChanges ∅ changes) = [((1, raise), 1)].
Proof. split_and!; vm_compute; reflexivity. Qed.

End EmployeesFacts.

(** ** Construction *)

Module ConstructionFacts.
Import Construction.

(** C7.  A query with a limit or an offset and no order-by makes
    [createLiveQueryCollection] raise the dedicated error out of the call of
    [compileQuery], the third thing construction does: the [sync]
    configuration, in which the subscriptions and the runs of the graph
    are, is not created, and neither is the collection. *)
Theorem limit_without_orderBy_is_rejected query :
  hasOrderBy query = false ->
  is_Some (limit query) \/ is_Some (offset query) ->
  createLiveQueryCollection query
  = ([NewGraph; NewInputs; CompileQuery], inl LimitOffsetRequireOrderByError)
  /\ liveQueryCollectionOptions query
     = ([NewGraph; NewInputs; CompileQuery], inl LimitOffsetRequireOrderByError).
Proof.
  intros Horder Hlimit.
  unfold createLiveQueryCollection, liveQueryCollectionOptions,
    compileBasePipeline, compileQuery.
  rewrite Horder. by rewrite bool_decide_true.
Qed.

(** The query of the test suite: [.from(...).limit(3).select(...)]. *)
Lemma limit_without_orderBy_is_rejected_witness :
  let query := mkQueryIR None (Some 3) None in
  hasOrderBy query = false
  /\ (is_Some (limit query) \/ is_Some (offset query))
  /\ createLiveQueryCollection query
     = ([NewGraph; NewInputs; CompileQuery], inl LimitOffsetRequireOrderByError).
Proof.
  intros query.
  assert (hasOrderBy query = false) as Horder by reflexivity.
  assert (is_Some (limit query) \/ is_Some (offset query)) as Hlimit
    by (left; by eexists).
  split_and!; [done|done|].
  exact (proj1 (limit_without_orderBy_is_rejected query Horder Hlimit)).
Defined.

End ConstructionFacts.

(** ** The boundary with the graph, and the tracker *)

Module BoundaryFacts.
Import Changes ChangesFacts Driver.

Section Boundary.
Context {K V : Type} `{Countable K}.
Implicit Types (changes : list (ChangeMessage K V)) (getKey : V -> K).

Lemma tuplesOfChange_length getKey (c : ChangeMessage K V) :
  length (tuplesOfChange getKey c)
  = match c with Update _ _ _ => 2%nat | _ => 1%nat end.
Proof. by destruct c. Qed.

(** X1. [sendChangesInRange] splits the updates before the boundary does: the
    retraction of an update is then keyed by [getKey] of the previous value.
    The array is the one the boundary builds from the unsplit batch exactly
    when no update changes the key of its row. *)
Theorem splitUpdates_then_send getKey changes :
  sendChangesToInput getKey (splitUpdates changes)
  = sendChangesToInput getKey changes
  <-> forall k previousValue value,
        Update k previousValue value ∈ changes ->
        getKey previousValue = getKey value.
Proof.
  induction changes as [|c rest [IH1 IH2]].
  { split; [intros _ ? ? ? Hin|done]. by apply elem_of_nil in Hin. }
  destruct c as [k v|k prev v|k v]; simpl splitUpdates;
    rewrite !sendChangesToInput_cons; simpl tuplesOfChange.
  - split.
    + intros Heq k' prev' v' Hin. apply elem_of_cons in Hin as [[=]|Hin].
      apply app_inv_head in Heq. by eapply IH1.
    + intros Hall. f_equal. apply IH2. intros ? ? ? Hin. eapply Hall. by right.
  - split.
    + intros Heq k' prev' v' Hin. simpl in Heq.
      injection Heq as Hk Hrest.
      apply elem_of_cons in Hin as [[= -> -> ->]|Hin]; [done|].
      by eapply IH1.
    + intros Hall. simpl. rewrite (Hall k prev v) by left. do 2 f_equal.
      apply IH2. intros ? ? ? Hin. eapply Hall. by right.
  - split.
    + intros Heq k' prev' v' Hin. apply elem_of_cons in Hin as [[=]|Hin].
      apply app_inv_head in Heq. by eapply IH1.
    + intros Hall. f_equal. apply IH2. intros ? ? ? Hin. eapply Hall. by right.
Qed.

(** X2. A masked batch retracts nothing of a key that is not in [sentKeys]. *)
Theorem visibleChanges_retracts_sent_keys getKey (sentKeys : gset K) changes t :
  t ∈ sendChangesToInput getKey (visibleChanges sentKeys changes) ->
  t.2 < 0 ->
  exists c, c ∈ changes /\ key c ∈ sentKeys /\ t ∈ tuplesOfChange getKey c.
Proof.
  induction changes as [|c rest IH]; simpl; [intros Hin; by apply elem_of_nil in Hin|].
  intros Hin Hneg.
  assert (t ∈ sendChangesToInput getKey (visibleChanges sentKeys rest) ->
          exists c', c' ∈ c :: rest /\ key c' ∈ sentKeys
                     /\ t ∈ tuplesOfChange getKey c') as Hrest.
  { intros Hin'. destruct (IH Hin' Hneg) as (c' & ? & ? & ?).
    exists c'. split; [by right|done]. }
  case_bool_decide as Hk.
  - rewrite sendChangesToInput_cons in Hin.
    apply elem_of_app in Hin as [Hin|Hin]; [|by apply Hrest].
    exists c. split; [by left|done].
  - destruct c as [k v|k prev v|k v]; [| |by apply Hrest].
    + rewrite sendChangesToInput_cons in Hin.
      apply elem_of_app in Hin as [Hin|Hin]; [|by apply Hrest].
      simpl in Hin. apply list_elem_of_singleton in Hin as ->. simpl in Hneg. lia.
    + rewrite sendChangesToInput_cons in Hin.
      apply elem_of_app in Hin as [Hin|Hin]; [|by apply Hrest].
      simpl in Hin. apply list_elem_of_singleton in Hin as ->. simpl in Hneg. lia.
Qed.

Section Tracking.
Variable comparator : V -> V -> Z.
Hypothesis comparator_irrefl : forall a, ~ comparator a a < 0.
Hypothesis comparator_trans : forall a b c,
  comparator a b < 0 -> comparator b c < 0 -> comparator a c < 0.

Lemma trackOne_keys (tracker : Tracker K V) c :
  sentKeys (trackOne comparator tracker c) = {[ key c ]} ∪ sentKeys tracker.
Proof.
  unfold trackOne. destruct (biggest tracker); [|done].
  by destruct (comparator _ _ <? 0).
Qed.

Lemma track_keys changes (tracker : Tracker K V) :
  sentKeys (fold_left (trackOne comparator) changes tracker)
  = list_to_set (key <$> changes) ∪ sentKeys tracker.
Proof.
  revert tracker. induction changes as [|c rest IH]; intros tracker; simpl.
  - set_solver.
  - rewrite IH, trackOne_keys. set_solver.
Qed.

Lemma track_from changes (tracker : Tracker K V) :
  biggest (fold_left (trackOne comparator) changes tracker) = biggest tracker
  \/ exists c, c ∈ changes
       /\ biggest (fold_left (trackOne comparator) changes tracker)
          = Some (Changes.value c).
Proof.
  revert tracker. induction changes as [|c rest IH]; intros tracker; simpl.
  { by left. }
  destruct (IH (trackOne comparator tracker c)) as [Hsame|(c' & Hc' & Hb)].
  - rewrite Hsame. unfold trackOne. destruct (biggest tracker) as [b0|]; simpl.
    + destruct (comparator _ _ <? 0); simpl; [|by left].
      right. exists c. split; [by left|done].
    + right. exists c. split; [by left|done].
  - right. exists c'. split; [by right|done].
Qed.

Lemma track_max changes (tracker : Tracker K V) (seen : list V) :
  (biggest tracker = None -> seen = []) ->
  (forall b, biggest tracker = Some b ->
     forall u, u ∈ seen -> ~ comparator b u < 0) ->
  forall b, biggest (fold_left (trackOne comparator) changes tracker) = Some b ->
    forall u, u ∈ seen ++ (Changes.value <$> changes) -> ~ comparator b u < 0.
Proof.
  revert tracker seen.
  induction changes as [|c rest IH]; intros tracker seen Hnone Hseen.
  { simpl. intros b Hb u Hu. rewrite app_nil_r in Hu. by eapply Hseen. }
  cbn [fold_left]. intros b Hb u Hu.
  apply (IH (trackOne comparator tracker c) (seen ++ [Changes.value c])); [| |done|].
  - unfold trackOne. destruct (biggest tracker); [|done].
    by destruct (comparator _ _ <? 0).
  - clear b Hb u Hu. intros b Hb u Hu.
    apply elem_of_app in Hu as [Hu|Hu].
    + unfold trackOne in Hb. destruct (biggest tracker) as [b0|] eqn:Hb0.
      * destruct (Z.ltb_spec (comparator b0 (Changes.value c)) 0) as [Hlt|Hge];
          simpl in Hb; injection Hb as <-.
        -- intros Hcu. apply (Hseen b0 eq_refl u Hu). by eapply comparator_trans.
        -- by apply (Hseen b0).
      * rewrite (Hnone eq_refl) in Hu. by apply elem_of_nil in Hu.
    + apply list_elem_of_singleton in Hu as ->.
      unfold trackOne in Hb. destruct (biggest tracker) as [b0|].
      * destruct (Z.ltb_spec (comparator b0 (Changes.value c)) 0) as [Hlt|Hge];
          simpl in Hb; injection Hb as <-; [apply comparator_irrefl|lia].
      * simpl in Hb. injection Hb as <-. apply comparator_irrefl.
  - rewrite <- app_assoc. done.
Qed.

(** X3. [trackSentValues] leaves in [biggest] a value that none of the tracked
    values exceeds, and in [sentKeys] the keys of the tracked changes next
    to those that were there. *)
Theorem trackSentValues_biggest changes (tracker : Tracker K V) :
  let tracker' := (trackSentValues changes comparator tracker).2 in
  sentKeys tracker' = list_to_set (key <$> changes) ∪ sentKeys tracker
  /\ (changes <> [] -> is_Some (biggest tracker'))
  /\ (biggest tracker' = biggest tracker
      \/ exists c, c ∈ changes /\ biggest tracker' = Some (Changes.value c))
  /\ forall b, biggest tracker' = Some b ->
       (forall c, c ∈ changes -> ~ comparator b (Changes.value c) < 0)
       /\ (forall b0, biggest tracker = Some b0 -> ~ comparator b b0 < 0).
Proof.
  unfold trackSentValues. cbn [snd]. split_and!.
  - apply track_keys.
  - destruct changes as [|c rest]; [done|]. intros _. cbn [fold_left].
    destruct (track_from rest (trackOne comparator tracker c))
      as [->|(c' & _ & ->)]; [|by eexists].
    unfold trackOne. destruct (biggest tracker); [|by eexists].
    destruct (comparator _ _ <? 0); by eexists.
  - apply track_from.
  - intros b Hb.
    pose proof (track_max changes tracker
                  (match biggest tracker with Some b0 => [b0] | None => [] end))
      as Hmax.
    assert (forall u,
              u ∈ match biggest tracker with Some b0 => [b0] | None => [] end
                  ++ (Changes.value <$> changes) ->
              ~ comparator b u < 0) as Hall.
    { apply Hmax; [by intros ->| |done].
      intros b0 Hb0 u Hu. rewrite Hb0 in Hu.
      apply list_elem_of_singleton in Hu as ->. apply comparator_irrefl. }
    split.
    + intros c Hc. apply Hall, elem_of_app. right. by apply list_elem_of_fmap_2.
    + intros b0 Hb0. apply Hall. rewrite Hb0. apply elem_of_app. left. by left.
Qed.

End Tracking.

End Boundary.
End BoundaryFacts.

(** ** The comparator of the result collection *)

Module OrderingFacts.
Import Ordering.

Lemma ascii_compare_N a b :
  Ascii.compare a b = N.compare (N_of_ascii a) (N_of_ascii b).
Proof. done. Qed.

Lemma ascii_compare_Eq a b : Ascii.compare a b = Eq -> a = b.
Proof.
  rewrite ascii_compare_N. intros Heq%N.compare_eq.
  by rewrite <- (ascii_N_embedding a), <- (ascii_N_embedding b), Heq.
Qed.

Lemma ascii_compare_refl a : Ascii.compare a a = Eq.
Proof. rewrite ascii_compare_N. apply N.compare_refl. Qed.

Lemma string_compare_refl s : String.compare s s = Eq.
Proof. induction s as [|a s IH]; [done|]. simpl. by rewrite ascii_compare_refl. Qed.

Lemma string_compare_trans s1 : forall s2 s3,
  String.compare s1 s2 = Lt -> String.compare s2 s3 = Lt ->
  String.compare s1 s3 = Lt.
Proof.
  induction s1 as [|a s1 IH]; intros [|b s2] [|c s3]; simpl; try done.
  destruct (Ascii.compare a b) eqn:Hab; [|intros _|done].
  - apply ascii_compare_Eq in Hab as ->.
    destruct (Ascii.compare b c); [apply IH|done..].
  - destruct (Ascii.compare b c) eqn:Hbc; [|intros _|done].
    + apply ascii_compare_Eq in Hbc as <-. by rewrite Hab.
    + rewrite ascii_compare_N in *. rewrite N.compare_lt_iff in *.
      assert (N_of_ascii a < N_of_ascii c)%N as Hac by lia.
      apply N.compare_lt_iff in Hac. by rewrite Hac.
Qed.

Lemma ltb_irrefl s : String.ltb s s = false.
Proof. unfold String.ltb. by rewrite string_compare_refl. Qed.

Lemma ltb_asym s1 s2 : String.ltb s1 s2 = true -> String.ltb s2 s1 = false.
Proof.
  unfold String.ltb. rewrite (String.compare_antisym s1 s2).
  by destruct (String.compare s2 s1).
Qed.

Lemma ltb_trans s1 s2 s3 :
  String.ltb s1 s2 = true -> String.ltb s2 s3 = true -> String.ltb s1 s3 = true.
Proof.
  unfold String.ltb. intros H1 H2.
  rewrite (string_compare_trans s1 s2 s3); [done|..].
  - by destruct (String.compare s1 s2).
  - by destruct (String.compare s2 s3).
Qed.

Section Compare.
Context {R : Type} `{Countable R}.
Variable orderByIndices : gmap R string.
Abbreviation cmp := (compareByIndex orderByIndices).

Lemma compareByIndex_values val1 val2 :
  cmp val1 val2
  = match orderByIndices !! val1, orderByIndices !! val2 with
    | Some i1, Some i2 =>
        if truthy (Some i1) && truthy (Some i2) then
          if String.ltb i1 i2 then -1 else if String.ltb i2 i1 then 1 else 0
        else 0
    | _, _ => 0
    end.
Proof.
  unfold compareByIndex.
  destruct (orderByIndices !! val1) as [i1|], (orderByIndices !! val2) as [i2|];
    try done.
  by destruct (truthy (Some i1)).
Qed.

(** X4. The [compare] function of an ordered query is a strict order where it
    decides and silent elsewhere: swapping its arguments negates its result,
    what it puts before is transitive, and it answers [0] as soon as one of
    the two rows has no index or an empty one. *)
Theorem compare_is_a_strict_order n compare val1 val2 val3 :
  Ordering.compare (Some (S n)) = Some compare ->
  compare orderByIndices val1 val2 = - compare orderByIndices val2 val1
  /\ (compare orderByIndices val1 val2 < 0 ->
      compare orderByIndices val2 val3 < 0 ->
      compare orderByIndices val1 val3 < 0)
  /\ (truthy (orderByIndices !! val1) = false ->
      compare orderByIndices val1 val2 = 0 /\ compare orderByIndices val2 val1 = 0)
  /\ (compare orderByIndices val1 val2 = 0 ->
      truthy (orderByIndices !! val1) = true ->
      truthy (orderByIndices !! val2) = true ->
      orderByIndices !! val1 = orderByIndices !! val2).
Proof.
  intros [= <-]. split_and!.
  - rewrite !compareByIndex_values.
    destruct (orderByIndices !! val1) as [i1|], (orderByIndices !! val2) as [i2|];
      try done.
    rewrite (andb_comm (truthy (Some i2))).
    destruct (truthy (Some i1) && truthy (Some i2)); [|done].
    destruct (String.ltb i1 i2) eqn:H12.
    + by rewrite (ltb_asym _ _ H12).
    + by destruct (String.ltb i2 i1).
  - rewrite !compareByIndex_values.
    destruct (orderByIndices !! val1) as [i1|], (orderByIndices !! val2) as [i2|],
      (orderByIndices !! val3) as [i3|]; try done; try lia.
    destruct (truthy (Some i1)), (truthy (Some i2)), (truthy (Some i3));
      simpl; try lia.
    destruct (String.ltb i1 i2) eqn:H12; [|destruct (String.ltb i2 i1); lia].
    destruct (String.ltb i2 i3) eqn:H23; [|destruct (String.ltb i3 i2); lia].
    by rewrite (ltb_trans _ _ _ H12 H23).
  - rewrite !compareByIndex_values.
    destruct (orderByIndices !! val1) as [i1|], (orderByIndices !! val2) as [i2|];
      try done.
    intros ->. simpl. by rewrite andb_false_r.
  - rewrite compareByIndex_values.
    destruct (orderByIndices !! val1) as [i1|], (orderByIndices !! val2) as [i2|];
      try done.
    intros Hz Ht1 Ht2. rewrite Ht1, Ht2 in Hz. simpl in Hz.
    destruct (String.ltb i1 i2) eqn:H12; [done|].
    destruct (String.ltb i2 i1) eqn:H21; [done|].
    unfold String.ltb in *. f_equal. apply String.compare_eq_iff.
    rewrite (String.compare_antisym i1 i2) in H12.
    destruct (String.compare i2 i1) eqn:Hc; try done.
    by rewrite String.compare_antisym, Hc.
Qed.

End Compare.
End OrderingFacts.

(** ** What the driver does, and when *)

Module EffectsFacts.
Import Changes Materializer Driver Effects.

Section Effects.
Context {K V R OV G : Type} `{Countable K} `{Countable R}.
Variable ops : GraphOps K V R G.

Abbreviation WorldT := (World K V R OV G).
Abbreviation MT := (M (K:=K) (V:=V) (R:=R) (OV:=OV) (G:=G)).
Implicit Types (w : WorldT).

Abbreviation any := (fun _ : WorldT => True).
Abbreviation running := (fun w : WorldT => canRun w = true).

(** *** Worlds that follow one another *)

Lemma allCollectionsReady_statuses w :
  allCollectionsReady w
  = forallb (fun st => match st with StReady => true | _ => false end)
            (statuses w).
Proof.
  unfold allCollectionsReady, statuses. induction (subscriptions w) as [|s l IH];
    [done|]. simpl. by rewrite IH.
Qed.

Lemma allCollectionsReadyOrInitialCommit_statuses w :
  allCollectionsReadyOrInitialCommit w
  = forallb (fun st => match st with StReady | StInitialCommit => true
                                | _ => false end)
            (statuses w).
Proof.
  unfold allCollectionsReadyOrInitialCommit, statuses.
  induction (subscriptions w) as [|s l IH]; [done|]. simpl. by rewrite IH.
Qed.

Lemma follows_canRun w w' : follows w w' -> canRun w' = canRun w.
Proof.
  intros (Hst & Hsub & _). unfold canRun.
  by rewrite !allCollectionsReadyOrInitialCommit_statuses, Hst, Hsub.
Qed.

Lemma follows_allCollectionsReady w w' :
  follows w w' -> allCollectionsReady w' = allCollectionsReady w.
Proof. intros (Hst & _). by rewrite !allCollectionsReady_statuses, Hst. Qed.

Lemma follows_refl w : follows w w.
Proof.
  split_and!; [done|done| |done|by left].
  exists []. by rewrite app_nil_r.
Qed.

Lemma follows_trans w1 w2 w3 : follows w1 w2 -> follows w2 w3 -> follows w1 w3.
Proof.
  intros H12 H23. pose proof (follows_canRun _ _ H12) as Hrun.
  pose proof (follows_allCollectionsReady _ _ H12) as Hall.
  destruct H12 as (Hst1 & Hsub1 & (evs1 & Htr1 & Hq1) & Hidle1 & Hr1).
  destruct H23 as (Hst2 & Hsub2 & (evs2 & Htr2 & Hq2) & Hidle2 & Hr2).
  split_and!.
  - by rewrite Hst2.
  - by rewrite Hsub2.
  - exists (evs1 ++ evs2). split; [by rewrite Htr2, Htr1, app_assoc|].
    intros Hno. rewrite forallb_app, Hq1, Hq2; [done|by rewrite Hrun|done].
  - intros Hno. destruct (Hidle1 Hno) as (Hm1 & Hs1 & Hy1).
    destruct Hidle2 as (Hm2 & Hs2 & Hy2); [by rewrite Hrun|].
    split_and!; congruence.
  - intros Hready. destruct (Hr2 Hready) as [Hready2|Hall2]; [by apply Hr1|].
    right. by rewrite <- Hall.
Qed.

Lemma follows_event ev w :
  quiet ev = true \/ canRun w = true -> follows w (withEvent ev w).
Proof.
  intros Hev. split_and!; [done|done| |done|by left].
  exists [ev]. split; [done|]. intros Hno. simpl. rewrite andb_true_r.
  destruct Hev as [?|Hrun]; [done|congruence].
Qed.

Lemma follows_setGraph g w :
  follows w (mkWorld g (subscriptions w) (subscribedToAllCollections w)
                     (mat w) (synced w) (ready w) (trace w)).
Proof.
  split_and!; [done|done| |done|by left]. exists []. by rewrite app_nil_r.
Qed.

Lemma statuses_insert (l : list (Subscription K V OV G)) collectionId s s' :
  l !! collectionId = Some s ->
  status (collection s') = status (collection s) ->
  map (fun s => status (collection s)) (<[collectionId := s']> l)
  = map (fun s => status (collection s)) l.
Proof.
  revert collectionId. induction l as [|x l IH]; intros [|i] Hs Hst; simpl in *;
    try done.
  - injection Hs as ->. by rewrite Hst.
  - by rewrite IH.
Qed.

Lemma follows_withSubscription collectionId s s' w :
  subscriptions w !! collectionId = Some s ->
  status (collection s') = status (collection s) ->
  follows w (withSubscription collectionId s' w).
Proof.
  intros Hs Hstatus. split_and!; [|done| |done|by left].
  - unfold statuses. simpl. by eapply statuses_insert.
  - exists []. by rewrite app_nil_r.
Qed.

(** *** Pieces of the driver *)

Lemma effect_weaken {A} (P P' : WorldT -> Prop) (m : MT A) :
  (forall w, P w -> P' w) -> effect P' m -> effect P m.
Proof. intros HP Hm w Hw. by apply Hm, HP. Qed.

Lemma effect_ret {A} (P : WorldT -> Prop) (a : A) : effect P (mret a).
Proof. intros w _. apply follows_refl. Qed.

Lemma effect_throw {A} (P : WorldT -> Prop) e : effect P (throw (A:=A) e).
Proof. intros w _. apply follows_refl. Qed.

Lemma effect_bind {A B} (P P' : WorldT -> Prop) (m : MT A) (f : A -> MT B) :
  effect P m -> (forall a, effect P' (f a)) ->
  (forall w w', P w -> follows w w' -> P' w') ->
  effect P (m ≫= f).
Proof.
  intros Hm Hf HP w Hw. specialize (Hm w Hw). unfold mbind, M_bind.
  destruct (m w) as [a w1|e w1|]; simpl in *; [|done..].
  specialize (Hf a w1 (HP _ _ Hw Hm)).
  destruct (f a w1) as [b w2|e w2|]; simpl in *; [| |done];
    by eapply follows_trans.
Qed.

Lemma effect_seq {A B} (m : MT A) (f : A -> MT B) :
  effect any m -> (forall a, effect any (f a)) -> effect any (m ≫= f).
Proof. intros Hm Hf. by eapply effect_bind. Qed.

Lemma effect_seq_running {A B} (m : MT A) (f : A -> MT B) :
  effect running m -> (forall a, effect running (f a)) ->
  effect running (m ≫= f).
Proof.
  intros Hm Hf. eapply effect_bind; [done..|].
  intros w w' Hrun Hfol. simpl. by rewrite (follows_canRun _ _ Hfol).
Qed.

Lemma effect_getWorld {B} (P : WorldT -> Prop) (f : WorldT -> MT B) :
  (forall w0, effect (fun w => P w /\ w = w0) (f w0)) ->
  effect P (getWorld ≫= f).
Proof. intros Hf w Hw. by apply (Hf w w). Qed.

Lemma effect_getSubscription {B} (P : WorldT -> Prop) collectionId
    (f : Subscription K V OV G -> MT B) :
  (forall s, effect (fun w => P w /\ subscriptions w !! collectionId = Some s)
                    (f s)) ->
  effect P (getSubscription collectionId ≫= f).
Proof.
  intros Hf w Hw. unfold mbind, M_bind, getSubscription.
  destruct (subscriptions w !! collectionId) as [s|] eqn:Hs.
  - by apply (Hf s w).
  - apply follows_refl.
Qed.

Lemma effect_getOrderByInfo {B} (P : WorldT -> Prop) collectionId
    (f : Subscription K V OV G * OrderByOptimizationInfo K V OV G * (G -> Z)
         -> MT B) :
  (forall r, effect (fun w => P w /\ subscriptions w !! collectionId = Some r.1.1)
                    (f r)) ->
  effect P (getOrderByInfo collectionId ≫= f).
Proof.
  intros Hf w Hw. unfold mbind at 1, M_bind at 1, getOrderByInfo.
  unfold mbind, M_bind, getSubscription.
  destruct (subscriptions w !! collectionId) as [s|] eqn:Hs;
    [|apply follows_refl].
  destruct (orderByInfo s) as [info|]; [|apply follows_refl].
  destruct (Driver.dataNeeded info) as [dn|]; [|apply follows_refl].
  by apply (Hf (s, info, dn) w).
Qed.

Lemma effect_emit (P : WorldT -> Prop) ev :
  (forall w, P w -> quiet ev = true \/ canRun w = true) ->
  effect P (emit ev).
Proof. intros Hev w Hw. by apply follows_event, Hev. Qed.

Lemma effect_setGraph (P : WorldT -> Prop) g : effect P (setGraph g).
Proof. intros w _. apply follows_setGraph. Qed.

Lemma effect_setSubscription (P : WorldT -> Prop) collectionId s s' :
  (forall w, P w -> subscriptions w !! collectionId = Some s) ->
  status (collection s') = status (collection s) ->
  effect P (setSubscription collectionId s').
Proof. intros Hs Hst w Hw. eapply follows_withSubscription; [by apply Hs|done]. Qed.

Lemma effect_outputCallback messages : effect running (outputCallback messages).
Proof.
  intros w Hrun. unfold outputCallback.
  destruct (onOutput _ _ _) as [[mat' events] ok].
  destruct ok; simpl.
  all: split_and!; [done|done| |intros; congruence|by left].
  all: exists (map EvSync events); split; [done|intros; congruence].
Qed.

Lemma effect_forEachBatch batches : effect running (forEachBatch batches).
Proof.
  induction batches as [|b rest IH]; simpl; [apply effect_ret|].
  apply effect_seq_running; [apply effect_outputCallback|by intros _].
Qed.

Lemma effect_graphRun : effect running (graphRun ops).
Proof.
  unfold graphRun. apply effect_getWorld. intros w0.
  eapply effect_weaken with (P' := running); [by intros w [? _]|].
  apply effect_seq_running; [apply effect_emit; by right|]. intros _.
  destruct (run ops (graph w0)) as [[g batches]|]; [|apply effect_throw].
  apply effect_seq_running; [apply effect_setGraph|]. intros _.
  apply effect_forEachBatch.
Qed.

Section Recursive.
Variable rec : option nat -> MT unit.
Hypothesis effect_rec : forall callback, effect any (rec callback).

Lemma effect_sendChangesToPipeline collectionId changes callback :
  effect any (sendChangesToPipeline ops rec collectionId changes callback).
Proof.
  unfold sendChangesToPipeline. apply effect_getSubscription. intros s.
  apply effect_getWorld. intros w0.
  eapply effect_weaken with (P' := any); [done|].
  apply effect_seq; [apply effect_setGraph|]. intros _.
  apply effect_seq; [apply effect_emit; by left|]. intros _.
  apply effect_rec.
Qed.

Lemma effect_sendChangesToPipelineWithTracking collectionId changes :
  effect any (sendChangesToPipelineWithTracking ops rec collectionId changes).
Proof.
  unfold sendChangesToPipelineWithTracking.
  apply effect_getOrderByInfo. intros [[s info] dn]. simpl.
  eapply effect_bind with (P' := any); [|intros _|done].
  - by eapply effect_setSubscription; [intros w [_ Hs]; exact Hs|].
  - apply effect_sendChangesToPipeline.
Qed.

Lemma effect_loadNextItems collectionId n :
  effect any (loadNextItems ops rec collectionId n).
Proof.
  unfold loadNextItems.
  apply effect_getOrderByInfo. intros [[s info] dn]. simpl.
  eapply effect_weaken with (P' := any); [done|].
  apply effect_seq; [apply effect_emit; by left|]. intros _.
  destruct (insertsOfKeys _ _); [|apply effect_throw].
  apply effect_sendChangesToPipelineWithTracking.
Qed.

Lemma effect_loadMoreIfNeeded collectionId :
  effect running (loadMoreIfNeeded ops rec collectionId).
Proof.
  unfold loadMoreIfNeeded.
  apply effect_getOrderByInfo. intros [[s info] dn]. simpl.
  apply effect_getWorld. intros w0.
  eapply effect_weaken with (P' := running); [by intros w [[? _] _]|].
  apply effect_seq_running; [apply effect_emit; by right|]. intros _.
  apply effect_seq_running; [|intros _; apply effect_ret].
  destruct (0 <? dn (graph w0)); [|apply effect_ret].
  eapply effect_weaken; [|apply effect_loadNextItems]. done.
Qed.

Lemma effect_sendChangesInRange collectionId changes :
  effect any (sendChangesInRange ops rec collectionId changes).
Proof.
  unfold sendChangesInRange.
  apply effect_getOrderByInfo. intros [[s info] dn]. simpl.
  eapply effect_weaken; [|apply effect_sendChangesToPipeline]. done.
Qed.

Lemma effect_sendVisibleChanges collectionId changes :
  effect any (sendVisibleChanges ops rec collectionId changes).
Proof.
  unfold sendVisibleChanges. apply effect_getSubscription. intros s.
  unfold sendVisibleChangesToPipeline.
  eapply effect_weaken with (P' := any); [done|].
  destruct (loadedInitialState s); apply effect_sendChangesToPipeline.
Qed.

Lemma effect_loadKeys collectionId keys :
  effect any (loadKeys ops rec collectionId keys).
Proof.
  induction keys as [|key rest IH]; simpl; [apply effect_ret|].
  apply effect_getSubscription. intros s.
  eapply effect_bind with (P' := any); [|by intros _|done].
  destruct (bool_decide _); [apply effect_ret|].
  destruct (get _ _) as [value|]; [|apply effect_ret].
  destruct (passes _ _); [|apply effect_ret].
  eapply effect_bind with (P' := any); [|intros _|done].
  - by eapply effect_setSubscription; [intros w [_ Hs]; exact Hs|].
  - apply effect_sendChangesToPipeline.
Qed.

Lemma effect_loadInitialState collectionId :
  effect any (loadInitialState ops rec collectionId).
Proof.
  unfold loadInitialState. apply effect_getSubscription. intros s.
  destruct (loadedInitialState s); [apply effect_ret|].
  eapply effect_bind with (P' := any); [|intros _|done].
  - by eapply effect_setSubscription; [intros w [_ Hs]; exact Hs|].
  - apply effect_seq; [apply effect_emit; by left|]. intros _.
    apply effect_sendChangesToPipeline.
Qed.

End Recursive.

Lemma effect_markReady_if (b : bool) :
  effect running
    (w2 ← getWorld;
     if b && allCollectionsReady w2 then markReady else mret tt).
Proof.
  intros w Hrun. unfold mbind, M_bind, getWorld.
  destruct (b && allCollectionsReady w) eqn:Hb; [|apply follows_refl].
  apply andb_prop in Hb as [_ Hall]. simpl.
  split_and!; [done|done| |intros; congruence|by right].
  exists [EvMarkReady]. split; [done|intros; congruence].
Qed.

Lemma effect_maybeRunGraph fuel callback :
  effect any (maybeRunGraph ops fuel callback).
Proof.
  revert callback. induction fuel as [|fuel IH]; intros callback; [done|].
  simpl. apply effect_getWorld. intros w0 w [_ ->].
  fold (canRun w0). destruct (canRun w0) eqn:Hrun; [|apply follows_refl].
  revert w0 Hrun.
  change (effect running
            (graphRun ops ;;
             ready ← match callback with
                     | Some collectionId =>
                         loadMoreIfNeeded ops (maybeRunGraph ops fuel) collectionId
                     | None => mret true
                     end;
             w1 ← getWorld;
             (if messagesCount (mat w1) =? 0
              then emit (EvSync Begin) ;; emit (EvSync Commit)
              else mret tt) ;;
             w2 ← getWorld;
             if ready && allCollectionsReady w2 then markReady else mret tt)).
  apply effect_seq_running; [apply effect_graphRun|]. intros _.
  apply effect_seq_running.
  { destruct callback; [by apply effect_loadMoreIfNeeded|apply effect_ret]. }
  intros ready. apply effect_getWorld. intros w1.
  eapply effect_weaken with (P' := running); [by intros w [? _]|].
  apply effect_seq_running; [|intros _; apply effect_markReady_if].
  destruct (_ =? 0); [|apply effect_ret].
  apply effect_seq_running; [|intros _]; apply effect_emit; by right.
Qed.

(** [subscribeToChanges], whatever the kind of the collection. *)
Lemma effect_subscribeToChanges fuel collectionId :
  effect any (subscribeToChanges ops fuel collectionId).
Proof.
  unfold subscribeToChanges. apply effect_getSubscription. intros s.
  destruct (isLazy s); [|destruct (bool_decide _)].
  - unfold subscribeToMatchingChanges. apply effect_getSubscription. intros s'.
    eapply effect_bind with (P' := any); [|intros _|done].
    + by eapply effect_setSubscription; [intros w [_ Hs]; exact Hs|].
    + apply effect_emit. by left.
  - unfold subscribeToOrderedChanges.
    apply effect_getOrderByInfo. intros [[s' info] dn]. simpl.
    eapply effect_bind with (P' := any); [|intros _|done].
    + by eapply effect_setSubscription; [intros w [_ Hs]; exact Hs|].
    + apply effect_seq; [|intros _; apply effect_emit; by left].
      apply effect_loadNextItems, effect_maybeRunGraph.
  - unfold subscribeToAllChanges. apply effect_getSubscription. intros s'.
    eapply effect_weaken with (P' := any); [done|].
    apply effect_seq; [apply effect_emit; by left|]. intros _.
    apply effect_sendChangesToPipeline, effect_maybeRunGraph.
Qed.

Lemma effect_subscribeAll fuel collectionIds :
  effect any (subscribeAll ops fuel collectionIds).
Proof.
  induction collectionIds as [|collectionId rest IH]; simpl; [apply effect_ret|].
  apply effect_seq; [apply effect_subscribeToChanges|by intros _].
Qed.

Lemma effect_deliver fuel collectionId rows' changes :
  effect any (deliver ops fuel collectionId rows' changes).
Proof.
  unfold deliver. apply effect_getSubscription. intros s.
  eapply effect_bind with (P' := any); [|intros _|done].
  { by eapply effect_setSubscription; [intros w [_ Hs]; exact Hs|]. }
  destruct (isLazy s); [|destruct (bool_decide _)].
  - apply effect_sendVisibleChanges, effect_maybeRunGraph.
  - apply effect_sendChangesInRange, effect_maybeRunGraph.
  - apply effect_sendChangesToPipeline, effect_maybeRunGraph.
Qed.

(** *** What the entry points never do *)

Lemma sync_unfold fuel w :
  sync ops fuel w
  = match subscribeAll ops fuel (seq 0 (length (subscriptions w))) w with
    | Done _ w1 =>
        maybeRunGraph ops fuel None
          (mkWorld (graph w1) (subscriptions w1) true (mat w1) (synced w1)
                   (ready w1) (trace w1))
    | Thrown e w1 => Thrown e w1
    | OutOfFuel => OutOfFuel
    end.
Proof.
  unfold sync, mbind, M_bind, getWorld, setSubscribedToAllCollections.
  by destruct (subscribeAll _ _ _ _).
Qed.

(** X5. The result collection is marked ready only when every source
    collection is ready: a call of [sync], a delivery of changes, or a
    call of one of the callbacks of a lazy collection leaves it ready only
    if it was already or all the sources are. *)
Theorem ready_needs_ready_sources fuel w :
  let unlessReady w' :=
    ready w' = true -> ready w = true \/ allCollectionsReady w = true in
  ended (sync ops fuel w) unlessReady
  /\ (forall collectionId rows' changes,
        ended (deliver ops fuel collectionId rows' changes w) unlessReady)
  /\ (forall collectionId keys,
        ended (loadKeys ops (maybeRunGraph ops fuel) collectionId keys w)
              unlessReady)
  /\ (forall collectionId,
        ended (loadInitialState ops (maybeRunGraph ops fuel) collectionId w)
              unlessReady).
Proof.
  intros unlessReady.
  assert (forall (m : MT unit), effect any m -> ended (m w) unlessReady) as Hany.
  { intros m Hm. specialize (Hm w I).
    destruct (m w) as [a w'|e w'|]; simpl in *; [| |done];
      by destruct Hm as (_ & _ & _ & _ & ?). }
  split_and!.
  - rewrite sync_unfold.
    pose proof (effect_subscribeAll fuel (seq 0 (length (subscriptions w))) w I)
      as Hsub.
    destruct (subscribeAll _ _ _ _) as [[] w1|e w1|]; simpl in Hsub; [| |done].
    + match goal with |- context [maybeRunGraph ops fuel None ?x] =>
        pose proof (effect_maybeRunGraph fuel None x I) as Hrun;
        destruct (maybeRunGraph ops fuel None x) as [[] w'|e w'|] end;
        simpl in *; [| |done].
      all: intros Hready; destruct Hrun as (_ & _ & _ & _ & Hr).
      all: destruct (Hr Hready) as [Hr1|Hall];
        [by apply Hsub|right].
      all: rewrite <- (follows_allCollectionsReady _ _ Hsub).
      all: by rewrite allCollectionsReady_statuses in Hall |- *.
    + simpl. by destruct Hsub as (_ & _ & _ & _ & ?).
  - intros. apply Hany, effect_deliver.
  - intros. apply Hany, effect_loadKeys, effect_maybeRunGraph.
  - intros. apply Hany, effect_loadInitialState, effect_maybeRunGraph.
Qed.

(** X6. As long as a source collection is neither ready nor in its initial
    commit, [sync] and the deliveries of changes only move data to the
    inputs: the graph is not run, the operator is not asked, nothing is
    written to the result collection and it is not marked ready. *)
Theorem nothing_runs_before_sources_are_ready fuel w :
  allCollectionsReadyOrInitialCommit w = false ->
  let idle w' :=
    (exists evs, trace w' = trace w ++ evs /\ forallb quiet evs = true)
    /\ mat w' = mat w /\ synced w' = synced w /\ ready w' = ready w in
  ended (sync ops fuel w) idle
  /\ forall collectionId rows' changes,
       ended (deliver ops fuel collectionId rows' changes w) idle.
Proof.
  intros Hnot idle.
  assert (canRun w = false) as Hno by (unfold canRun; by rewrite Hnot).
  assert (forall w', follows w w' -> idle w') as Hidle.
  { intros w' (_ & _ & (evs & Htr & Hq) & Hsame & _).
    split; [exists evs; split; [done|by apply Hq]|by apply Hsame]. }
  split.
  - rewrite sync_unfold.
    pose proof (effect_subscribeAll fuel (seq 0 (length (subscriptions w))) w I)
      as Hsub.
    destruct (subscribeAll _ _ _ _) as [[] w1|e w1|]; simpl in Hsub; [| |done].
    + match goal with |- context [maybeRunGraph ops fuel None ?x] =>
        pose proof (effect_maybeRunGraph fuel None x I) as Hrun;
        assert (canRun x = false) as Hno1;
        [|destruct (maybeRunGraph ops fuel None x) as [[] w'|e w'|]] end;
        simpl in *; [| | |done].
      { unfold canRun.
        rewrite allCollectionsReadyOrInitialCommit_statuses in Hnot |- *.
        destruct Hsub as (Hst & _).
        match goal with |- context [statuses ?x] =>
          change (statuses x) with (statuses w1) end.
        by rewrite Hst, Hnot. }
      all: destruct Hsub as (_ & _ & (evs1 & Htr1 & Hq1) & Hsame1 & _).
      all: destruct Hrun as (_ & _ & (evs2 & Htr2 & Hq2) & Hsame2 & _).
      all: simpl in *; destruct (Hsame1 Hno) as (? & ? & ?).
      all: destruct (Hsame2 Hno1) as (? & ? & ?).
      all: split; [|split_and!; congruence].
      all: exists (evs1 ++ evs2); split; [by rewrite Htr2, Htr1, app_assoc|].
      all: by rewrite forallb_app, Hq1, Hq2.
    + simpl. by apply Hidle.
  - intros. pose proof (effect_deliver fuel collectionId rows' changes w I) as Hd.
    destruct (deliver _ _ _ _ _ _) as [[] w'|e w'|]; simpl in *; [| |done];
      by apply Hidle.
Qed.

(** X7. Until [sync] has subscribed to all the collections nothing runs,
    whether the sources are ready or not: what the subscriptions load and
    send, and what the collections already subscribed deliver, waits at the
    inputs.  A [sync] that raises while it subscribes leaves the flag
    down. *)
Theorem subscriptions_only_queue fuel w :
  subscribedToAllCollections w = false ->
  let waiting w' :=
    (exists evs, trace w' = trace w ++ evs /\ forallb quiet evs = true)
    /\ mat w' = mat w /\ synced w' = synced w /\ ready w' = ready w
    /\ subscribedToAllCollections w' = false in
  (forall collectionIds, ended (subscribeAll ops fuel collectionIds w) waiting)
  /\ (forall collectionId rows' changes,
        ended (deliver ops fuel collectionId rows' changes w) waiting).
Proof.
  intros Hsub waiting.
  assert (canRun w = false) as Hno
    by (unfold canRun; by rewrite Hsub, andb_false_r).
  assert (forall w', follows w w' -> waiting w') as Hwaiting.
  { intros w' (_ & Hflag & (evs & Htr & Hq) & Hsame & _).
    destruct (Hsame Hno) as (? & ? & ?).
    split_and!; try done; [|congruence].
    exists evs. split; [done|by apply Hq]. }
  split.
  - intros collectionIds.
    pose proof (effect_subscribeAll fuel collectionIds w I) as Hs.
    destruct (subscribeAll _ _ _ _) as [[] w'|e w'|]; simpl in *; [| |done];
      by apply Hwaiting.
  - intros collectionId rows' changes.
    pose proof (effect_deliver fuel collectionId rows' changes w I) as Hd.
    destruct (deliver _ _ _ _ _ _) as [[] w'|e w'|]; simpl in *; [| |done];
      by apply Hwaiting.
Qed.

End Effects.
End EffectsFacts.

(** ** Runs with the callback of an ordered collection *)


Module CallbackFacts.
Import Changes Materializer Driver Effects.

Section Callback.
Context {K V R OV G : Type} `{Countable K} `{Countable R}.
Variable ops : GraphOps K V R G.

Abbreviation WorldT := (World K V R OV G).
Abbreviation MT := (M (K:=K) (V:=V) (R:=R) (OV:=OV) (G:=G)).
Implicit Types (w : WorldT).

Lemma after_bind {A B} (m : MT A) (f : A -> MT B) w
    (Q : B -> WorldT -> Prop) (E : WorldT -> Prop) :
  after (m w) (fun a w1 => after (f a w1) Q E) E -> after ((m ≫= f) w) Q E.
Proof. unfold mbind, M_bind. by destruct (m w). Qed.

Lemma after_mono {A} (o : Outcome WorldT A) (Q Q' : A -> WorldT -> Prop)
    (E E' : WorldT -> Prop) :
  after o Q E -> (forall a w, Q a w -> Q' a w) -> (forall w, E w -> E' w) ->
  after o Q' E'.
Proof. destruct o; simpl; auto. Qed.

Lemma ended_after {A} (o : Outcome WorldT A) (Q : WorldT -> Prop) :
  after o (fun _ => Q) Q -> ended o Q.
Proof. by destruct o. Qed.

Lemma after_ended {A} (o : Outcome WorldT A) (Q : WorldT -> Prop) :
  ended o Q -> after o (fun _ => Q) Q.
Proof. by destruct o. Qed.

(** [graph.run()] and the output callback leave the subscriptions and the
    ready flag as they are. *)
Lemma outputCallback_frame messages w :
  ended (outputCallback messages w)
        (fun w' => subscriptions w' = subscriptions w /\ ready w' = ready w).
Proof.
  unfold outputCallback.
  destruct (onOutput _ messages (mat w)) as [[mat' events] [|]]; by simpl.
Qed.

Lemma forEachBatch_frame batches w :
  ended (forEachBatch batches w)
        (fun w' => subscriptions w' = subscriptions w /\ ready w' = ready w).
Proof.
  revert w. induction batches as [|b rest IH]; intros w; [done|].
  cbn [forEachBatch]. apply ended_after, after_bind.
  eapply after_mono; [apply after_ended, outputCallback_frame| |done].
  intros [] w1 [Hs Hr]. simpl. eapply after_mono; [apply after_ended, IH|..];
    simpl; intros; destruct_and!; split; congruence.
Qed.

Lemma graphRun_frame w :
  ended (graphRun ops w)
        (fun w' => subscriptions w' = subscriptions w /\ ready w' = ready w).
Proof.
  unfold graphRun. apply ended_after, after_bind. simpl.
  apply after_bind. simpl.
  destruct (run ops (graph w)) as [[g batches]|]; [|done].
  apply after_bind. simpl.
  eapply after_mono; [apply after_ended, forEachBatch_frame|..]; by simpl.
Qed.

Ltac step :=
  lazymatch goal with
  | |- after ((?m ≫= ?f) ?w) ?Q ?E => apply (after_bind m f w Q E)
  end.

Section Ordered.
Variables (collectionId : nat) (info : OrderByOptimizationInfo K V OV G)
  (dn : G -> Z).
Hypothesis dataNeeded_info : dataNeeded info = Some dn.

Abbreviation ordered :=
  (fun w : WorldT => exists s, subscriptions w !! collectionId = Some s
                               /\ orderByInfo s = Some info).

Lemma getOrderByInfo_ordered w s :
  subscriptions w !! collectionId = Some s -> orderByInfo s = Some info ->
  getOrderByInfo collectionId w = Done (s, info, dn) w.
Proof.
  intros Hs Hinfo. unfold getOrderByInfo, getSubscription, mbind, M_bind.
  by rewrite Hs, Hinfo, dataNeeded_info.
Qed.

Lemma run_with_callback fuel w :
  ordered w -> ready w = false ->
  ended (maybeRunGraph ops fuel (Some collectionId) w)
        (fun w' => ready w' = true -> dn (graph w') = 0).
Proof.
  revert w. induction fuel as [|fuel IH]; intros w (s & Hs & Hinfo) Hready;
    [done|].
  cbn [maybeRunGraph]. apply ended_after. step. cbn [getWorld after].
  destruct (_ && _); [|by simpl; congruence].
  step.
  eapply after_mono; [apply after_ended, graphRun_frame| |];
    [|intros w1 [_ Hr1] Hr'; congruence].
  intros [] w1 [Hs1 Hr1]. rewrite <- Hs1 in Hs. rewrite Hready in Hr1.
  clear Hs1 Hready w. rename w1 into w.
  step. unfold loadMoreIfNeeded at 1.
  step. rewrite (getOrderByInfo_ordered w s Hs Hinfo). cbn [after].
  step. cbn [getWorld after].
  step. cbn [emit after].
  set (n := dn (graph w)).
  set (w1 := mkWorld _ _ _ _ _ _ _).
  assert (Hs1 : subscriptions w1 !! collectionId = Some s) by done.
  assert (Hr : ready w1 = false) by done.
  assert (Hg : graph w1 = graph w) by done.
  clearbody w1.
  step.
  destruct (0 <? n) eqn:Hpos.
  - assert (Hn0 : (n =? 0) = false) by (apply Z.eqb_neq; apply Z.ltb_lt in Hpos; lia).
    rewrite Hn0.
    unfold loadNextItems.
    step. rewrite (getOrderByInfo_ordered w1 s Hs1 Hinfo). cbn [after].
    step. cbn [emit after].
    destruct (insertsOfKeys _ _) as [nextInserts|]; [|simpl; congruence].
    unfold sendChangesToPipelineWithTracking.
    step. cbn [subscriptions].
    erewrite getOrderByInfo_ordered; [|exact Hs1|exact Hinfo]. cbn [after].
    destruct (trackSentValues _ _ _) as [trackedChanges tracker].
    step. cbn [setSubscription after].
    unfold sendChangesToPipeline.
    step. unfold getSubscription at 1. cbn [subscriptions].
    rewrite list_lookup_insert_eq by (by eapply lookup_lt_Some).
    cbn [after]. step. cbn [getWorld after].
    step. cbn [setGraph after].
    step. cbn [emit after].
    eapply after_mono; [apply after_ended, IH| |done].
    + eexists. split; [cbn [subscriptions]; apply list_lookup_insert_eq;
                       by eapply lookup_lt_Some|exact Hinfo].
    + done.
    + intros [] w3 Hw3. cbn [mret M_ret after].
      step. cbn [getWorld after].
      step.
      destruct (messagesCount (mat w3) =? 0).
      * step. cbn [emit after]. cbn [emit after].
        step. cbn [getWorld after]. simpl. exact Hw3.
      * cbn [mret M_ret after]. step. cbn [getWorld after].
        simpl. exact Hw3.
  - cbn [mret M_ret after].
    step. cbn [getWorld after].
    step.
    assert (Hzero : (n =? 0) = true -> dn (graph w1) = 0).
    { intros Hn. apply Z.eqb_eq in Hn. by rewrite Hg. }
    destruct (messagesCount (mat w1) =? 0).
    + step. cbn [emit after]. cbn [emit after].
      step. cbn [getWorld after].
      destruct (n =? 0); [|simpl; congruence].
      match goal with |- context [allCollectionsReady ?x] =>
        destruct (allCollectionsReady x) end; simpl; [by intros _; apply Hzero|congruence].
    + cbn [mret M_ret after]. step. cbn [getWorld after].
      destruct (n =? 0); [|simpl; congruence].
      destruct (allCollectionsReady w1); simpl; [by intros _; apply Hzero|congruence].
Qed.

End Ordered.

(** X8. A run triggered through an ordered collection (the changes it delivers,
    or the rows [loadNextItems] sends) marks the result collection ready
    only when the top-K operator needs no more rows: if the collection was
    not ready before and is ready after, [dataNeeded()] is [0] on the graph
    the run leaves. *)
Theorem ordered_run_ready_only_when_filled
    fuel collectionId s info dn rows' changes w :
  subscriptions w !! collectionId = Some s ->
  isLazy s = false ->
  orderByInfo s = Some info ->
  dataNeeded info = Some dn ->
  ready w = false ->
  ended (deliver ops fuel collectionId rows' changes w)
        (fun w' => ready w' = true -> dn (graph w') = 0)
  /\ ended (maybeRunGraph ops fuel (Some collectionId) w)
           (fun w' => ready w' = true -> dn (graph w') = 0).
Proof.
  intros Hs Hlazy Hinfo Hdn Hready. split;
    [|by eapply run_with_callback; [|eexists|]].
  assert (Hlt : (collectionId < length (subscriptions w))%nat)
    by (by eapply lookup_lt_Some).
  unfold deliver. apply ended_after. step.
  unfold getSubscription. rewrite Hs. cbn [after].
  step. cbn [setSubscription after]. rewrite Hlazy, Hinfo.
  rewrite bool_decide_eq_true_2 by done.
  unfold sendChangesInRange. step.
  erewrite getOrderByInfo_ordered;
    [|exact Hdn|cbn [subscriptions]; by apply list_lookup_insert_eq|reflexivity].
  cbn [after]. unfold sendChangesToPipeline. step.
  unfold getSubscription at 1. cbn [subscriptions].
  rewrite list_lookup_insert_eq by done. cbn [after].
  step. cbn [getWorld after]. step. cbn [setGraph after].
  step. cbn [emit after].
  apply after_ended. eapply run_with_callback; [exact Hdn| |done].
  eexists. split; [cbn [subscriptions]; by apply list_lookup_insert_eq|reflexivity].
Qed.

End Callback.
End CallbackFacts.

(** ** Structural hashing and the cache *)


Module HashStructureFacts.
Import Hash HashStructure.

Lemma agrees_props content oid class time bytes props :
  agrees content (VObject oid class time bytes props) ->
  Forall (fun kv => agrees content kv.2) props.
Proof.
  intros [_ Hall]. induction props as [|[k v] rest IH]; constructor.
  - apply Hall.
  - apply IH, Hall.
Qed.

Section Structure.
Variables TRUE FALSE NULL UNDEFINED KEY FUNCTIONS DATE_MARKER : Z.
Variables OBJECT_MARKER ARRAY_MARKER MAP_MARKER SET_MARKER : Z.
Variable Hasher : Type.
Variable newHasher : Hasher.
Variable update : Hasher -> HashInput -> Hasher.
Variable digest : Hasher -> Z.
Variable content : Content.

Abbreviation updateHasher' :=
  (updateHasher TRUE FALSE NULL UNDEFINED KEY FUNCTIONS DATE_MARKER
     OBJECT_MARKER ARRAY_MARKER MAP_MARKER SET_MARKER Hasher newHasher update
     digest).
Abbreviation hash' :=
  (hash TRUE FALSE NULL UNDEFINED KEY FUNCTIONS DATE_MARKER
     OBJECT_MARKER ARRAY_MARKER MAP_MARKER SET_MARKER Hasher newHasher update
     digest).
Abbreviation hashAll' :=
  (hashAll TRUE FALSE NULL UNDEFINED KEY FUNCTIONS DATE_MARKER
     OBJECT_MARKER ARRAY_MARKER MAP_MARKER SET_MARKER Hasher newHasher update
     digest).
Abbreviation feed' :=
  (feed TRUE FALSE NULL UNDEFINED KEY DATE_MARKER
     OBJECT_MARKER ARRAY_MARKER MAP_MARKER SET_MARKER Hasher newHasher update
     digest).
Abbreviation objectHash' :=
  (objectHash TRUE FALSE NULL UNDEFINED KEY DATE_MARKER
     OBJECT_MARKER ARRAY_MARKER MAP_MARKER SET_MARKER Hasher newHasher update
     digest).
Abbreviation faithful' :=
  (faithful TRUE FALSE NULL UNDEFINED KEY DATE_MARKER
     OBJECT_MARKER ARRAY_MARKER MAP_MARKER SET_MARKER Hasher newHasher update
     digest content).
Abbreviation feedProps :=
  (fun hasher '(key, v) =>
     feed' v (update (update hasher (INumber KEY)) (IString key))).

Lemma faithful_initial : faithful' initialState.
Proof. intros oid h class time props Hc. simpl in Hc. by rewrite lookup_empty in Hc. Qed.

Lemma faithful_insert_other oid h st n :
  content oid = None -> faithful' st ->
  faithful' (mkHashState (<[oid := h]> (hashCache st)) n).
Proof.
  intros Hnone Hst oid' h' class time props. simpl.
  rewrite lookup_insert. case_decide as Heq; [subst; congruence|].
  apply Hst.
Qed.

Lemma faithful_insert oid class time props st n :
  content oid = Some (class, time, props) -> faithful' st ->
  faithful' (mkHashState (<[oid := objectHash' class time props]> (hashCache st)) n).
Proof.
  intros Hsome Hst oid' h' class' time' props'. simpl.
  rewrite lookup_insert. case_decide as Heq; [|apply Hst].
  subst. intros [= <-]. rewrite Hsome. by intros [= <- <- <-].
Qed.

Lemma cachedReferenceHash_faithful oid st :
  content oid = None -> faithful' st ->
  faithful' (cachedReferenceHash FUNCTIONS oid st).2.
Proof.
  intros Hnone Hst. unfold cachedReferenceHash.
  destruct (hashCache st !! oid); [done|]. simpl.
  by apply faithful_insert_other.
Qed.

Lemma hashPlainObject_structural props marker st :
  Forall (fun kv => forall hasher st, faithful' st ->
            faithful' (updateHasher' kv.2 hasher st).2
            /\ (structural kv.2 = true ->
                (updateHasher' kv.2 hasher st).1 = feed' kv.2 hasher
                /\ nextRefId (updateHasher' kv.2 hasher st).2 = nextRefId st))
         props ->
  faithful' st ->
  let r := hashPlainObject KEY Hasher newHasher update digest updateHasher'
                           props marker st in
  faithful' r.2
  /\ (forallb (fun '(_, v) => structural v) props = true ->
      r.1 = digest (fold_left feedProps props (update newHasher (INumber marker)))
      /\ nextRefId r.2 = nextRefId st).
Proof.
  unfold hashPlainObject. generalize (update newHasher (INumber marker)).
  intros hasher Hprops. revert hasher st.
  induction Hprops as [|[k v] rest Hv _ IH]; intros hasher st Hst; simpl.
  - done.
  - specialize (Hv (update (update hasher (INumber KEY)) (IString k)) st Hst).
    simpl in Hv. destruct (updateHasher' v _ st) as [hasher1 st1]. simpl in Hv.
    destruct Hv as [Hst1 Hv].
    specialize (IH hasher1 st1 Hst1).
    destruct (fold_left _ rest (hasher1, st1)) as [hasher2 st2]. simpl in *.
    destruct IH as [Hst2 IH]. split; [done|].
    intros Hall. apply andb_prop in Hall as [Hsv Hrest].
    destruct (Hv Hsv) as [-> Hn1]. destruct (IH Hrest) as [-> Hn2].
    split; [done|congruence].
Qed.

Lemma updateHasher_structural v :
  agrees content v ->
  forall hasher st, faithful' st ->
    faithful' (updateHasher' v hasher st).2
    /\ (structural v = true ->
        (updateHasher' v hasher st).1 = feed' v hasher
        /\ nextRefId (updateHasher' v hasher st).2 = nextRefId st).
Proof.
  induction v as [| |b|n| |n|s|s|oid|oid class time bytes props IH]
    using HashFacts.Value_props_ind; intros Hv hasher st Hst; simpl; try done.
  - simpl in Hv. pose proof (cachedReferenceHash_faithful oid st Hv Hst).
    by destruct (cachedReferenceHash FUNCTIONS oid st).
  - pose proof (agrees_props _ _ _ _ _ _ Hv) as Hprops.
    destruct Hv as [Hoid _]. simpl in Hoid.
    unfold getCachedHashWith, hashObjectWith.
    destruct (hashCache st !! oid) as [h|] eqn:Hc; simpl.
    { split; [done|]. intros Hs. rewrite Hs in Hoid.
      by rewrite (Hst _ _ _ _ _ Hc Hoid). }
    destruct (instanceofDate class) eqn:Hdate.
    { simpl. split; [|done].
      destruct (negb _ && _).
      - pose proof (faithful_insert oid class time props st (nextRefId st)
                      Hoid Hst) as Hf.
        unfold objectHash in Hf. by rewrite Hdate in Hf.
      - by apply faithful_insert_other. }
    fold (hashedByReference class) in *.
    destruct (hashedByReference class) eqn:Hclass.
    { simpl in Hoid. pose proof (cachedReferenceHash_faithful oid st Hoid Hst).
      destruct (cachedReferenceHash FUNCTIONS oid st). simpl. by split. }
    simpl in Hoid.
    match goal with |- context [hashPlainObject _ _ _ _ _ _ ?p ?m ?s] =>
      pose proof (hashPlainObject_structural p m s) as Hplain;
      destruct (hashPlainObject KEY Hasher newHasher update digest updateHasher' p m s)
        as [valueHash st'] end.
    simpl in *.
    destruct Hplain as [Hst' Hplain]; [|done|].
    { rewrite Forall_forall in IH, Hprops |- *. intros kv Hin hasher' st0.
      apply IH; [done|]. by apply Hprops. }
    destruct (forallb _ props).
    + destruct (Hplain eq_refl) as [-> Hn]. split.
      * pose proof (faithful_insert oid class time props st' (nextRefId st')
                      Hoid Hst') as Hf.
        unfold objectHash, markerOf in Hf. by rewrite Hdate in Hf.
      * intros _. done.
    + split; [by apply faithful_insert_other|done].
Qed.

Lemma hash_structural v st :
  agrees content v -> faithful' st ->
  faithful' (hash' v st).2
  /\ (structural v = true ->
      (hash' v st).1 = digest (feed' v newHasher)
      /\ nextRefId (hash' v st).2 = nextRefId st).
Proof.
  intros Hv Hst. unfold hash.
  pose proof (updateHasher_structural v Hv newHasher st Hst) as [Hf Hs].
  destruct (updateHasher' v newHasher st) as [hasher st']. simpl in *.
  split; [done|]. intros Hsv. by destruct (Hs Hsv) as [-> ->].
Qed.

Lemma hashAll_faithful vs st :
  Forall (agrees content) vs -> faithful' st -> faithful' (hashAll' vs st).2.
Proof.
  intros Hvs. revert st. induction Hvs as [|v rest Hv _ IH]; intros st Hst; simpl.
  - done.
  - pose proof (hash_structural v st Hv Hst) as [Hf _].
    destruct (hash' v st) as [h st1]. specialize (IH st1 Hf).
    by destruct (hashAll' rest st1) as [hs st2].
Qed.

Lemma feed_erase v : forall hasher, feed' (erase v) hasher = feed' v hasher.
Proof.
  induction v as [| |b|n| |n|s|s|oid|oid class time bytes props IH]
    using HashFacts.Value_props_ind; intros hasher; simpl; try done.
  do 2 f_equal. destruct (instanceofDate class); [done|]. f_equal.
  generalize (update newHasher (INumber (markerOf OBJECT_MARKER ARRAY_MARKER
                                           MAP_MARKER SET_MARKER class))).
  induction IH as [|[k v] rest Hv _ IHrest]; intros hasher0; simpl; [done|].
  by rewrite Hv, IHrest.
Qed.

Lemma structural_erase v : structural (erase v) = structural v.
Proof.
  induction v as [| |b|n| |n|s|s|oid|oid class time bytes props IH]
    using HashFacts.Value_props_ind; simpl; try done.
  f_equal. induction IH as [|[k v] rest Hv _ IHrest]; simpl in *; [done|].
  by rewrite Hv, IHrest.
Qed.

(** X9. Values of the same structure have the same hash.  In a program that
    alters no object it has hashed, two values that differ at most in the
    identities of their objects, and of which no part is hashed by
    reference, receive the same number, whatever the program hashed before
    and in between. *)
Theorem equal_structures_hash_equal before between v1 v2 :
  Forall (agrees content) (before ++ v1 :: between ++ [v2]) ->
  structural v1 = true ->
  erase v1 = erase v2 ->
  let st1 := (hashAll' before initialState).2 in
  let first := hash' v1 st1 in
  let st2 := (hashAll' between first.2).2 in
  (hash' v2 st2).1 = first.1.
Proof.
  intros Hall Hs1 Herase st1 first st2.
  apply Forall_app in Hall as [Hbefore Hall].
  apply Forall_cons in Hall as [Hv1 Hall].
  apply Forall_app in Hall as [Hbetween Hv2].
  apply Forall_cons in Hv2 as [Hv2 _].
  assert (structural v2 = true) as Hs2
    by (by rewrite <- structural_erase, <- Herase, structural_erase).
  assert (faithful' st1) as Hst1
    by (apply hashAll_faithful; [done|apply faithful_initial]).
  destruct (hash_structural v1 st1 Hv1 Hst1) as [Hfirst Hh1].
  assert (faithful' st2) as Hst2 by (by apply hashAll_faithful).
  destruct (hash_structural v2 st2 Hv2 Hst2) as [_ Hh2].
  destruct (Hh1 Hs1) as [Heq1 _]. destruct (Hh2 Hs2) as [Heq2 _].
  subst first. rewrite Heq1, Heq2.
  by rewrite <- (feed_erase v1), <- (feed_erase v2), Herase.
Qed.

Lemma updateHasher_keeps v :
  forall hasher st oid h,
    hashCache st !! oid = Some h ->
    hashCache (updateHasher' v hasher st).2 !! oid = Some h.
Proof.
  induction v as [| |b|n| |n|s|s|oid'|oid' class time bytes props IH]
    using HashFacts.Value_props_ind; intros hasher st oid h Hc; simpl; try done.
  - unfold cachedReferenceHash.
    destruct (hashCache st !! oid') eqn:Hc'; simpl; [done|].
    rewrite lookup_insert_ne; [done|congruence].
  - unfold getCachedHashWith, hashObjectWith.
    destruct (hashCache st !! oid') eqn:Hc'; simpl; [done|].
    assert (oid' <> oid) as Hne by congruence.
    destruct (instanceofDate class); simpl; [by rewrite lookup_insert_ne|].
    destruct (_ || _).
    { unfold cachedReferenceHash. rewrite Hc'. simpl.
      by rewrite lookup_insert_ne. }
    unfold hashPlainObject.
    match goal with |- context [fold_left ?f props (?h0, st)] =>
      assert (hashCache (fold_left f props (h0, st)).2 !! oid = Some h) as Hfold;
      [generalize h0|destruct (fold_left f props (h0, st)) as [hasher2 st2]] end.
    { clear Hc'. revert st Hc. induction IH as [|[k v] rest Hv _ IHrest];
        intros st Hc hasher0; simpl; [done|].
      specialize (Hv (update (update hasher0 (INumber KEY)) (IString k)) st oid h Hc).
      simpl in Hv. destruct (updateHasher' v _ st) as [hasher1 st1].
      by apply IHrest. }
    simpl in *. by rewrite lookup_insert_ne.
Qed.

Lemma hashAll_keeps vs st oid h :
  hashCache st !! oid = Some h -> hashCache (hashAll' vs st).2 !! oid = Some h.
Proof.
  revert st. induction vs as [|v rest IH]; intros st Hc; simpl; [done|].
  unfold hash. pose proof (updateHasher_keeps v newHasher st oid h Hc) as Hv.
  destruct (updateHasher' v newHasher st) as [hasher st1]. simpl in Hv.
  specialize (IH st1 Hv). by destruct (hashAll' rest st1).
Qed.

Lemma hash_object_cached oid class time bytes props st :
  exists h, (hash' (VObject oid class time bytes props) st).1
            = digest (update newHasher (INumber h))
            /\ hashCache (hash' (VObject oid class time bytes props) st).2 !! oid
               = Some h.
Proof.
  unfold hash. simpl. unfold getCachedHashWith, hashObjectWith.
  destruct (hashCache st !! oid) as [h|] eqn:Hc; simpl; [by exists h|].
  destruct (instanceofDate class); simpl.
  { eexists. split; [done|]. by rewrite lookup_insert_eq. }
  destruct (_ || _).
  { unfold cachedReferenceHash. rewrite Hc. simpl. eexists. split; [done|].
    by rewrite lookup_insert_eq. }
  destruct (hashPlainObject _ _ _ _ _ _ _ _ _) as [valueHash st']. simpl.
  eexists. split; [done|]. by rewrite lookup_insert_eq.
Qed.

(** X10. The cache is read by identity.  Once [hash] has seen an object, it
    returns the same number for it ever after and leaves the state as it
    is, whatever the class, the time, the bytes and the properties of the
    object have become, and whatever was hashed in between. *)
Theorem hashed_object_keeps_its_hash
    oid class time bytes props class' time' bytes' props' between st :
  let hash :=
    hash TRUE FALSE NULL UNDEFINED KEY FUNCTIONS DATE_MARKER OBJECT_MARKER
         ARRAY_MARKER MAP_MARKER SET_MARKER Hasher newHasher update digest in
  let hashAll :=
    hashAll TRUE FALSE NULL UNDEFINED KEY FUNCTIONS DATE_MARKER OBJECT_MARKER
            ARRAY_MARKER MAP_MARKER SET_MARKER Hasher newHasher update digest in
  let first := hash (VObject oid class time bytes props) st in
  let st' := (hashAll between first.2).2 in
  hash (VObject oid class' time' bytes' props') st' = (first.1, st').
Proof.
  intros hash0 hashAll0 first st'. subst hash0 hashAll0.
  destruct (hash_object_cached oid class time bytes props st) as (h & Hh & Hc).
  fold first in Hh, Hc.
  pose proof (hashAll_keeps between first.2 oid h Hc) as Hc'. fold st' in Hc'.
  unfold hash. simpl. unfold getCachedHashWith. rewrite Hc'. by rewrite Hh.
Qed.

End Structure.
End HashStructureFacts.

(** ** The collections and the aliases of a query *)

Module QuerySourcesFacts.
Import QuerySources.

Section Sources.
Context {C : Type}.
Variable id : C -> string.
Implicit Types (source : Source C) (q query : Query C) (collections : gmap string C).

(** An induction principle that reaches the sources of a subquery. *)
Lemma Source_query_ind (P : Source C -> Prop) :
  (forall collection alias, P (CollectionRef collection alias)) ->
  (forall query alias,
     (forall source, topSource query source -> P source) ->
     P (QueryRef query alias)) ->
  forall source, P source.
Proof.
  intros Hcollection Hquery. fix IH 1. intros [collection alias|[fr jn] alias].
  - apply Hcollection.
  - assert (match fr with Some s => P s | None => True end) as Hfr.
    { destruct fr as [s|]; [apply IH|exact I]. }
    assert (match jn with
            | Some l => Forall (fun joinClause =>
                                  match jfrom joinClause with
                                  | Some s => P s
                                  | None => True
                                  end) l
            | None => True
            end) as Hjn.
    { destruct jn as [l|]; [|exact I].
      induction l as [|[[s|]] rest IHrest]; constructor;
        [apply IH|exact IHrest|exact I|exact IHrest]. }
    clear IH. apply Hquery.
    intros source [Hfrom|(clauses & joinClause & Hjoin & Hin & Hj)].
    + simpl in Hfrom. by rewrite Hfrom in Hfr.
    + simpl in Hjoin. rewrite Hjoin in Hjn. rewrite Forall_forall in Hjn.
      specialize (Hjn joinClause Hin). by rewrite Hj in Hjn.
Qed.

Abbreviation step :=
  (fun collections (joinClause : JoinClause (Source C)) =>
     match jfrom joinClause with
     | Some source => extractFromSource id source collections
     | None => collections
     end).

Abbreviation refers source collection :=
  (match source with
   | CollectionRef c _ => c = collection
   | QueryRef query _ => referenced query collection
   end).

Lemma referenced_top q source collection :
  topSource q source -> refers source collection -> referenced q collection.
Proof.
  intros Htop Href. destruct source as [c alias|query alias].
  - subst. by eapply referenced_here.
  - by eapply referenced_below.
Qed.

(** What the fold over the sources of a query does, given what
    [extractFromSource] does on each of them. *)
Lemma extractFromQuery_from q collections i collection :
  (forall source, topSource q source -> forall collections,
     extractFromSource id source collections !! i = Some collection ->
     collections !! i = Some collection
     \/ (refers source collection /\ id collection = i)) ->
  extractFromQuery id q collections !! i = Some collection ->
  collections !! i = Some collection
  \/ (referenced q collection /\ id collection = i).
Proof.
  destruct q as [fr jn]. unfold extractFromQuery, extractFromQueryWith. simpl.
  intros Hsources.
  set (first := match fr with
                | Some source => extractFromSource id source collections
                | None => collections
                end).
  assert (first !! i = Some collection ->
          collections !! i = Some collection
          \/ (referenced (mkQuery fr jn) collection /\ id collection = i))
    as Hfirst.
  { subst first. destruct fr as [s|]; [|by left].
    intros Hs. destruct (Hsources s (or_introl eq_refl) _ Hs) as [?|[Href ?]];
      [by left|right]. split; [|done].
    eapply referenced_top; [|done]. by left. }
  clearbody first. destruct jn as [clauses|]; [|done].
  assert (forall joinClause source, joinClause ∈ clauses ->
            jfrom joinClause = Some source ->
            topSource (mkQuery fr (Some clauses)) source) as Htop.
  { intros joinClause source Hin Hj. right. by exists clauses, joinClause. }
  revert first Hfirst.
  generalize dependent (mkQuery fr (Some clauses)). intros q Hsources Htop.
  induction clauses as [|joinClause rest IH]; intros first Hfirst; [done|].
  simpl. apply IH.
  - intros jc source Hin. apply Htop. by right.
  - destruct (jfrom joinClause) as [s|] eqn:Hj; [|done].
    intros Hs.
    destruct (Hsources s (Htop joinClause s (list_elem_of_here _ _) Hj) _ Hs)
      as [?|[Href ?]]; [by apply Hfirst|right].
    split; [|done]. eapply referenced_top; [|done].
    by apply (Htop joinClause), Hj; left.
Qed.

Lemma extractFromSource_from source :
  forall collections i collection,
    extractFromSource id source collections !! i = Some collection ->
    collections !! i = Some collection
    \/ (refers source collection /\ id collection = i).
Proof.
  induction source as [c alias|query alias IH] using Source_query_ind;
    intros collections i collection; simpl.
  - rewrite lookup_insert. case_decide as Heq; [|by left].
    intros [= <-]. by right.
  - intros Hq. apply extractFromQuery_from; [|exact Hq].
    intros source Htop collections'. by apply IH.
Qed.

(** Nothing is taken out of [collections]. *)
Lemma extractFromSource_keeps source :
  forall collections i,
    is_Some (collections !! i) ->
    is_Some (extractFromSource id source collections !! i).
Proof.
  induction source as [c alias|[fr jn] alias IH] using Source_query_ind;
    intros collections i Hi; simpl.
  - rewrite lookup_insert. by case_decide.
  - unfold extractFromQueryWith. simpl.
    assert (is_Some (match fr with
                     | Some source => extractFromSource id source collections
                     | None => collections
                     end !! i)) as Hfirst.
    { destruct fr as [s|]; [|done]. apply IH; [by left|done]. }
    revert Hfirst. generalize (match fr with
                               | Some source => extractFromSource id source collections
                               | None => collections
                               end).
    destruct jn as [clauses|]; [|done].
    assert (forall joinClause source, joinClause ∈ clauses ->
              jfrom joinClause = Some source ->
              topSource (mkQuery fr (Some clauses)) source) as Htop.
    { intros joinClause source Hin Hj. right. by exists clauses, joinClause. }
    revert IH Htop. generalize (mkQuery fr (Some clauses)). intros q IH Htop.
    induction clauses as [|joinClause rest IHrest]; intros first Hfirst; [done|].
    simpl. apply IHrest; [intros jc source Hin; apply Htop; by right|].
    destruct (jfrom joinClause) as [s|] eqn:Hj; [|done].
    apply IH; [|done]. eapply Htop; [|done]. left.
Qed.

Lemma extractFromQuery_keeps q collections i :
  is_Some (collections !! i) ->
  is_Some (extractFromQuery id q collections !! i).
Proof. apply (extractFromSource_keeps (QueryRef q EmptyString)). Qed.

Lemma extractFromQuery_top q source i :
  topSource q source ->
  (forall collections, is_Some (extractFromSource id source collections !! i)) ->
  forall collections, is_Some (extractFromQuery id q collections !! i).
Proof.
  destruct q as [fr jn]. unfold extractFromQuery, extractFromQueryWith.
  intros [Hfrom|(clauses & joinClause & Hjoin & Hin & Hj)] Hsource collections;
    simpl in *.
  - subst fr.
    pose proof (extractFromQuery_keeps (mkQuery None jn)
                  (extractFromSource id source collections) i (Hsource _)) as Hk.
    exact Hk.
  - subst jn. generalize (match fr with
                          | Some source => extractFromSource id source collections
                          | None => collections
                          end).
    induction clauses as [|jc rest IH]; intros first;
      [by apply elem_of_nil in Hin|].
    apply elem_of_cons in Hin as [->|Hin]; simpl; [|by apply IH].
    rewrite Hj.
    exact (extractFromQuery_keeps (mkQuery None (Some rest))
             (extractFromSource id source first) i (Hsource _)).
Qed.

Lemma referenced_listed q collection :
  referenced q collection ->
  forall collections,
    is_Some (extractFromQuery id q collections !! id collection).
Proof.
  induction 1 as [q collection alias Htop|q query alias collection Htop _ IH].
  - eapply extractFromQuery_top; [done|]. intros collections. simpl.
    by rewrite lookup_insert_eq.
  - eapply extractFromQuery_top; [done|]. intros collections. simpl. apply IH.
Qed.

(** X11. [extractCollectionsFromQuery] lists the collections the query refers
    to, those of its subqueries included, and nothing else: an identifier
    has an entry exactly when the query refers to a collection with that
    identifier, and the entry is such a collection. *)
Theorem extractCollectionsFromQuery_referenced query i :
  (forall collection,
     extractCollectionsFromQuery id query !! i = Some collection ->
     referenced query collection /\ id collection = i)
  /\ (is_Some (extractCollectionsFromQuery id query !! i)
      <-> exists collection, referenced query collection /\ id collection = i).
Proof.
  assert (forall collection,
            extractCollectionsFromQuery id query !! i = Some collection ->
            referenced query collection /\ id collection = i) as Hfrom.
  { intros collection Hc.
    destruct (extractFromQuery_from query ∅ i collection) as [Hempty|?];
      [|exact Hc| |done].
    - intros source _ collections. apply extractFromSource_from.
    - by rewrite lookup_empty in Hempty. }
  split; [exact Hfrom|]. split.
  - intros [collection Hc]. exists collection. by apply Hfrom.
  - intros (collection & Href & <-). by apply referenced_listed.
Qed.

(** X12. [findCollectionAlias] looks at the sources the query names itself and
    not into its subqueries: it finds an alias exactly for the identifier
    of a collection that is the [from] of the query or of one of its join
    clauses, and the alias is the one given there.  A collection it finds
    is one [extractCollectionsFromQuery] lists. *)
Theorem findCollectionAlias_top_level query collectionId :
  (forall alias,
     findCollectionAlias id collectionId query = Some alias ->
     exists collection,
       topSource query (CollectionRef collection alias)
       /\ id collection = collectionId)
  /\ (findCollectionAlias id collectionId query = None <->
      forall collection alias,
        topSource query (CollectionRef collection alias) ->
        id collection <> collectionId)
  /\ (is_Some (findCollectionAlias id collectionId query) ->
      is_Some (extractCollectionsFromQuery id query !! collectionId)).
Proof.
  assert (forall (o : option (Source C)) alias,
            aliasOf id collectionId o = Some alias ->
            exists collection,
              o = Some (CollectionRef collection alias)
              /\ id collection = collectionId) as Halias.
  { intros [[c a|]|] alias'; simpl; try done.
    case_bool_decide; [|done]. intros [= <-]. by exists c. }
  assert (forall (o : option (Source C)),
            aliasOf id collectionId o = None ->
            forall collection alias,
              o = Some (CollectionRef collection alias) ->
              id collection <> collectionId) as Hnone.
  { intros o Hn collection alias ->. simpl in Hn. by case_bool_decide. }
  assert (forall alias,
            findCollectionAlias id collectionId query = Some alias ->
            exists collection,
              topSource query (CollectionRef collection alias)
              /\ id collection = collectionId) as Hfound.
  { destruct query as [fr jn]. unfold findCollectionAlias. simpl.
    intros alias. destruct (aliasOf id collectionId fr) as [a|] eqn:Hfr.
    { intros [= ->]. destruct (Halias _ _ Hfr) as (c & -> & Hid).
      exists c. split; [by left|done]. }
    destruct jn as [clauses|]; [|done].
    assert (forall joinClause source, joinClause ∈ clauses ->
              jfrom joinClause = Some source ->
              topSource (mkQuery fr (Some clauses)) source) as Htop.
    { intros joinClause source Hin Hj. right. by exists clauses, joinClause. }
    revert Htop. generalize (mkQuery fr (Some clauses)). intros q Htop.
    induction clauses as [|joinClause rest IH]; [done|].
    destruct (aliasOf id collectionId (jfrom joinClause)) as [a|] eqn:Hj.
    - intros [= ->]. destruct (Halias _ _ Hj) as (c & Hc & Hid).
      exists c. split; [|done]. eapply Htop; [left|done].
    - intros Hrest. apply IH; [|done]. intros jc source Hin. apply Htop. by right. }
  split_and!.
  - exact Hfound.
  - split.
    + clear Hfound. intros Hn collection alias Htop Hid.
      destruct query as [fr jn]. unfold findCollectionAlias in Hn. simpl in Hn.
      destruct (aliasOf id collectionId fr) as [a|] eqn:Hfr; [done|].
      destruct Htop as [Hfrom|(clauses & joinClause & Hjoin & Hin & Hj)];
        simpl in *.
      { by eapply Hnone. }
      subst jn. induction clauses as [|jc rest IH];
        [by apply elem_of_nil in Hin|].
      destruct (aliasOf id collectionId (jfrom jc)) as [a|] eqn:Hjc; [done|].
      apply elem_of_cons in Hin as [->|Hin]; [by eapply Hnone|by apply IH].
    + intros Hall. destruct (findCollectionAlias _ _ _) as [alias|] eqn:Hf;
        [|done].
      destruct (Hfound alias eq_refl) as (c & Htop & Hid).
      by destruct (Hall c alias).
  - intros [alias Hf]. destruct (Hfound alias Hf) as (c & Htop & <-).
    apply referenced_listed. by eapply referenced_here.
Qed.

End Sources.
End QuerySourcesFacts.

(** ** Loading the keys of a lazy collection *)


Module LoadingFacts.
Import Changes Materializer Driver Effects CallbackFacts.

Section Loading.
Context {K V R OV G : Type} `{Countable K} `{Countable R}.
Variable ops : GraphOps K V R G.

Abbreviation WorldT := (World K V R OV G).
Abbreviation MT := (M (K:=K) (V:=V) (R:=R) (OV:=OV) (G:=G)).
Implicit Types (w : WorldT).

Ltac step :=
  lazymatch goal with
  | |- after ((?m ≫= ?f) ?w) ?Q ?E => apply (after_bind m f w Q E)
  end.

Abbreviation unsent w w' :=
  (subscriptions w' = subscriptions w
   /\ sends (trace w') = sends (trace w)).

Lemma sends_app (evs1 evs2 : list (Event K V R OV)) :
  sends (evs1 ++ evs2) = sends evs1 ++ sends evs2.
Proof. apply omap_app. Qed.

Lemma sends_sync (events : list (SyncEvent R)) :
  sends (K:=K) (V:=V) (OV:=OV) (map EvSync events) = [].
Proof. by induction events. Qed.

Lemma outputCallback_unsent messages w :
  ended (outputCallback messages w) (fun w' => unsent w w').
Proof.
  unfold outputCallback.
  destruct (onOutput _ messages (mat w)) as [[mat' events] [|]]; simpl;
    by rewrite sends_app, sends_sync, app_nil_r.
Qed.

Lemma forEachBatch_unsent batches w :
  ended (forEachBatch batches w) (fun w' => unsent w w').
Proof.
  revert w. induction batches as [|b rest IH]; intros w; [done|].
  cbn [forEachBatch]. apply ended_after. step.
  eapply after_mono; [apply after_ended, outputCallback_unsent| |done].
  intros [] w1 [Hs Hr]. simpl. eapply after_mono; [apply after_ended, IH|..];
    simpl; intros; destruct_and!; split; congruence.
Qed.

Lemma graphRun_unsent w :
  ended (graphRun ops w) (fun w' => unsent w w').
Proof.
  unfold graphRun. apply ended_after. step. simpl. step. simpl.
  destruct (run ops (graph w)) as [[g batches]|];
    [|simpl; by rewrite sends_app, app_nil_r].
  step. simpl.
  eapply after_mono; [apply after_ended, forEachBatch_unsent|..]; simpl;
    intros; destruct_and!; split; try congruence.
  all: match goal with Hs : sends _ = sends _ |- _ => rewrite Hs end.
  all: simpl; by rewrite sends_app, app_nil_r.
Qed.

(** A run without a callback sends nothing and leaves the subscriptions as
    they are. *)
Lemma maybeRunGraph_unsent fuel w :
  ended (maybeRunGraph ops fuel None w) (fun w' => unsent w w').
Proof.
  destruct fuel as [|fuel]; [done|].
  cbn [maybeRunGraph]. apply ended_after. step. cbn [getWorld after].
  destruct (_ && _); [|done].
  step. eapply after_mono; [apply after_ended, graphRun_unsent| |done].
  intros [] w1 [Hs1 Ht1]. step. cbn [mret M_ret after].
  step. cbn [getWorld after]. step.
  destruct (messagesCount (mat w1) =? 0).
  - step. cbn [emit after]. cbn [emit after]. step. cbn [getWorld after].
    match goal with |- context [allCollectionsReady ?x] =>
      destruct (allCollectionsReady x) end; simpl;
      rewrite ?sends_app, ?app_nil_r; by split.
  - cbn [mret M_ret after]. step. cbn [getWorld after].
    destruct (allCollectionsReady w1); simpl;
      rewrite ?sends_app, ?app_nil_r; by split.
Qed.

Lemma sentKeys_cons (key : K) (loaded : list K) (old : gset K) :
  list_to_set loaded ∪ ({[key]} ∪ old) = list_to_set (key :: loaded) ∪ old.
Proof. set_solver. Qed.

Lemma sentKeys_nil (old : gset K) : old = list_to_set [] ∪ old.
Proof. set_solver. Qed.

Lemma sentKeys_singleton (key : K) (old : gset K) :
  {[key]} ∪ old = list_to_set [key] ∪ old.
Proof. set_solver. Qed.

Lemma sentKeys_fresh (key k : K) (old : gset K) :
  k ∉ {[key]} ∪ old <-> k <> key /\ k ∉ old.
Proof. set_solver. Qed.

Section Keys.
Variables (fuel collectionId : nat).
Variable s0 : Subscription K V OV G.

Abbreviation wanted key :=
  (exists value, get (collection s0) key = Some value
                 /\ passes (whereExpression s0) value = true).

(** What a call of [loadKeys keys] has done when it ends in [w'], started
    in [w] with [sentKeys] holding [old]; [complete] when it returned. *)
Abbreviation loadedFrom keys old w w' complete :=
  (exists (loaded : list K) s',
     subscriptions w' !! collectionId = Some s'
     /\ collection s' = collection s0
     /\ whereExpression s' = whereExpression s0
     /\ lazySentKeys s' = list_to_set loaded ∪ old
     /\ NoDup loaded
     /\ (forall key, key ∈ loaded ->
           key ∈ keys /\ key ∉ old /\ wanted key)
     /\ (complete = true ->
         forall key, key ∈ keys -> key ∉ old -> wanted key -> key ∈ loaded)
     /\ exists new,
          sends (trace w') = sends (trace w) ++ new
          /\ Forall2 (fun key sent =>
                        exists value,
                          get (collection s0) key = Some value
                          /\ sent = (collectionId,
                                     [((getKey (collection s0) value, value), 1)]))
                     loaded new).

Lemma loadKeys_loaded keys :
  forall w s,
    subscriptions w !! collectionId = Some s ->
    collection s = collection s0 ->
    whereExpression s = whereExpression s0 ->
    after (loadKeys ops (maybeRunGraph ops fuel) collectionId keys w)
          (fun _ w' => loadedFrom keys (lazySentKeys s) w w' true)
          (fun w' => loadedFrom keys (lazySentKeys s) w w' false).
Proof.
  induction keys as [|key rest IH]; intros w s Hs Hc Hw.
  { simpl. exists [], s. split_and!; try done.
    - apply sentKeys_nil.
    - constructor.
    - intros key Hin. by apply elem_of_nil in Hin.
    - exists []. by rewrite app_nil_r. }
  cbn [loadKeys]. step. unfold getSubscription at 1. rewrite Hs. cbn [after].
  step.
  pose proof (IH w s Hs Hc Hw) as Hskip.
  assert (forall complete w',
    (key ∈ lazySentKeys s \/ ~ wanted key) ->
    loadedFrom rest (lazySentKeys s) w w' complete ->
    loadedFrom (key :: rest) (lazySentKeys s) w w' complete) as Hmore.
  { intros complete w' Hkey (loaded & s' & Hs' & Hc' & Hw' & Hsent & Hnd & Hin
                             & Hall & Hnew).
    exists loaded, s'. split_and!; try done.
    - intros k Hk. destruct (Hin k Hk) as (? & ? & ?). split_and!; try done.
      by right.
    - intros Hcomplete k Hk Hold Hwanted.
      apply elem_of_cons in Hk as [->|Hk]; [|by apply Hall].
      by destruct Hkey. }
  destruct (bool_decide (key ∈ lazySentKeys s)) eqn:Hold.
  { apply bool_decide_eq_true in Hold. cbn [mret M_ret after].
    eapply after_mono; [exact Hskip|..].
    - intros [] w'. apply Hmore. by left.
    - intros w'. apply Hmore. by left. }
  apply bool_decide_eq_false in Hold.
  rewrite Hc, Hw.
  destruct (get (collection s0) key) as [value|] eqn:Hget.
  2:{ cbn [mret M_ret after].
      eapply after_mono; [exact Hskip|..].
      - intros [] w'. apply Hmore. right. by intros (v & ? & ?).
      - intros w'. apply Hmore. right. by intros (v & ? & ?). }
  destruct (passes (whereExpression s0) value) eqn:Hpass.
  2:{ cbn [mret M_ret after].
      eapply after_mono; [exact Hskip|..].
      - intros [] w'. apply Hmore. right. intros (v & Hv & Hp). congruence.
      - intros w'. apply Hmore. right. intros (v & Hv & Hp). congruence. }
  clear Hskip Hmore.
  assert (Hlt : (collectionId < length (subscriptions w))%nat)
    by (by eapply lookup_lt_Some).
  step. cbn [setSubscription after].
  unfold sendChangesToPipeline. step.
  unfold getSubscription at 1. cbn [subscriptions].
  rewrite list_lookup_insert_eq by done. cbn [after].
  step. cbn [getWorld after]. step. cbn [setGraph after].
  step. cbn [emit after]. cbn [collection].
  set (s1 := mkSubscription _ _ _ _ _ _ _).
  set (w2 := mkWorld _ _ _ _ _ _ _).
  assert (subscriptions w2 !! collectionId = Some s1) as Hs2
    by (by apply list_lookup_insert_eq).
  assert (sends (trace w2)
          = sends (trace w)
            ++ [(collectionId, [((getKey (collection s0) value, value), 1)])])
    as Ht2.
  { subst w2. cbn [trace]. rewrite sends_app. by f_equal. }
  clearbody w2.
  assert (wanted key) as Hwanted by (by exists value).
  eapply after_mono; [apply after_ended, maybeRunGraph_unsent|..].
  - intros [] w3 [Hs3 Ht3]. simpl.
    rewrite <- Hs3 in Hs2.
    eapply after_mono; [by apply (IH w3 s1 Hs2)|..].
    + intros [] w' (loaded & s' & Hs' & Hc' & Hw' & Hsent & Hnd & Hin & Hall
                   & new & Hnew & Hpairs).
      exists (key :: loaded), s'. split_and!; try done.
      * rewrite Hsent. subst s1. simpl. apply sentKeys_cons.
      * constructor; [|done]. intros Hk. destruct (Hin key Hk) as (_ & Hno & _).
        subst s1. simpl in Hno. apply sentKeys_fresh in Hno. by destruct Hno.
      * intros k Hk. apply elem_of_cons in Hk as [->|Hk];
          [by split_and!; [left|..]|].
        destruct (Hin k Hk) as (? & Hno & ?). subst s1. simpl in Hno.
        apply sentKeys_fresh in Hno. split_and!; [by right|by destruct Hno|done].
      * intros _ k Hk Hno Hwk. destruct (decide (k = key)) as [->|Hne];
          [by left|right].
        apply Hall; [done| |subst s1; simpl; by apply sentKeys_fresh|done].
        apply elem_of_cons in Hk as [?|?]; done.
      * exists ((collectionId, [((getKey (collection s0) value, value), 1)]) :: new).
        split; [by rewrite Hnew, Ht3, Ht2, <- app_assoc|].
        constructor; [by exists value|done].
    + intros w' (loaded & s' & Hs' & Hc' & Hw' & Hsent & Hnd & Hin & Hall
                 & new & Hnew & Hpairs).
      exists (key :: loaded), s'. split_and!; try done.
      * rewrite Hsent. subst s1. simpl. apply sentKeys_cons.
      * constructor; [|done]. intros Hk. destruct (Hin key Hk) as (_ & Hno & _).
        subst s1. simpl in Hno. apply sentKeys_fresh in Hno. by destruct Hno.
      * intros k Hk. apply elem_of_cons in Hk as [->|Hk];
          [by split_and!; [left|..]|].
        destruct (Hin k Hk) as (? & Hno & ?). subst s1. simpl in Hno.
        apply sentKeys_fresh in Hno. split_and!; [by right|by destruct Hno|done].
      * exists ((collectionId, [((getKey (collection s0) value, value), 1)]) :: new).
        split; [by rewrite Hnew, Ht3, Ht2, <- app_assoc|].
        constructor; [by exists value|done].
  - intros w3 [Hs3 Ht3]. rewrite <- Hs3 in Hs2.
    exists [key], s1. split_and!; try done.
    + subst s1. simpl. apply sentKeys_singleton.
    + apply NoDup_singleton.
    + intros k Hk. apply list_elem_of_singleton in Hk as ->.
      by split_and!; [left|..].
    + eexists. split; [by rewrite Ht3, Ht2|].
      constructor; [by exists value|constructor].
Qed.

End Keys.

(** X13. [loadKeys] sends a key at most once.  Of the keys it is asked for it
    loads those that [sentKeys] does not hold yet, that the collection has
    a row for and whose row passes the filter, each one once and in the
    order asked: it adds the key to [sentKeys] and sends the row as one
    insert.  When it returns it has loaded all of them; when a run of the
    graph throws, those up to the one it had just sent. *)
Theorem loadKeys_loads_each_key_once fuel collectionId keys s w :
  subscriptions w !! collectionId = Some s ->
  let wanted key :=
    exists value, get (collection s) key = Some value
                  /\ passes (whereExpression s) value = true in
  let loadedIn w' (complete : bool) :=
    exists (loaded : list K) s' new,
      subscriptions w' !! collectionId = Some s'
      /\ lazySentKeys s' = list_to_set loaded ∪ lazySentKeys s
      /\ NoDup loaded
      /\ (forall key, key ∈ loaded ->
            key ∈ keys /\ key ∉ lazySentKeys s /\ wanted key)
      /\ (complete = true ->
          forall key, key ∈ keys -> key ∉ lazySentKeys s -> wanted key ->
                      key ∈ loaded)
      /\ sends (trace w') = sends (trace w) ++ new
      /\ Forall2 (fun key sent =>
                    exists value,
                      get (collection s) key = Some value
                      /\ sent = (collectionId,
                                 [((getKey (collection s) value, value), 1)]))
                 loaded new in
  after (loadKeys ops (maybeRunGraph ops fuel) collectionId keys w)
        (fun _ w' => loadedIn w' true)
        (fun w' => loadedIn w' false).
Proof.
  intros Hs wanted loadedIn.
  eapply after_mono; [by apply (loadKeys_loaded fuel collectionId s keys w s)|..].
  - intros [] w' (loaded & s' & ? & ? & ? & ? & ? & ? & ? & new & ? & ?).
    by exists loaded, s', new.
  - intros w' (loaded & s' & ? & ? & ? & ? & ? & ? & ? & new & ? & ?).
    by exists loaded, s', new.
Qed.

End Loading.
End LoadingFacts.

(** ** Batches that commit *)


Module CommitFacts.
Import Materializer MaterializerSpec MaterializerFacts.

Section Commit.
Context {K R : Type} `{EqDecision K} `{Countable R}.
Implicit Types (messages : list (OutTuple K R)).

Lemma counts_of_tuple k messages t :
  t ∈ messages -> keyOf t = k ->
  Z.max 0 (multiplicityOf t) <= insertsOf k messages
  /\ Z.max 0 (- multiplicityOf t) <= deletesOf k messages.
Proof.
  intros Hin Hk. induction messages as [|t' rest IH];
    [by apply elem_of_nil in Hin|].
  pose proof (insertsOf_nonneg k rest). pose proof (deletesOf_nonneg k rest).
  simpl. apply elem_of_cons in Hin as [<-|Hin].
  - rewrite !decide_True by done. lia.
  - destruct (IH Hin). case_decide; lia.
Qed.

Lemma decision_Some present inserts deletes :
  0 <= inserts -> 0 <= deletes -> 0 < inserts \/ 0 < deletes ->
  is_Some (decision present inserts deletes).
Proof.
  intros Hi Hd Hpos. unfold decision. repeat case_decide; try done. lia.
Qed.

Lemma decision_insert present inserts deletes :
  decision present inserts deletes = Some WInsert -> 0 < inserts /\ deletes = 0.
Proof. unfold decision. repeat case_decide; naive_solver. Qed.

Lemma writesFor_all has messages keys :
  (forall k, k ∈ keys ->
     is_Some (decision (has k) (insertsOf k messages) (deletesOf k messages))
     /\ is_Some (payloadOf k messages)) ->
  (writesFor has messages keys).2 = true
  /\ Forall2 (fun k event =>
                exists ty value,
                  event = Write ty value
                  /\ decision (has k) (insertsOf k messages)
                              (deletesOf k messages) = Some ty)
             keys (writesFor has messages keys).1.
Proof.
  induction keys as [|k rest IH]; intros Hall; [by split; [|constructor]|].
  destruct (Hall k) as [[ty Hty] [[value i] Hv]]; [by left|].
  simpl. rewrite Hty, Hv.
  destruct IH as [Hok Hwrites]; [intros k' Hk'; apply Hall; by right|].
  destruct (writesFor has messages rest) as [events ok]. simpl in *.
  split; [done|]. constructor; [by eexists _, _|done].
Qed.

(** X14. A batch in which no tuple has multiplicity [0], and which only
    inserts keys the result collection does not hold, raises nothing: the
    callback opens a transaction, makes one write for each key of the
    batch, in the order the batch first names them, none of them the insert
    of a key the collection holds, and commits.  The [write] of the result
    collection is not among the sources and is taken to return; the insert
    of a key the collection holds is the write it may refuse, and the
    batch asks for none. *)
Theorem onOutput_commits_without_zeroes has messages (st : MatState K R) :
  (forall t, t ∈ messages -> multiplicityOf t <> 0) ->
  (forall k, k ∈ keysInOrder messages -> has k = true ->
             0 < deletesOf k messages) ->
  (onOutput has messages st).2 = true
  /\ exists writes,
       (onOutput has messages st).1.2 = Begin :: writes ++ [Commit]
       /\ Forall2 (fun k event =>
                     exists ty value,
                       event = Write ty value
                       /\ (ty = WInsert -> has k = false))
                  (keysInOrder messages) writes.
Proof.
  intros Hnonzero Hfresh.
  destruct (reduceMessages_summary messages) as [Hkeys Hget].
  assert (forall k c, (k, c) ∈ reduceMessages messages ->
                      summary k messages = Some c) as Hsum.
  { intros k c Hin. rewrite <- Hget. apply accGet_elem; [|done].
    rewrite Hkeys. apply keysInOrder_NoDup. }
  pose proof (forEachKey_writesFor has messages (reduceMessages messages)
    (mkMatState (resultKeys st) (orderByIndices st)
               (messagesCount st + Z.of_nat (length messages))) Hsum) as Hfor.
  rewrite Hkeys in Hfor.
  destruct (writesFor_all has messages (keysInOrder messages)) as [Hok Hwrites].
  { intros k Hk. split.
    - apply keysInOrder_elem, list_elem_of_fmap in Hk as (t & Hkt & Hin).
      destruct (counts_of_tuple k messages t Hin (eq_sym Hkt)).
      specialize (Hnonzero t Hin).
      apply decision_Some;
        [apply insertsOf_nonneg|apply deletesOf_nonneg|lia].
    - destruct (payloadOf k messages) eqn:Hp; [done|].
      by apply payloadOf_None in Hp. }
  assert (Forall2 (fun k event =>
                     exists ty value,
                       event = Write (R:=R) ty value
                       /\ (ty = WInsert -> has k = false))
                  (keysInOrder messages)
                  (writesFor has messages (keysInOrder messages)).1) as Hfresh'.
  { revert Hwrites Hfresh. generalize (keysInOrder messages) at 1 3 4 as keys.
    intros keys Hwrites. induction Hwrites as [|k event keys events Hk _ IH];
      intros Hfresh; [constructor|].
    constructor; [|apply IH; intros k' Hk'; apply Hfresh; by right].
    destruct Hk as (ty & value & -> & Hty). exists ty, value. split; [done|].
    intros ->. apply decision_insert in Hty as [_ Hd].
    destruct (has k) eqn:Hhas; [|done].
    specialize (Hfresh k (list_elem_of_here _ _) Hhas). lia. }
  rewrite <- Hfor in Hok, Hfresh'. unfold onOutput.
  destruct (forEachKey _ _ _) as [[st1 writes] ok]. simpl in *.
  subst ok. split; [done|]. by exists writes.
Qed.

End Commit.
End CommitFacts.

(** ** Generated identifiers *)

Module IdentifiersFacts.
Import Identifiers.

Lemma chooseId_anonymous configId counter :
  anonymous configId = true ->
  chooseId configId counter
  = ("live-query-" +:+ pretty (increment counter), increment counter).
Proof. destruct configId as [id|]; simpl; [|done]. by intros ->. Qed.

Lemma createAll_anonymous configIds :
  forall counter,
    forallb anonymous configIds = true ->
    counter + Z.of_nat (length configIds) <= 2 ^ 53 ->
    (createAll configIds counter).2 = counter + Z.of_nat (length configIds)
    /\ forall id, id ∈ (createAll configIds counter).1 ->
         exists n, counter < n <= counter + Z.of_nat (length configIds)
                   /\ id = "live-query-" +:+ pretty n.
Proof.
  induction configIds as [|configId rest IH]; intros counter Hall Hbound.
  { simpl. split; [lia|]. intros id Hin. by apply elem_of_nil in Hin. }
  cbn [forallb] in Hall. apply andb_prop in Hall as [Hc Hrest].
  cbn [createAll]. rewrite (chooseId_anonymous _ _ Hc).
  assert (increment counter = counter + 1) as ->.
  { unfold increment. cbn [length] in Hbound.
    destruct (Z.ltb_spec counter (2 ^ 53)); [done|lia]. }
  cbn [length] in Hbound |- *.
  destruct (IH (counter + 1) Hrest) as [Hcounter Hids]; [lia|].
  destruct (createAll rest (counter + 1)) as [ids counter']. simpl in *.
  split; [lia|]. intros id Hin. apply elem_of_cons in Hin as [->|Hin].
  - exists (counter + 1). split; [lia|done].
  - destruct (Hids id Hin) as (n & Hn & ->). exists n. split; [lia|done].
Qed.

(** X15. The identifiers generated for collections created without one are
    pairwise distinct, as long as the counter stays within [2 ^ 53]. *)
Theorem generated_ids_distinct configIds counter :
  forallb anonymous configIds = true ->
  0 <= counter ->
  counter + Z.of_nat (length configIds) <= 2 ^ 53 ->
  NoDup (createAll configIds counter).1.
Proof.
  revert counter. induction configIds as [|configId rest IH];
    intros counter Hall Hpos Hbound; [constructor|].
  cbn [forallb] in Hall. apply andb_prop in Hall as [Hc Hrest].
  cbn [createAll]. rewrite (chooseId_anonymous _ _ Hc).
  assert (increment counter = counter + 1) as ->.
  { unfold increment. cbn [length] in Hbound.
    destruct (Z.ltb_spec counter (2 ^ 53)); [done|lia]. }
  cbn [length] in Hbound.
  specialize (IH (counter + 1) Hrest).
  destruct (createAll_anonymous rest (counter + 1) Hrest) as [_ Hids]; [lia|].
  destruct (createAll rest (counter + 1)) as [ids counter']. simpl in *.
  constructor; [|apply IH; lia].
  intros Hin. destruct (Hids _ Hin) as (n & Hn & Heq).
  apply (inj (String.append "live-query-")) in Heq.
  apply (inj pretty) in Heq. lia.
Qed.

End IdentifiersFacts.

(** ** Restarting a live query collection *)

Module LifecycleFacts.
Import Lifecycle.

Section Lifecycle.
Context {QueryIR CompileError : Type}.
Variable compileQuery : QueryIR -> option CompileError.

Abbreviation restarts' := (restarts QueryIR CompileError compileQuery).
Abbreviation construct' := (construct QueryIR CompileError compileQuery).
Abbreviation start' := (start QueryIR CompileError compileQuery).

Lemma restarts_from_empty query n :
  compileQuery query = None ->
  forall graph done,
    (forall g, g ∈ done -> (g < graph)%nat) ->
    let st := restarts' query n
                (mkState (mkCaches None None None None) graph done) in
    finalized st = done ++ seq graph n
    /\ graphs st = (graph + n)%nat
    /\ caches st = mkCaches None None None None.
Proof.
  intros Hcompile. induction n as [|n IH]; intros graph done Hdone.
  { simpl. by rewrite app_nil_r, Nat.add_0_r. }
  cbn [restarts]. unfold start, maybeCompileBasePipeline, compileBasePipeline.
  rewrite Hcompile. simpl.
  rewrite bool_decide_eq_false_2 by (intros Hin; apply Hdone in Hin; lia).
  destruct (IH (S graph) (done ++ [graph])) as (Hf & Hg & Hc).
  { intros g Hg. apply elem_of_app in Hg as [Hg|Hg];
      [apply Hdone in Hg; lia|apply list_elem_of_singleton in Hg; lia]. }
  unfold cleanup in *. simpl in *. rewrite Hf, Hg, Hc.
  split_and!; [by rewrite <- app_assoc|lia|done].
Qed.

(** X16. A graph is finalized once.  After a construction that raised
    nothing, the first start finalizes the graph compiled at construction,
    and each start after a cleanup compiles a graph of its own: [n] starts,
    each followed by its cleanup, finalize the graphs [0] to [n - 1] in
    turn, and no graph is made that is not started, the one of construction
    apart.  A second start with no cleanup in between finds the finalized
    graph in the caches: it raises and finalizes nothing. *)
Theorem restart_compiles_a_fresh_graph query n :
  compileQuery query = None ->
  let st := restarts' query n (construct' query).1 in
  let started := (start' query (construct' query).1).1 in
  (construct' query).2 = None
  /\ finalized st = seq 0 n
  /\ NoDup (finalized st)
  /\ graphs st = Nat.max 1 n
  /\ (start' query (construct' query).1).2 = None
  /\ finalized started = [0%nat]
  /\ start' query started = (started, Some (GraphAlreadyFinalized _ 0)).
Proof.
  intros Hcompile st started.
  assert (finalized st = seq 0 n /\ graphs st = Nat.max 1 n) as [Hf Hg].
  { subst st. unfold construct, compileBasePipeline. rewrite Hcompile.
    destruct n as [|n]; [done|].
    cbn [restarts fst]. unfold start, maybeCompileBasePipeline. simpl.
    destruct (restarts_from_empty query n Hcompile 1%nat [0%nat])
      as (Hf & Hg & _).
    { intros g Hin. apply list_elem_of_singleton in Hin. lia. }
    unfold cleanup. simpl in *. rewrite Hf, Hg. split; [done|lia]. }
  split_and!; try done.
  - unfold construct, compileBasePipeline. by rewrite Hcompile.
  - rewrite Hf. apply NoDup_seq.
  - unfold construct, compileBasePipeline. by rewrite Hcompile.
  - subst started. unfold construct, compileBasePipeline. by rewrite Hcompile.
  - subst started. unfold construct, compileBasePipeline. by rewrite Hcompile.
Qed.

End Lifecycle.
End LifecycleFacts.

(** ** The initial run and the runs of a delivery *)


Module InitialRunFacts.
Import Changes Materializer Driver Effects.

Section InitialRun.
Context {K V R OV G : Type} `{Countable K} `{Countable R}.
Variable ops : GraphOps K V R G.

Abbreviation WorldT := (World K V R OV G).
Abbreviation MT := (M (K:=K) (V:=V) (R:=R) (OV:=OV) (G:=G)).
Implicit Types (w : WorldT).

Lemma finished_bind {A B} (m : MT A) (f : A -> MT B) w
    (Q : B -> WorldT -> Prop) (E : WorldT -> Prop) :
  finished (m w) (fun a w1 => finished (f a w1) Q E) E ->
  finished ((m ≫= f) w) Q E.
Proof. unfold mbind, M_bind. by destruct (m w). Qed.

Lemma finished_mono {A} (o : Outcome WorldT A) (Q Q' : A -> WorldT -> Prop)
    (E E' : WorldT -> Prop) :
  finished o Q E -> (forall a w, Q a w -> Q' a w) -> (forall w, E w -> E' w) ->
  finished o Q' E'.
Proof. destruct o; simpl; auto. Qed.

Lemma finished_ended {A} (o : Outcome WorldT A) (Q : A -> WorldT -> Prop)
    (E Q' : WorldT -> Prop) :
  finished o Q E -> ended o Q' ->
  finished o (fun a w' => Q a w' /\ Q' w') (fun w' => E w' /\ Q' w').
Proof. by destruct o. Qed.

Ltac step :=
  lazymatch goal with
  | |- finished ((?m ≫= ?f) ?w) ?Q ?E => apply (finished_bind m f w Q E)
  end.

Abbreviation unsubscribed := (fun w : WorldT => subscribedToAllCollections w = false).
Abbreviation anyhow := (fun _ : WorldT => True).

(** *** While the flag is down *)

Lemma maybeRunGraph_waits fuel callback w :
  unsubscribed w -> maybeRunGraph ops (S fuel) callback w = Done tt w.
Proof.
  intros Hflag. cbn [maybeRunGraph]. unfold mbind, M_bind, getWorld.
  by rewrite Hflag, andb_false_r.
Qed.

Lemma getSubscription_finishes collectionId w (Q : _ -> WorldT -> Prop) :
  (forall s, subscriptions w !! collectionId = Some s -> Q s w) ->
  finished (getSubscription collectionId w) Q anyhow.
Proof.
  intros HQ. unfold getSubscription.
  destruct (subscriptions w !! collectionId) as [s|]; simpl; auto.
Qed.

Lemma getOrderByInfo_finishes collectionId w (Q : _ -> WorldT -> Prop) :
  (forall s info dn, Q (s, info, dn) w) ->
  finished (getOrderByInfo collectionId w) Q anyhow.
Proof.
  intros HQ. unfold getOrderByInfo. step.
  apply getSubscription_finishes. intros s _.
  destruct (orderByInfo s) as [info|]; [|done].
  destruct (dataNeeded info) as [dn|]; [|done]. apply HQ.
Qed.

Lemma sendChangesToPipeline_finishes fuel collectionId changes callback w :
  unsubscribed w ->
  finished (sendChangesToPipeline ops (maybeRunGraph ops (S fuel)) collectionId
              changes callback w)
           (fun _ => unsubscribed) anyhow.
Proof.
  intros Hflag. unfold sendChangesToPipeline. step.
  apply getSubscription_finishes. intros s _.
  step. cbn [getWorld finished]. step. cbn [setGraph finished].
  step. cbn [emit finished]. by rewrite maybeRunGraph_waits.
Qed.

Lemma loadNextItems_finishes fuel collectionId n w :
  unsubscribed w ->
  finished (loadNextItems ops (maybeRunGraph ops (S fuel)) collectionId n w)
           (fun _ => unsubscribed) anyhow.
Proof.
  intros Hflag. unfold loadNextItems. step.
  apply getOrderByInfo_finishes. intros s info dn.
  step. cbn [emit finished].
  destruct (insertsOfKeys _ _) as [nextInserts|]; [|done].
  unfold sendChangesToPipelineWithTracking. step.
  apply getOrderByInfo_finishes. intros s' info' dn'.
  destruct (trackSentValues _ _ _) as [trackedChanges tracker].
  step. cbn [setSubscription finished].
  by apply sendChangesToPipeline_finishes.
Qed.

Lemma subscribeToChanges_finishes fuel collectionId w :
  unsubscribed w ->
  finished (subscribeToChanges ops (S fuel) collectionId w)
           (fun _ => unsubscribed) anyhow.
Proof.
  intros Hflag. unfold subscribeToChanges. step.
  apply getSubscription_finishes. intros s _.
  destruct (isLazy s).
  { unfold subscribeToMatchingChanges. step.
    apply getSubscription_finishes. intros s' _.
    step. cbn [setSubscription finished]. by cbn [emit finished]. }
  destruct (bool_decide _).
  - unfold subscribeToOrderedChanges. step.
    apply getOrderByInfo_finishes. intros s' info dn.
    step. cbn [setSubscription finished]. step.
    eapply finished_mono; [by apply loadNextItems_finishes| |done].
    intros [] w1 Hw1. by cbn [emit finished].
  - unfold subscribeToAllChanges. step.
    apply getSubscription_finishes. intros s' _.
    step. cbn [emit finished]. by apply sendChangesToPipeline_finishes.
Qed.

Lemma subscribeAll_finishes fuel collectionIds :
  forall w, unsubscribed w ->
    finished (subscribeAll ops (S fuel) collectionIds w)
             (fun _ => unsubscribed) anyhow.
Proof.
  induction collectionIds as [|collectionId rest IH]; intros w Hflag; [done|].
  cbn [subscribeAll]. step.
  eapply finished_mono; [by apply subscribeToChanges_finishes| |done].
  intros [] w1 Hw1. by apply IH.
Qed.

(** *** The run *)

Abbreviation wrote w w' :=
  (exists events, trace w' = trace w ++ events /\ forallb written events = true).

Lemma wrote_refl w : wrote w w.
Proof. exists []. by rewrite app_nil_r. Qed.

Lemma wrote_trans w1 w2 w3 : wrote w1 w2 -> wrote w2 w3 -> wrote w1 w3.
Proof.
  intros (e1 & H1 & Hq1) (e2 & H2 & Hq2). exists (e1 ++ e2).
  split; [by rewrite H2, H1, app_assoc|by rewrite forallb_app, Hq1, Hq2].
Qed.

Lemma written_sync (events : list (SyncEvent R)) :
  forallb (written (K:=K) (V:=V) (OV:=OV)) (map EvSync events) = true.
Proof. by induction events. Qed.

Lemma outputCallback_wrote messages w :
  finished (outputCallback messages w) (fun _ w' => wrote w w') (fun w' => wrote w w').
Proof.
  unfold outputCallback.
  destruct (onOutput _ messages (mat w)) as [[mat' events] [|]]; simpl;
    eexists; split; try done; apply written_sync.
Qed.

Lemma forEachBatch_wrote batches :
  forall w, finished (forEachBatch batches w)
                     (fun _ w' => wrote w w') (fun w' => wrote w w').
Proof.
  induction batches as [|b rest IH]; intros w; [apply wrote_refl|].
  cbn [forEachBatch]. step.
  eapply finished_mono; [apply outputCallback_wrote| |done].
  intros [] w1 Hw1. simpl.
  eapply finished_mono; [apply IH|..]; simpl; intros; by eapply wrote_trans.
Qed.

Abbreviation ran w w' :=
  (exists events,
     trace w' = trace w ++ EvGraphRun :: events
     /\ forallb written events = true).

Lemma graphRun_ran w :
  finished (graphRun ops w)
           (fun _ w' => ran w w' /\ subscriptions w' = subscriptions w)
           (fun w' => ran w w').
Proof.
  unfold graphRun. step. cbn [getWorld finished]. step. cbn [emit finished].
  destruct (run ops (graph w)) as [[g batches]|].
  2:{ simpl. exists []. by split. }
  step. cbn [setGraph finished].
  pose proof (CallbackFacts.forEachBatch_frame batches
    (mkWorld g (subscriptions w) (subscribedToAllCollections w) (mat w)
             (synced w) (ready w) (trace w ++ [EvGraphRun]))) as Hframe.
  eapply finished_mono; [apply finished_ended;
    [apply forEachBatch_wrote|exact Hframe]|..]; simpl.
  - intros [] w' [(events & Htr & Hw) [Hs _]]. split; [|done].
    exists events. split; [|done]. by rewrite Htr, <- app_assoc.
  - intros w' [(events & Htr & Hw) _].
    exists events. split; [|done]. by rewrite Htr, <- app_assoc.
Qed.

Lemma maybeRunGraph_once fuel w :
  finished (maybeRunGraph ops (S fuel) None w)
           (fun _ w' => if canRun w then ran w w' else trace w' = trace w)
           (fun w' => canRun w = true /\ ran w w').
Proof.
  cbn [maybeRunGraph]. step. cbn [getWorld finished].
  fold (canRun w). destruct (canRun w); [|done].
  step. eapply finished_mono; [apply graphRun_ran| |done].
  intros [] w1 [(events & Htr & Hw) Hs]. step. cbn [mret M_ret finished].
  step. cbn [getWorld finished]. step.
  destruct (messagesCount (mat w1) =? 0).
  - step. cbn [emit finished]. cbn [emit finished]. step.
    cbn [getWorld finished].
    match goal with |- context [allCollectionsReady ?x] =>
      destruct (allCollectionsReady x) end; simpl; rewrite Htr.
    + exists (events ++ [EvSync Begin; EvSync Commit; EvMarkReady]).
      split; [by rewrite <- !app_assoc|]. by rewrite forallb_app, Hw.
    + exists (events ++ [EvSync Begin; EvSync Commit]).
      split; [by rewrite <- !app_assoc|]. by rewrite forallb_app, Hw.
  - cbn [mret M_ret finished]. step. cbn [getWorld finished].
    destruct (allCollectionsReady w1); simpl; rewrite Htr.
    + exists (events ++ [EvMarkReady]).
      split; [by rewrite <- !app_assoc|]. by rewrite forallb_app, Hw.
    + by exists events.
Qed.

(** X17. [sync] of a query without lazy collections runs the graph once, and
    only after it has subscribed to every collection.  Called with the flag
    down, it ends within depth one: what the subscriptions do first moves
    data to the inputs and runs nothing; then, if every source is ready or
    in its initial commit, the graph is run once and what follows the run
    is written to the result collection; if a source is not, nothing is
    run at all.  It throws either while it subscribes, and the flag stays
    down, or out of the run.  (With a lazy collection the join operator
    calls [loadKeys] or [loadInitialState] during the run, and they run the
    graph again.) *)
Theorem sync_runs_the_graph_once fuel w :
  noLazyCollection w = true ->
  subscribedToAllCollections w = false ->
  let queued w' evs := trace w' = trace w ++ evs /\ forallb quiet evs = true in
  let started w' :=
    exists evs,
      forallb quiet evs = true
      /\ if allCollectionsReadyOrInitialCommit w
         then exists events,
                trace w' = trace w ++ evs ++ EvGraphRun :: events
                /\ forallb written events = true
         else trace w' = trace w ++ evs in
  finished (sync ops (S fuel) w)
           (fun _ w' => subscribedToAllCollections w' = true /\ started w')
           (fun w' =>
              (subscribedToAllCollections w' = false /\ exists evs, queued w' evs)
              \/ (subscribedToAllCollections w' = true
                  /\ allCollectionsReadyOrInitialCommit w = true
                  /\ started w')).
Proof.
  intros _ Hflag queued started.
  assert (canRun w = false) as Hno
    by (unfold canRun; by rewrite Hflag, andb_false_r).
  unfold sync. step. cbn [getWorld finished]. step.
  eapply finished_mono;
    [apply finished_ended;
       [by apply subscribeAll_finishes
       |apply (EffectsFacts.effect_subscribeAll ops (S fuel) _ w I)]|..].
  2:{ intros w1 [_ (_ & Hflag1 & (evs & Htr & Hq) & _)]. left.
      split; [congruence|]. exists evs. split; [done|by apply Hq]. }
  intros [] w1 [_ (Hst & Hflag1 & (evs & Htr & Hq) & _)].
  specialize (Hq Hno).
  step. cbn [setSubscribedToAllCollections finished].
  set (w2 := mkWorld _ _ _ _ _ _ _).
  assert (canRun w2 = allCollectionsReadyOrInitialCommit w) as Hrun.
  { unfold canRun. rewrite andb_true_r.
    rewrite !EffectsFacts.allCollectionsReadyOrInitialCommit_statuses.
    by change (statuses w2) with (statuses w1); rewrite Hst. }
  assert (trace w2 = trace w ++ evs) as Htr2 by done.
  assert (subscribedToAllCollections w2 = true) as Hflag2 by done.
  clearbody w2.
  eapply finished_mono;
    [apply finished_ended;
       [apply maybeRunGraph_once
       |apply (EffectsFacts.effect_maybeRunGraph ops (S fuel) None w2 I)]|..].
  - intros [] w' [Hran (_ & Hflag' & _)]. split; [congruence|].
    exists evs. split; [done|]. rewrite <- Hrun.
    destruct (canRun w2).
    + destruct Hran as (events & Htr' & Hw). exists events.
      split; [by rewrite Htr', Htr2, <- app_assoc|done].
    + by rewrite Hran.
  - intros w' [[Hcan (events & Htr' & Hw)] (_ & Hflag' & _)]. right.
    split_and!; [congruence|congruence|].
    exists evs. split; [done|]. rewrite <- Hrun, Hcan. exists events.
    split; [by rewrite Htr', Htr2, <- app_assoc|done].
Qed.

(** X18. In a query without lazy collections, a batch delivered by a
    collection that is not ordered is sent to its input in one piece and
    followed by one run of the graph: once [sync] has subscribed and the
    sources are ready or in their initial commit, the delivery ends within
    depth one, and what it adds to the calls is the [sendData], the run,
    and what the run writes. *)
Theorem delivery_runs_the_graph_once fuel collectionId s rows' changes w :
  noLazyCollection w = true ->
  subscriptions w !! collectionId = Some s ->
  orderByInfo s = None ->
  canRun w = true ->
  let data := sendChangesToInput (getKey (collection s)) changes in
  let once w' :=
    exists events,
      trace w' = trace w ++ EvSendData collectionId data :: EvGraphRun :: events
      /\ forallb written events = true in
  finished (deliver ops (S fuel) collectionId rows' changes w)
           (fun _ w' => once w') once.
Proof.
  intros Heager Hs Hnone Hrun data once.
  assert (isLazy s = false) as Hlazy.
  { unfold noLazyCollection in Heager.
    rewrite forallb_forall in Heager.
    apply negb_true_iff, Heager, list_elem_of_In.
    by eapply list_elem_of_lookup_2. }
  assert (Hlt : (collectionId < length (subscriptions w))%nat)
    by (by eapply lookup_lt_Some).
  unfold deliver. step. unfold getSubscription. rewrite Hs. cbn [finished].
  step. cbn [setSubscription finished].
  set (s1 := mkSubscription _ _ _ _ _ _ _).
  set (w1 := mkWorld _ _ _ _ _ _ _).
  assert (subscriptions w1 !! collectionId = Some s1) as Hs1
    by (by apply list_lookup_insert_eq).
  assert (canRun w1 = true) as Hrun1.
  { rewrite <- Hrun. unfold canRun.
    rewrite !EffectsFacts.allCollectionsReadyOrInitialCommit_statuses.
    f_equal. f_equal. unfold statuses. subst w1. cbn [subscriptions].
    by eapply EffectsFacts.statuses_insert. }
  assert (trace w1 = trace w) as Htr1 by done.
  clearbody w1.
  rewrite Hlazy, Hnone.
  rewrite bool_decide_eq_false_2 by (by intros [? ?]).
  unfold sendChangesToPipeline. step.
  unfold getSubscription. rewrite Hs1. cbn [finished].
  step. cbn [getWorld finished]. step. cbn [setGraph finished].
  step. cbn [emit finished].
  set (w2 := mkWorld _ _ _ _ _ _ _).
  assert (canRun w2 = true) as Hrun2 by exact Hrun1.
  assert (trace w2 = trace w ++ [EvSendData collectionId data]) as Htr2.
  { subst w2. cbn [trace]. by rewrite Htr1. }
  clearbody w2.
  eapply finished_mono; [apply maybeRunGraph_once|..]; rewrite Hrun2.
  - intros [] w' (events & Htr' & Hw). exists events.
    split; [by rewrite Htr', Htr2, <- app_assoc|done].
  - intros w' [_ (events & Htr' & Hw)]. exists events.
    split; [by rewrite Htr', Htr2, <- app_assoc|done].
Qed.

End InitialRun.
End InitialRunFacts.

(** ** Transactions of the result collection *)


Module TransactionFacts.
Import Changes Materializer Driver Effects.

Section Transactions.
Context {K V R OV G : Type} `{Countable K} `{Countable R}.
Variable ops : GraphOps K V R G.

Abbreviation WorldT := (World K V R OV G).
Abbreviation MT := (M (K:=K) (V:=V) (R:=R) (OV:=OV) (G:=G)).
Implicit Types (w : WorldT).

Abbreviation settling m := (forall w, settles w (m w)).

Lemma transactions_app (evs1 evs2 : list (Event K V R OV)) open :
  transactions open (evs1 ++ evs2)
  = match transactions open evs1 with
    | Some open' => transactions open' evs2
    | None => None
    end.
Proof.
  revert open. induction evs1 as [|ev rest IH]; intros open; [done|].
  destruct ev as [| | | | | |[| |]|]; simpl; try apply IH;
    destruct open; try done; apply IH.
Qed.

Lemma transactions_writes (writes : list (SyncEvent R)) :
  Forall (fun e => exists ty value, e = Write ty value) writes ->
  transactions (K:=K) (V:=V) (OV:=OV) true (map EvSync writes) = Some true.
Proof. induction 1 as [|e rest (ty & value & ->) _ IH]; [done|]. exact IH. Qed.

Lemma forEachKey_writes (has : K -> bool) acc (st : MatState K R) :
  Forall (fun e => exists ty value, e = Write ty value)
         (forEachKey has acc st).1.2.
Proof.
  revert st. induction acc as [|[rawKey changes] rest IH]; intros st; simpl;
    [constructor|].
  destruct (classify _ _ _) as [ty|]; [|constructor].
  match goal with |- context [forEachKey has rest ?s] =>
    specialize (IH s); destruct (forEachKey has rest s) as [[st2 evs] ok] end.
  simpl in *. constructor; [by eexists _, _|done].
Qed.

(** *** Pieces of the driver *)

Lemma settles_here {A} (a : A) w : settles w (Done a w).
Proof. exists []. by rewrite app_nil_r. Qed.

Lemma settles_step {A} w w1 (o : Outcome WorldT A) evs :
  trace w1 = trace w ++ evs -> transactions false evs = Some false ->
  settles w1 o -> settles w o.
Proof.
  intros Htr Hevs. destruct o as [a w2|e w2|]; simpl; [| |done].
  - intros (evs2 & Htr2 & Hevs2). exists (evs ++ evs2).
    split; [by rewrite Htr2, Htr, app_assoc|].
    by rewrite transactions_app, Hevs.
  - intros (evs2 & open & Htr2 & Hevs2). exists (evs ++ evs2), open.
    split; [by rewrite Htr2, Htr, app_assoc|].
    by rewrite transactions_app, Hevs.
Qed.

Lemma settling_ret {A} (a : A) : settling (mret a : MT A).
Proof. intros w. apply settles_here. Qed.

Lemma settling_throw {A} e : settling (throw e : MT A).
Proof. intros w. exists [], false. by rewrite app_nil_r. Qed.

Lemma settling_bind {A B} (m : MT A) (f : A -> MT B) :
  settling m -> (forall a, settling (f a)) -> settling (m ≫= f).
Proof.
  intros Hm Hf w. specialize (Hm w). unfold mbind, M_bind.
  destruct (m w) as [a w1|e w1|]; simpl in *; [|done..].
  destruct Hm as (evs & Htr & Hevs). by eapply settles_step.
Qed.

Lemma settling_getWorld : settling (getWorld : MT WorldT).
Proof. intros w. apply settles_here. Qed.

Lemma settling_getSubscription collectionId :
  settling (getSubscription collectionId : MT _).
Proof.
  intros w. unfold getSubscription.
  destruct (subscriptions w !! collectionId); [apply settles_here|].
  exists [], false. by rewrite app_nil_r.
Qed.

Lemma settling_getOrderByInfo collectionId :
  settling (getOrderByInfo collectionId : MT _).
Proof.
  unfold getOrderByInfo. apply settling_bind; [apply settling_getSubscription|].
  intros s. destruct (orderByInfo s) as [info|]; [|apply settling_throw].
  destruct (dataNeeded info); [apply settling_ret|apply settling_throw].
Qed.

Lemma settling_emit ev :
  transactions false [ev] = Some false -> settling (emit ev : MT unit).
Proof. intros Hev w. by exists [ev]. Qed.

Lemma settling_setGraph g : settling (setGraph g : MT unit).
Proof. intros w. exists []. simpl. by rewrite app_nil_r. Qed.

Lemma settling_setSubscription collectionId s :
  settling (setSubscription collectionId s : MT unit).
Proof. intros w. exists []. simpl. by rewrite app_nil_r. Qed.

Lemma settling_setSubscribedToAllCollections b :
  settling (setSubscribedToAllCollections b : MT unit).
Proof. intros w. exists []. simpl. by rewrite app_nil_r. Qed.

Lemma settling_markReady : settling (markReady : MT unit).
Proof. intros w. by exists [EvMarkReady]. Qed.

Lemma settling_outputCallback messages :
  settling (outputCallback messages : MT unit).
Proof.
  intros w. unfold outputCallback, onOutput.
  match goal with |- context [forEachKey ?h ?acc ?st] =>
    pose proof (forEachKey_writes h acc st) as Hwrites;
    destruct (forEachKey h acc st) as [[mat' writes] ok] end.
  simpl in Hwrites. apply transactions_writes in Hwrites.
  destruct ok; simpl.
  - eexists. split; [done|]. simpl. rewrite map_app, transactions_app.
    by rewrite Hwrites.
  - eexists _, true. split; [done|]. simpl. by rewrite app_nil_r.
Qed.

Lemma settling_forEachBatch batches : settling (forEachBatch batches : MT unit).
Proof.
  induction batches as [|b rest IH]; [apply settling_ret|].
  cbn [forEachBatch]. apply settling_bind; [apply settling_outputCallback|done].
Qed.

Lemma settling_graphRun : settling (graphRun ops).
Proof.
  unfold graphRun. apply settling_bind; [apply settling_getWorld|]. intros w0.
  apply settling_bind; [by apply settling_emit|]. intros _.
  destruct (run ops (graph w0)) as [[g batches]|]; [|apply settling_throw].
  apply settling_bind; [apply settling_setGraph|]. intros _.
  apply settling_forEachBatch.
Qed.

Section Recursive.
Variable rec : option nat -> MT unit.
Hypothesis settling_rec : forall callback, settling (rec callback).

Lemma settling_sendChangesToPipeline collectionId changes callback :
  settling (sendChangesToPipeline ops rec collectionId changes callback).
Proof.
  unfold sendChangesToPipeline.
  apply settling_bind; [apply settling_getSubscription|]. intros s.
  apply settling_bind; [apply settling_getWorld|]. intros w0.
  apply settling_bind; [apply settling_setGraph|]. intros _.
  apply settling_bind; [by apply settling_emit|]. intros _.
  apply settling_rec.
Qed.

Lemma settling_sendChangesToPipelineWithTracking collectionId changes :
  settling (sendChangesToPipelineWithTracking ops rec collectionId changes).
Proof.
  unfold sendChangesToPipelineWithTracking.
  apply settling_bind; [apply settling_getOrderByInfo|]. intros [[s info] dn].
  destruct (trackSentValues _ _ _) as [trackedChanges tracker].
  apply settling_bind; [apply settling_setSubscription|]. intros _.
  apply settling_sendChangesToPipeline.
Qed.

Lemma settling_loadNextItems collectionId n :
  settling (loadNextItems ops rec collectionId n).
Proof.
  unfold loadNextItems.
  apply settling_bind; [apply settling_getOrderByInfo|]. intros [[s info] dn].
  apply settling_bind; [by apply settling_emit|]. intros _.
  destruct (insertsOfKeys _ _); [|apply settling_throw].
  apply settling_sendChangesToPipelineWithTracking.
Qed.

Lemma settling_loadMoreIfNeeded collectionId :
  settling (loadMoreIfNeeded ops rec collectionId).
Proof.
  unfold loadMoreIfNeeded.
  apply settling_bind; [apply settling_getOrderByInfo|]. intros [[s info] dn].
  apply settling_bind; [apply settling_getWorld|]. intros w0.
  apply settling_bind; [by apply settling_emit|]. intros _.
  apply settling_bind; [|intros _; apply settling_ret].
  destruct (0 <? dn (graph w0)); [apply settling_loadNextItems|apply settling_ret].
Qed.

Lemma settling_sendChangesInRange collectionId changes :
  settling (sendChangesInRange ops rec collectionId changes).
Proof.
  unfold sendChangesInRange.
  apply settling_bind; [apply settling_getOrderByInfo|]. intros [[s info] dn].
  apply settling_sendChangesToPipeline.
Qed.

Lemma settling_sendVisibleChanges collectionId changes :
  settling (sendVisibleChanges ops rec collectionId changes).
Proof.
  unfold sendVisibleChanges.
  apply settling_bind; [apply settling_getSubscription|]. intros s.
  unfold sendVisibleChangesToPipeline.
  destruct (loadedInitialState s); apply settling_sendChangesToPipeline.
Qed.

Lemma settling_loadKeys collectionId keys :
  settling (loadKeys ops rec collectionId keys).
Proof.
  induction keys as [|key rest IH]; [apply settling_ret|].
  cbn [loadKeys].
  apply settling_bind; [apply settling_getSubscription|]. intros s.
  apply settling_bind; [|done].
  destruct (bool_decide _); [apply settling_ret|].
  destruct (get _ _) as [value|]; [|apply settling_ret].
  destruct (passes _ _); [|apply settling_ret].
  apply settling_bind; [apply settling_setSubscription|]. intros _.
  apply settling_sendChangesToPipeline.
Qed.

Lemma settling_loadInitialState collectionId :
  settling (loadInitialState ops rec collectionId).
Proof.
  unfold loadInitialState.
  apply settling_bind; [apply settling_getSubscription|]. intros s.
  destruct (loadedInitialState s); [apply settling_ret|].
  apply settling_bind; [apply settling_setSubscription|]. intros _.
  apply settling_bind; [by apply settling_emit|]. intros _.
  apply settling_sendChangesToPipeline.
Qed.

End Recursive.

Lemma settling_maybeRunGraph fuel :
  forall callback, settling (maybeRunGraph ops fuel callback).
Proof.
  induction fuel as [|fuel IH]; intros callback; [done|].
  cbn [maybeRunGraph].
  apply settling_bind; [apply settling_getWorld|]. intros w0.
  destruct (_ && _); [|apply settling_ret].
  apply settling_bind; [apply settling_graphRun|]. intros _.
  apply settling_bind.
  { destruct callback as [collectionId|]; [|apply settling_ret].
    by apply settling_loadMoreIfNeeded. }
  intros ready.
  apply settling_bind; [apply settling_getWorld|]. intros w1.
  apply settling_bind.
  { destruct (_ =? _); [|apply settling_ret].
    intros w. exists [EvSync Begin; EvSync Commit]. simpl.
    by rewrite <- app_assoc. }
  intros _.
  apply settling_bind; [apply settling_getWorld|]. intros w2.
  destruct (_ && _); [apply settling_markReady|apply settling_ret].
Qed.

Lemma settling_subscribeToChanges fuel collectionId :
  settling (subscribeToChanges ops fuel collectionId).
Proof.
  unfold subscribeToChanges.
  apply settling_bind; [apply settling_getSubscription|]. intros s.
  destruct (isLazy s).
  { unfold subscribeToMatchingChanges.
    apply settling_bind; [apply settling_getSubscription|]. intros s'.
    apply settling_bind; [apply settling_setSubscription|]. intros _.
    by apply settling_emit. }
  destruct (bool_decide _).
  - unfold subscribeToOrderedChanges.
    apply settling_bind; [apply settling_getOrderByInfo|]. intros [[s' info] dn].
    apply settling_bind; [apply settling_setSubscription|]. intros _.
    apply settling_bind; [|intros _; by apply settling_emit].
    apply settling_loadNextItems, settling_maybeRunGraph.
  - unfold subscribeToAllChanges.
    apply settling_bind; [apply settling_getSubscription|]. intros s'.
    apply settling_bind; [by apply settling_emit|]. intros _.
    apply settling_sendChangesToPipeline, settling_maybeRunGraph.
Qed.

Lemma settling_subscribeAll fuel collectionIds :
  settling (subscribeAll ops fuel collectionIds).
Proof.
  induction collectionIds as [|collectionId rest IH]; [apply settling_ret|].
  cbn [subscribeAll].
  apply settling_bind; [apply settling_subscribeToChanges|done].
Qed.

(** X19. Writes stay inside transactions.  Whatever [sync], a delivery of
    changes, [loadKeys] or [loadInitialState] does to the result collection
    is made in the order of transactions: a [begin], writes, a [commit],
    and [markReady] only between them.  A call that returns leaves no
    transaction open.  A call that throws may leave the last one open: the
    output callback is between its [begin] and its [commit] when it raises,
    and so is whatever a [write] raises. *)
Theorem writes_stay_inside_transactions fuel w :
  settles w (sync ops fuel w)
  /\ (forall collectionId rows' changes,
        settles w (deliver ops fuel collectionId rows' changes w))
  /\ (forall collectionId keys,
        settles w (loadKeys ops (maybeRunGraph ops fuel) collectionId keys w))
  /\ (forall collectionId,
        settles w (loadInitialState ops (maybeRunGraph ops fuel) collectionId w)).
Proof.
  split_and!.
  - revert w. unfold sync.
    apply settling_bind; [apply settling_getWorld|]. intros w0.
    apply settling_bind; [apply settling_subscribeAll|]. intros _.
    apply settling_bind; [apply settling_setSubscribedToAllCollections|].
    intros _. apply settling_maybeRunGraph.
  - intros collectionId rows' changes. revert w. unfold deliver.
    apply settling_bind; [apply settling_getSubscription|]. intros s.
    apply settling_bind; [apply settling_setSubscription|]. intros _.
    destruct (isLazy s);
      [apply settling_sendVisibleChanges, settling_maybeRunGraph|].
    destruct (bool_decide _);
      [apply settling_sendChangesInRange, settling_maybeRunGraph
      |apply settling_sendChangesToPipeline, settling_maybeRunGraph].
  - intros collectionId keys. apply settling_loadKeys, settling_maybeRunGraph.
  - intros collectionId. apply settling_loadInitialState, settling_maybeRunGraph.
Qed.

End Transactions.
End TransactionFacts.

(** ** When the result collection is marked ready *)


Module ReadinessFacts.
Import Changes Materializer Driver Effects InitialRunFacts.

Section Readiness.
Context {K V R OV G : Type} `{Countable K} `{Countable R}.
Variable ops : GraphOps K V R G.

Abbreviation WorldT := (World K V R OV G).
Abbreviation MT := (M (K:=K) (V:=V) (R:=R) (OV:=OV) (G:=G)).
Implicit Types (w : WorldT).

Ltac step :=
  lazymatch goal with
  | |- finished ((?m ≫= ?f) ?w) ?Q ?E => apply (finished_bind m f w Q E)
  end.

Abbreviation anyhow := (fun _ : WorldT => True).

Lemma allCollectionsReady_run w :
  allCollectionsReady w = true -> allCollectionsReadyOrInitialCommit w = true.
Proof.
  unfold allCollectionsReady, allCollectionsReadyOrInitialCommit, isReady.
  induction (subscriptions w) as [|s l IH]; [done|]. simpl.
  intros Hall. apply andb_prop in Hall as [Hs Hl]. rewrite (IH Hl).
  by destruct (status (collection s)).
Qed.

Lemma maybeRunGraph_marks_ready fuel w :
  finished (maybeRunGraph ops (S fuel) None w)
           (fun _ w' => ready w' = ready w || canRun w && allCollectionsReady w)
           anyhow.
Proof.
  cbn [maybeRunGraph]. step. cbn [getWorld finished].
  fold (canRun w). destruct (canRun w); [|simpl; by rewrite orb_false_r].
  step.
  eapply finished_mono;
    [apply finished_ended;
       [apply (graphRun_ran ops)|apply CallbackFacts.graphRun_frame]|..];
    [|done].
  intros [] w1 [_ [Hs Hr]].
  assert (allCollectionsReady w1 = allCollectionsReady w) as Hall
    by (unfold allCollectionsReady; by rewrite Hs).
  step. cbn [mret M_ret finished].
  step. cbn [getWorld finished]. step.
  destruct (messagesCount (mat w1) =? 0).
  - step. cbn [emit finished]. cbn [emit finished]. step.
    cbn [getWorld finished].
    match goal with |- context [allCollectionsReady ?x] =>
      change (allCollectionsReady x) with (allCollectionsReady w1) end.
    rewrite Hall. destruct (allCollectionsReady w); simpl;
      [by rewrite orb_true_r|by rewrite Hr, orb_false_r].
  - cbn [mret M_ret finished]. step. cbn [getWorld finished].
    rewrite Hall. destruct (allCollectionsReady w); simpl;
      [by rewrite orb_true_r|by rewrite Hr, orb_false_r].
Qed.

(** X20. A [sync] that returns leaves the result collection ready exactly when
    it was ready already or every source collection is ready; it does not
    wait for an ordered collection to have loaded what the operator
    needs. *)
Theorem sync_marks_ready_with_ready_sources fuel w :
  subscribedToAllCollections w = false ->
  finished (sync ops (S fuel) w)
           (fun _ w' => ready w' = ready w || allCollectionsReady w)
           (fun _ => True).
Proof.
  intros Hflag.
  assert (canRun w = false) as Hno
    by (unfold canRun; by rewrite Hflag, andb_false_r).
  unfold sync. step. cbn [getWorld finished]. step.
  eapply finished_mono;
    [apply finished_ended;
       [by apply subscribeAll_finishes
       |apply (EffectsFacts.effect_subscribeAll ops (S fuel) _ w I)]|..];
    [|done].
  intros [] w1 [_ (Hst & Hflag1 & _ & Hsame & _)].
  destruct (Hsame Hno) as (_ & _ & Hready).
  step. cbn [setSubscribedToAllCollections finished].
  set (w2 := mkWorld _ _ _ _ _ _ _).
  assert (statuses w2 = statuses w) as Hst2 by exact Hst.
  assert (ready w2 = ready w) as Hready2 by exact Hready.
  assert (subscribedToAllCollections w2 = true) as Hflag2 by done.
  clearbody w2.
  eapply finished_mono; [apply maybeRunGraph_marks_ready| |done].
  intros [] w' ->. rewrite Hready2. f_equal.
  unfold canRun. rewrite Hflag2, andb_true_r.
  rewrite EffectsFacts.allCollectionsReadyOrInitialCommit_statuses,
    !EffectsFacts.allCollectionsReady_statuses, Hst2.
  rewrite <- EffectsFacts.allCollectionsReadyOrInitialCommit_statuses,
    <- EffectsFacts.allCollectionsReady_statuses.
  destruct (allCollectionsReady w) eqn:Hall; [|by rewrite andb_false_r].
  by rewrite (allCollectionsReady_run w Hall).
Qed.

End Readiness.
End ReadinessFacts.

(** ** The subscription of an ordered collection *)

Module OrderedSubscriptionFacts.
Import Changes Materializer Driver DriverFacts.

Section Ordered.
Context {K V R OV G : Type} `{Countable K} `{Countable R}.
Variable ops : GraphOps K V R G.
Abbreviation WorldT := (World K V R OV G).
Abbreviation MT := (M (K:=K) (V:=V) (R:=R) (OV:=OV) (G:=G)).
Implicit Types (w : WorldT) (rec : option nat -> MT unit).
Implicit Types (s : Subscription K V OV G).




End Ordered.
End OrderedSubscriptionFacts.

(** ** The order of the result collection, for every graph *)

Module OrderedResultFacts.
Import Materializer MaterializerSpec MaterializerFacts Driver Writes WritesFacts
       Effects OrderedResult.

Section View.
Context {K V R OV G : Type} `{Countable K} `{Countable R}.
Variable ops : GraphOps K V R G.
Variable rowKey : R -> K.
Variable precedes : R -> R -> bool.

Abbreviation WorldT := (World K V R OV G).
Abbreviation ViewT := (gmap K (R * string)).
Implicit Types (cur : ViewT) (batch : list (OutTuple K R)) (w : WorldT).

Lemma applyBatch_lookup cur batch k :
  applyBatch cur batch !! k
  = if decide (k ∈ keysInOrder batch) then entryAfter cur batch k else cur !! k.
Proof.
  unfold applyBatch. generalize (keysInOrder batch) as keys.
  induction keys as [|k0 keys IH]; [done|].
  cbn [foldr]. destruct (decide (k = k0)) as [->|Hne].
  - rewrite decide_True by left.
    destruct (entryAfter cur batch k0);
      [apply lookup_insert_eq|apply lookup_delete_eq].
  - transitivity (if decide (k ∈ keys) then entryAfter cur batch k
                  else cur !! k).
    + rewrite <- IH. destruct (entryAfter cur batch k0);
        [by apply lookup_insert_ne|by apply lookup_delete_ne].
    + destruct (decide (k ∈ keys)) as [Hin|Hin].
      * by rewrite decide_True by (by right).
      * rewrite decide_False; [done|]. intros Hin'.
        apply elem_of_cons in Hin' as [?|?]; done.
Qed.








(** *** The calls of the driver that run the graph once *)




(** *** The order of the rows *)

Hypothesis precedes_total : forall x y,
  rowKey x <> rowKey y -> precedes x y = true \/ precedes y x = true.








End View.
End OrderedResultFacts.

(** ** The pipeline over one source honours the guarantees of the stream *)

Module PipelineViewFacts.
Import Changes Materializer MaterializerSpec MaterializerFacts Driver.
Import PipelineView.

Section View.
Context {K V R : Type} `{Countable K} `{EqDecision V} `{Countable R}.
Variable select : K * V -> R.
Variable rowKey : R -> K.
Hypothesis rowKey_select : forall r, rowKey (select r) = r.1.

Abbreviation Entry := ((K * V) * list nat)%type.
Implicit Types (e : Entry) (l old new : list Entry) (k : K).
Abbreviation entryKey := (fun e : Entry => e.1.1).
Abbreviation ViewT := (gmap K (R * string)).

Lemma view_keys l :
  ((fun e : Entry => (e.1.1, (select e.1, FractionalIndex.encode e.2))) <$> l).*1
  = entryKey <$> l.
Proof. by rewrite <- list_fmap_compose. Qed.

Lemma view_lookup l e :
  NoDup (entryKey <$> l) -> e ∈ l ->
  view select l !! e.1.1 = Some (select e.1, FractionalIndex.encode e.2).
Proof.
  intros Hnd He. apply elem_of_list_to_map_1; [by rewrite view_keys|].
  apply list_elem_of_fmap. by exists e.
Qed.

Lemma view_lookup_None l k :
  k ∉ entryKey <$> l -> view select l !! k = None.
Proof. intros Hk. apply not_elem_of_list_to_map_1. by rewrite view_keys. Qed.

Lemma view_lookup_Some l k x i :
  view select l !! k = Some (x, i) ->
  exists e, e ∈ l /\ e.1.1 = k /\ x = select e.1 /\ i = FractionalIndex.encode e.2.
Proof.
  intros Hk. apply elem_of_list_to_map_2, list_elem_of_fmap in Hk
    as (e & [= -> -> ->] & He). by exists e.
Qed.

Lemma wellFormed_intro (cur : ViewT) batch :
  (forall t, t ∈ batch ->
     multiplicityOf t <> 0
     /\ rowKey (payloadOfTuple t).1 = keyOf t
     /\ Ordering.truthy (payloadOfTuple t).2 = true) ->
  (forall k, k ∈ keysInOrder batch ->
     OrderedResult.multiplicityAfter cur batch k = 0
     \/ OrderedResult.multiplicityAfter cur batch k = 1) ->
  OrderedResult.wellFormed rowKey cur batch = true.
Proof.
  intros Htuples Hkeys. unfold OrderedResult.wellFormed.
  rewrite andb_true_iff, !forallb_forall. split.
  - intros t Hin%list_elem_of_In. destruct (Htuples t Hin) as (Hm & Hrow & Hi).
    unfold OrderedResult.wellFormedTuple.
    rewrite Hi, bool_decide_eq_true_2 by done.
    by rewrite (proj2 (Z.eqb_neq _ _) Hm).
  - intros k Hin%list_elem_of_In.
    destruct (Hkeys k Hin) as [-> | ->]; by rewrite ?Z.eqb_refl, ?orb_true_r.
Qed.

Lemma consistent_intro (precedes : R -> R -> bool) (cur : ViewT) :
  (forall k1 k2 (p1 p2 : R * string),
     cur !! k1 = Some p1 -> cur !! k2 = Some p2 ->
     precedes p1.1 p2.1 = true -> String.ltb p1.2 p2.2 = true) ->
  OrderedResult.consistent precedes cur = true.
Proof.
  intros Hall. unfold OrderedResult.consistent. rewrite forallb_forall.
  intros p1 H1%list_elem_of_In. rewrite forallb_forall.
  intros p2 H2%list_elem_of_In.
  apply list_elem_of_fmap in H1 as ([k1 p1'] & -> & H1).
  apply list_elem_of_fmap in H2 as ([k2 p2'] & -> & H2).
  apply elem_of_map_to_list in H1, H2. simpl.
  destruct (precedes p1'.1 p2'.1) eqn:Hp; [|done]. simpl.
  by apply (Hall k1 k2).
Qed.

Section Windows.
Variables old new : list Entry.
Hypothesis old_keys : NoDup (entryKey <$> old).
Hypothesis new_keys : NoDup (entryKey <$> new).
Hypothesis kept : forall e i,
  e ∈ new -> TopK.lookupIndex e.1 old = Some i -> e.2 = i.
Hypothesis old_wellFormed : Forall (fun e => FractionalIndex.wellFormed e.2) old.
Hypothesis new_wellFormed : Forall (fun e => FractionalIndex.wellFormed e.2) new.

Abbreviation leaving := (Pipeline.leaving old new).
Abbreviation entering := (Pipeline.entering old new).
Abbreviation messages := (Pipeline.messages select old new).

Lemma leaving_present k : k ∈ entryKey <$> leaving -> k ∈ entryKey <$> old.
Proof.
  intros Hk. apply list_elem_of_fmap in Hk as (e & -> & He).
  apply PipelineFacts.leaving_elem in He as [He _].
  apply list_elem_of_fmap. by exists e.
Qed.

(** A key that enters and does not leave was not in the old window. *)
Lemma entering_absent k :
  k ∈ entryKey <$> entering -> k ∉ entryKey <$> leaving ->
  k ∉ entryKey <$> old.
Proof.
  intros Hin Hout Hold.
  apply list_elem_of_fmap in Hin as (e' & -> & He').
  apply list_elem_of_fmap in Hold as (e & Hk & He).
  apply PipelineFacts.entering_elem in He' as [He' Hfresh].
  destruct (decide (e.1 ∈ new.*1)) as [Hstays|Hgone].
  - assert (e ∈ new) as Henew
      by (by apply (PipelineFacts.stays_elem old new old_keys kept)).
    rewrite (PipelineFacts.same_entry new e' e new_keys He' Henew Hk) in Hfresh.
    apply Hfresh. by apply list_elem_of_fmap_2.
  - apply Hout. rewrite Hk. apply list_elem_of_fmap. exists e. split; [done|].
    by apply PipelineFacts.leaving_elem.
Qed.

(** A key that leaves and does not enter is not in the new window. *)
Lemma leaving_gone k :
  k ∈ entryKey <$> leaving -> k ∉ entryKey <$> entering ->
  k ∉ entryKey <$> new.
Proof.
  intros Hin Hout Hnew.
  apply list_elem_of_fmap in Hin as (e & -> & He).
  apply list_elem_of_fmap in Hnew as (e' & Hk & He').
  apply PipelineFacts.leaving_elem in He as [He Hgone].
  destruct (decide (e'.1 ∈ old.*1)) as [Hold|Hold].
  - assert (e' ∈ old) as He'old
      by (by apply (PipelineFacts.kept_elem old new kept)).
    rewrite (PipelineFacts.same_entry old e e' old_keys He He'old Hk) in Hgone.
    apply Hgone. by apply list_elem_of_fmap_2.
  - apply Hout. rewrite Hk. apply list_elem_of_fmap. exists e'. split; [done|].
    by apply PipelineFacts.entering_elem.
Qed.

Lemma messages_multiplicity k :
  k ∈ keysInOrder messages ->
  OrderedResult.multiplicityAfter (view select old) messages k
  = if decide (k ∈ entryKey <$> entering) then 1 else 0.
Proof.
  intros Hk. apply PipelineFacts.messages_keys in Hk.
  unfold OrderedResult.multiplicityAfter.
  destruct (PipelineFacts.messages_inserts select old new old_keys new_keys k)
    as [Hins Hins0].
  destruct (PipelineFacts.messages_deletes select old new old_keys new_keys k)
    as [Hdel Hdel0].
  destruct (decide (k ∈ entryKey <$> leaving)) as [Hl|Hl],
    (decide (k ∈ entryKey <$> entering)) as [Hen|Hen].
  - rewrite (Hins Hen), (Hdel Hl).
    apply leaving_present, list_elem_of_fmap in Hl as (e & -> & He).
    by rewrite (view_lookup old e old_keys He).
  - rewrite (Hins0 Hen), (Hdel Hl).
    apply leaving_present, list_elem_of_fmap in Hl as (e & -> & He).
    by rewrite (view_lookup old e old_keys He).
  - rewrite (Hins Hen), (Hdel0 Hl).
    by rewrite (view_lookup_None old k (entering_absent k Hen Hl)).
  - by destruct Hk.
Qed.

Lemma messages_tuple t :
  t ∈ messages ->
  multiplicityOf t <> 0
  /\ rowKey (payloadOfTuple t).1 = keyOf t
  /\ Ordering.truthy (payloadOfTuple t).2 = true.
Proof.
  unfold Pipeline.messages, TopK.retractions, TopK.insertions.
  rewrite map_app, elem_of_app.
  assert (forall e, e ∈ old \/ e ∈ new -> FractionalIndex.wellFormed e.2) as Hwf.
  { intros e [He|He];
      [exact (proj1 (Forall_forall _ _) old_wellFormed e He)
      |exact (proj1 (Forall_forall _ _) new_wellFormed e He)]. }
  intros [Hin|Hin];
    apply list_elem_of_In, in_map_iff in Hin as ([e m] & <- & Hin);
    apply in_map_iff in Hin as (e' & [= -> <-] & Hin);
    apply filter_In in Hin as [Hin%list_elem_of_In _];
    unfold multiplicityOf, payloadOfTuple, keyOf, Pipeline.outTuple; simpl;
    (split_and!; [lia|apply rowKey_select|]);
    apply PipelineFacts.wellFormed_truthy, Hwf; auto.
Qed.

(** The messages of a new window are a batch of the stream, and lead from
    the result of the old window to that of the new one. *)
Lemma messages_wellFormed :
  OrderedResult.wellFormed rowKey (view select old) messages = true
  /\ OrderedResult.applyBatch (view select old) messages = view select new.
Proof.
  split.
  - apply wellFormed_intro; [apply messages_tuple|].
    intros k Hk. rewrite (messages_multiplicity k Hk). case_decide; auto.
  - apply map_eq. intros k. rewrite OrderedResultFacts.applyBatch_lookup.
    destruct (decide (k ∈ keysInOrder messages)) as [Hk|Hk].
    + unfold OrderedResult.entryAfter. rewrite (messages_multiplicity k Hk).
      destruct (decide (k ∈ entryKey <$> entering)) as [Hen|Hen].
      * apply list_elem_of_fmap in Hen as (e & -> & He). simpl.
        rewrite (PipelineFacts.messages_payload_entering select old new
                   new_keys e He).
        apply PipelineFacts.entering_elem in He as [He _].
        by rewrite (view_lookup new e new_keys He).
      * simpl. symmetry. apply view_lookup_None.
        apply PipelineFacts.messages_keys in Hk as [Hl|Hl]; [|done].
        by apply leaving_gone.
    + rewrite PipelineFacts.messages_keys in Hk.
      destruct (decide (k ∈ entryKey <$> old)) as [Hold|Hold].
      * apply list_elem_of_fmap in Hold as (e & -> & He).
        rewrite (view_lookup old e old_keys He).
        assert (e ∈ new) as Henew.
        { apply (PipelineFacts.stays_elem old new old_keys kept); [done|].
          destruct (decide (e.1 ∈ new.*1)); [done|]. exfalso. apply Hk. left.
          apply list_elem_of_fmap. exists e. split; [done|].
          by apply PipelineFacts.leaving_elem. }
        by rewrite (view_lookup new e new_keys Henew).
      * rewrite !view_lookup_None; [done| |done].
        intros Hnew. apply list_elem_of_fmap in Hnew as (e & -> & He).
        destruct (decide (e.1 ∈ old.*1)) as [Hin|Hin].
        -- apply Hold. apply list_elem_of_fmap. exists e. split; [done|].
           by apply (PipelineFacts.kept_elem old new kept).
        -- apply Hk. right. apply list_elem_of_fmap. exists e.
           split; [done|]. by apply PipelineFacts.entering_elem.
Qed.

End Windows.

(** *** A run of the graph *)

Section Run.
Context {OV : Type}.
Variable precedes : K * V -> K * V -> bool.
Variables offset limit : nat.
Variable whereClause : V -> bool.
Hypothesis precedes_irrefl : forall r, precedes r r = false.
Hypothesis precedes_trans : forall a b c,
  precedes a b = true -> precedes b c = true -> precedes a c = true.
Hypothesis precedes_weak : forall a b c,
  precedes a c = true -> precedes a b = true \/ precedes b c = true.
Hypothesis precedes_total : forall a b,
  a.1 <> b.1 -> precedes a b = true \/ precedes b a = true.

(** The order of the order-by keys, read on the result rows. *)
Variable precedesOfResults : R -> R -> bool.
Hypothesis precedes_select : forall r1 r2,
  precedesOfResults (select r1) (select r2) = precedes r1 r2.

Abbreviation theOps := (Pipeline.ops precedes offset limit whereClause select).
Abbreviation WorldT := (World K V R OV (Pipeline.Graph (K:=K) (V:=V))).
Abbreviation Inv := (Pipeline.invariant (OV:=OV) precedes offset limit select).
Abbreviation viewOf w :=
  (view select (TopK.indexed (Pipeline.topK (graph w)))).

Lemma select_key (r1 r2 : K * V) : select r1 = select r2 -> r1.1 = r2.1.
Proof. intros Heq. by rewrite <- (rowKey_select r1), Heq, rowKey_select. Qed.

Lemma view_consistent st :
  TopK.ordered precedes offset limit st ->
  OrderedResult.consistent precedesOfResults (view select (TopK.indexed st))
  = true.
Proof.
  intros Hord. apply consistent_intro. intros k1 k2 [x1 i1] [x2 i2] H1 H2.
  apply view_lookup_Some in H1 as (e1 & He1 & _ & -> & ->).
  apply view_lookup_Some in H2 as (e2 & He2 & _ & -> & ->).
  simpl. rewrite precedes_select.
  apply (TopKFacts.ordered_index_order precedes offset limit precedes_irrefl
           precedes_trans precedes_total st e1 e2 Hord He1 He2).
Qed.

Lemma view_holds (w : WorldT) : Inv w -> OrderedResult.holds rowKey (viewOf w) w.
Proof.
  intros (Hord & Hnd & Hsynced & Hstamped).
  pose proof (PipelineFacts.window_keys precedes offset limit _ Hnd Hord)
    as Hkeys.
  split.
  - rewrite Hsynced. apply map_eq. intros k. rewrite lookup_fmap.
    destruct (decide (k ∈ entryKey <$> TopK.indexed (Pipeline.topK (graph w))))
      as [Hk|Hk].
    + apply list_elem_of_fmap in Hk as (e & -> & He).
      rewrite (view_lookup _ e Hkeys He).
      by rewrite (PipelineFacts.resultRows_lookup select _ e Hkeys He).
    + rewrite (view_lookup_None _ k Hk).
      by rewrite (PipelineFacts.resultRows_lookup_None select _ k Hk).
  - intros k x i Hk. apply view_lookup_Some in Hk as (e & He & <- & -> & ->).
    destruct Hord as (_ & _ & _ & _ & Hwf).
    split_and!; [apply rowKey_select|by apply Hstamped|].
    apply PipelineFacts.wellFormed_truthy.
    exact (proj1 (Forall_forall _ _) Hwf e He).
Qed.

(** A run that leaves no key twice in the buffer hands the output batches
    of the stream, which lead to the result of the new window, whose
    indexes grow along the order-by keys. *)
Lemma run_honours_stream (w w' : WorldT) :
  Inv w ->
  graphRun theOps w = Done tt w' ->
  NoDup (fst <$> TopK.buffer (Pipeline.topK (graph w'))) ->
  exists batches,
    Driver.run theOps (graph w) = Some (graph w', batches)
    /\ OrderedResult.wellFormedAll rowKey (viewOf w) batches = true
    /\ OrderedResult.applyBatches (viewOf w) batches = viewOf w'
    /\ OrderedResult.consistent precedesOfResults (viewOf w') = true
    /\ OrderedResult.holds rowKey (viewOf w') w'.
Proof.
  intros HInv Hrun Hnd'.
  pose proof (PipelineFacts.graphRun_invariant select select_key precedes offset
                limit whereClause precedes_irrefl precedes_trans precedes_weak
                precedes_total w w' HInv Hrun Hnd') as HInv'.
  pose proof (view_holds w' HInv') as Hholds'.
  pose proof HInv' as (Hord' & _).
  pose proof (view_consistent _ Hord') as Hcons'.
  destruct HInv as (Hord & Hnd & Hmat).
  destruct (Driver.run theOps (graph w)) as [[g batches]|] eqn:Hr.
  2:{ unfold graphRun, mbind, M_bind, getWorld, emit in Hrun.
      cbn [graph] in Hrun. by rewrite Hr in Hrun. }
  assert (graph w' = g) as Hg.
  { unfold graphRun, mbind, M_bind, getWorld, emit in Hrun.
    cbn [graph] in Hrun. rewrite Hr in Hrun. unfold setGraph in Hrun.
    assert (forall bs (w1 w2 : WorldT),
              forEachBatch bs w1 = Done tt w2 -> graph w2 = graph w1) as Hframe.
    { induction bs as [|b bs IH]; intros w1 w2; cbn [forEachBatch].
      - by intros [= ->].
      - unfold mbind, M_bind, outputCallback.
        destruct (onOutput _ b (mat w1)) as [[mat1 events] [|]]; [|done].
        intros Hbs. by rewrite (IH _ _ Hbs). }
    by rewrite (Hframe _ _ _ Hrun). }
  subst g. exists batches. split; [done|].
  cbn [Driver.run theOps Pipeline.ops] in Hr. unfold Pipeline.run in Hr.
  destruct (Pipeline.pending (graph w)) as [|t batch] eqn:Hpending.
  { injection Hr as Hgraph <-. rewrite <- Hgraph in *. by split_and!. }
  destruct (TopK.processBatch _ _ _ _ (Pipeline.topK (graph w)))
    as [[st' out]|] eqn:Hstep; [|done].
  cbn [mbind option_bind] in Hr. injection Hr as Hgraph <-.
  assert (Pipeline.topK (graph w') = st') as Hst by (by rewrite <- Hgraph).
  rewrite Hst in *.
  destruct (TopKFacts.processBatch_ordered precedes offset limit precedes_irrefl
              precedes_trans precedes_weak precedes_total _ _ st' out
              Hord Hstep Hnd')
    as (_ & _ & -> & Hkept).
  pose proof (PipelineFacts.window_keys precedes offset limit _ Hnd Hord)
    as Hold.
  pose proof (PipelineFacts.window_keys precedes offset limit _ Hnd' Hord')
    as Hnew.
  destruct Hord as (_ & _ & _ & _ & Hwf). destruct Hord' as (_ & _ & _ & _ & Hwf').
  destruct (messages_wellFormed _ _ Hold Hnew Hkept Hwf Hwf') as [Hwell Happly].
  unfold Pipeline.messages in Hwell, Happly.
  destruct (TopK.retractions _ _ ++ TopK.insertions _ _) as [|x out'] eqn:Hout.
  - split_and!; [done| |done|done]. by rewrite <- Happly.
  - cbn [OrderedResult.wellFormedAll OrderedResult.applyBatches fold_left].
    rewrite Hwell, Happly. by split_and!.
Qed.

End Run.

End View.
End PipelineViewFacts.

(** ** Scenarios *)


Module Scenarios.
Import Changes Materializer Driver Effects Employees.

(** Two deletes reach the listener of a lazy collection of which only the
    first key was sent. *)
Lemma visibleChanges_retracts_sent_keys_witness :
  let alice := mkEmployee 1 "Alice" 1 50000 "2020-01-15" in
  let bob := mkEmployee 2 "Bob" 2 60000 "2019-03-20" in
  let changes := [Delete 1 alice; Delete 2 bob] in
  let t := ((1, alice), -1) in
  t ∈ sendChangesToInput id (visibleChanges {[1]} changes)
  /\ t.2 < 0
  /\ exists c, c ∈ changes /\ key c ∈ ({[1]} : gset Z)
               /\ t ∈ tuplesOfChange id c.
Proof.
  intros alice bob changes t.
  assert (t ∈ sendChangesToInput id (visibleChanges {[1]} changes)) as Hin.
  { vm_compute. left. }
  assert (t.2 < 0) as Hneg by (simpl; lia).
  split_and!; [exact Hin|exact Hneg|].
  exact (BoundaryFacts.visibleChanges_retracts_sent_keys id {[1]} changes t
           Hin Hneg).
Defined.

(** The three rows the order-by query loads first are tracked. *)
Lemma trackSentValues_biggest_witness :
  let changes :=
    [ Insert 4 (mkEmployee 4 "Diana" 2 65000 "2018-11-05");
      Insert 2 (mkEmployee 2 "Bob" 2 60000 "2019-03-20");
      Insert 3 (mkEmployee 3 "Charlie" 1 55000 "2021-06-10") ] in
  let tracker' := (trackSentValues changes comparator (mkTracker ∅ None)).2 in
  (forall a, ~ comparator a a < 0)
  /\ (forall a b c, comparator a b < 0 -> comparator b c < 0 ->
                    comparator a c < 0)
  /\ sentKeys tracker' = list_to_set (key <$> changes) ∪ (∅ : gset Z)
  /\ forall b, biggest tracker' = Some b ->
       forall c, c ∈ changes -> ~ comparator b (Changes.value c) < 0.
Proof.
  intros changes tracker'.
  assert (forall a, ~ comparator a a < 0) as Hirrefl.
  { intros a. unfold comparator. rewrite Z.ltb_irrefl. lia. }
  assert (forall a b c, comparator a b < 0 -> comparator b c < 0 ->
                        comparator a c < 0) as Htrans.
  { intros a b c. unfold comparator.
    destruct (Z.ltb_spec (salary b) (salary a)),
      (Z.ltb_spec (salary a) (salary b)), (Z.ltb_spec (salary c) (salary b)),
      (Z.ltb_spec (salary b) (salary c)), (Z.ltb_spec (salary c) (salary a)),
      (Z.ltb_spec (salary a) (salary c)); lia. }
  split_and!; [exact Hirrefl|exact Htrans|..].
  - exact (proj1 (BoundaryFacts.trackSentValues_biggest comparator Hirrefl Htrans
                    changes (mkTracker ∅ None))).
  - intros b Hb.
    destruct (BoundaryFacts.trackSentValues_biggest comparator Hirrefl Htrans
                changes (mkTracker ∅ None)) as (_ & _ & _ & Hmax).
    exact (proj1 (Hmax b Hb)).
Defined.

(** A query with one order-by clause, and two rows with their indices. *)
Lemma compare_is_a_strict_order_witness :
  let orderByIndices : gmap Z string := {[ 1 := "a0"; 2 := "a1" ]} in
  Ordering.compare (R:=Z) (Some 1%nat) = Some Ordering.compareByIndex
  /\ Ordering.compareByIndex orderByIndices 1 2
     = - Ordering.compareByIndex orderByIndices 2 1.
Proof.
  intros orderByIndices.
  assert (Ordering.compare (R:=Z) (Some 1%nat) = Some Ordering.compareByIndex)
    as Hcompare by reflexivity.
  split; [exact Hcompare|].
  exact (proj1 (OrderingFacts.compare_is_a_strict_order orderByIndices 0
                  Ordering.compareByIndex 1 2 1 Hcompare)).
Defined.

(** The employees collection is still loading when the live query starts. *)
Lemma nothing_runs_before_sources_are_ready_witness :
  let loading :=
    mkSubscription (mkCollection StLoading employeeData id) None false None
                   false ∅ (mkTracker ∅ None) in
  let w : World Z Employee Result Z (Graph) :=
    mkWorld Pipeline.emptyGraph [loading] false (mkMatState ∅ ∅ 0) ∅ false [] in
  allCollectionsReadyOrInitialCommit w = false
  /\ ended (sync (ops 0 0 None) 1 w)
           (fun w' => (exists evs, trace w' = trace w ++ evs
                                   /\ forallb quiet evs = true)
                      /\ mat w' = mat w /\ synced w' = synced w
                      /\ ready w' = ready w).
Proof.
  intros loading w.
  assert (allCollectionsReadyOrInitialCommit w = false) as Hnot by reflexivity.
  split; [exact Hnot|].
  exact (proj1 (EffectsFacts.nothing_runs_before_sources_are_ready
                  (ops 0 0 None) 1 w Hnot)).
Defined.

(** The order-by query on the employees subscribes to its one collection. *)
Lemma subscriptions_only_queue_witness :
  let w := world0 1 2 None in
  subscribedToAllCollections w = false
  /\ ended (subscribeAll (ops 1 2 None) 1 [0%nat] w)
           (fun w' => (exists evs, trace w' = trace w ++ evs
                                   /\ forallb quiet evs = true)
                      /\ mat w' = mat w /\ synced w' = synced w
                      /\ ready w' = ready w
                      /\ subscribedToAllCollections w' = false).
Proof.
  intros w.
  assert (subscribedToAllCollections w = false) as Hsub by reflexivity.
  split; [exact Hsub|].
  exact (proj1 (EffectsFacts.subscriptions_only_queue (ops 1 2 None) 1 w Hsub)
               [0%nat]).
Defined.

(** The order-by query on the employees, started, receives a sixth
    employee. *)
Lemma ordered_run_ready_only_when_filled_witness :
  let s := subscription 1 2 None in
  let w : World Z Employee Result Z Graph :=
    mkWorld Pipeline.emptyGraph [s] true (mkMatState ∅ ∅ 0) ∅ false [] in
  let e := george 70000 in
  subscriptions w !! 0%nat = Some s
  /\ isLazy s = false
  /\ orderByInfo s = Some (info 1 2)
  /\ Driver.dataNeeded (info 1 2) = Some (Pipeline.dataNeeded 1 2)
  /\ ready w = false
  /\ ended (deliver (ops 1 2 None) 3 0 (employeeData ++ [e]) [Insert (id e) e] w)
           (fun w' => ready w' = true -> Pipeline.dataNeeded 1 2 (graph w') = 0).
Proof.
  intros s w e. split_and!; [reflexivity..|].
  exact (proj1 (CallbackFacts.ordered_run_ready_only_when_filled
                  (ops 1 2 None) 3 0%nat s (info 1 2) (Pipeline.dataNeeded 1 2)
                  (employeeData ++ [e]) [Insert (id e) e] w
                  eq_refl eq_refl eq_refl eq_refl eq_refl)).
Defined.

(** Two objects with the same property, hashed one after the other from
    the initial state. *)
Lemma equal_structures_hash_equal_witness :
  let v1 := Hash.VObject 1 Hash.CPlain 0 [] [("a", Hash.VNumber 1)] in
  let v2 := Hash.VObject 2 Hash.CPlain 0 [] [("a", Hash.VNumber 1)] in
  let content : HashStructure.Content :=
    fun oid => if bool_decide (oid = 1%positive \/ oid = 2%positive)
               then Some (Hash.CPlain, 0, [("a", Hash.VNumber 1)])
               else None in
  let hash :=
    Hash.hash 11 12 13 14 15 HashExample.FUNCTIONS 16 17 18 19 20
              HashExample.Hasher HashExample.newHasher HashExample.update
              HashExample.digest in
  Forall (HashStructure.agrees content) ([] ++ v1 :: [] ++ [v2])
  /\ HashStructure.structural v1 = true
  /\ HashStructure.erase v1 = HashStructure.erase v2
  /\ (hash v2 (hash v1 Hash.initialState).2).1 = (hash v1 Hash.initialState).1.
Proof.
  intros v1 v2 content hash.
  assert (Forall (HashStructure.agrees content) ([] ++ v1 :: [] ++ [v2])) as Hall.
  { repeat constructor. }
  split_and!; [exact Hall|reflexivity|reflexivity|].
  exact (HashStructureFacts.equal_structures_hash_equal
           11 12 13 14 15 HashExample.FUNCTIONS 16 17 18 19 20
           HashExample.Hasher HashExample.newHasher HashExample.update
           HashExample.digest content [] [] v1 v2 Hall eq_refl eq_refl).
Defined.

(** The join asks for the employees 1 and 7, and for 1 again. *)
Lemma loadKeys_loads_each_key_once_witness :
  let w := lazyWorld in
  let s := lazySubscription in
  subscriptions w !! 0%nat = Some s
  /\ after (loadKeys (ops 0 0 None) (maybeRunGraph (ops 0 0 None) 1) 0 [1; 7; 1] w)
           (fun _ w' =>
              exists s', subscriptions w' !! 0%nat = Some s'
                         /\ 1 ∈ lazySentKeys s' /\ 7 ∉ lazySentKeys s')
           (fun _ => True).
Proof.
  intros w s.
  assert (subscriptions w !! 0%nat = Some s) as Hs by reflexivity.
  split; [exact Hs|].
  pose proof (LoadingFacts.loadKeys_loads_each_key_once
                (ops 0 0 None) 1 0%nat [1; 7; 1] s w Hs) as Hload.
  cbv zeta in Hload.
  eapply CallbackFacts.after_mono; [exact Hload| |done].
  intros [] w' (loaded & s' & new & Hs' & Hsent & _ & Hin & Hall & _).
  exists s'. split; [exact Hs'|]. rewrite Hsent. split.
  - apply elem_of_union_l, elem_of_list_to_set. apply Hall; [done|left| |].
    + apply not_elem_of_empty.
    + eexists. split; reflexivity.
  - intros H7. apply elem_of_union in H7 as [H7|H7];
      [|by apply not_elem_of_empty in H7].
    apply elem_of_list_to_set in H7. destruct (Hin 7 H7) as (_ & _ & v & Hv & _).
    vm_compute in Hv. discriminate.
Defined.

(** The result collection holds the key 7: its row is replaced by another,
    and a row is inserted under the key 8. *)
Lemma onOutput_commits_without_zeroes_witness :
  let has : nat -> bool := fun k => bool_decide (k = 7%nat) in
  let messages : list (OutTuple nat nat) :=
    [((7%nat, (1%nat, None)), -1); ((7%nat, (2%nat, None)), 1);
     ((8%nat, (3%nat, None)), 1)] in
  (forall t, t ∈ messages -> MaterializerSpec.multiplicityOf t <> 0)
  /\ (forall k, k ∈ MaterializerSpec.keysInOrder messages -> has k = true ->
                0 < MaterializerSpec.deletesOf k messages)
  /\ (onOutput has messages (mkMatState ∅ ∅ 0)).2 = true.
Proof.
  intros has messages.
  assert (forall t, t ∈ messages -> MaterializerSpec.multiplicityOf t <> 0)
    as Hnonzero.
  { intros t Hin.
    repeat (apply elem_of_cons in Hin as [->|Hin]; [simpl; lia|]).
    by apply elem_of_nil in Hin. }
  assert (forall k, k ∈ MaterializerSpec.keysInOrder messages -> has k = true ->
                    0 < MaterializerSpec.deletesOf k messages) as Hfresh.
  { intros k _ Hk. apply bool_decide_eq_true_1 in Hk. by subst k. }
  split_and!; [exact Hnonzero|exact Hfresh|].
  exact (proj1 (CommitFacts.onOutput_commits_without_zeroes
                  has messages (mkMatState ∅ ∅ 0) Hnonzero Hfresh)).
Defined.

(** Three collections are created, none with an identifier of its own. *)
Lemma generated_ids_distinct_witness :
  forallb Identifiers.anonymous [None; Some ""; None] = true
  /\ 0 <= 0
  /\ 0 + Z.of_nat (length [None; Some ""; None : option string]) <= 2 ^ 53
  /\ NoDup (Identifiers.createAll [None; Some ""; None] 0).1.
Proof.
  assert (0 + Z.of_nat (length [None; Some ""; None : option string]) <= 2 ^ 53)
    as Hbound by (simpl; lia).
  split_and!; [reflexivity|lia|exact Hbound|].
  exact (IdentifiersFacts.generated_ids_distinct [None; Some ""; None] 0
           eq_refl (Z.le_refl 0) Hbound).
Defined.

(** A query with an order-by and a limit is started and cleaned up three
    times. *)
Lemma restart_compiles_a_fresh_graph_witness :
  let query := Construction.mkQueryIR (Some 1%nat) (Some 2) None in
  Construction.compileQuery query = None
  /\ Lifecycle.finalized
       (Lifecycle.restarts _ _ Construction.compileQuery query 3
          (Lifecycle.construct _ _ Construction.compileQuery query).1)
     = [0; 1; 2]%nat.
Proof.
  intros query.
  assert (Construction.compileQuery query = None) as Hcompile by reflexivity.
  split; [exact Hcompile|].
  exact (proj1 (proj2 (LifecycleFacts.restart_compiles_a_fresh_graph
                         Construction.compileQuery query 3 Hcompile))).
Defined.

(** The order-by query on the employees is started. *)
Lemma sync_runs_the_graph_once_witness :
  let w := world0 1 2 None in
  noLazyCollection w = true
  /\ subscribedToAllCollections w = false
  /\ finished (sync (ops 1 2 None) 1 w)
              (fun _ w' => subscribedToAllCollections w' = true)
              (fun _ => True).
Proof.
  intros w.
  assert (noLazyCollection w = true) as Heager by reflexivity.
  assert (subscribedToAllCollections w = false) as Hflag by reflexivity.
  split_and!; [exact Heager|exact Hflag|].
  pose proof (InitialRunFacts.sync_runs_the_graph_once (ops 1 2 None) 0 w
                Heager Hflag) as Hsync.
  cbv zeta in Hsync.
  eapply InitialRunFacts.finished_mono; [exact Hsync| |done].
  by intros [] w' [? _].
Defined.

(** The employees, the one collection of a query that neither joins nor
    orders, deliver the insert of a sixth employee. *)
Lemma delivery_runs_the_graph_once_witness :
  let s : Subscription Z Employee Z Graph :=
    mkSubscription (mkCollection StReady employeeData id) None false None
                   false ∅ (mkTracker ∅ None) in
  let w : World Z Employee Result Z Graph :=
    mkWorld Pipeline.emptyGraph [s] true (mkMatState ∅ ∅ 0) ∅ false [] in
  let e := george 70000 in
  noLazyCollection w = true
  /\ subscriptions w !! 0%nat = Some s
  /\ orderByInfo s = None
  /\ canRun w = true
  /\ finished (deliver (ops 0 0 None) 1 0 (employeeData ++ [e])
                       [Insert (id e) e] w)
              (fun _ w' => exists events,
                 trace w' = [EvSendData 0 [((6, e), 1)]; EvGraphRun] ++ events)
              (fun _ => True).
Proof.
  intros s w e.
  split_and!; [reflexivity..|].
  pose proof (InitialRunFacts.delivery_runs_the_graph_once (ops 0 0 None) 0 0%nat
                s (employeeData ++ [e]) [Insert (id e) e] w
                eq_refl eq_refl eq_refl eq_refl) as Hdeliver.
  cbv zeta in Hdeliver.
  eapply InitialRunFacts.finished_mono; [exact Hdeliver| |done].
  intros [] w' (events & Htr & _). exists events. exact Htr.
Defined.

(** The order-by query on the employees, whose one source is ready, is
    started. *)
Lemma sync_marks_ready_with_ready_sources_witness :
  let w := world0 1 2 None in
  subscribedToAllCollections w = false
  /\ finished (sync (ops 1 2 None) 1 w)
              (fun _ w' => ready w' = true)
              (fun _ => True).
Proof.
  intros w.
  assert (subscribedToAllCollections w = false) as Hflag by reflexivity.
  split; [exact Hflag|].
  exact (ReadinessFacts.sync_marks_ready_with_ready_sources (ops 1 2 None) 0 w
           Hflag).
Defined.







(** A row sent twice.  The source is empty and the query takes two rows.
    Alice is inserted: the listener forwards her, the graph runs and the
    result gets her; the operator still lacks a row, so [loadNextItems]
    reads the index, finds Alice, whose key the subscription has not
    recorded, and sends her again.  The buffer of the operator modelled from
    the spec then holds her key twice, the run after it hands no batch to
    the output callback, and the result keeps Alice once. *)
Lemma row_sent_twice_keeps_the_result :
  let alice := mkEmployee 1 "Alice" 1 50000 "2020-01-15" in
  let s : Subscription Z Employee Z Graph :=
    mkSubscription (mkCollection StReady [] id) None false (Some (info 0 2))
                   false ∅ (mkTracker ∅ None) in
  let w : World Z Employee Result Z Graph :=
    mkWorld Pipeline.emptyGraph [s] false (mkMatState ∅ ∅ 0) ∅ false [] in
  let o := (sync (ops 0 2 None) 5 ;;
            deliver (ops 0 2 None) 5 0 [alice] [Insert 1 alice]) w in
  let sentOnce :=
    Driver.run (ops 0 2 None)
      (sendData (ops 0 2 None) 0 [((1, alice), 1)] Pipeline.emptyGraph) in
  let sentTwice :=
    g ← fst <$> sentOnce;
    Driver.run (ops 0 2 None) (sendData (ops 0 2 None) 0 [((1, alice), 1)] g) in
  returned o = true
  /\ List.filter (fun e => match e with EvSendData _ _ => true | _ => false end)
                 (trace (worldOf 0 2 None o))
     = [EvSendData 0 []; EvSendData 0 [((1, alice), 1)];
        EvSendData 0 [((1, alice), 1)]]
  /\ fst <$> TopK.buffer (Pipeline.topK (graph (worldOf 0 2 None o))) = [1; 1]
  /\ snd <$> sentOnce = Some [[(1, ((1, "Alice", 50000), Some "P"), 1)]]
  /\ snd <$> sentTwice = Some []
  /\ map_to_list (synced (worldOf 0 2 None o)) = [(1, (1, "Alice", 50000))].
Proof. intros alice s w o sentOnce sentTwice. split_and!; by vm_compute. Qed.

End Scenarios.
